(** * xgrammar: grammar functors, FSM lowering, structural tags and token masks

    A shallow embedding of the parts of the xgrammar sources that the
    specification's testable statements talk about, followed by the
    theorems that settle them.

    Conventions of the embedding.
    - 32-bit integers and bytes are [Z]; indices into vectors are [nat].
    - [std::string] is [string]; [std::vector<T>] is [list T].
    - [Result<T, E>] is the sum type [Result T E].
    - A member function that mutates its object takes the object and
      returns the new one next to its result. *)

From Stdlib Require Import ZArith QArith Qround List String Ascii Bool Lia Lqa Arith DecimalString
  Permutation.
#[local] Set Warnings "-register-all".
Import ListNotations.
Local Open Scope string_scope.

Set Implicit Arguments.

(** ** support/utils.h: the Result library *)

Inductive Result (T E : Type) : Type :=
| ResultOk (value : T)
| ResultErr (err : E).

Arguments ResultOk {T E} value.
Arguments ResultErr {T E} err.

Definition IsErr {T E} (r : Result T E) : bool :=
  match r with ResultOk _ => false | ResultErr _ => true end.

Definition IsOk {T E} (r : Result T E) : bool := negb (IsErr r).

(** The one-character string holding a double quote. *)
Definition dquote : string := String (ascii_of_nat 34) EmptyString.

(** ** Grammar IR (grammar_impl.h is not part of the sources; the shapes
    below are the ones the functors in grammar_functor.cc and the
    converters in structural_tag.cc construct and take apart). *)

Module GrammarIR.

(** [Grammar::Impl::TagDispatch], fields in the order of its aggregate
    initialisers [TagDispatch{pairs, stop_eos, stop_str, loop, excluded}]. *)
Record TagDispatch : Type := mkTagDispatch {
  tag_rule_pairs : list (string * nat);
  stop_eos : bool;
  stop_str : list string;
  loop_after_dispatch : bool;
  excluded_str : list string
}.

(** Expressions.  The arena of the C++ code is append-only, so an
    expression id always denotes the same finite tree; the embedding
    writes the tree where the code writes the id. *)
Inductive GrammarExpr : Type :=
| kByteString (bytes : list Z)
| kCharacterClass (negated : bool) (ranges : list (Z * Z))
| kCharacterClassStar (negated : bool) (ranges : list (Z * Z))
| kEmptyStr
| kRuleRef (rule_id : nat)
| kSequence (elements : list GrammarExpr)
| kChoices (elements : list GrammarExpr)
| kTagDispatch (tag_dispatch : TagDispatch)
| kRepeat (rule_id : nat) (min_count max_count : Z).

End GrammarIR.
Import GrammarIR.

(** ** grammar_functor.cc: the two mutators that rebuild a tag dispatch *)

Module TagDispatchMutators.

(** [new_rule_ids_names[rule_id].first]; an id outside the table cannot
    occur for a grammar whose references are in range, the embedding
    keeps it unchanged there. *)
Definition new_rule_id (new_rule_ids_names : list (nat * string)) (rule_id : nat) : nat :=
  match nth_error new_rule_ids_names rule_id with
  | Some (new_id, _) => new_id
  | None => rule_id
  end.

(** [SubGrammarAdderImpl::VisitTagDispatch]: the value handed to
    [builder_->AddTagDispatch].  [new_tag_dispatch] starts
    default-constructed, so a field that is never assigned stays empty. *)
Definition SubGrammarAdder_VisitTagDispatch
    (new_rule_ids_names : list (nat * string)) (old_tag_dispatch : TagDispatch)
    : TagDispatch :=
  {| stop_eos := stop_eos old_tag_dispatch;
     tag_rule_pairs :=
       map (fun p => (fst p, new_rule_id new_rule_ids_names (snd p)))
           (tag_rule_pairs old_tag_dispatch);
     stop_str := stop_str old_tag_dispatch;
     loop_after_dispatch := loop_after_dispatch old_tag_dispatch;
     (* no assignment to excluded_str in the source *)
     excluded_str := [] |}.

(** [DeadCodeEliminatorImpl::VisitTagDispatch]: copies the whole struct and
    rewrites the rule ids in place. *)
Definition DeadCodeEliminator_VisitTagDispatch
    (rule_id_map_ : nat -> nat) (tag_dispatch : TagDispatch) : TagDispatch :=
  mkTagDispatch
    (map (fun p => (fst p, rule_id_map_ (snd p))) (tag_rule_pairs tag_dispatch))
    (stop_eos tag_dispatch) (stop_str tag_dispatch)
    (loop_after_dispatch tag_dispatch) (excluded_str tag_dispatch).

(** A tag dispatch with one trigger, one stop string and one exclude,
    inside a sub-grammar of two rules that the builder relocates to the
    ids 5 and 6. *)
Definition sample_tag_dispatch : TagDispatch :=
  mkTagDispatch [("<fn=", 1%nat)] false ["</think>"] true ["<bad>"].

Definition sample_new_rule_ids_names : list (nat * string) :=
  [(5%nat, "root_1"); (6%nat, "tool_1")].

End TagDispatchMutators.


(** ** The grammar builder

    Modelled from the spec: grammar_builder.h is not part of the sources.
    Section 4.2 describes it as an append-only arena builder whose
    [add_rule_with_hint(hint, body_id)] appends a rule under a name derived
    from the hint and returns the new rule's id, and whose
    [add_empty_rule(name)] reserves an id that [update_rule_body] fills
    later.  Expression ids are written as the expressions themselves (see
    [GrammarExpr]), so only the rule table is state. *)

Module Builder.

Record Rule : Type := mkRule {
  name : string;
  body_expr : option GrammarExpr;
  lookahead_assertion : option GrammarExpr;
  is_exact_lookahead : bool
}.

Record GrammarBuilder : Type := mkBuilder { rules : list Rule }.

Definition empty_builder : GrammarBuilder := mkBuilder [].

Definition to_string (n : nat) : string :=
  DecimalString.NilEmpty.string_of_uint (Nat.to_uint n).

Definition name_used (b : GrammarBuilder) (n : string) : bool :=
  existsb (fun r => String.eqb (name r) n) (rules b).

(** The hint itself when it is free, otherwise the first free
    [hint_1], [hint_2], ... *)
Fixpoint first_free_suffix (fuel k : nat) (b : GrammarBuilder) (hint : string) : string :=
  let candidate := hint ++ "_" ++ to_string k in
  match fuel with
  | O => candidate
  | S fuel' =>
      if name_used b candidate then first_free_suffix fuel' (S k) b hint else candidate
  end.

Definition GetNewRuleName (b : GrammarBuilder) (hint : string) : string :=
  if name_used b hint then first_free_suffix (List.length (rules b)) 1 b hint else hint.

Definition AddRule (b : GrammarBuilder) (n : string) (body : option GrammarExpr)
    : nat * GrammarBuilder :=
  (List.length (rules b), mkBuilder (rules b ++ [mkRule n body None false])).

Definition AddEmptyRule (b : GrammarBuilder) (n : string) : nat * GrammarBuilder :=
  AddRule b n None.

Definition AddRuleWithHint (b : GrammarBuilder) (hint : string) (body : GrammarExpr)
    : nat * GrammarBuilder :=
  AddRule b (GetNewRuleName b hint) (Some body).

Fixpoint update_nth {A} (i : nat) (f : A -> A) (l : list A) : list A :=
  match l, i with
  | [], _ => []
  | x :: l', O => f x :: l'
  | x :: l', S i' => x :: update_nth i' f l'
  end.

Definition UpdateRuleBody (b : GrammarBuilder) (rule_id : nat) (body : GrammarExpr)
    : GrammarBuilder :=
  mkBuilder (update_nth rule_id
    (fun r => mkRule (name r) (Some body) (lookahead_assertion r) (is_exact_lookahead r))
    (rules b)).

Definition UpdateLookaheadAssertion (b : GrammarBuilder) (rule_id : nat)
    (lookahead : option GrammarExpr) : GrammarBuilder :=
  mkBuilder (update_nth rule_id
    (fun r => mkRule (name r) (body_expr r) lookahead (is_exact_lookahead r))
    (rules b)).

(** [AddByteString(const std::string&)]: one element per byte. *)
Definition bytes_of_string (s : string) : list Z :=
  map (fun c => Z.of_nat (nat_of_ascii c)) (list_ascii_of_string s).

Definition AddByteString (s : string) : GrammarExpr := kByteString (bytes_of_string s).

(** A grammar: the rule table and the root rule. *)
Record Grammar : Type := mkGrammar {
  grammar_rules : list Rule;
  root_rule_id : nat
}.

Definition Get (b : GrammarBuilder) (root : nat) : Grammar := mkGrammar (rules b) root.

End Builder.
Import Builder.

(** ** picojson values

    [picojson::object] is a [std::map], written as an association list;
    a double is written as the rational it denotes. *)

Module Picojson.

Inductive value : Type :=
| JNull
| JBool (b : bool)
| JInt64 (z : Z)
| JDouble (d : Q)
| JString (s : string)
| JArray (items : list value)
| JObject (members : list (string * value)).

Definition is_object (v : value) : bool :=
  match v with JObject _ => true | _ => false end.

Definition is_string (v : value) : bool :=
  match v with JString _ => true | _ => false end.

Definition is_array (v : value) : bool :=
  match v with JArray _ => true | _ => false end.

Definition is_bool (v : value) : bool :=
  match v with JBool _ => true | _ => false end.

Fixpoint find (key : string) (members : list (string * value)) : option value :=
  match members with
  | [] => None
  | (k, v) :: rest => if String.eqb k key then Some v else find key rest
  end.

Definition count (key : string) (members : list (string * value)) : bool :=
  match find key members with Some _ => true | None => false end.

End Picojson.
Import Picojson.

(** ** structural_tag.cc: the public entry point

    [StructuralTagParser::FromJSON], [ParseStructuralTag] and
    [StructuralTagToGrammar] read the same in both copies of the file.
    [StructuralTagError] is the variant of [InvalidJSONError] and
    [InvalidStructuralTagError] ([ISTError]); each carries its message. *)

Module StructuralTagAPI.

Definition ISTError : Type := string.

Inductive StructuralTagError : Type :=
| InvalidJSONError (message : string)
| InvalidStructuralTagError (message : ISTError).

Section Pipeline.

(** The format tree and the stages behind the parser's first steps are
    fixed by their signatures: [ParseFormat], the analyzer and the
    converter can only fail with an [ISTError]. *)
Variable Format : Type.
Variable Grammar : Type.
(** [picojson::parse(value, json)]: the parsed value and the error text,
    empty on success. *)
Variable picojson_parse : string -> value * string.
Variable ParseFormat : value -> Result Format ISTError.
Variable Analyze : Format -> option ISTError * Format.
Variable Convert : Format -> Result Grammar ISTError.
Variable GrammarNormalizer_Apply : Grammar -> Grammar.

(** [struct StructuralTag { Format format; }] *)
Definition ParseStructuralTag (v : value) : Result Format ISTError :=
  match v with
  | JObject obj =>
      match find "type" obj with
      | Some (JString "structural_tag") | None =>
          match find "format" obj with
          | None => ResultErr "Structural tag must have a format field"
          | Some format_value =>
              match ParseFormat format_value with
              | ResultErr e => ResultErr e
              | ResultOk format => ResultOk format
              end
          end
      | Some _ =>
          ResultErr ("Structural tag's type must be a string " ++ dquote ++
                     "structural_tag" ++ dquote)
      end
  | _ => ResultErr "Structural tag must be an object"
  end.

Definition FromJSON (json : string) : Result Format StructuralTagError :=
  let (v, err) := picojson_parse json in
  if negb (String.eqb err "") then
    ResultErr (InvalidJSONError ("Failed to parse JSON: " ++ err))
  else
    match ParseStructuralTag v with
    | ResultOk st => ResultOk st
    | ResultErr e => ResultErr (InvalidStructuralTagError e)
    end.

Definition StructuralTagToGrammar (structural_tag_json : string)
    : Result Grammar StructuralTagError :=
  match FromJSON structural_tag_json with
  | ResultErr e => ResultErr e
  | ResultOk structural_tag =>
      match Analyze structural_tag with
      | (Some err, _) => ResultErr (InvalidStructuralTagError err)
      | (None, analyzed) =>
          match Convert analyzed with
          | ResultErr e => ResultErr (InvalidStructuralTagError e)
          | ResultOk g => ResultOk (GrammarNormalizer_Apply g)
          end
      end
  end.

End Pipeline.

(** A parse oracle for the examples: four inputs with the values a JSON
    parser gives them, everything else reported as a syntax error. *)
Definition sample_picojson_parse (json : string) : value * string :=
  if String.eqb json "42" then (JInt64 42, "")
  else if String.eqb json "[]" then (JArray [], "")
  else if String.eqb json "true" then (JBool true, "")
  else if String.eqb json "{}" then (JObject [], "")
  else (JNull, "syntax error").

End StructuralTagAPI.
Import StructuralTagAPI.



(** ** What the structural-tag converter calls outside of structural_tag.cc

    The JSON-schema and EBNF front ends, [SubGrammarAdder::Apply], the
    regex lowering with its FSM library and the JSON printer are not
    part of structural_tag.cc; the converter is stated over any
    implementation of them.  The two assembling functions stand for the
    parts of [VisitSub(TriggeredTagsFormat)] and
    [VisitSub(TagsWithSeparatorFormat)] that come after the tags have
    been visited: they only issue builder calls. *)

Module Lowering.

(** How a visit of the converter ends early: with the [ISTError] it
    returns, which every caller returns in turn, or on a failed
    XGRAMMAR_DCHECK, which ends the program and is no error value; the
    builder beside it is then of no account. *)
Inductive Halt : Type :=
| Invalid (err : ISTError)
| CheckFailed (message : string).

Record External : Type := mkExternal {
  FromJSONSchema : string -> Grammar;
  FromEBNF : string -> Grammar;
  QwenXMLToolCallingToEBNF : string -> string;
  SubGrammarAdder_Apply : GrammarBuilder -> Grammar -> nat * GrammarBuilder;
  LowerRegex : string -> list string -> GrammarBuilder
               -> Result nat Halt * GrammarBuilder;
  (* triggers, (begin, end) of each tag, excludes, at_least_one,
     stop_after_first, detected_end_strs_, trigger_to_tag_ids,
     tag_content_rule_ids *)
  AssembleTriggeredTags :
    list string -> list (string * list string) -> list string -> bool -> bool ->
    list string -> list (list nat) -> list nat -> GrammarBuilder
    -> Result nat Halt * GrammarBuilder;
  (* separator, at_least_one, stop_after_first, detected_end_strs_,
     all_tags_rule_id *)
  AssembleTagsWithSeparator :
    string -> bool -> bool -> list string -> nat -> GrammarBuilder
    -> Result nat Halt * GrammarBuilder;
  picojson_parse : string -> value * string;
  serialize : value -> string;
  RegexCanonical : string -> string
}.

(** [IsPrefix(prefix, full_str)] *)
Definition IsPrefix (prefix full_str : string) : bool := String.prefix prefix full_str.

(** The trigger matching of step 1 of [VisitSub(TriggeredTagsFormat)]:
    the index of the only trigger that is a prefix of [begin]. *)
Fixpoint match_trigger (triggers : list string) (it_trigger : nat) (begin : string)
    (matched_trigger_id : option nat) : Result (option nat) ISTError :=
  match triggers with
  | [] => ResultOk matched_trigger_id
  | trigger :: rest =>
      if IsPrefix trigger begin then
        match matched_trigger_id with
        | Some _ => ResultErr "One tag matches multiple triggers in a triggered tags format"
        | None => match_trigger rest (S it_trigger) begin (Some it_trigger)
        end
      else match_trigger rest (S it_trigger) begin matched_trigger_id
  end.

(** [trigger_to_tag_ids[matched_trigger_id].push_back(it_tag)] *)
Definition push_tag_id (trigger_to_tag_ids : list (list nat)) (matched it_tag : nat)
    : list (list nat) :=
  update_nth matched (fun ids => (ids ++ [it_tag])%list) trigger_to_tag_ids.

(** The loops of the converter's [VisitSub] overloads over the visit of
    one element; [State] is what the converter carries (its builder, and
    its cache when it has one). *)
Section ConverterLoops.

Variables (State Elem Tag : Type).
Variable visit : Elem -> State -> Result nat Halt * State.
Variable visit_tag : Tag -> State -> Result nat Halt * State.
Variable tag_begin : Tag -> string.
Variable tag_content : Tag -> Elem.

(** [VisitSub(SequenceFormat)]: one rule reference per element. *)
Fixpoint convert_sequence_elements (es : list Elem) (rule_ref_ids : list GrammarExpr)
    (c : State) {struct es} : Result (list GrammarExpr) Halt * State :=
  match es with
  | [] => (ResultOk rule_ref_ids, c)
  | element :: rest =>
      match visit element c with
      | (ResultErr e, c') => (ResultErr e, c')
      | (ResultOk sub_rule_id, c') =>
          convert_sequence_elements rest (rule_ref_ids ++ [kRuleRef sub_rule_id])%list c'
      end
  end.

(** [VisitSub(OrFormat)]: one single-reference sequence per element. *)
Fixpoint convert_or_elements (es : list Elem) (sequence_ids : list GrammarExpr)
    (c : State) {struct es} : Result (list GrammarExpr) Halt * State :=
  match es with
  | [] => (ResultOk sequence_ids, c)
  | element :: rest =>
      match visit element c with
      | (ResultErr e, c') => (ResultErr e, c')
      | (ResultOk sub_rule_id, c') =>
          convert_or_elements rest
            (sequence_ids ++ [kSequence [kRuleRef sub_rule_id]])%list c'
      end
  end.

(** Step 1 of [VisitSub(TriggeredTagsFormat)]: match each tag to its
    trigger and visit its content. *)
Fixpoint convert_triggered_tags (triggers : list string) (ts : list Tag) (it_tag : nat)
    (trigger_to_tag_ids : list (list nat)) (tag_content_rule_ids : list nat)
    (c : State) {struct ts} : Result (list (list nat) * list nat) Halt * State :=
  match ts with
  | [] => (ResultOk (trigger_to_tag_ids, tag_content_rule_ids), c)
  | tag :: rest =>
      match match_trigger triggers 0 (tag_begin tag) None with
      | ResultErr e => (ResultErr (Invalid e), c)
      | ResultOk None =>
          (ResultErr (Invalid "One tag does not match any trigger in a triggered tags format"),
           c)
      | ResultOk (Some matched_trigger_id) =>
          match visit (tag_content tag) c with
          | (ResultErr e, c') => (ResultErr e, c')
          | (ResultOk id, c') =>
              convert_triggered_tags triggers rest (S it_tag)
                (push_tag_id trigger_to_tag_ids matched_trigger_id it_tag)
                (tag_content_rule_ids ++ [id])%list c'
          end
      end
  end.

(** Step 1 of [VisitSub(TagsWithSeparatorFormat)]: visit each tag. *)
Fixpoint convert_separator_tags (ts : list Tag) (choice_ids : list GrammarExpr)
    (c : State) {struct ts} : Result (list GrammarExpr) Halt * State :=
  match ts with
  | [] => (ResultOk choice_ids, c)
  | tag :: rest =>
      match visit_tag tag c with
      | (ResultErr e, c') => (ResultErr e, c')
      | (ResultOk tag_rule_id, c') =>
          convert_separator_tags rest
            (choice_ids ++ [kSequence [kRuleRef tag_rule_id]])%list c'
      end
  end.

End ConverterLoops.


(** The end of a tag as the converter lowers it: omitted when [end] is
    empty, the literal when there is one, a reference to a fresh
    [tag_end] rule of alternatives otherwise. *)
Definition end_expr (end_str : string) : GrammarExpr :=
  if String.eqb end_str "" then kEmptyStr else AddByteString end_str.

(** A stand-in for the examples: sub-grammars are one empty rule, the
    regex path reports an error, the assembling functions add one rule. *)
Fixpoint sample_serialize (v : value) : string :=
  match v with
  | JNull => "null"
  | JBool true => "true"
  | JBool false => "false"
  | JInt64 z => to_string (Z.to_nat z)
  | JDouble _ => "0.0"
  | JString str => dquote ++ str ++ dquote
  | JArray items =>
      "[" ++ fold_right (fun item acc => sample_serialize item ++ "," ++ acc) "]" items
  | JObject members =>
      "{" ++ (fix go (ms : list (string * value)) : string :=
                match ms with
                | [] => "}"
                | (k, item) :: rest =>
                    dquote ++ k ++ dquote ++ ":" ++ sample_serialize item ++ "," ++ go rest
                end) members
  end.

Definition sample_external : External :=
  {| FromJSONSchema := fun _ => mkGrammar [mkRule "root" None None false] 0;
     FromEBNF := fun _ => mkGrammar [mkRule "root" None None false] 0;
     QwenXMLToolCallingToEBNF := fun schema => schema;
     SubGrammarAdder_Apply := fun b _ => AddEmptyRule b (GetNewRuleName b "root");
     LowerRegex := fun _ _ b =>
       (ResultErr (Invalid "regex lowering is not part of the example"), b);
     AssembleTriggeredTags := fun _ _ _ _ _ _ _ _ b =>
       let (id, b') := AddRuleWithHint b "triggered_tags" kEmptyStr in (ResultOk id, b');
     AssembleTagsWithSeparator := fun _ _ _ _ _ b =>
       let (id, b') := AddRuleWithHint b "tags_with_separator" kEmptyStr in (ResultOk id, b');
     picojson_parse := sample_picojson_parse;
     serialize := sample_serialize;
     RegexCanonical := fun pattern => pattern |}.

End Lowering.
Import Lowering.

(** ** structural_tag.cc, second copy (lines 1795-3303)

    The copy that matches structural_tag.h: [JSONSchemaFormat] has a
    style, the analyzer knows [IsExcluded], and the converter has no
    fingerprint cache. *)

Module TagExcl.

Inductive Format : Type :=
| ConstStringFormat (value : string)
| JSONSchemaFormat (json_schema : string) (style : string)
| AnyTextFormat (excludes : list string) (detected_end_strs_ : list string)
| GrammarFormat (grammar : string)
| RegexFormat (pattern : string) (excluded_strs : list string)
| SequenceFormat (elements : list Format) (is_unlimited_ : bool)
| OrFormat (elements : list Format) (is_unlimited_ : bool)
| TagFormat_ (tag : TagFormat)
| TriggeredTagsFormat (triggers : list string) (tags : list TagFormat)
    (excludes : list string) (at_least_one stop_after_first : bool)
    (detected_end_strs_ : list string)
| TagsWithSeparatorFormat (tags : list TagFormat) (separator : string)
    (at_least_one stop_after_first : bool) (detected_end_strs_ : list string)
with TagFormat : Type :=
| mkTagFormat (begin : string) (content : Format) (end_ : list string).

Definition tag_end (t : TagFormat) : list string :=
  match t with mkTagFormat _ _ e => e end.

Definition tag_content (t : TagFormat) : Format :=
  match t with mkTagFormat _ c _ => c end.

(** *** StructuralTagAnalyzer *)

(** [stack_] holds pointers to the formats being visited, outermost
    first; an entry is written as the format it points to. *)
Fixpoint DetectEndStrings_from_top (rev_stack : list Format) : list string :=
  match rev_stack with
  | [] => []
  | TagFormat_ tag :: _ => tag_end tag
  | _ :: below => DetectEndStrings_from_top below
  end.

Definition DetectEndStrings (stack_ : list Format) : list string :=
  DetectEndStrings_from_top (rev stack_).

Definition IsUnlimited (format : Format) : bool :=
  match format with
  | AnyTextFormat _ _ => true
  | TriggeredTagsFormat _ _ _ _ _ _ => true
  | TagsWithSeparatorFormat _ _ _ _ _ => true
  | SequenceFormat _ is_unlimited => is_unlimited
  | OrFormat _ is_unlimited => is_unlimited
  | _ => false
  end.

Definition IsExcluded (format : Format) : bool :=
  match format with
  | AnyTextFormat excludes _ => negb (Nat.eqb (List.length excludes) 0)
  | TriggeredTagsFormat _ _ excludes _ _ _ => negb (Nat.eqb (List.length excludes) 0)
  | _ => false
  end.

Definition sequence_error (i : nat) : ISTError :=
  "Only the last element in a sequence can be unlimited, but the " ++ to_string i ++
  "th element of sequence format is unlimited".

Definition or_error : ISTError :=
  "Now we only support all elements in an or format to be unlimited or all limited, but the or format has both unlimited and limited elements".

Definition tag_error : ISTError :=
  "When the content is unlimited, at least one end string must be non-empty".

Definition has_non_empty (strs : list string) : bool :=
  existsb (fun s => negb (String.eqb s "")) strs.

(** The loops of the [VisitSub] overloads, over the visit of one
    element.  Each returns the elements as the visits left them. *)
Section AnalyzerLoops.

Variable visit : Format -> option ISTError * Format.
Variable visit_tag : TagFormat -> option ISTError * TagFormat.
Variable is_unlimited_ : bool.

(** [VisitSub(SequenceFormat* )]: the loop over the elements before the
    last, then the last one; the third component is the new
    [is_unlimited_].  An empty vector does not reach the analyzer (the
    parser rejects it). *)
Fixpoint visit_sequence_elements (i : nat) (es : list Format) {struct es}
    : option ISTError * list Format * bool :=
  match es with
  | [] => (None, [], is_unlimited_)
  | [element] =>
      let (err, element') := visit element in
      match err with
      | Some e => (Some e, [element'], is_unlimited_)
      | None => (None, [element'], IsUnlimited element' && negb (IsExcluded element'))
      end
  | element :: rest =>
      let (err, element') := visit element in
      match err with
      | Some e => (Some e, element' :: rest, is_unlimited_)
      | None =>
          if IsUnlimited element' && negb (IsExcluded element') then
            (Some (sequence_error i), element' :: rest, is_unlimited_)
          else
            let '(err', rest', u) := visit_sequence_elements (S i) rest in
            (err', element' :: rest', u)
      end
  end.

(** [VisitSub(OrFormat* )]: the loop, with [is_any_unlimited] and
    [is_all_unlimited]. *)
Fixpoint visit_or_elements (es : list Format) (is_any is_all : bool) {struct es}
    : option ISTError * list Format * bool * bool :=
  match es with
  | [] => (None, [], is_any, is_all)
  | element :: rest =>
      let (err, element') := visit element in
      match err with
      | Some e => (Some e, element' :: rest, is_any, is_all)
      | None =>
          let is_unlimited := IsUnlimited element' && negb (IsExcluded element') in
          let '(err', rest', any', all') :=
            visit_or_elements rest (is_any || is_unlimited) (is_all && is_unlimited) in
          (err', element' :: rest', any', all')
      end
  end.

(** The loop over [format->tags]. *)
Fixpoint visit_tags (ts : list TagFormat) {struct ts} : option ISTError * list TagFormat :=
  match ts with
  | [] => (None, [])
  | tag :: rest =>
      let (err, tag') := visit_tag tag in
      match err with
      | Some e => (Some e, tag' :: rest)
      | None => let (err', rest') := visit_tags rest in (err', tag' :: rest')
      end
  end.

End AnalyzerLoops.

(** [Visit] pushes the format, dispatches to the [VisitSub] overload and
    pops; the analyzed format is returned next to the error, as the C++
    code updates it in place.  The recursion-depth guard is left out. *)
Fixpoint Visit (stack_ : list Format) (format : Format) {struct format}
    : option ISTError * Format :=
  let stack_ := (stack_ ++ [format])%list in
  match format with
  | ConstStringFormat _ => (None, format)
  | JSONSchemaFormat _ _ => (None, format)
  | AnyTextFormat excludes _ => (None, AnyTextFormat excludes (DetectEndStrings stack_))
  | GrammarFormat _ => (None, format)
  | RegexFormat _ _ => (None, format)
  | SequenceFormat elements is_unlimited =>
      let '(err, elements', u) :=
        visit_sequence_elements (Visit stack_) is_unlimited O elements in
      (err, SequenceFormat elements' u)
  | OrFormat elements is_unlimited =>
      let '(err, elements', is_any_unlimited, is_all_unlimited) :=
        visit_or_elements (Visit stack_) elements false true in
      match err with
      | Some e => (Some e, OrFormat elements' is_unlimited)
      | None =>
          if is_any_unlimited && negb is_all_unlimited then
            (Some or_error, OrFormat elements' is_unlimited)
          else (None, OrFormat elements' is_any_unlimited)
      end
  | TagFormat_ tag =>
      let (err, tag') := VisitSub_Tag stack_ tag in (err, TagFormat_ tag')
  | TriggeredTagsFormat triggers tags excludes at_least_one stop_after_first ends =>
      let (err, tags') :=
        visit_tags (fun tag => VisitSub_Tag (stack_ ++ [TagFormat_ tag])%list tag) tags in
      match err with
      | Some e =>
          (Some e, TriggeredTagsFormat triggers tags' excludes at_least_one stop_after_first ends)
      | None =>
          (None, TriggeredTagsFormat triggers tags' excludes at_least_one stop_after_first
                   (DetectEndStrings stack_))
      end
  | TagsWithSeparatorFormat tags separator at_least_one stop_after_first ends =>
      let (err, tags') :=
        visit_tags (fun tag => VisitSub_Tag (stack_ ++ [TagFormat_ tag])%list tag) tags in
      match err with
      | Some e =>
          (Some e, TagsWithSeparatorFormat tags' separator at_least_one stop_after_first ends)
      | None =>
          (None, TagsWithSeparatorFormat tags' separator at_least_one stop_after_first
                   (DetectEndStrings stack_))
      end
  end
(** [VisitSub(TagFormat* )], with the tag already on top of [stack_]. *)
with VisitSub_Tag (stack_ : list Format) (tag : TagFormat) {struct tag}
    : option ISTError * TagFormat :=
  match tag with
  | mkTagFormat begin content end_strs =>
      let (err, content') := Visit stack_ content in
      match err with
      | Some e => (Some e, mkTagFormat begin content' end_strs)
      | None =>
          if IsUnlimited content' then
            if negb (has_non_empty end_strs) then
              if IsExcluded content' then (None, mkTagFormat begin content' end_strs)
              else (Some tag_error, mkTagFormat begin content' end_strs)
            else (None, mkTagFormat begin content' [])
          else (None, mkTagFormat begin content' end_strs)
      end
  end.

Definition Analyze (structural_tag : Format) : option ISTError * Format :=
  Visit [] structural_tag.

(** *** StructuralTagGrammarConverter (no fingerprint cache) *)

Section Converter.

Variable ext : External.

Definition VisitSub_ConstString (value : string) (b : GrammarBuilder)
    : Result nat Halt * GrammarBuilder :=
  let expr := AddByteString value in
  let sequence_expr := kSequence [expr] in
  let choices_expr := kChoices [sequence_expr] in
  let (id, b') := AddRuleWithHint b "const_string" choices_expr in
  (ResultOk id, b').

Definition VisitSub_JSONSchema (json_schema style : string) (b : GrammarBuilder)
    : Result nat Halt * GrammarBuilder :=
  let sub_grammar :=
    if String.eqb style "qwen_xml"
    then FromEBNF ext (QwenXMLToolCallingToEBNF ext json_schema)
    else FromJSONSchema ext json_schema in
  let (id, b') := SubGrammarAdder_Apply ext b sub_grammar in
  (ResultOk id, b').

Definition VisitSub_Grammar (grammar : string) (b : GrammarBuilder)
    : Result nat Halt * GrammarBuilder :=
  let (id, b') := SubGrammarAdder_Apply ext b (FromEBNF ext grammar) in
  (ResultOk id, b').

Definition VisitSub_AnyText (excludes detected_end_strs_ : list string) (b : GrammarBuilder)
    : Result nat Halt * GrammarBuilder :=
  if negb (Nat.eqb (List.length detected_end_strs_) 0) then
    let non_empty_ends := filter (fun s => negb (String.eqb s "")) detected_end_strs_ in
    if Nat.eqb (List.length non_empty_ends) 0 then
      (* XGRAMMAR_DCHECK(!non_empty_ends.empty()) *)
      (ResultErr (CheckFailed "At least one detected end string must be non-empty"), b)
    else
      let tag_dispatch_expr :=
        kTagDispatch (mkTagDispatch [] false non_empty_ends false excludes) in
      let (id, b') := AddRuleWithHint b "any_text" tag_dispatch_expr in
      (ResultOk id, b')
  else if Nat.ltb 0 (List.length excludes) then
    let tag_dispatch_expr := kTagDispatch (mkTagDispatch [] true [] false excludes) in
    let (id, b') := AddRuleWithHint b "any_text" tag_dispatch_expr in
    (ResultOk id, b')
  else
    let any_text_expr := kCharacterClassStar false [(0, 1114111)%Z] in
    let sequence_expr := kSequence [any_text_expr] in
    let choices_expr := kChoices [sequence_expr] in
    let (id, b') := AddRuleWithHint b "any_text" choices_expr in
    (ResultOk id, b').

(** The part of [VisitSub(TagFormat)] after the content has been visited. *)
Definition lower_tag (begin : string) (end_strs : list string) (sub_rule_id : nat)
    (b : GrammarBuilder) : Result nat Halt * GrammarBuilder :=
  let begin_expr := AddByteString begin in
  let rule_ref_expr := kRuleRef sub_rule_id in
  match end_strs with
  | _ :: _ :: _ =>
      let end_sequence_ids := map (fun end_str => kSequence [end_expr end_str]) end_strs in
      let end_choices_expr := kChoices end_sequence_ids in
      let (end_choices_rule_id, b1) := AddRuleWithHint b "tag_end" end_choices_expr in
      let end_rule_ref_expr := kRuleRef end_choices_rule_id in
      let sequence_expr := kSequence [begin_expr; rule_ref_expr; end_rule_ref_expr] in
      let (id, b2) := AddRuleWithHint b1 "tag" (kChoices [sequence_expr]) in
      (ResultOk id, b2)
  | [end_str] =>
      let sequence_expr := kSequence [begin_expr; rule_ref_expr; end_expr end_str] in
      let (id, b1) := AddRuleWithHint b "tag" (kChoices [sequence_expr]) in
      (ResultOk id, b1)
  | [] =>
      let sequence_expr := kSequence [begin_expr; rule_ref_expr] in
      let (id, b1) := AddRuleWithHint b "tag" (kChoices [sequence_expr]) in
      (ResultOk id, b1)
  end.

Definition tag_begin (t : TagFormat) : string :=
  match t with mkTagFormat bg _ _ => bg end.

(** [Visit] is the plain dispatch to [VisitSub]. *)
Fixpoint Convert_Visit (format : Format) (b : GrammarBuilder) {struct format}
    : Result nat Halt * GrammarBuilder :=
  match format with
  | ConstStringFormat value => VisitSub_ConstString value b
  | JSONSchemaFormat json_schema style => VisitSub_JSONSchema json_schema style b
  | AnyTextFormat excludes ends => VisitSub_AnyText excludes ends b
  | GrammarFormat grammar => VisitSub_Grammar grammar b
  | RegexFormat pattern excluded_strs => LowerRegex ext pattern excluded_strs b
  | SequenceFormat elements _ =>
      match convert_sequence_elements Convert_Visit elements [] b with
      | (ResultErr e, b') => (ResultErr e, b')
      | (ResultOk rule_ref_ids, b') =>
          let expr := kChoices [kSequence rule_ref_ids] in
          let (id, b'') := AddRuleWithHint b' "sequence" expr in
          (ResultOk id, b'')
      end
  | OrFormat elements _ =>
      match convert_or_elements Convert_Visit elements [] b with
      | (ResultErr e, b') => (ResultErr e, b')
      | (ResultOk sequence_ids, b') =>
          let (id, b'') := AddRuleWithHint b' "or" (kChoices sequence_ids) in
          (ResultOk id, b'')
      end
  | TagFormat_ tag => Convert_VisitSub_Tag tag b
  | TriggeredTagsFormat triggers tags excludes at_least_one stop_after_first ends =>
      match convert_triggered_tags Convert_Visit tag_begin tag_content triggers tags 0%nat
              (map (fun _ => []) triggers) [] b with
      | (ResultErr e, b') => (ResultErr e, b')
      | (ResultOk (trigger_to_tag_ids, tag_content_rule_ids), b') =>
          AssembleTriggeredTags ext triggers
            (map (fun t => (tag_begin t, tag_end t)) tags)
            excludes at_least_one stop_after_first ends
            trigger_to_tag_ids tag_content_rule_ids b'
      end
  | TagsWithSeparatorFormat tags separator at_least_one stop_after_first ends =>
      match convert_separator_tags Convert_VisitSub_Tag tags [] b with
      | (ResultErr e, b') => (ResultErr e, b')
      | (ResultOk choice_ids, b') =>
          let (all_tags_rule_id, b'') :=
            AddRuleWithHint b' "tags_with_separator_tags" (kChoices choice_ids) in
          AssembleTagsWithSeparator ext separator at_least_one stop_after_first ends
            all_tags_rule_id b''
      end
  end
with Convert_VisitSub_Tag (tag : TagFormat) (b : GrammarBuilder) {struct tag}
    : Result nat Halt * GrammarBuilder :=
  match tag with
  | mkTagFormat begin content end_strs =>
      match Convert_Visit content b with
      | (ResultErr e, b') => (ResultErr e, b')
      | (ResultOk sub_rule_id, b') => lower_tag begin end_strs sub_rule_id b'
      end
  end.

Definition AddRootRuleAndGetGrammar (b : GrammarBuilder) (ref_rule_id : nat) : Grammar :=
  let expr := kRuleRef ref_rule_id in
  let sequence_expr := kSequence [expr] in
  let choices_expr := kChoices [sequence_expr] in
  let (root_rule_id, b') := AddRuleWithHint b "root" choices_expr in
  Get b' root_rule_id.

Definition Convert (structural_tag : Format) : Result Grammar Halt :=
  match Convert_Visit structural_tag empty_builder with
  | (ResultErr e, _) => ResultErr e
  | (ResultOk root_rule_id, b) => ResultOk (AddRootRuleAndGetGrammar b root_rule_id)
  end.

End Converter.

End TagExcl.


(** ** structural_tag.cc, first copy (lines 1-1791)

    The copy with [FormatFingerprinter] and the converter's
    [fingerprint_cache_]; it still has [QwenXmlParameterFormat], and its
    analyzer has no [IsExcluded]. *)

Module TagDedup.

Inductive Format : Type :=
| ConstStringFormat (value : string)
| JSONSchemaFormat (json_schema : string)
| QwenXmlParameterFormat (xml_schema : string)
| AnyTextFormat (excluded_strs : list string) (detected_end_strs_ : list string)
| GrammarFormat (grammar : string)
| RegexFormat (pattern : string) (excluded_strs : list string)
| SequenceFormat (elements : list Format) (is_unlimited_ : bool)
| OrFormat (elements : list Format) (is_unlimited_ : bool)
| TagFormat_ (tag : TagFormat)
| TriggeredTagsFormat (triggers : list string) (tags : list TagFormat)
    (excludes : list string) (at_least_one stop_after_first : bool)
    (detected_end_strs_ : list string)
| TagsWithSeparatorFormat (tags : list TagFormat) (separator : string)
    (at_least_one stop_after_first : bool) (detected_end_strs_ : list string)
with TagFormat : Type :=
| mkTagFormat (begin : string) (content : Format) (end_ : list string).

Definition tag_end (t : TagFormat) : list string :=
  match t with mkTagFormat _ _ e => e end.

(** *** StructuralTagAnalyzer *)

Fixpoint DetectEndStrings_from_top (rev_stack : list Format) : list string :=
  match rev_stack with
  | [] => []
  | TagFormat_ tag :: _ => tag_end tag
  | _ :: below => DetectEndStrings_from_top below
  end.

Definition DetectEndStrings (stack_ : list Format) : list string :=
  DetectEndStrings_from_top (rev stack_).

Definition IsUnlimited (format : Format) : bool :=
  match format with
  | AnyTextFormat _ _ => true
  | TriggeredTagsFormat _ _ _ _ _ _ => true
  | TagsWithSeparatorFormat _ _ _ _ _ => true
  | SequenceFormat _ is_unlimited => is_unlimited
  | OrFormat _ is_unlimited => is_unlimited
  | _ => false
  end.

(** The loops of the [VisitSub] overloads, over the visit of one
    element.  Each returns the elements as the visits left them. *)
Section AnalyzerLoops.

Variable visit : Format -> option ISTError * Format.
Variable visit_tag : TagFormat -> option ISTError * TagFormat.
Variable is_unlimited_ : bool.

(** [VisitSub(SequenceFormat* )]: the loop over the elements before the
    last, then the last one; the third component is the new
    [is_unlimited_].  An empty vector does not reach the analyzer (the
    parser rejects it). *)
Fixpoint visit_sequence_elements (i : nat) (es : list Format) {struct es}
    : option ISTError * list Format * bool :=
  match es with
  | [] => (None, [], is_unlimited_)
  | [element] =>
      let (err, element') := visit element in
      match err with
      | Some e => (Some e, [element'], is_unlimited_)
      | None => (None, [element'], IsUnlimited element')
      end
  | element :: rest =>
      let (err, element') := visit element in
      match err with
      | Some e => (Some e, element' :: rest, is_unlimited_)
      | None =>
          if IsUnlimited element' then
            (Some (TagExcl.sequence_error i), element' :: rest, is_unlimited_)
          else
            let '(err', rest', u) := visit_sequence_elements (S i) rest in
            (err', element' :: rest', u)
      end
  end.

(** [VisitSub(OrFormat* )]: the loop, with [is_any_unlimited] and
    [is_all_unlimited]. *)
Fixpoint visit_or_elements (es : list Format) (is_any is_all : bool) {struct es}
    : option ISTError * list Format * bool * bool :=
  match es with
  | [] => (None, [], is_any, is_all)
  | element :: rest =>
      let (err, element') := visit element in
      match err with
      | Some e => (Some e, element' :: rest, is_any, is_all)
      | None =>
          let is_unlimited := IsUnlimited element' in
          let '(err', rest', any', all') :=
            visit_or_elements rest (is_any || is_unlimited) (is_all && is_unlimited) in
          (err', element' :: rest', any', all')
      end
  end.

(** The loop over [format->tags]. *)
Fixpoint visit_tags (ts : list TagFormat) {struct ts} : option ISTError * list TagFormat :=
  match ts with
  | [] => (None, [])
  | tag :: rest =>
      let (err, tag') := visit_tag tag in
      match err with
      | Some e => (Some e, tag' :: rest)
      | None => let (err', rest') := visit_tags rest in (err', tag' :: rest')
      end
  end.

End AnalyzerLoops.

(** [Visit] pushes the format, dispatches to the [VisitSub] overload and
    pops; the analyzed format is returned next to the error, as the C++
    code updates it in place.  The recursion-depth guard is left out. *)
Fixpoint Visit (stack_ : list Format) (format : Format) {struct format}
    : option ISTError * Format :=
  let stack_ := (stack_ ++ [format])%list in
  match format with
  | ConstStringFormat _ => (None, format)
  | JSONSchemaFormat _ => (None, format)
  | QwenXmlParameterFormat _ => (None, format)
  | AnyTextFormat excludes _ => (None, AnyTextFormat excludes (DetectEndStrings stack_))
  | GrammarFormat _ => (None, format)
  | RegexFormat _ _ => (None, format)
  | SequenceFormat elements is_unlimited =>
      let '(err, elements', u) :=
        visit_sequence_elements (Visit stack_) is_unlimited O elements in
      (err, SequenceFormat elements' u)
  | OrFormat elements is_unlimited =>
      let '(err, elements', is_any_unlimited, is_all_unlimited) :=
        visit_or_elements (Visit stack_) elements false true in
      match err with
      | Some e => (Some e, OrFormat elements' is_unlimited)
      | None =>
          if is_any_unlimited && negb is_all_unlimited then
            (Some TagExcl.or_error, OrFormat elements' is_unlimited)
          else (None, OrFormat elements' is_any_unlimited)
      end
  | TagFormat_ tag =>
      let (err, tag') := VisitSub_Tag stack_ tag in (err, TagFormat_ tag')
  | TriggeredTagsFormat triggers tags excludes at_least_one stop_after_first ends =>
      let (err, tags') :=
        visit_tags (fun tag => VisitSub_Tag (stack_ ++ [TagFormat_ tag])%list tag) tags in
      match err with
      | Some e =>
          (Some e, TriggeredTagsFormat triggers tags' excludes at_least_one stop_after_first ends)
      | None =>
          (None, TriggeredTagsFormat triggers tags' excludes at_least_one stop_after_first
                   (DetectEndStrings stack_))
      end
  | TagsWithSeparatorFormat tags separator at_least_one stop_after_first ends =>
      let (err, tags') :=
        visit_tags (fun tag => VisitSub_Tag (stack_ ++ [TagFormat_ tag])%list tag) tags in
      match err with
      | Some e =>
          (Some e, TagsWithSeparatorFormat tags' separator at_least_one stop_after_first ends)
      | None =>
          (None, TagsWithSeparatorFormat tags' separator at_least_one stop_after_first
                   (DetectEndStrings stack_))
      end
  end
(** [VisitSub(TagFormat* )], with the tag already on top of [stack_]. *)
with VisitSub_Tag (stack_ : list Format) (tag : TagFormat) {struct tag}
    : option ISTError * TagFormat :=
  match tag with
  | mkTagFormat begin content end_strs =>
      let (err, content') := Visit stack_ content in
      match err with
      | Some e => (Some e, mkTagFormat begin content' end_strs)
      | None =>
          if IsUnlimited content' then
            if negb (TagExcl.has_non_empty end_strs) then
              (Some TagExcl.tag_error, mkTagFormat begin content' end_strs)
            else (None, mkTagFormat begin content' [])
          else (None, mkTagFormat begin content' end_strs)
      end
  end.

Definition Analyze (structural_tag : Format) : option ISTError * Format :=
  Visit [] structural_tag.

(** *** FormatFingerprinter *)

Section Converter.

Variable ext : External.

Definition ParseJSONOrString (json_str : string) : value :=
  let (v, err) := picojson_parse ext json_str in
  if negb (String.eqb err "") then JString json_str else v.

Definition strings_value (strs : list string) : value := JArray (map JString strs).

(** [picojson::object] is a [std::map]: the members are written in key
    order.  [include_internal_fields_] is true in [Compute]. *)
Fixpoint Fingerprint (format : Format) {struct format} : value :=
  match format with
  | ConstStringFormat v =>
      JObject [("type", JString "const_string"); ("value", JString v)]
  | JSONSchemaFormat json_schema =>
      JObject [("json_schema", ParseJSONOrString json_schema);
               ("type", JString "json_schema")]
  | QwenXmlParameterFormat xml_schema =>
      JObject [("type", JString "qwen_xml_parameter"); ("xml_schema", JString xml_schema)]
  | AnyTextFormat excluded detected =>
      JObject [("__detected_end_strs", strings_value detected);
               ("excluded_strs", strings_value excluded);
               ("type", JString "any_text")]
  | GrammarFormat grammar =>
      JObject [("grammar", JString grammar); ("type", JString "grammar")]
  | RegexFormat pattern excluded =>
      JObject [("excludes", strings_value excluded);
               ("pattern", JString (RegexCanonical ext pattern));
               ("type", JString "regex")]
  | SequenceFormat elements is_unlimited =>
      JObject [("__is_unlimited", JBool is_unlimited);
               ("elements", JArray (map Fingerprint elements));
               ("type", JString "sequence")]
  | OrFormat elements is_unlimited =>
      JObject [("__is_unlimited", JBool is_unlimited);
               ("elements", JArray (map Fingerprint elements));
               ("type", JString "or")]
  | TagFormat_ tag => Fingerprint_Tag tag
  | TriggeredTagsFormat triggers tags excludes at_least_one stop_after_first detected =>
      JObject [("__detected_end_strs", strings_value detected);
               ("at_least_one", JBool at_least_one);
               ("excludes", strings_value excludes);
               ("stop_after_first", JBool stop_after_first);
               ("tags", JArray (map Fingerprint_Tag tags));
               ("triggers", strings_value triggers);
               ("type", JString "triggered_tags")]
  | TagsWithSeparatorFormat tags separator at_least_one stop_after_first detected =>
      JObject [("__detected_end_strs", strings_value detected);
               ("at_least_one", JBool at_least_one);
               ("separator", JString separator);
               ("stop_after_first", JBool stop_after_first);
               ("tags", JArray (map Fingerprint_Tag tags));
               ("type", JString "tags_with_separator")]
  end
with Fingerprint_Tag (tag : TagFormat) {struct tag} : value :=
  match tag with
  | mkTagFormat begin content end_strs =>
      JObject [("begin", JString begin);
               ("content", Fingerprint content);
               ("end", match end_strs with
                       | [end_str] => JString end_str
                       | _ => strings_value end_strs
                       end);
               ("type", JString "tag")]
  end.

Definition Compute (format : Format) : string := serialize ext (Fingerprint format).

(** *** StructuralTagGrammarConverter with the fingerprint cache *)

Definition kPrime : Z := 1099511628211.
Definition kOffset : Z := 14695981039346656037.

Definition FnvaHash (str : string) : Z :=
  fold_left
    (fun hash c => ((Z.lxor hash (Z.of_nat (nat_of_ascii c))) * kPrime) mod 2 ^ 64)%Z
    (list_ascii_of_string str) kOffset.

(** [std::unordered_map<uint64_t, std::vector<std::pair<std::string, int>>>] *)
Definition FingerprintCache : Type := list (Z * list (string * nat)).

Record Converter : Type := mkConverter {
  grammar_builder_ : GrammarBuilder;
  fingerprint_cache_ : FingerprintCache
}.

Fixpoint find_bucket (hash : Z) (cache : FingerprintCache) : option (list (string * nat)) :=
  match cache with
  | [] => None
  | (h, bucket) :: rest => if Z.eqb h hash then Some bucket else find_bucket hash rest
  end.

(** The loop over [bucket_it->second]: the first entry with that fingerprint. *)
Fixpoint find_entry (fingerprint : string) (bucket : list (string * nat)) : option nat :=
  match bucket with
  | [] => None
  | (fp, rule_id) :: rest =>
      if String.eqb fp fingerprint then Some rule_id else find_entry fingerprint rest
  end.

Definition cache_lookup (cache : FingerprintCache) (fingerprint : string) : option nat :=
  match find_bucket (FnvaHash fingerprint) cache with
  | Some bucket => find_entry fingerprint bucket
  | None => None
  end.

(** [fingerprint_cache_[hash].push_back(entry)] *)
Fixpoint cache_push (hash : Z) (entry : string * nat) (cache : FingerprintCache)
    : FingerprintCache :=
  match cache with
  | [] => [(hash, [entry])]
  | (h, bucket) :: rest =>
      if Z.eqb h hash then (h, (bucket ++ [entry])%list) :: rest
      else (h, bucket) :: cache_push hash entry rest
  end.

(** A builder-only step run on the converter. *)
Definition on_builder {A} (f : GrammarBuilder -> A * GrammarBuilder) (c : Converter)
    : A * Converter :=
  let (a, b') := f (grammar_builder_ c) in (a, mkConverter b' (fingerprint_cache_ c)).

(** The body of [Visit] around the dispatch [visit_sub]. *)
Definition with_fingerprint_cache (fingerprint : string)
    (visit_sub : Converter -> Result nat Halt * Converter) (c : Converter)
    : Result nat Halt * Converter :=
  let hash := FnvaHash fingerprint in
  match cache_lookup (fingerprint_cache_ c) fingerprint with
  | Some rule_id => (ResultOk rule_id, c)
  | None =>
      match visit_sub c with
      | (ResultOk rule_id, c') =>
          (ResultOk rule_id,
           mkConverter (grammar_builder_ c')
                       (cache_push hash (fingerprint, rule_id) (fingerprint_cache_ c')))
      | (ResultErr e, c') => (ResultErr e, c')
      end
  end.

Definition VisitSub_JSONSchema (json_schema : string) (b : GrammarBuilder)
    : Result nat Halt * GrammarBuilder :=
  let (id, b') := SubGrammarAdder_Apply ext b (FromJSONSchema ext json_schema) in
  (ResultOk id, b').

Definition VisitSub_QwenXmlParameter (xml_schema : string) (b : GrammarBuilder)
    : Result nat Halt * GrammarBuilder :=
  let (id, b') :=
    SubGrammarAdder_Apply ext b (FromEBNF ext (QwenXMLToolCallingToEBNF ext xml_schema)) in
  (ResultOk id, b').

Definition VisitSub_AnyText (excluded_strs detected_end_strs_ : list string)
    (b : GrammarBuilder) : Result nat Halt * GrammarBuilder :=
  if negb (Nat.eqb (List.length detected_end_strs_) 0) then
    let non_empty_ends := filter (fun s => negb (String.eqb s "")) detected_end_strs_ in
    if Nat.eqb (List.length non_empty_ends) 0 then
      (* XGRAMMAR_DCHECK(!non_empty_ends.empty()) *)
      (ResultErr (CheckFailed "At least one detected end string must be non-empty"), b)
    else
      let tag_dispatch_expr :=
        kTagDispatch (mkTagDispatch [] false non_empty_ends false excluded_strs) in
      let (id, b') := AddRuleWithHint b "any_text" tag_dispatch_expr in
      (ResultOk id, b')
  else
    let any_text_expr := kCharacterClassStar false [(0, 1114111)%Z] in
    let sequence_expr := kSequence [any_text_expr] in
    let choices_expr := kChoices [sequence_expr] in
    let (id, b') := AddRuleWithHint b "any_text" choices_expr in
    (ResultOk id, b').

Definition tag_begin (t : TagFormat) : string :=
  match t with mkTagFormat bg _ _ => bg end.

Definition tag_content (t : TagFormat) : Format :=
  match t with mkTagFormat _ ct _ => ct end.

Definition add_sequence_rule (rule_ref_ids : list GrammarExpr) (b : GrammarBuilder)
    : Result nat Halt * GrammarBuilder :=
  let (id, b') := AddRuleWithHint b "sequence" (kChoices [kSequence rule_ref_ids]) in
  (ResultOk id, b').

Definition add_or_rule (sequence_ids : list GrammarExpr) (b : GrammarBuilder)
    : Result nat Halt * GrammarBuilder :=
  let (id, b') := AddRuleWithHint b "or" (kChoices sequence_ids) in
  (ResultOk id, b').

Definition add_separator_rules (separator : string) (at_least_one stop_after_first : bool)
    (ends : list string) (choice_ids : list GrammarExpr) (b : GrammarBuilder)
    : Result nat Halt * GrammarBuilder :=
  let (all_tags_rule_id, b') :=
    AddRuleWithHint b "tags_with_separator_tags" (kChoices choice_ids) in
  AssembleTagsWithSeparator ext separator at_least_one stop_after_first ends
    all_tags_rule_id b'.

(** [Visit]: the fingerprint cache around the dispatch to [VisitSub]. *)
Fixpoint Convert_Visit (format : Format) (c : Converter) {struct format}
    : Result nat Halt * Converter :=
  with_fingerprint_cache (Compute format)
    (fun c =>
       match format with
       | ConstStringFormat v => on_builder (TagExcl.VisitSub_ConstString v) c
       | JSONSchemaFormat json_schema => on_builder (VisitSub_JSONSchema json_schema) c
       | QwenXmlParameterFormat xml_schema =>
           on_builder (VisitSub_QwenXmlParameter xml_schema) c
       | AnyTextFormat excluded ends => on_builder (VisitSub_AnyText excluded ends) c
       | GrammarFormat grammar => on_builder (TagExcl.VisitSub_Grammar ext grammar) c
       | RegexFormat pattern excluded => on_builder (LowerRegex ext pattern excluded) c
       | SequenceFormat elements _ =>
           match convert_sequence_elements Convert_Visit elements [] c with
           | (ResultErr e, c') => (ResultErr e, c')
           | (ResultOk rule_ref_ids, c') => on_builder (add_sequence_rule rule_ref_ids) c'
           end
       | OrFormat elements _ =>
           match convert_or_elements Convert_Visit elements [] c with
           | (ResultErr e, c') => (ResultErr e, c')
           | (ResultOk sequence_ids, c') => on_builder (add_or_rule sequence_ids) c'
           end
       | TagFormat_ (mkTagFormat begin content end_strs) =>
           match Convert_Visit content c with
           | (ResultErr e, c') => (ResultErr e, c')
           | (ResultOk sub_rule_id, c') =>
               on_builder (TagExcl.lower_tag begin end_strs sub_rule_id) c'
           end
       | TriggeredTagsFormat triggers tags excludes at_least_one stop_after_first ends =>
           match convert_triggered_tags Convert_Visit tag_begin tag_content triggers tags
                   0%nat (map (fun _ => []) triggers) [] c with
           | (ResultErr e, c') => (ResultErr e, c')
           | (ResultOk (trigger_to_tag_ids, tag_content_rule_ids), c') =>
               on_builder
                 (AssembleTriggeredTags ext triggers
                    (map (fun t => (tag_begin t, tag_end t)) tags)
                    excludes at_least_one stop_after_first ends
                    trigger_to_tag_ids tag_content_rule_ids) c'
           end
       | TagsWithSeparatorFormat tags separator at_least_one stop_after_first ends =>
           match convert_separator_tags Convert_Visit_Tag tags [] c with
           | (ResultErr e, c') => (ResultErr e, c')
           | (ResultOk choice_ids, c') =>
               on_builder
                 (add_separator_rules separator at_least_one stop_after_first ends choice_ids)
                 c'
           end
       end) c
(** [Visit] of a [TagFormat] held in a vector ([Visit(format.tags[i])]):
    the same wrapper around [VisitSub(TagFormat)]. *)
with Convert_Visit_Tag (tag : TagFormat) (c : Converter) {struct tag}
    : Result nat Halt * Converter :=
  with_fingerprint_cache (serialize ext (Fingerprint_Tag tag))
    (fun c =>
       match tag with
       | mkTagFormat begin content end_strs =>
           match Convert_Visit content c with
           | (ResultErr e, c') => (ResultErr e, c')
           | (ResultOk sub_rule_id, c') =>
               on_builder (TagExcl.lower_tag begin end_strs sub_rule_id) c'
           end
       end) c.

(** The dispatch of [Visit] to the [VisitSub] overload, by itself. *)
Definition VisitSub (format : Format) (c : Converter) : Result nat Halt * Converter :=
  match format with
  | ConstStringFormat v => on_builder (TagExcl.VisitSub_ConstString v) c
  | JSONSchemaFormat json_schema => on_builder (VisitSub_JSONSchema json_schema) c
  | QwenXmlParameterFormat xml_schema => on_builder (VisitSub_QwenXmlParameter xml_schema) c
  | AnyTextFormat excluded ends => on_builder (VisitSub_AnyText excluded ends) c
  | GrammarFormat grammar => on_builder (TagExcl.VisitSub_Grammar ext grammar) c
  | RegexFormat pattern excluded => on_builder (LowerRegex ext pattern excluded) c
  | SequenceFormat elements _ =>
      match convert_sequence_elements Convert_Visit elements [] c with
      | (ResultErr e, c') => (ResultErr e, c')
      | (ResultOk rule_ref_ids, c') => on_builder (add_sequence_rule rule_ref_ids) c'
      end
  | OrFormat elements _ =>
      match convert_or_elements Convert_Visit elements [] c with
      | (ResultErr e, c') => (ResultErr e, c')
      | (ResultOk sequence_ids, c') => on_builder (add_or_rule sequence_ids) c'
      end
  | TagFormat_ (mkTagFormat begin content end_strs) =>
      match Convert_Visit content c with
      | (ResultErr e, c') => (ResultErr e, c')
      | (ResultOk sub_rule_id, c') =>
          on_builder (TagExcl.lower_tag begin end_strs sub_rule_id) c'
      end
  | TriggeredTagsFormat triggers tags excludes at_least_one stop_after_first ends =>
      match convert_triggered_tags Convert_Visit tag_begin tag_content triggers tags
              0%nat (map (fun _ => []) triggers) [] c with
      | (ResultErr e, c') => (ResultErr e, c')
      | (ResultOk (trigger_to_tag_ids, tag_content_rule_ids), c') =>
          on_builder
            (AssembleTriggeredTags ext triggers
               (map (fun t => (tag_begin t, tag_end t)) tags)
               excludes at_least_one stop_after_first ends
               trigger_to_tag_ids tag_content_rule_ids) c'
      end
  | TagsWithSeparatorFormat tags separator at_least_one stop_after_first ends =>
      match convert_separator_tags Convert_Visit_Tag tags [] c with
      | (ResultErr e, c') => (ResultErr e, c')
      | (ResultOk choice_ids, c') =>
          on_builder
            (add_separator_rules separator at_least_one stop_after_first ends choice_ids) c'
      end
  end.

(** The fingerprints [Visit] can compute while it lowers a format: the
    format's own, then those of the formats nested in it. *)
Fixpoint all_fingerprints (format : Format) {struct format} : list string :=
  Compute format ::
  match format with
  | SequenceFormat elements _ => flat_map all_fingerprints elements
  | OrFormat elements _ => flat_map all_fingerprints elements
  | TagFormat_ (mkTagFormat _ content _) => all_fingerprints content
  | TriggeredTagsFormat _ tags _ _ _ _ =>
      flat_map (fun t => match t with mkTagFormat _ content _ => all_fingerprints content end)
               tags
  | TagsWithSeparatorFormat tags _ _ _ _ => flat_map tag_fingerprints tags
  | _ => []
  end
with tag_fingerprints (tag : TagFormat) {struct tag} : list string :=
  serialize ext (Fingerprint_Tag tag) ::
  match tag with mkTagFormat _ content _ => all_fingerprints content end.

Definition nested_fingerprints (format : Format) : list string :=
  tl (all_fingerprints format).

Definition empty_converter : Converter := mkConverter empty_builder [].

Definition Convert (structural_tag : Format) : Result Grammar Halt :=
  match Convert_Visit structural_tag empty_converter with
  | (ResultErr e, _) => ResultErr e
  | (ResultOk root_rule_id, c) =>
      ResultOk (TagExcl.AddRootRuleAndGetGrammar (grammar_builder_ c) root_rule_id)
  end.

(** Lowering a list of formats one after the other, whatever each returns. *)
Fixpoint visit_all (formats : list Format) (c : Converter) : Converter :=
  match formats with
  | [] => c
  | f :: rest => visit_all rest (snd (Convert_Visit f c))
  end.

End Converter.

End TagDedup.


(** ** Reading a lowering's outcome *)

Module Outcome.




End Outcome.
Import Outcome.


(** ** The sequence rule of the analyzer, as a predicate *)

Module SequenceRule.

(** An element that, as its own visit leaves it, is unlimited and is not
    excused by excludes (copy with [IsExcluded]). *)
Definition unlimited_without_excludes
    (visit : TagExcl.Format -> option ISTError * TagExcl.Format) (e : TagExcl.Format) : bool :=
  let e' := snd (visit e) in TagExcl.IsUnlimited e' && negb (TagExcl.IsExcluded e').

(** An element that, as its own visit leaves it, is unlimited (copy
    without [IsExcluded]). *)
Definition unlimited
    (visit : TagDedup.Format -> option ISTError * TagDedup.Format) (e : TagDedup.Format) : bool :=
  TagDedup.IsUnlimited (snd (visit e)).

(** Sequences used in the examples. *)
Definition excluded_text_then_const : TagDedup.Format :=
  TagDedup.SequenceFormat
    [TagDedup.AnyTextFormat ["</s>"] []; TagDedup.ConstStringFormat "a"] false.

Definition const_then_open_tag : TagExcl.Format :=
  TagExcl.SequenceFormat
    [TagExcl.ConstStringFormat "a";
     TagExcl.TagFormat_ (TagExcl.mkTagFormat "<t>" (TagExcl.AnyTextFormat [] []) [""])] false.

Definition text_then_const : TagExcl.Format :=
  TagExcl.SequenceFormat
    [TagExcl.AnyTextFormat [] []; TagExcl.ConstStringFormat "a"] false.

End SequenceRule.
Import SequenceRule.


(** ** The fingerprint cache, as an order on converter states *)

Module CacheOrder.

Import TagDedup.

(** Every entry [c1] can find, [c2] finds with the same rule id. *)
Definition cache_extends (c1 c2 : Converter) : Prop :=
  forall fp id, cache_lookup (fingerprint_cache_ c1) fp = Some id ->
                cache_lookup (fingerprint_cache_ c2) fp = Some id.

(** What a step of the converter may do to the cache: keep every entry,
    and add entries only under the fingerprints [fps]. *)
Definition cache_step {R : Type} (run : Converter -> R * Converter) (fps : list string) : Prop :=
  forall c,
    cache_extends c (snd (run c)) /\
    (forall fp, cache_lookup (fingerprint_cache_ c) fp = None -> ~ In fp fps ->
                cache_lookup (fingerprint_cache_ (snd (run c))) fp = None).

Definition sample_sequence : Format :=
  SequenceFormat [ConstStringFormat "a"; ConstStringFormat "b"] false.

End CacheOrder.
Import CacheOrder.


(** ** json_schema_converter.cc: SchemaParser

    [Parse] with the parsers of integer, number, boolean, null, const,
    enum and [$ref] schemas.  The parsers that recurse into subschemas
    (anyOf/oneOf, allOf, type arrays, string, array, object) are taken
    together as one parameter; no statement below reaches them.  A failed
    [XGRAMMAR_CHECK] throws: such a call returns [None]. *)

Module SchemaParser.

Inductive SchemaErrorType : Type :=
| kInvalidSchema
| kUnsatisfiableSchema.

(** [TypedError<SchemaErrorType>] *)
Record SchemaError : Type := mkSchemaError {
  error_type : SchemaErrorType;
  what : string
}.

Record IntegerSpec : Type := mkIntegerSpec {
  int_minimum : option Z;
  int_maximum : option Z;
  int_exclusive_minimum : option Z;
  int_exclusive_maximum : option Z
}.

Record NumberSpec : Type := mkNumberSpec {
  num_minimum : option Q;
  num_maximum : option Q;
  num_exclusive_minimum : option Q;
  num_exclusive_maximum : option Q
}.

(** The kinds of schema parsed by the parameter. *)
Inductive CompoundKind : Type :=
| kAnyOf | kAllOf | kTypeArray | kString | kArray | kObject.

Inductive Spec (Compound : Type) : Type :=
| IntegerSpec_ (spec : IntegerSpec)
| NumberSpec_ (spec : NumberSpec)
| BooleanSpec
| NullSpec
| AnySpec
| ConstSpec (json_value : string)
| EnumSpec (json_values : list string)
| RefSpec (uri : string)
| CompoundSpec (spec : Compound).

Arguments BooleanSpec {Compound}.
Arguments NullSpec {Compound}.
Arguments AnySpec {Compound}.
Arguments IntegerSpec_ {Compound} spec.
Arguments NumberSpec_ {Compound} spec.
Arguments ConstSpec {Compound} json_value.
Arguments EnumSpec {Compound} json_values.
Arguments RefSpec {Compound} uri.
Arguments CompoundSpec {Compound} spec.

(** [SchemaSpec::Make(spec, cache_key, rule_name_hint)] *)
Record SchemaSpec (Compound : Type) : Type := Make {
  spec : Spec Compound;
  cache_key : string;
  rule_name_hint : string
}.

Definition kInt64Max : Z := 9223372036854775807.
Definition kInt64Min : Z := -9223372036854775808.

(** [static_cast<double>] of an [int64_t]: exact below 2^53, otherwise
    rounded to 53 significant bits, ties to even. *)
Definition double_of_int64 (z : Z) : Q :=
  let a := Z.abs z in
  if (a <? 2 ^ 53)%Z then inject_Z z
  else
    let e := (Z.log2 a - 52)%Z in
    let q := (a / 2 ^ e)%Z in
    let r := (a mod 2 ^ e)%Z in
    let half := (2 ^ (e - 1))%Z in
    let q' := if (r <? half)%Z then q
              else if (half <? r)%Z then (q + 1)%Z
              else if Z.even q then q else (q + 1)%Z in
    inject_Z (Z.sgn z * q' * 2 ^ e).

Definition invalid {T} (msg : string) : option (Result T SchemaError) :=
  Some (ResultErr (mkSchemaError kInvalidSchema msg)).

Definition unsatisfiable {T} (msg : string) : option (Result T SchemaError) :=
  Some (ResultErr (mkSchemaError kUnsatisfiableSchema msg)).

(** The lambda [checkAndConvertIntegerBound] of [ParseInteger].
    [PROBLEMATIC_MIN] and [PROBLEMATIC_MAX] are the doubles -2^63 and
    2^63, and so are the int64 limits cast to double. *)
Definition checkAndConvertIntegerBound (v : value) : option (Result Z SchemaError) :=
  match v with
  | JInt64 z => Some (ResultOk z)
  | JDouble val =>
      if negb (Qeq_bool val (inject_Z (Qfloor val))) then
        invalid "Integer constraint must be a whole number"
      else if Qeq_bool val (inject_Z (- 2 ^ 63)) then None
      else if Qeq_bool val (inject_Z (2 ^ 63)) then None
      else if negb (Qle_bool val (inject_Z (2 ^ 63))) then None
      else if negb (Qle_bool (inject_Z (- 2 ^ 63)) val) then None
      else Some (ResultOk (Qfloor val))
  | _ => invalid "Value must be a number"
  end.

(** One "if (schema.count(key)) { ... }" block of a bound: the bound
    read, or the early return. *)
Definition read_bound {T} (convert : value -> option (Result T SchemaError))
    (key : string) (schema : list (string * value))
    : option (Result (option T) SchemaError) :=
  match find key schema with
  | None => Some (ResultOk None)
  | Some v =>
      match convert v with
      | None => None
      | Some (ResultErr e) => Some (ResultErr e)
      | Some (ResultOk x) => Some (ResultOk (Some x))
      end
  end.

Definition value_or {T} (o : option T) (d : T) : T :=
  match o with Some x => x | None => d end.

Definition ParseInteger (schema : list (string * value))
    : option (Result IntegerSpec SchemaError) :=
  match read_bound checkAndConvertIntegerBound "minimum" schema with
  | None => None
  | Some (ResultErr e) => Some (ResultErr e)
  | Some (ResultOk minimum) =>
  match read_bound checkAndConvertIntegerBound "maximum" schema with
  | None => None
  | Some (ResultErr e) => Some (ResultErr e)
  | Some (ResultOk maximum) =>
  match read_bound checkAndConvertIntegerBound "exclusiveMinimum" schema with
  | None => None
  | Some (ResultErr e) => Some (ResultErr e)
  | Some (ResultOk exclusive_minimum) =>
  if match exclusive_minimum with Some val => (val =? kInt64Max)%Z | None => false end then
    unsatisfiable "exclusiveMinimum would cause integer overflow"
  else
  match read_bound checkAndConvertIntegerBound "exclusiveMaximum" schema with
  | None => None
  | Some (ResultErr e) => Some (ResultErr e)
  | Some (ResultOk exclusive_maximum) =>
  if match exclusive_maximum with Some val => (val =? kInt64Min)%Z | None => false end then
    unsatisfiable "exclusiveMaximum would cause integer underflow"
  else
    let effective_min := value_or minimum kInt64Min in
    let effective_max := value_or maximum kInt64Max in
    let effective_min :=
      match exclusive_minimum with
      | Some x => Z.max effective_min (x + 1)
      | None => effective_min
      end in
    let effective_max :=
      match exclusive_maximum with
      | Some x => Z.min effective_max (x - 1)
      | None => effective_max
      end in
    if (effective_min >? effective_max)%Z then
      unsatisfiable "Invalid range: minimum greater than maximum"
    else
      Some (ResultOk (mkIntegerSpec minimum maximum exclusive_minimum exclusive_maximum))
  end end end end.

(** Doubles with the two infinities, for the effective bounds of
    [ParseNumber]. *)
Inductive Double : Type :=
| NegInfinity
| Finite (d : Q)
| PosInfinity.

Definition double_ltb (a b : Double) : bool :=
  match a, b with
  | NegInfinity, NegInfinity => false
  | NegInfinity, _ => true
  | Finite _, NegInfinity => false
  | Finite x, Finite y => negb (Qle_bool y x)
  | Finite _, PosInfinity => true
  | PosInfinity, _ => false
  end.

(** [std::max(a, b)] is [(a < b) ? b : a]; [std::min(a, b)] is
    [(b < a) ? b : a]. *)
Definition double_max (a b : Double) : Double := if double_ltb a b then b else a.
Definition double_min (a b : Double) : Double := if double_ltb b a then b else a.

(** The lambda [getDouble] of [ParseNumber]. *)
Definition getDouble (v : value) : option (Result Q SchemaError) :=
  match v with
  | JDouble d => Some (ResultOk d)
  | JInt64 z => Some (ResultOk (double_of_int64 z))
  | _ => invalid "Value must be a number"
  end.

Definition ParseNumber (schema : list (string * value))
    : option (Result NumberSpec SchemaError) :=
  match read_bound getDouble "minimum" schema with
  | None => None
  | Some (ResultErr e) => Some (ResultErr e)
  | Some (ResultOk minimum) =>
  match read_bound getDouble "maximum" schema with
  | None => None
  | Some (ResultErr e) => Some (ResultErr e)
  | Some (ResultOk maximum) =>
  match read_bound getDouble "exclusiveMinimum" schema with
  | None => None
  | Some (ResultErr e) => Some (ResultErr e)
  | Some (ResultOk exclusive_minimum) =>
  match read_bound getDouble "exclusiveMaximum" schema with
  | None => None
  | Some (ResultErr e) => Some (ResultErr e)
  | Some (ResultOk exclusive_maximum) =>
    let effective_min :=
      match minimum with Some x => Finite x | None => NegInfinity end in
    let effective_max :=
      match maximum with Some x => Finite x | None => PosInfinity end in
    let effective_min :=
      match exclusive_minimum with
      | Some x => double_max effective_min (Finite x)
      | None => effective_min
      end in
    let effective_max :=
      match exclusive_maximum with
      | Some x => double_min effective_max (Finite x)
      | None => effective_max
      end in
    if double_ltb effective_max effective_min then
      unsatisfiable "Invalid range: minimum greater than maximum"
    else
      Some (ResultOk (mkNumberSpec minimum maximum exclusive_minimum exclusive_maximum))
  end end end end.

Section Parser.

Variable Compound : Type.
(** [picojson::value::serialize] *)
Variable serialize : value -> string.
Definition kSkippedKeys : list string :=
  ["title"; "default"; "description"; "examples"; "deprecated"; "readOnly"; "writeOnly";
   "$comment"; "$schema"].

(** [std::sort] by key of the entries that are kept. *)
Fixpoint insert_by_key (e : string * string) (sorted : list (string * string))
    : list (string * string) :=
  match sorted with
  | [] => [e]
  | x :: rest =>
      if String.ltb (fst e) (fst x) then e :: sorted else x :: insert_by_key e rest
  end.

Definition sort_by_key (entries : list (string * string)) : list (string * string) :=
  fold_right insert_by_key [] entries.

Definition join_with_commas (parts : list string) : string :=
  match parts with
  | [] => ""
  | first :: rest => fold_left (fun acc part => acc ++ "," ++ part) rest first
  end.

(** The canonical text of a schema without its metadata keys.  The key
    of every member value is computed where the member is met, before
    the entries are filtered and sorted. *)
Fixpoint ComputeCacheKey (schema : value) : string :=
  match schema with
  | JObject members =>
      let entries :=
        (fix keys (ms : list (string * value)) : list (string * string) :=
           match ms with
           | [] => []
           | (k, v) :: rest => (k, ComputeCacheKey v) :: keys rest
           end) members in
      let sorted_kv :=
        sort_by_key
          (filter (fun e => negb (existsb (String.eqb (fst e)) kSkippedKeys)) entries) in
      "{" ++
      join_with_commas (map (fun e => dquote ++ fst e ++ dquote ++ ":" ++ snd e) sorted_kv)
      ++ "}"
  | JArray items =>
      "[" ++
      join_with_commas
        ((fix keys (vs : list value) : list string :=
            match vs with
            | [] => []
            | v :: rest => ComputeCacheKey v :: keys rest
            end) items)
      ++ "]"
  | _ => serialize schema
  end.

(** [schema_cache_] *)
Definition SchemaCache : Type := list (string * SchemaSpec Compound).

Fixpoint cache_find (key : string) (cache : SchemaCache) : option (SchemaSpec Compound) :=
  match cache with
  | [] => None
  | (k, v) :: rest => if String.eqb k key then Some v else cache_find key rest
  end.

(** [schema_cache_[cache_key] = spec] *)
Fixpoint cache_set (key : string) (v : SchemaSpec Compound) (cache : SchemaCache)
    : SchemaCache :=
  match cache with
  | [] => [(key, v)]
  | (k, old) :: rest =>
      if String.eqb k key then (k, v) :: rest else (k, old) :: cache_set key v rest
  end.

Variable ParseCompound :
  CompoundKind -> list (string * value) -> string -> SchemaCache
  -> option (Result Compound SchemaError) * SchemaCache.

Definition ParseConst (schema : list (string * value)) : Result (Spec Compound) SchemaError :=
  match find "const" schema with
  | Some v => ResultOk (ConstSpec (serialize v))
  | None => ResultOk (ConstSpec "")
  end.

Definition ParseEnum (schema : list (string * value)) : Result (Spec Compound) SchemaError :=
  match find "enum" schema with
  | Some (JArray values) => ResultOk (EnumSpec (map serialize values))
  | _ => ResultErr (mkSchemaError kInvalidSchema "enum must be an array")
  end.

Definition ParseRef (schema : list (string * value)) : Result (Spec Compound) SchemaError :=
  match find "$ref" schema with
  | Some (JString uri) => ResultOk (RefSpec uri)
  | _ => ResultErr (mkSchemaError kInvalidSchema "$ref must be a string")
  end.

Definition lift {T} (wrap : T -> Spec Compound) (r : option (Result T SchemaError))
    : option (Result (Spec Compound) SchemaError) :=
  match r with
  | None => None
  | Some (ResultErr e) => Some (ResultErr e)
  | Some (ResultOk x) => Some (ResultOk (wrap x))
  end.

Definition parse_compound (kind : CompoundKind) (schema : list (string * value))
    (hint : string) (cache : SchemaCache)
    : option (Result (Spec Compound) SchemaError) * SchemaCache :=
  let (r, cache') := ParseCompound kind schema hint cache in
  (lift CompoundSpec r, cache').

(** The dispatch of [Parse] on an object schema: the spec, before it is
    wrapped and cached. *)
Definition parse_object (schema_obj : list (string * value)) (hint : string)
    (default_type : option string) (cache : SchemaCache)
    : option (Result (Spec Compound) SchemaError) * SchemaCache :=
  if count "$ref" schema_obj then (Some (ParseRef schema_obj), cache)
  else if count "const" schema_obj then (Some (ParseConst schema_obj), cache)
  else if count "enum" schema_obj then (Some (ParseEnum schema_obj), cache)
  else if count "anyOf" schema_obj || count "oneOf" schema_obj then
    parse_compound kAnyOf schema_obj hint cache
  else if count "allOf" schema_obj then parse_compound kAllOf schema_obj hint cache
  else if count "type" schema_obj ||
          match default_type with Some _ => true | None => false end then
    match find "type" schema_obj with
    | Some (JArray _) => parse_compound kTypeArray schema_obj hint cache
    | type_value =>
        match
          match type_value with
          | Some (JString t) => ResultOk t
          | Some _ => ResultErr (mkSchemaError kInvalidSchema "Type should be a string")
          | None => ResultOk (value_or default_type "")
          end
        with
        | ResultErr e => (Some (ResultErr e), cache)
        | ResultOk type =>
            if String.eqb type "integer" then
              (lift IntegerSpec_ (ParseInteger schema_obj), cache)
            else if String.eqb type "number" then
              (lift NumberSpec_ (ParseNumber schema_obj), cache)
            else if String.eqb type "string" then parse_compound kString schema_obj hint cache
            else if String.eqb type "boolean" then (Some (ResultOk BooleanSpec), cache)
            else if String.eqb type "null" then (Some (ResultOk NullSpec), cache)
            else if String.eqb type "array" then parse_compound kArray schema_obj hint cache
            else if String.eqb type "object" then parse_compound kObject schema_obj hint cache
            else
              (invalid ("Unsupported type " ++ dquote ++ type ++ dquote), cache)
        end
    end
  else if count "properties" schema_obj || count "additionalProperties" schema_obj ||
          count "unevaluatedProperties" schema_obj then
    parse_compound kObject schema_obj hint cache
  else if count "items" schema_obj || count "prefixItems" schema_obj ||
          count "unevaluatedItems" schema_obj then
    parse_compound kArray schema_obj hint cache
  else (Some (ResultOk AnySpec), cache).

Definition Parse (schema : value) (rule_name_hint : string) (default_type : option string)
    (cache : SchemaCache)
    : option (Result (SchemaSpec Compound) SchemaError) * SchemaCache :=
  let key := ComputeCacheKey schema in
  match cache_find key cache with
  | Some cached => (Some (ResultOk cached), cache)
  | None =>
      match schema with
      | JBool false =>
          (unsatisfiable "Schema 'false' cannot accept any value", cache)
      | JBool true =>
          let made := Make (@AnySpec Compound) key rule_name_hint in
          (Some (ResultOk made), cache_set key made cache)
      | JObject schema_obj =>
          match parse_object schema_obj rule_name_hint default_type cache with
          | (None, cache') => (None, cache')
          | (Some (ResultErr e), cache') => (Some (ResultErr e), cache')
          | (Some (ResultOk result), cache') =>
              let made := Make result key rule_name_hint in
              (Some (ResultOk made), cache_set key made cache')
          end
      | _ =>
          (invalid ("Schema should be an object or bool, but got " ++ serialize schema), cache)
      end
  end.

End Parser.


(** The error kind of an outcome, if it is an error. *)
Definition error_kind {T} (r : option (Result T SchemaError)) : option SchemaErrorType :=
  match r with
  | Some (ResultErr e) => Some (error_type e)
  | _ => None
  end.

(** The bound under [key] as [convert] reads it, when it is there and
    is read without an error. *)
Definition bound_of {T} (convert : value -> option (Result T SchemaError))
    (key : string) (schema : list (string * value)) : option T :=
  match read_bound convert key schema with
  | Some (ResultOk b) => b
  | _ => None
  end.

(** The bound under [key] is absent, or is read without an error. *)
Definition readable {T} (convert : value -> option (Result T SchemaError))
    (key : string) (schema : list (string * value)) : bool :=
  match read_bound convert key schema with
  | Some (ResultOk _) => true
  | _ => false
  end.





(** Stand-ins for the examples. *)
Definition sample_compound (kind : CompoundKind) (schema : list (string * value))
    (hint : string) (cache : SchemaCache unit)
    : option (Result unit SchemaError) * SchemaCache unit :=
  (Some (ResultOk tt), cache).

Definition sample_parse (schema : value)
    : option (Result (SchemaSpec unit) SchemaError) * SchemaCache unit :=
  Parse sample_serialize sample_compound schema "root" None [].




End SchemaParser.


(** ** compiler.cc: the token-mask computer

    [GrammarMatcherForTokenMaskCache] derives from [EarleyParser], whose
    code is not part of compiler.cc: the parser is taken through the four
    operations the mask computer calls.  [Advance] returns the parser
    with the new state set pushed, or [None] where the C++ returns false
    and leaves the parser as it was. *)

Module TokenMask.

Local Open Scope Z_scope.
Local Open Scope list_scope.

(** A decoded token, [std::string]. *)
Definition Token : Type := list ascii.

Inductive StoreType : Type := kAccepted | kRejected | kAcceptedBitset.

(** The members of [AdaptiveTokenMask] that compiler.cc reads and
    writes.  [accepted_bitset] is a [DynamicBitset] over token ids. *)
Record AdaptiveTokenMask : Type := mkAdaptiveTokenMask {
  store_type : StoreType;
  accepted_indices : list Z;
  rejected_indices : list Z;
  accepted_bitset : Z -> bool;
  uncertain_indices : list Z
}.

Definition bitset_set (b : Z -> bool) (i : Z) : Z -> bool :=
  fun j => if j =? i then true else b j.

Definition bitset_reset (b : Z -> bool) (i : Z) : Z -> bool :=
  fun j => if j =? i then false else b j.

(** [std::vector<int32_t>] of the integers of [from, to). *)
Definition range (from to : Z) : list Z :=
  map (fun k => from + Z.of_nat k) (seq 0 (Z.to_nat (to - from))).

(** *** grammar_functor.cc: CrossingCacheManagerImpl

    Neither [max_cache_memory_size_] nor [current_cache_memory_size_] is
    declared in the text: the budget is the [size_t] that the
    constructor takes, and the recorded size is a signed 64-bit integer,
    since the eviction loop compares it with
    [static_cast<int64_t>(max_cache_memory_size_)]. *)

Definition CacheKey : Type := (Z * Z * Z)%type.

Definition key_eqb (a b : CacheKey) : bool :=
  let '(a1, a2, a3) := a in
  let '(b1, b2, b3) := b in
  (a1 =? b1) && (a2 =? b2) && (a3 =? b3).

(** [cache_list_], most recently used first; [cache_] indexes it. *)
Record CrossingCacheManager : Type := mkCrossingCacheManager {
  cache_list_ : list (CacheKey * AdaptiveTokenMask);
  current_cache_memory_size_ : Z
}.

(** [static_cast<int64_t>] of a [size_t]: from 2^63 on the value is
    negative, and [static_cast<std::size_t>(-1)], the budget of a
    compiler without a memory limit, is -1. *)
Definition int64_of_size (x : Z) : Z :=
  let r := x mod 2 ^ 64 in
  if r <? 2 ^ 63 then r else r - 2 ^ 64.

Section CrossingCache.

Variable MemorySize : AdaptiveTokenMask -> Z.
Variable max_cache_memory_size_ : Z.

Fixpoint cache_lookup (key : CacheKey) (l : list (CacheKey * AdaptiveTokenMask))
    : option AdaptiveTokenMask :=
  match l with
  | [] => None
  | (k, v) :: rest => if key_eqb k key then Some v else cache_lookup key rest
  end.

Fixpoint cache_remove (key : CacheKey) (l : list (CacheKey * AdaptiveTokenMask))
    : list (CacheKey * AdaptiveTokenMask) :=
  match l with
  | [] => []
  | (k, v) :: rest => if key_eqb k key then rest else (k, v) :: cache_remove key rest
  end.

Definition GetCache (m : CrossingCacheManager) (fsm_hash fsm_new_node_id tokenizer_hash : Z)
    : option AdaptiveTokenMask * CrossingCacheManager :=
  let key := (fsm_hash, fsm_new_node_id, tokenizer_hash) in
  match cache_lookup key (cache_list_ m) with
  | None => (None, m)
  | Some v =>
      (Some v,
       mkCrossingCacheManager ((key, v) :: cache_remove key (cache_list_ m))
         (current_cache_memory_size_ m))
  end.

(** The eviction loop of [AddCache], on the list read from its end
    ([lru_first] is [cache_list_] reversed): drop the least recently
    used entry while the recorded size is over the budget.  The loop
    does not look whether an entry is left: [None] is the pass that
    reads the last entry of an empty list. *)
Fixpoint evict (lru_first : list (CacheKey * AdaptiveTokenMask)) (size : Z)
    : option (list (CacheKey * AdaptiveTokenMask) * Z) :=
  match lru_first with
  | [] =>
      if size >? int64_of_size max_cache_memory_size_ then None else Some ([], size)
  | (k, v) :: rest =>
      if size >? int64_of_size max_cache_memory_size_ then evict rest (size - MemorySize v)
      else Some (rev lru_first, size)
  end.

(** [None] is an eviction loop that runs past the last entry; the cache
    is returned unchanged where the C++ returns false. *)
Definition AddCache (m : CrossingCacheManager) (fsm_hash fsm_new_node_id tokenizer_hash : Z)
    (token_mask : AdaptiveTokenMask) : option CrossingCacheManager :=
  let key := (fsm_hash, fsm_new_node_id, tokenizer_hash) in
  match cache_lookup key (cache_list_ m) with
  | Some _ => Some m
  | None =>
      if MemorySize token_mask >? max_cache_memory_size_ then Some m
      else
        let l := (key, token_mask) :: cache_list_ m in
        let size := current_cache_memory_size_ m + MemorySize token_mask in
        match evict (rev l) size with
        | None => None
        | Some (l', size') => Some (mkCrossingCacheManager l' size')
        end
  end.

End CrossingCache.

(** *** The matcher: the parser and the temporary vectors *)

Record Matcher (Parser : Type) : Type := mkMatcher {
  parser : Parser;
  tmp_accepted_indices_ : list Z;
  tmp_rejected_indices_ : list Z;
  tmp_uncertain_indices_ : list Z;
  tmp_rejected_by_lookahead_indices_ : list Z;
  tmp_accepted_by_lookahead_indices_ : list Z;
  tmp_can_reach_end_stack_ : list bool;
  tmp_can_reach_end_prefix_or_stack_ : list bool
}.

(** The local variables that live across the iterations of the token
    loop. *)
Record Loop (Parser : Type) : Type := mkLoop {
  matcher : Matcher Parser;
  prev_matched_size : Z;
  last_rejected_range : Z;
  prev_token : option Token
}.

(** How the inner loop of [IsTokenPassLookaheadAssertion] ends. *)
Inductive Scan (Parser : Type) : Type :=
| Completed (pos : Z) (p : Parser)
| Stopped (last_accept_pos : Z) (p : Parser).

Arguments Completed {Parser} pos p.
Arguments Stopped {Parser} last_accept_pos p.

(** [std::mismatch(...).first - token.begin()] *)
Fixpoint lcp_len (token prev : Token) : Z :=
  match token, prev with
  | a :: token', b :: prev' => if Ascii.eqb a b then 1 + lcp_len token' prev' else 0
  | _, _ => 0
  end.

(** [v.erase(v.end() - n, v.end())] *)
Definition erase_last {A} (n : Z) (v : list A) : list A :=
  firstn (List.length v - Z.to_nat n) v.

Section Computer.

(** [EarleyParser] *)
Variable Parser : Type.
Variable Advance : Parser -> ascii -> option Parser.
Variable IsCompleted : Parser -> bool.
(** [PushStateAndExpand] of the look-ahead state
    [ParserState(-1, lookahead_assertion_id, 0, kNoPrevInputPos, 0)] *)
Variable PushStateAndExpand : Parser -> Z -> Parser.
Variable PopLastStates : Parser -> Z -> Parser.

(** [grammar_->GetRule(init_rule_id_)] *)
Variable lookahead_assertion_id : Z.
Variable is_exact_lookahead : bool.

(** [tokenizer_info_] *)
Variable sorted_decoded_vocab : list (Z * Token).
Variable subtree_nodes_range : list Z.

Definition token_at (i : Z) : Token :=
  snd (nth (Z.to_nat i) sorted_decoded_vocab (0, [])).

Definition token_id_at (i : Z) : Z :=
  fst (nth (Z.to_nat i) sorted_decoded_vocab (0, [])).

Definition subtree_end (i : Z) : Z := nth (Z.to_nat i) subtree_nodes_range 0.

(** The inner loop of [IsTokenPassLookaheadAssertion], over the bytes
    [token[pos..]]. *)
Fixpoint lookahead_scan (p : Parser) (tail : Token) (pos last_accept_pos : Z)
    : Scan Parser :=
  match tail with
  | [] => Stopped last_accept_pos p
  | ch :: tail' =>
      match Advance p ch with
      | None => Stopped last_accept_pos p
      | Some p' =>
          if IsCompleted p' then Completed pos p'
          else lookahead_scan p' tail' (pos + 1) pos
      end
  end.

(** The outer loop, for [i] from [n - 1] down to 0. *)
Fixpoint lookahead_positions (token : Token) (can_reach_end_stack : list bool)
    (n : nat) (p : Parser) : (bool * bool) * Parser :=
  match n with
  | O => ((false, false), PopLastStates p 1)
  | S n' =>
      let i := Z.of_nat n' in
      if negb (nth n' can_reach_end_stack false) then
        lookahead_positions token can_reach_end_stack n' p
      else
        match lookahead_scan p (skipn n' token) i (i - 1) with
        | Completed pos p' => ((true, true), PopLastStates p' (pos - i + 2))
        | Stopped last_accept_pos p' =>
            if last_accept_pos =? Z.of_nat (List.length token) - 1 then
              ((true, false), PopLastStates p' (last_accept_pos - i + 2))
            else
              lookahead_positions token can_reach_end_stack n'
                (PopLastStates p' (last_accept_pos - i + 1))
        end
  end.

(** Returns [({acceptable, can reach end}, parser)]. *)
Definition IsTokenPassLookaheadAssertion (token : Token) (can_reach_end_stack : list bool)
    (p : Parser) : (bool * bool) * Parser :=
  if lookahead_assertion_id =? -1 then ((true, true), p)
  else
    let p1 := PushStateAndExpand p lookahead_assertion_id in
    if IsCompleted p1 then ((true, true), PopLastStates p1 1)
    else lookahead_positions token can_reach_end_stack (List.length can_reach_end_stack) p1.

Definition on_matcher (f : Matcher Parser -> Matcher Parser) (l : Loop Parser) : Loop Parser :=
  mkLoop (f (matcher l)) (prev_matched_size l) (last_rejected_range l) (prev_token l).

Definition push_accepted (i : Z) (m : Matcher Parser) : Matcher Parser :=
  mkMatcher (parser m) (tmp_accepted_indices_ m ++ [i]) (tmp_rejected_indices_ m)
    (tmp_uncertain_indices_ m) (tmp_rejected_by_lookahead_indices_ m)
    (tmp_accepted_by_lookahead_indices_ m) (tmp_can_reach_end_stack_ m)
    (tmp_can_reach_end_prefix_or_stack_ m).

Definition push_rejected (js : list Z) (m : Matcher Parser) : Matcher Parser :=
  mkMatcher (parser m) (tmp_accepted_indices_ m) (tmp_rejected_indices_ m ++ js)
    (tmp_uncertain_indices_ m) (tmp_rejected_by_lookahead_indices_ m)
    (tmp_accepted_by_lookahead_indices_ m) (tmp_can_reach_end_stack_ m)
    (tmp_can_reach_end_prefix_or_stack_ m).

Definition push_uncertain (i : Z) (m : Matcher Parser) : Matcher Parser :=
  mkMatcher (parser m) (tmp_accepted_indices_ m) (tmp_rejected_indices_ m)
    (tmp_uncertain_indices_ m ++ [i]) (tmp_rejected_by_lookahead_indices_ m)
    (tmp_accepted_by_lookahead_indices_ m) (tmp_can_reach_end_stack_ m)
    (tmp_can_reach_end_prefix_or_stack_ m).

Definition push_rejected_by_lookahead (js : list Z) (m : Matcher Parser) : Matcher Parser :=
  mkMatcher (parser m) (tmp_accepted_indices_ m) (tmp_rejected_indices_ m)
    (tmp_uncertain_indices_ m) (tmp_rejected_by_lookahead_indices_ m ++ js)
    (tmp_accepted_by_lookahead_indices_ m) (tmp_can_reach_end_stack_ m)
    (tmp_can_reach_end_prefix_or_stack_ m).

Definition push_accepted_by_lookahead (i : Z) (m : Matcher Parser) : Matcher Parser :=
  mkMatcher (parser m) (tmp_accepted_indices_ m) (tmp_rejected_indices_ m)
    (tmp_uncertain_indices_ m) (tmp_rejected_by_lookahead_indices_ m)
    (tmp_accepted_by_lookahead_indices_ m ++ [i]) (tmp_can_reach_end_stack_ m)
    (tmp_can_reach_end_prefix_or_stack_ m).

Definition set_parser (p : Parser) (m : Matcher Parser) : Matcher Parser :=
  mkMatcher p (tmp_accepted_indices_ m) (tmp_rejected_indices_ m)
    (tmp_uncertain_indices_ m) (tmp_rejected_by_lookahead_indices_ m)
    (tmp_accepted_by_lookahead_indices_ m) (tmp_can_reach_end_stack_ m)
    (tmp_can_reach_end_prefix_or_stack_ m).

(** The parser advanced by one byte: both stacks grow by one entry. *)
Definition push_reach (p : Parser) (m : Matcher Parser) : Matcher Parser :=
  let completed := IsCompleted p in
  mkMatcher p (tmp_accepted_indices_ m) (tmp_rejected_indices_ m)
    (tmp_uncertain_indices_ m) (tmp_rejected_by_lookahead_indices_ m)
    (tmp_accepted_by_lookahead_indices_ m) (tmp_can_reach_end_stack_ m ++ [completed])
    (tmp_can_reach_end_prefix_or_stack_ m ++
       [completed || last (tmp_can_reach_end_prefix_or_stack_ m) false]).

(** "Case 2" of the common-prefix step: roll the parser and both stacks
    back by [n] bytes. *)
Definition rollback (n : Z) (m : Matcher Parser) : Matcher Parser :=
  mkMatcher (PopLastStates (parser m) n) (tmp_accepted_indices_ m) (tmp_rejected_indices_ m)
    (tmp_uncertain_indices_ m) (tmp_rejected_by_lookahead_indices_ m)
    (tmp_accepted_by_lookahead_indices_ m) (erase_last n (tmp_can_reach_end_stack_ m))
    (erase_last n (tmp_can_reach_end_prefix_or_stack_ m)).

(** The "if (prev_token != nullptr)" block: whether the token is still
    a candidate, and the loop variables after the rollback. *)
Definition common_prefix_step (token : Token) (l : Loop Parser) : bool * Loop Parser :=
  match prev_token l with
  | None => (true, l)
  | Some prev =>
      let lcp := lcp_len token prev in
      let accepted := negb (lcp >? prev_matched_size l) in
      let m :=
        if lcp >? prev_matched_size l then matcher l
        else if lcp <? prev_matched_size l then
          rollback (prev_matched_size l - lcp) (matcher l)
        else matcher l in
      (accepted,
       mkLoop m (Z.min (prev_matched_size l) lcp) (last_rejected_range l) (prev_token l))
  end.

(** "Accept the rest chars one by one", over the bytes [token[j..]]. *)
Fixpoint advance_rest (rest : Token) (j : Z) (l : Loop Parser) : bool * Loop Parser :=
  match rest with
  | [] => (true, l)
  | ch :: rest' =>
      match Advance (parser (matcher l)) ch with
      | None => (false, l)
      | Some p' =>
          advance_rest rest' (j + 1)
            (mkLoop (push_reach p' (matcher l)) (j + 1) (last_rejected_range l)
               (prev_token l))
      end
  end.

(** From the common-prefix step to the end of the advance loop: whether
    the whole token was consumed. *)
Definition match_token (token : Token) (l : Loop Parser) : bool * Loop Parser :=
  let (accepted, l1) := common_prefix_step token l in
  let l2 := mkLoop (matcher l1) (prev_matched_size l1) (last_rejected_range l1) (Some token) in
  if accepted then
    advance_rest (skipn (Z.to_nat (prev_matched_size l2)) token) (prev_matched_size l2) l2
  else (false, l2).

(** What [GetTokenMaskWithFirstCharacterCheck] computes before its
    token loop, by [GetPossibleTokenIntervals] and
    [GetSpeculativeCalculation], and the second-slicing bitset of a tag
    dispatch rule. *)
Variable possible_intervals : list (Z * Z).
Variable possible_token_num : Z.
Variable speculative_calculation : bool.
Variable speculative_mask : ascii -> bool.
Variable definite_accepted_bitset : option (Z -> bool).

(** [AdaptiveTokenMask::USE_BITSET_THRESHOLD] *)
Variable USE_BITSET_THRESHOLD : Z.

Definition fill_reject_indices : bool :=
  Z.of_nat (List.length sorted_decoded_vocab) - possible_token_num <? USE_BITSET_THRESHOLD.

Definition isascii (ch : ascii) : bool := (nat_of_ascii ch <? 128)%nat.

(** The "if (speculative_calculation)" block: the token is accepted
    without running the parser. *)
Definition speculative_accepts (i : Z) (token : Token) : bool :=
  speculative_calculation &&
  match definite_accepted_bitset with
  | Some bitset =>
      match token with
      | [] => true
      | ch :: _ => speculative_mask ch && bitset i
      end
  | None => forallb (fun ch => isascii ch && speculative_mask ch) token
  end.

(** Lines 640-666: where token [i] goes once the parser has run on it.
    Returns the loop variables and the value of [i] at the end of the
    iteration. *)
Definition classify (is_root_rule : bool) (i : Z) (token : Token) (accepted : bool)
    (l : Loop Parser) : Loop Parser * Z :=
  let can_reach_end := last (tmp_can_reach_end_prefix_or_stack_ (matcher l)) false in
  if accepted then (on_matcher (push_accepted i) l, i)
  else if can_reach_end && (prev_matched_size l >? 0) then
    let '((lookahead_accepted, lookahead_completed), p') :=
      IsTokenPassLookaheadAssertion token (tmp_can_reach_end_stack_ (matcher l))
        (parser (matcher l)) in
    let l' := on_matcher (set_parser p') l in
    if negb is_root_rule && lookahead_accepted then
      if lookahead_completed || negb is_exact_lookahead then
        (on_matcher (push_uncertain i) l', i)
      else
        (on_matcher (fun m => push_accepted_by_lookahead i (push_accepted i m)) l', i)
    else
      let js := range i (subtree_end i) in
      (on_matcher (fun m => push_rejected_by_lookahead js (push_rejected js m)) l',
       subtree_end i - 1)
  else
    (mkLoop (push_rejected [i] (matcher l)) (prev_matched_size l) (subtree_end i)
       (prev_token l), i).

(** One iteration of the token loop. *)
Definition check_token (is_root_rule : bool) (i : Z) (l : Loop Parser) : Loop Parser * Z :=
  if i <? last_rejected_range l then
    (if fill_reject_indices then on_matcher (push_rejected [i]) l else l, i)
  else
    let token := token_at i in
    if speculative_accepts i token then (on_matcher (push_accepted i) l, i)
    else
      let (accepted, l') := match_token token l in
      classify is_root_rule i token accepted l'.

(** "for (int i = interval.first; i < interval.second; ++i)".  The body
    may move [i] to the end of a subtree; with subtrees that end after
    their root, [second - first] iterations are enough, and [None] is a
    loop that needs more. *)
Fixpoint token_loop (is_root_rule : bool) (n : nat) (second i : Z) (l : Loop Parser)
    : option (Loop Parser) :=
  if i <? second then
    match n with
    | O => None
    | S n' =>
        let (l', i') := check_token is_root_rule i l in
        token_loop is_root_rule n' second (i' + 1) l'
    end
  else Some l.

Fixpoint interval_loop (is_root_rule : bool) (intervals : list (Z * Z)) (l : Loop Parser)
    : option (Loop Parser) :=
  match intervals with
  | [] => Some l
  | interval :: rest =>
      match token_loop is_root_rule (Z.to_nat (snd interval - fst interval))
              (snd interval) (fst interval) l with
      | None => None
      | Some l' =>
          let l'' :=
            match rest with
            | next_interval :: _ =>
                if fill_reject_indices then
                  on_matcher (push_rejected (range (snd interval) (fst next_interval))) l'
                else l'
            | [] => l'
            end in
          interval_loop is_root_rule rest l''
      end
  end.

(** Returns [fill_reject_indices] and the matcher with its temporary
    vectors filled; [None] without an interval to start from. *)
Definition GetTokenMaskWithFirstCharacterCheck (is_root_rule : bool) (m : Matcher Parser)
    : option (bool * Matcher Parser) :=
  match possible_intervals with
  | [] => None
  | first_interval :: _ =>
      let m1 :=
        if negb (fst first_interval =? 0) && fill_reject_indices then
          push_rejected (range 0 (fst first_interval)) m
        else m in
      match interval_loop is_root_rule possible_intervals (mkLoop m1 0 0 None) with
      | None => None
      | Some l =>
          let m2 := set_parser (PopLastStates (parser (matcher l)) (prev_matched_size l))
                      (matcher l) in
          let back := last possible_intervals first_interval in
          let size := Z.of_nat (List.length sorted_decoded_vocab) in
          let m3 :=
            if negb (snd back =? size) && fill_reject_indices then
              push_rejected (range (snd back) size) m2
            else m2 in
          Some (fill_reject_indices, m3)
      end
  end.

(** [IntsetUnion] and [std::set_difference] on sorted vectors, the
    tokenizer's sizes and ids, and the two [AdaptiveTokenMask]
    constructors.  The constructors' code is not in compiler.cc: which
    representation they choose and how they fill it is the parameter;
    the uncertain indices are the vector they are given. *)
Variable IntsetUnion : list Z -> list Z -> list Z.
Variable set_difference : list Z -> list Z -> list Z.
Variable vocab_size : Z.
Variable special_token_ids : list Z.
Variable storage_with_rejected :
  list Z -> list Z -> list Z -> StoreType * list Z * list Z * (Z -> bool).
Variable storage_without_rejected :
  list Z -> list Z -> StoreType * list Z * list Z * (Z -> bool).

Definition AdaptiveTokenMask_with_rejected (accepted rejected uncertain : list Z)
    : AdaptiveTokenMask :=
  let '(st, acc, rej, bits) := storage_with_rejected accepted rejected uncertain in
  mkAdaptiveTokenMask st acc rej bits uncertain.

Definition AdaptiveTokenMask_without_rejected (accepted uncertain : list Z)
    : AdaptiveTokenMask :=
  let '(st, acc, rej, bits) := storage_without_rejected accepted uncertain in
  mkAdaptiveTokenMask st acc rej bits uncertain.

Definition set_all (ids : list Z) (b : Z -> bool) : Z -> bool :=
  fold_left bitset_set ids b.

Definition reset_all (ids : list Z) (b : Z -> bool) : Z -> bool :=
  fold_left bitset_reset ids b.

(** The "switch (cache.store_type)" that ends
    [AdaptCacheWithLookahead]; [cache] has its new uncertain indices. *)
Definition adapt_storage (cache : AdaptiveTokenMask) (m : Matcher Parser)
    : AdaptiveTokenMask :=
  match store_type cache with
  | kAccepted =>
      if Z.of_nat (List.length (accepted_indices cache)) +
         Z.of_nat (List.length (tmp_accepted_indices_ m)) <? USE_BITSET_THRESHOLD then
        mkAdaptiveTokenMask kAccepted
          (IntsetUnion (accepted_indices cache) (tmp_accepted_indices_ m))
          (rejected_indices cache) (accepted_bitset cache) (uncertain_indices cache)
      else
        mkAdaptiveTokenMask kAcceptedBitset []
          (rejected_indices cache)
          (set_all (map token_id_at (tmp_accepted_indices_ m))
             (set_all (map token_id_at (accepted_indices cache)) (fun _ => false)))
          (uncertain_indices cache)
  | kRejected =>
      if Z.of_nat (List.length (rejected_indices cache)) +
         Z.of_nat (List.length (tmp_rejected_indices_ m)) <? USE_BITSET_THRESHOLD then
        mkAdaptiveTokenMask kRejected (accepted_indices cache)
          (IntsetUnion (rejected_indices cache) (tmp_rejected_indices_ m))
          (accepted_bitset cache) (uncertain_indices cache)
      else
        mkAdaptiveTokenMask kAcceptedBitset (accepted_indices cache) []
          (reset_all (map token_id_at (tmp_rejected_indices_ m))
             (reset_all (map token_id_at (rejected_indices cache))
                (reset_all (map token_id_at (uncertain_indices cache))
                   (reset_all special_token_ids
                      (fun j => (0 <=? j) && (j <? vocab_size))))))
          (uncertain_indices cache)
  | kAcceptedBitset =>
      mkAdaptiveTokenMask kAcceptedBitset (accepted_indices cache) (rejected_indices cache)
        (set_all (map token_id_at (tmp_accepted_indices_ m)) (accepted_bitset cache))
        (uncertain_indices cache)
  end.

(** The loop of [AdaptCacheWithLookahead] over the uncertain indices of
    the cached mask; [None] is the failed "XGRAMMAR_CHECK(!accepted)". *)
Fixpoint adapt_loop (is_root_rule : bool) (uncertain : list Z) (l : Loop Parser)
    : option (Loop Parser) :=
  match uncertain with
  | [] => Some l
  | uncertain_index :: rest =>
      if uncertain_index <? last_rejected_range l then
        adapt_loop is_root_rule rest (on_matcher (push_rejected [uncertain_index]) l)
      else if uncertain_index <? 0 (* last_uncertain_range, never assigned *) then
        adapt_loop is_root_rule rest l
      else
        let token := token_at uncertain_index in
        let (accepted, l1) := match_token token l in
        let can_reach_end := last (tmp_can_reach_end_prefix_or_stack_ (matcher l1)) false in
        if accepted then None
        else if can_reach_end && (prev_matched_size l1 >? 0) then
          let '((lookahead_accepted, lookahead_completed), p') :=
            IsTokenPassLookaheadAssertion token (tmp_can_reach_end_stack_ (matcher l1))
              (parser (matcher l1)) in
          let l2 := on_matcher (set_parser p') l1 in
          if negb is_root_rule && lookahead_accepted then
            if lookahead_completed || negb is_exact_lookahead then
              adapt_loop is_root_rule rest (on_matcher (push_uncertain uncertain_index) l2)
            else
              adapt_loop is_root_rule rest (on_matcher (push_accepted uncertain_index) l2)
          else
            adapt_loop is_root_rule rest
              (mkLoop (push_rejected [uncertain_index] (matcher l2)) (prev_matched_size l2)
                 (subtree_end uncertain_index) (prev_token l2))
        else
          adapt_loop is_root_rule rest
            (mkLoop (push_rejected [uncertain_index] (matcher l1)) (prev_matched_size l1)
               (subtree_end uncertain_index) (prev_token l1))
  end.

Definition set_rejected (js : list Z) (m : Matcher Parser) : Matcher Parser :=
  mkMatcher (parser m) (tmp_accepted_indices_ m) js
    (tmp_uncertain_indices_ m) (tmp_rejected_by_lookahead_indices_ m)
    (tmp_accepted_by_lookahead_indices_ m) (tmp_can_reach_end_stack_ m)
    (tmp_can_reach_end_prefix_or_stack_ m).

Definition set_uncertain (js : list Z) (m : Matcher Parser) : Matcher Parser :=
  mkMatcher (parser m) (tmp_accepted_indices_ m) (tmp_rejected_indices_ m)
    js (tmp_rejected_by_lookahead_indices_ m)
    (tmp_accepted_by_lookahead_indices_ m) (tmp_can_reach_end_stack_ m)
    (tmp_can_reach_end_prefix_or_stack_ m).

Definition with_uncertain (js : list Z) (cache : AdaptiveTokenMask) : AdaptiveTokenMask :=
  mkAdaptiveTokenMask (store_type cache) (accepted_indices cache) (rejected_indices cache)
    (accepted_bitset cache) js.

Definition AdaptCacheWithLookahead (cache : AdaptiveTokenMask) (is_root_rule : bool)
    (m : Matcher Parser) : option (AdaptiveTokenMask * Matcher Parser) :=
  let finish (m' : Matcher Parser) :=
    (adapt_storage (with_uncertain (tmp_uncertain_indices_ m') cache) m', m') in
  if is_root_rule then Some (finish (set_rejected (uncertain_indices cache) m))
  else if lookahead_assertion_id =? -1 then Some (cache, m)
  else
    match adapt_loop is_root_rule (uncertain_indices cache) (mkLoop m 0 0 None) with
    | None => None
    | Some l => Some (finish (matcher l))
    end.

(** [crossing_cache_manager_] and what [GetAdaptiveTokenMask] reads
    from the grammar for its keys: [per_rule_fsm_hashes[init_rule_id_]],
    the new id of the state, [HashSequence(lookahead_id)]. *)
Variable MemorySize : AdaptiveTokenMask -> Z.
Variable max_cache_memory_size_ : Z.
Variable GetMaxSize : Z.
Variable per_rule_fsm_hash : option Z.
Variable new_state_id : Z.
Variable HashSequence : Z -> option Z.
Variable HashCombine64Bits : Z -> Z -> bool -> Z.
Variable tokenizer_hash : Z.

Definition clear_tmp (m : Matcher Parser) : Matcher Parser :=
  mkMatcher (parser m) [] [] [] [] [] [false] [false].

Definition add_cache := AddCache MemorySize max_cache_memory_size_.

(** The two "if (crossing_cache_is_available)" blocks that store the
    computed mask; [basic] is the mask kept under the key without
    look-ahead. *)
Definition store_caches (is_root_rule : bool) (fsm_hash : Z) (lookahead_hash : option Z)
    (return_value basic : AdaptiveTokenMask)
    (cm : CrossingCacheManager) : option CrossingCacheManager :=
  if (lookahead_assertion_id =? -1) && negb is_root_rule then
    add_cache cm fsm_hash new_state_id tokenizer_hash return_value
  else
    match add_cache cm fsm_hash new_state_id tokenizer_hash basic with
    | None => None
    | Some cm1 =>
        match lookahead_hash with
        | Some lh =>
            add_cache cm1 (HashCombine64Bits fsm_hash lh is_exact_lookahead) new_state_id
              tokenizer_hash return_value
        | None => Some cm1
        end
    end.

(** The part of [GetAdaptiveTokenMask] after the cache probes. *)
Definition compute_mask (is_root_rule : bool) (available : bool) (fsm_hash : Z)
    (lookahead_hash : option Z) (m : Matcher Parser) (cm : CrossingCacheManager)
    : option (AdaptiveTokenMask * Matcher Parser * CrossingCacheManager) :=
  match GetTokenMaskWithFirstCharacterCheck is_root_rule m with
  | None => None
  | Some (rejected_filled, m1) =>
      let widened :=
        IntsetUnion
          (IntsetUnion (tmp_uncertain_indices_ m1) (tmp_rejected_by_lookahead_indices_ m1))
          (tmp_accepted_by_lookahead_indices_ m1) in
      let accepted_indices_without_lookahead :=
        set_difference (tmp_accepted_indices_ m1) (tmp_accepted_by_lookahead_indices_ m1) in
      let rejected_indices_without_lookahead :=
        set_difference (tmp_rejected_indices_ m1) (tmp_rejected_by_lookahead_indices_ m1) in
      let return_value :=
        if rejected_filled then
          AdaptiveTokenMask_with_rejected (tmp_accepted_indices_ m1)
            (tmp_rejected_indices_ m1) (tmp_uncertain_indices_ m1)
        else
          AdaptiveTokenMask_without_rejected (tmp_accepted_indices_ m1)
            (tmp_uncertain_indices_ m1) in
      let basic :=
        if rejected_filled then
          AdaptiveTokenMask_with_rejected accepted_indices_without_lookahead
            rejected_indices_without_lookahead widened
        else
          AdaptiveTokenMask_without_rejected accepted_indices_without_lookahead widened in
      if available then
        let keeps := (lookahead_assertion_id =? -1) && negb is_root_rule in
        match store_caches is_root_rule fsm_hash lookahead_hash return_value basic cm with
        | None => None
        | Some cm' =>
            Some (return_value, (if keeps then m1 else set_uncertain widened m1), cm')
        end
      else Some (return_value, m1, cm)
  end.

Definition GetAdaptiveTokenMask (is_root_rule : bool) (m : Matcher Parser)
    (cm : CrossingCacheManager)
    : option (AdaptiveTokenMask * Matcher Parser * CrossingCacheManager) :=
  let m0 := clear_tmp m in
  match (if GetMaxSize =? 0 then None else per_rule_fsm_hash) with
  | Some fsm_hash =>
      let lookahead_hash := HashSequence lookahead_assertion_id in
      let (perfect, cm1) :=
        match lookahead_hash with
        | Some lh =>
            GetCache cm (HashCombine64Bits fsm_hash lh is_exact_lookahead) new_state_id
              tokenizer_hash
        | None => (None, cm)
        end in
      match perfect with
      | Some crossing_cache => Some (crossing_cache, m0, cm1)
      | None =>
          let (basic, cm2) := GetCache cm1 fsm_hash new_state_id tokenizer_hash in
          match basic with
          | Some crossing_cache =>
              match AdaptCacheWithLookahead crossing_cache is_root_rule m0 with
              | None => None
              | Some (adapted, m1) => Some (adapted, m1, cm2)
              end
          | None => compute_mask is_root_rule true fsm_hash lookahead_hash m0 cm2
          end
      end
  | None => compute_mask is_root_rule false (2 ^ 64 - 1) None m0 cm
  end.

End Computer.

(** *** A parser for the examples

    A rule whose body is one byte string [body] and whose look-ahead is
    the byte string [lookahead]: every state set is the text still to be
    read, the newest first. *)

Definition LiteralParser : Type := list Token.

Definition literal_Advance (p : LiteralParser) (ch : ascii) : option LiteralParser :=
  match p with
  | (c :: rest) :: _ => if Ascii.eqb ch c then Some (rest :: p) else None
  | _ => None
  end.

Definition literal_IsCompleted (p : LiteralParser) : bool :=
  match p with
  | [] :: _ => true
  | _ => false
  end.

Definition literal_PushStateAndExpand (lookahead : Token) (p : LiteralParser) (_ : Z)
    : LiteralParser :=
  lookahead :: p.

Definition literal_PopLastStates (p : LiteralParser) (n : Z) : LiteralParser :=
  skipn (Z.to_nat n) p.

Definition empty_matcher (body : Token) : Matcher LiteralParser :=
  mkMatcher [body] [] [] [] [] [] [] [].

Definition empty_manager : CrossingCacheManager := mkCrossingCacheManager [] 0.

(** Sorted union and difference of index vectors. *)
Fixpoint insert_sorted (x : Z) (l : list Z) : list Z :=
  match l with
  | [] => [x]
  | y :: rest =>
      if x <? y then x :: l else if x =? y then l else y :: insert_sorted x rest
  end.

Definition sample_IntsetUnion (a b : list Z) : list Z := fold_right insert_sorted a b.

Definition sample_set_difference (a b : list Z) : list Z :=
  filter (fun x => negb (existsb (Z.eqb x) b)) a.

Definition sample_storage_with_rejected (accepted rejected uncertain : list Z)
    : StoreType * list Z * list Z * (Z -> bool) :=
  (kAccepted, accepted, [], fun _ => false).

Definition sample_storage_without_rejected (accepted uncertain : list Z)
    : StoreType * list Z * list Z * (Z -> bool) :=
  (kAccepted, accepted, [], fun _ => false).

(** The vocabulary "ab", "abc" with its trie ranges: "abc" is in the
    subtree of "ab". *)
Definition ab_abc_vocab : list (Z * Token) :=
  [(0, list_ascii_of_string "ab"); (1, list_ascii_of_string "abc")].

Definition ab_abc_ranges : list Z := [2; 2].

(** The mask computer of a rule "a" with the look-ahead "bc", marked
    [exact] or not, over that vocabulary; no speculative calculation. *)
Definition a_then_bc_check (exact is_root_rule : bool)
    : option (bool * Matcher LiteralParser) :=
  GetTokenMaskWithFirstCharacterCheck literal_Advance literal_IsCompleted
    (literal_PushStateAndExpand (list_ascii_of_string "bc")) literal_PopLastStates
    1 exact ab_abc_vocab ab_abc_ranges [(0, 2)] 2 false (fun _ => false) None 256
    is_root_rule (mkMatcher [list_ascii_of_string "a"] [] [] [] [] [] [false] [false]).

(** [GetAdaptiveTokenMask] for the same rule, with a crossing cache and
    the hashes 7 of the FSM and 9 of the look-ahead. *)
Definition a_then_bc_mask (is_root_rule : bool) (cm : CrossingCacheManager)
    : option (AdaptiveTokenMask * Matcher LiteralParser * CrossingCacheManager) :=
  GetAdaptiveTokenMask literal_Advance literal_IsCompleted
    (literal_PushStateAndExpand (list_ascii_of_string "bc")) literal_PopLastStates
    1 false ab_abc_vocab ab_abc_ranges [(0, 2)] 2 false (fun _ => false) None 256
    sample_IntsetUnion sample_set_difference 2 []
    sample_storage_with_rejected sample_storage_without_rejected
    (fun _ => 1) 1000 1000 (Some 7) 0 (fun _ => Some 9)
    (fun a b exact => a * 31 + b + (if exact then 1 else 0)) 5
    is_root_rule (empty_matcher (list_ascii_of_string "a")) cm.

(** The loop variables after the rule "a" has read the first byte of
    the token "ab" and refused the second. *)
Definition sample_after_a : Loop LiteralParser :=
  mkLoop (mkMatcher [[]; list_ascii_of_string "a"] [] [] [] [] [] [false; true] [false; true])
    1 0 (Some (list_ascii_of_string "ab")).

(** Every token index of the intervals has a subtree that ends after it. *)
Definition subtrees_go_forward (subtree_nodes_range : list Z) (intervals : list (Z * Z))
    : bool :=
  forallb
    (fun interval =>
       forallb (fun i => i <? nth (Z.to_nat i) subtree_nodes_range 0)
         (range (fst interval) (snd interval)))
    intervals.

End TokenMask.


(** ** grammar_functor.cc: StructureNormalizerImpl

    The visitors return the new expressions with the builder they have
    added rules to; [None] is a fatal log or a failed internal check.
    The base class [GrammarMutator] is not in grammar_functor.cc: its
    [VisitTagDispatch], which rebuilds the tag dispatch, is taken through
    its effect on the fields, and [SingleElementExprEliminator], which
    runs on its [Apply], as a function on grammars. *)

Module StructureNormalizer.

Local Open Scope list_scope.

Section Loops.

Variable Ids : Type.
Variable visit : GrammarExpr -> GrammarBuilder -> option (Ids * GrammarBuilder).
Variable none : Ids.
Variable join : Ids -> Ids -> Ids.

(** "for (auto i : grammar_expr)", collecting what each iteration adds. *)
Fixpoint visit_each (elements : list GrammarExpr) (b : GrammarBuilder)
    : option (Ids * GrammarBuilder) :=
  match elements with
  | [] => Some (none, b)
  | e :: rest =>
      match visit e b with
      | None => None
      | Some (ids, b1) =>
          match visit_each rest b1 with
          | None => None
          | Some (ids', b2) => Some (join ids ids', b2)
          end
      end
  end.

End Loops.

(** What an iteration of [VisitChoices_] adds to [new_choice_ids], and
    whether it sets [found_empty]. *)
Definition ChoiceIds : Type := (list GrammarExpr * bool)%type.

Definition join_choices (a b : ChoiceIds) : ChoiceIds :=
  (fst a ++ fst b, snd a || snd b).

(** The end of [VisitChoices_]: the empty string goes first, and the
    list must not be empty. *)
Definition finish_choices (r : option (ChoiceIds * GrammarBuilder))
    : option (list GrammarExpr * GrammarBuilder) :=
  match r with
  | None => None
  | Some ((new_choice_ids, found_empty), b) =>
      let new_choice_ids :=
        if found_empty then kEmptyStr :: new_choice_ids else new_choice_ids in
      match new_choice_ids with
      | [] => None
      | _ => Some (new_choice_ids, b)
      end
  end.

Section Visitors.

Variable VisitTagDispatch : TagDispatch -> TagDispatch.
Variable cur_rule_name_ : string.

(** The kTagDispatch case of both loops: the tag dispatch becomes the
    body of a new rule. *)
Definition tag_dispatch_rule (td : TagDispatch) (b : GrammarBuilder) : nat * GrammarBuilder :=
  AddRuleWithHint b cur_rule_name_ (kTagDispatch (VisitTagDispatch td)).

(** [in_sequence e]: one iteration of the loop of [VisitSequence_], on
    the element [e]; [in_choices e]: one iteration of the loop of
    [VisitChoices_], on the choice [e]. *)
Fixpoint in_sequence (e : GrammarExpr) (b : GrammarBuilder) {struct e}
    : option (list GrammarExpr * GrammarBuilder) :=
  match e with
  | kSequence elements =>
      (* VisitSequenceInSequence *)
      visit_each in_sequence [] (@app GrammarExpr) elements b
  | kChoices elements =>
      (* VisitChoiceInSequence *)
      match finish_choices (visit_each in_choices ([], false) join_choices elements b) with
      | None => None
      | Some ([choice_element_expr], b1) =>
          match choice_element_expr with
          | kEmptyStr => Some ([], b1)
          | kSequence choice_elements => Some (choice_elements, b1)
          | _ => None
          end
      | Some (sub_choice_ids, b1) =>
          let (new_choice_rule_id, b2) :=
            AddRuleWithHint b1 cur_rule_name_ (kChoices sub_choice_ids) in
          Some ([kRuleRef new_choice_rule_id], b2)
      end
  | kEmptyStr => Some ([], b)
  | kTagDispatch td =>
      let (new_rule_id, b1) := tag_dispatch_rule td b in
      Some ([kRuleRef new_rule_id], b1)
  | _ =>
      (* VisitElementInSequence *)
      Some ([e], b)
  end
with in_choices (e : GrammarExpr) (b : GrammarBuilder) {struct e}
    : option (ChoiceIds * GrammarBuilder) :=
  match e with
  | kSequence elements =>
      (* VisitSequenceInChoices *)
      match visit_each in_sequence [] (@app GrammarExpr) elements b with
      | None => None
      | Some ([], b1) => Some (([], true), b1)
      | Some (sub_sequence_ids, b1) => Some (([kSequence sub_sequence_ids], false), b1)
      end
  | kChoices elements =>
      (* VisitChoicesInChoices *)
      match finish_choices (visit_each in_choices ([], false) join_choices elements b) with
      | None => None
      | Some (kEmptyStr :: rest, b1) => Some ((rest, true), b1)
      | Some (sub_choice_ids, b1) => Some ((sub_choice_ids, false), b1)
      end
  | kEmptyStr => Some (([], true), b)
  | kTagDispatch td =>
      let (new_rule_id, b1) := tag_dispatch_rule td b in
      Some (([kSequence [kRuleRef new_rule_id]], false), b1)
  | _ =>
      (* VisitElementInChoices *)
      Some (([kSequence [e]], false), b)
  end.

Definition VisitSequence_ (elements : list GrammarExpr) (b : GrammarBuilder)
    : option (list GrammarExpr * GrammarBuilder) :=
  visit_each in_sequence [] (@app GrammarExpr) elements b.

Definition VisitChoices_ (elements : list GrammarExpr) (b : GrammarBuilder)
    : option (list GrammarExpr * GrammarBuilder) :=
  finish_choices (visit_each in_choices ([], false) join_choices elements b).

Definition VisitRuleBody (grammar_expr : GrammarExpr) (b : GrammarBuilder)
    : option (GrammarExpr * GrammarBuilder) :=
  match grammar_expr with
  | kSequence elements =>
      match VisitSequence_ elements b with
      | None => None
      | Some (ids, b1) => Some (kChoices [kSequence ids], b1)
      end
  | kChoices elements =>
      match VisitChoices_ elements b with
      | None => None
      | Some (ids, b1) => Some (kChoices ids, b1)
      end
  | kEmptyStr => Some (kChoices [kEmptyStr], b)
  | kTagDispatch td => Some (kTagDispatch (VisitTagDispatch td), b)
  | _ => Some (kChoices [kSequence [grammar_expr]], b)
  end.

(** [lookahead_assertion_id == -1] is [None]. *)
Definition VisitLookaheadAssertion (lookahead : option GrammarExpr) (b : GrammarBuilder)
    : option (option GrammarExpr * GrammarBuilder) :=
  match lookahead with
  | None => Some (None, b)
  | Some (kSequence elements) =>
      match VisitSequence_ elements b with
      | None => None
      | Some (ids, b1) => Some (Some (kSequence ids), b1)
      end
  | Some (kChoices _) | Some kEmptyStr | Some (kTagDispatch _) => None
  | Some assertion_expr => Some (Some (kSequence [assertion_expr]), b)
  end.

End Visitors.

Section Apply.

Variable VisitTagDispatch : TagDispatch -> TagDispatch.
Variable SingleElementExprEliminator_Apply : Grammar -> Grammar.

(** The second loop of [Apply], from rule [i] on.  A rule of the base
    grammar always has a body. *)
Fixpoint normalize_rules (base_rules : list Rule) (i : nat) (b : GrammarBuilder)
    : option GrammarBuilder :=
  match base_rules with
  | [] => Some b
  | rule :: rest =>
      match body_expr rule with
      | None => None
      | Some grammar_expr =>
          match VisitRuleBody VisitTagDispatch (name rule) grammar_expr b with
          | None => None
          | Some (new_body_expr_id, b1) =>
              let b2 := UpdateRuleBody b1 i new_body_expr_id in
              match VisitLookaheadAssertion VisitTagDispatch (name rule)
                      (lookahead_assertion rule) b2 with
              | None => None
              | Some (new_lookahead, b3) =>
                  normalize_rules rest (S i) (UpdateLookaheadAssertion b3 i new_lookahead)
              end
          end
      end
  end.

(** The first loop of [Apply]: one empty rule per rule of the base
    grammar, under the same name. *)
Definition add_empty_rules (base_rules : list Rule) : GrammarBuilder :=
  fold_left (fun b rule => snd (AddEmptyRule b (name rule))) base_rules empty_builder.

(** The root rule is looked up by its name, which is the name of the
    rule at the same index. *)
Definition Apply (grammar : Grammar) : option Grammar :=
  let grammar_new := SingleElementExprEliminator_Apply grammar in
  match normalize_rules (grammar_rules grammar_new) 0
          (add_empty_rules (grammar_rules grammar_new)) with
  | None => None
  | Some b => Some (Get b (root_rule_id grammar_new))
  end.

End Apply.

(** *** The normalized form *)

Definition is_atom (e : GrammarExpr) : bool :=
  match e with
  | kByteString _ | kCharacterClass _ _ | kCharacterClassStar _ _ | kRuleRef _
  | kRepeat _ _ _ => true
  | _ => false
  end.

Definition is_atom_sequence (e : GrammarExpr) : bool :=
  match e with
  | kSequence elements => forallb is_atom elements
  | _ => false
  end.

Definition is_empty_str (e : GrammarExpr) : bool :=
  match e with kEmptyStr => true | _ => false end.

Definition is_tag_dispatch (e : GrammarExpr) : bool :=
  match e with kTagDispatch _ => true | _ => false end.

(** The children of a normalized choices: sequences of atoms, after an
    empty string or not. *)
Definition normalized_choices (children : list GrammarExpr) : bool :=
  match children with
  | kEmptyStr :: rest => forallb is_atom_sequence rest
  | _ => forallb is_atom_sequence children
  end.

Definition normalized_body (e : GrammarExpr) : bool :=
  match e with
  | kTagDispatch _ => true
  | kChoices children => normalized_choices children
  | _ => false
  end.

Definition normalized_rule (r : Rule) : bool :=
  match body_expr r with
  | Some body => normalized_body body
  | None => true
  end &&
  match lookahead_assertion r with
  | Some lookahead => is_atom_sequence lookahead
  | None => true
  end.

(** *** A grammar for the examples

    [root ::= ("a" | ("b" ("c" | "d") "") | "")] with the look-ahead
    ["e"], and [other ::= TagDispatch(("<t>", root))]. *)

Definition sample_grammar : Grammar :=
  mkGrammar
    [ mkRule "root"
        (Some (kChoices
                 [ AddByteString "a";
                   kSequence [ AddByteString "b";
                               kChoices [AddByteString "c"; AddByteString "d"];
                               kEmptyStr ];
                   kEmptyStr ]))
        (Some (AddByteString "e")) false;
      mkRule "other"
        (Some (kTagDispatch (mkTagDispatch [("<t>", 0%nat)] true [] true [])))
        None false ]
    0.

Definition has_body (r : Rule) : bool :=
  match body_expr r with Some _ => true | None => false end.

(** [b'] is [b] with rules added at the end, each with a body and in
    normal form. *)
Definition grows (b b' : GrammarBuilder) : Prop :=
  exists added,
    rules b' = rules b ++ added /\
    forallb (fun r => normalized_rule r && has_body r) added = true.

(** What an iteration on [e] adds is in normal form, and so are the
    rules it adds. *)
Definition sequence_step_ok (VisitTagDispatch : TagDispatch -> TagDispatch)
    (cur_rule_name_ : string) (e : GrammarExpr) : Prop :=
  forall b ids b',
    in_sequence VisitTagDispatch cur_rule_name_ e b = Some (ids, b') -> forallb is_atom ids = true /\ grows b b'.

Definition choices_step_ok (VisitTagDispatch : TagDispatch -> TagDispatch)
    (cur_rule_name_ : string) (e : GrammarExpr) : Prop :=
  forall b ids found b',
    in_choices VisitTagDispatch cur_rule_name_ e b = Some ((ids, found), b') ->
    forallb is_atom_sequence ids = true /\ grows b b'.

(** The rules of the builder during the second loop of [Apply]: all in
    normal form where they have a body, and with a body below [i] and
    from [n] on. *)
Definition loop_invariant (n i : nat) (b : GrammarBuilder) : Prop :=
  (n <= List.length (rules b))%nat /\
  forall k r,
    nth_error (rules b) k = Some r ->
    normalized_rule r = true /\ ((k < i)%nat \/ (n <= k)%nat -> has_body r = true).

(** The example grammar, normalized, and its root rule. *)
Definition sample_normalized : Grammar :=
  match Apply (fun td => td) (fun g => g) sample_grammar with
  | Some g => g
  | None => sample_grammar
  end.

Definition sample_normalized_root : Rule :=
  nth 0 (grammar_rules sample_normalized) (mkRule "" None None false).

End StructureNormalizer.


(** ** grammar_functor.cc: the Unicode ranges of GrammarFSMBuilderImpl

    [FSMWithStartEnd] is not defined in grammar_functor.cc; the two
    operations used here are [AddState], which returns the id of a new
    state, and [AddEdge(from, to, min, max)].  An edge is followed on a
    byte [c] with [min <= c <= max].  The [uint32_t] bounds are integers
    in [0, 2^32); a [uint8_t] is taken modulo 256. *)

Module FSMBuilder.

Local Open Scope Z_scope.
Local Open Scope list_scope.

Record FSMEdge : Type := mkFSMEdge {
  edge_from : nat;
  edge_min : Z;
  edge_max : Z;
  edge_target : nat
}.

Record FSM : Type := mkFSM {
  num_states : nat;
  edges : list FSMEdge
}.

Definition AddState (fsm : FSM) : nat * FSM :=
  (num_states fsm, mkFSM (S (num_states fsm)) (edges fsm)).

Definition AddEdge (fsm : FSM) (from to : nat) (min max : Z) : FSM :=
  mkFSM (num_states fsm) (edges fsm ++ [mkFSMEdge from min max to]).

Definition kMax1ByteUnicode : Z := 0x7F.
Definition kMin2BytesUnicode : Z := 0xC080.
Definition kMax2BytesUnicode : Z := 0xDFBF.
Definition kMin3BytesUnicode : Z := 0xE08080.
Definition kMax3BytesUnicode : Z := 0xEFBFBF.
Definition kMin4BytesUnicode : Z := 0xF0808080.
Definition kMax4BytesUnicode : Z := 0xF7BFBFBF.

Definition uint8 (x : Z) : Z := x mod 256.

(** The 4-byte block of [AddSameLengthCharacterRange]; [self] is the
    recursive call. *)
Definition four_bytes (self : FSM -> nat -> nat -> Z -> Z -> FSM)
    (fsm : FSM) (from to : nat) (min max : Z) : FSM :=
  let byte_min3 := uint8 (Z.shiftr min 24) in
  let byte_max3 := uint8 (Z.shiftr max 24) in
  if byte_max3 =? byte_min3 then
    let (tmp_state, fsm) := AddState fsm in
    let fsm := AddEdge fsm from tmp_state byte_min3 byte_max3 in
    self fsm tmp_state to (Z.land min 0x00FFFFFF) (Z.land max 0x00FFFFFF)
  else
    let '(fsm, byte_min3) :=
      if negb (Z.land min 0x00FFFFFF =? 0x808080) then
        let (tmp_state_min, fsm) := AddState fsm in
        let fsm := AddEdge fsm from tmp_state_min byte_min3 byte_min3 in
        (self fsm tmp_state_min to (Z.land min 0x00FFFFFF) 0x00BFBFBF, byte_min3)
      else (fsm, uint8 (byte_min3 - 1)) in
    let '(fsm, byte_max3) :=
      if negb (Z.land max 0x00FFFFFF =? 0xBFBFBF) then
        let (tmp_state_max, fsm) := AddState fsm in
        let fsm := AddEdge fsm from tmp_state_max byte_max3 byte_max3 in
        (self fsm tmp_state_max to 0x00808080 (Z.land max 0x00FFFFFF), byte_max3)
      else (fsm, uint8 (byte_max3 + 1)) in
    if byte_max3 - byte_min3 >? 1 then
      let (tmp_state_mid, fsm) := AddState fsm in
      let fsm := AddEdge fsm from tmp_state_mid (byte_min3 + 1) (byte_max3 - 1) in
      let (tmp_state_mid2, fsm) := AddState fsm in
      let fsm := AddEdge fsm tmp_state_mid tmp_state_mid2 0x80 0xBF in
      let (tmp_state_mid3, fsm) := AddState fsm in
      let fsm := AddEdge fsm tmp_state_mid2 tmp_state_mid3 0x80 0xBF in
      AddEdge fsm tmp_state_mid3 to 0x80 0xBF
    else fsm.

(** The 3-byte block. *)
Definition three_bytes (self : FSM -> nat -> nat -> Z -> Z -> FSM)
    (fsm : FSM) (from to : nat) (min max : Z) : FSM :=
  let byte_min2 := uint8 (Z.shiftr min 16) in
  let byte_max2 := uint8 (Z.shiftr max 16) in
  if byte_max2 =? byte_min2 then
    let (tmp_state, fsm) := AddState fsm in
    let fsm := AddEdge fsm from tmp_state byte_min2 byte_max2 in
    self fsm tmp_state to (Z.land min 0x00FFFF) (Z.land max 0x00FFFF)
  else
    let '(fsm, byte_min2) :=
      if negb (Z.land min 0x00FFFF =? 0x8080) then
        let (tmp_state_min, fsm) := AddState fsm in
        let fsm := AddEdge fsm from tmp_state_min byte_min2 byte_min2 in
        (self fsm tmp_state_min to (Z.land min 0x00FFFF) 0x00BFBF, byte_min2)
      else (fsm, uint8 (byte_min2 - 1)) in
    let '(fsm, byte_max2) :=
      if negb (Z.land max 0x00FFFF =? 0xBFBF) then
        let (tmp_state_max, fsm) := AddState fsm in
        let fsm := AddEdge fsm from tmp_state_max byte_max2 byte_max2 in
        (self fsm tmp_state_max to 0x0080 (Z.land max 0x00FFFF), byte_max2)
      else (fsm, uint8 (byte_max2 + 1)) in
    if byte_max2 - byte_min2 >? 1 then
      let (tmp_state_mid, fsm) := AddState fsm in
      let fsm := AddEdge fsm from tmp_state_mid (byte_min2 + 1) (byte_max2 - 1) in
      let (tmp_state_mid2, fsm) := AddState fsm in
      let fsm := AddEdge fsm tmp_state_mid tmp_state_mid2 0x80 0xBF in
      AddEdge fsm tmp_state_mid2 to 0x80 0xBF
    else fsm.

(** The 2-byte block. *)
Definition two_bytes (self : FSM -> nat -> nat -> Z -> Z -> FSM)
    (fsm : FSM) (from to : nat) (min max : Z) : FSM :=
  let byte_min1 := uint8 (Z.shiftr min 8) in
  let byte_max1 := uint8 (Z.shiftr max 8) in
  if byte_max1 =? byte_min1 then
    let (tmp_state, fsm) := AddState fsm in
    let fsm := AddEdge fsm from tmp_state byte_min1 byte_max1 in
    self fsm tmp_state to (Z.land min 0x00FF) (Z.land max 0x00FF)
  else
    let '(fsm, byte_min1) :=
      if negb (Z.land min 0x00FF =? 0x80) then
        let (tmp_state_min, fsm) := AddState fsm in
        let fsm := AddEdge fsm from tmp_state_min byte_min1 byte_min1 in
        (self fsm tmp_state_min to (Z.land min 0x00FF) 0x00BF, byte_min1)
      else (fsm, uint8 (byte_min1 - 1)) in
    let '(fsm, byte_max1) :=
      if negb (Z.land max 0x00FF =? 0xBF) then
        let (tmp_state_max, fsm) := AddState fsm in
        let fsm := AddEdge fsm from tmp_state_max byte_max1 byte_max1 in
        (self fsm tmp_state_max to 0x0080 (Z.land max 0x00FF), byte_max1)
      else (fsm, uint8 (byte_max1 + 1)) in
    if byte_max1 - byte_min1 >? 1 then
      let (tmp_state_mid, fsm) := AddState fsm in
      let fsm := AddEdge fsm from tmp_state_mid (byte_min1 + 1) (byte_max1 - 1) in
      AddEdge fsm tmp_state_mid to 0x80 0xBF
    else fsm.

(** [depth] bounds the nesting of the recursive calls: every call
    passes bounds that are one byte shorter, so four levels serve every
    pair of 32-bit bounds. *)
Fixpoint same_length (depth : nat) (fsm : FSM) (from to : nat) (min max : Z) : FSM :=
  match depth with
  | O => fsm
  | S depth' =>
      if uint8 (Z.shiftr max 8) =? 0 then
        (* ASCII *)
        AddEdge fsm from to (uint8 (Z.land min 0xFF)) (uint8 (Z.land max 0xFF))
      else if negb (uint8 (Z.shiftr max 24) =? 0) then
        four_bytes (same_length depth') fsm from to min max
      else if negb (uint8 (Z.shiftr max 16) =? 0) then
        three_bytes (same_length depth') fsm from to min max
      else two_bytes (same_length depth') fsm from to min max
  end.

Definition AddSameLengthCharacterRange (fsm : FSM) (from to : nat) (min max : Z) : FSM :=
  same_length 4 fsm from to min max.

(** "Ensure max and min are valid unicode value." *)
Definition clamp_max (max : Z) : Z :=
  if max >? kMax4BytesUnicode then kMax4BytesUnicode
  else if max >? kMax3BytesUnicode then
    if max <? kMin4BytesUnicode then kMax3BytesUnicode else max
  else if max >? kMax2BytesUnicode then
    if max <? kMin3BytesUnicode then kMax2BytesUnicode else max
  else if (max <? kMin2BytesUnicode) && (max >? kMax1ByteUnicode) then kMax1ByteUnicode
  else max.

Definition clamp_min (min : Z) : Z :=
  if min >? kMax4BytesUnicode then kMax4BytesUnicode
  else if min >? kMax3BytesUnicode then
    if min <? kMin4BytesUnicode then kMin4BytesUnicode else min
  else if min >? kMax2BytesUnicode then
    if min <? kMin3BytesUnicode then kMin3BytesUnicode else min
  else if (min <? kMin2BytesUnicode) && (min >? kMax1ByteUnicode) then kMin2BytesUnicode
  else min.

(** [None] is the failed "XGRAMMAR_CHECK(min <= max)". *)
Definition AddCharacterRange (fsm : FSM) (from to : nat) (min max : Z) : option FSM :=
  if negb (min <=? max) then None
  else
    let max := clamp_max max in
    let min := clamp_min min in
    let add := fun fsm lo hi => AddSameLengthCharacterRange fsm from to lo hi in
    if max <=? kMax1ByteUnicode then Some (add fsm min max)
    else if max <=? kMax2BytesUnicode then
      if min >=? kMin2BytesUnicode then Some (add fsm min max)
      else Some (add (add fsm min kMax1ByteUnicode) kMin2BytesUnicode max)
    else if max <=? kMax3BytesUnicode then
      if min >=? kMin3BytesUnicode then Some (add fsm min max)
      else if min >=? kMin2BytesUnicode then
        Some (add (add fsm min kMax2BytesUnicode) kMin3BytesUnicode max)
      else
        Some (add (add (add fsm min kMax1ByteUnicode) kMin2BytesUnicode kMax2BytesUnicode)
                kMin3BytesUnicode max)
    else if negb (max <=? kMax4BytesUnicode) then None
    else if min >=? kMin4BytesUnicode then Some (add fsm min max)
    else if min >=? kMin3BytesUnicode then
      Some (add (add fsm min kMax3BytesUnicode) kMin4BytesUnicode max)
    else if min >=? kMin2BytesUnicode then
      Some (add (add (add fsm min kMax2BytesUnicode) kMin3BytesUnicode kMax3BytesUnicode)
              kMin4BytesUnicode max)
    else
      Some (add (add (add (add fsm min kMax1ByteUnicode) kMin2BytesUnicode kMax2BytesUnicode)
                   kMin3BytesUnicode kMax3BytesUnicode)
              kMin4BytesUnicode max).

(** *** Reading the automaton *)

Definition follows (e : FSMEdge) (state : nat) (c : Z) : bool :=
  Nat.eqb (edge_from e) state && (edge_min e <=? c) && (c <=? edge_max e).

(** Some path from [state] reads [bytes] and ends in [target]. *)
Fixpoint accepts (fsm : FSM) (target state : nat) (bytes : list Z) : bool :=
  match bytes with
  | [] => Nat.eqb state target
  | c :: rest =>
      existsb (fun e => follows e state c && accepts fsm target (edge_target e) rest)
        (edges fsm)
  end.

(** A start state 0 and an end state 1, no edge. *)
Definition two_states : FSM := mkFSM 2 [].

(** What the range is compared with: the UTF-8 encoding of a code
    point, and the bytes of an encoding packed into one integer, first
    byte highest, as in [kMin2BytesUnicode = 0xC080]. *)
Definition utf8_encoding (cp : Z) : list Z :=
  if cp <? 0x80 then [cp]
  else if cp <? 0x800 then [0xC0 + cp / 64; 0x80 + cp mod 64]
  else if cp <? 0x10000 then
    [0xE0 + cp / 4096; 0x80 + (cp / 64) mod 64; 0x80 + cp mod 64]
  else
    [0xF0 + cp / 262144; 0x80 + (cp / 4096) mod 64; 0x80 + (cp / 64) mod 64;
     0x80 + cp mod 64].

Definition packed (bytes : list Z) : Z :=
  fold_left (fun acc c => acc * 256 + c) bytes 0.

(** The automaton of the code points U+1000 to U+2420, given by their
    packed encodings E1 80 80 and E2 90 A0: the first bytes differ and
    the upper bound does not end in BF BF. *)
Definition U1000_to_U2420 : option FSM :=
  AddCharacterRange two_states 0 1 (packed (utf8_encoding 0x1000))
    (packed (utf8_encoding 0x2420)).

(** The mirror case in the same block, U+1420 to U+2FFF (E1 90 A0 to
    E2 BF BF), and the same case in the 2-byte block, U+0080 to U+00E0
    (C2 80 to C3 A0). *)
Definition U1420_to_U2FFF : option FSM :=
  AddCharacterRange two_states 0 1 (packed (utf8_encoding 0x1420))
    (packed (utf8_encoding 0x2FFF)).

Definition U0080_to_U00E0 : option FSM :=
  AddCharacterRange two_states 0 1 (packed (utf8_encoding 0x80))
    (packed (utf8_encoding 0xE0)).

(** The code points from [lo] to [hi]. *)
Definition code_points (lo hi : Z) : list Z :=
  map (fun k => lo + Z.of_nat k) (seq 0 (Z.to_nat (hi - lo + 1))).

Definition accepted_by (fsm : option FSM) (bytes : list Z) : bool :=
  match fsm with
  | Some fsm => accepts fsm 1 0 bytes
  | None => false
  end.

End FSMBuilder.

(** ** grammar_functor.cc: the accounting of the crossing cache *)

Module CrossingCacheAccounting.

Import TokenMask.
Local Open Scope Z_scope.

(** The sum of the sizes of the cached masks. *)
Definition total_size (MemorySize : AdaptiveTokenMask -> Z)
    (l : list (CacheKey * AdaptiveTokenMask)) : Z :=
  fold_right (fun e acc => MemorySize (snd e) + acc) 0 l.

(** [current_cache_memory_size_] is the sum of the sizes of the entries,
    and no key is listed twice, as in the map [cache_]. *)
Definition accounted (MemorySize : AdaptiveTokenMask -> Z) (m : CrossingCacheManager) : Prop :=
  current_cache_memory_size_ m = total_size MemorySize (cache_list_ m) /\
  NoDup (map fst (cache_list_ m)).

Definition sample_mask (uncertain : list Z) : AdaptiveTokenMask :=
  mkAdaptiveTokenMask kAccepted [] [] (fun _ => false) uncertain.

End CrossingCacheAccounting.

(** ** json_schema_converter.cc: what the cache key and the numeric
    ranges of the schema parser stand for *)

Module SchemaParserMeaning.
Import Picojson.
Import Lowering.
Import SchemaParser.
Local Open Scope string_scope.
Local Open Scope list_scope.

(** A schema without the members that [kSkippedKeys] names, at every
    depth. *)
Fixpoint strip_metadata (schema : value) : value :=
  match schema with
  | JObject members =>
      JObject
        ((fix strip (ms : list (string * value)) : list (string * value) :=
            match ms with
            | [] => []
            | (k, v) :: rest =>
                if existsb (String.eqb k) kSkippedKeys then strip rest
                else (k, strip_metadata v) :: strip rest
            end) members)
  | JArray items => JArray (map strip_metadata items)
  | _ => schema
  end.

Definition in_int64 (z : Z) : Prop := (kInt64Min <= z <= kInt64Max)%Z.

(** The integers of [int64_t] inside the four bounds of a spec. *)
Definition integer_admits (spec : IntegerSpec) (x : Z) : Prop :=
  in_int64 x /\
  (forall b, int_minimum spec = Some b -> (b <= x)%Z) /\
  (forall b, int_maximum spec = Some b -> (x <= b)%Z) /\
  (forall b, int_exclusive_minimum spec = Some b -> (b < x)%Z) /\
  (forall b, int_exclusive_maximum spec = Some b -> (x < b)%Z).

(** The four bounds of an integer schema, as [ParseInteger] reads them. *)
Definition integer_bounds (schema : list (string * value)) : IntegerSpec :=
  mkIntegerSpec
    (bound_of checkAndConvertIntegerBound "minimum" schema)
    (bound_of checkAndConvertIntegerBound "maximum" schema)
    (bound_of checkAndConvertIntegerBound "exclusiveMinimum" schema)
    (bound_of checkAndConvertIntegerBound "exclusiveMaximum" schema).

(** The bound under [key] is absent or is read without an error, and an
    integer literal is an [int64_t]. *)
Definition integer_bound_given (key : string) (schema : list (string * value)) : bool :=
  readable checkAndConvertIntegerBound key schema &&
  match find key schema with
  | Some (JInt64 z) => (kInt64Min <=? z)%Z && (z <=? kInt64Max)%Z
  | _ => true
  end.

Definition integer_bounds_given (schema : list (string * value)) : bool :=
  integer_bound_given "minimum" schema && integer_bound_given "maximum" schema &&
  integer_bound_given "exclusiveMinimum" schema &&
  integer_bound_given "exclusiveMaximum" schema.

(** The numbers inside the four bounds of a spec when the exclusive
    bounds are taken as inclusive ones. *)
Definition number_admits_closed (spec : NumberSpec) (x : Q) : Prop :=
  (forall b, num_minimum spec = Some b -> b <= x) /\
  (forall b, num_maximum spec = Some b -> x <= b) /\
  (forall b, num_exclusive_minimum spec = Some b -> b <= x) /\
  (forall b, num_exclusive_maximum spec = Some b -> x <= b).

Definition number_bounds (schema : list (string * value)) : NumberSpec :=
  mkNumberSpec
    (bound_of getDouble "minimum" schema)
    (bound_of getDouble "maximum" schema)
    (bound_of getDouble "exclusiveMinimum" schema)
    (bound_of getDouble "exclusiveMaximum" schema).

Definition number_bounds_given (schema : list (string * value)) : bool :=
  readable getDouble "minimum" schema && readable getDouble "maximum" schema &&
  readable getDouble "exclusiveMinimum" schema &&
  readable getDouble "exclusiveMaximum" schema.

Definition described_boolean : value :=
  JObject [("description", JString "a flag"); ("type", JString "boolean")].

Definition plain_boolean : value := JObject [("type", JString "boolean")].

(** The cache key of a schema with the serializer of the examples. *)
Definition sample_key (schema : value) : string := ComputeCacheKey sample_serialize schema.

Definition integer_2_to_9 : list (string * value) :=
  [("exclusiveMinimum", JInt64 2); ("maximum", JDouble (9 # 1))].

Definition number_3_to_3 : list (string * value) :=
  [("exclusiveMinimum", JInt64 3); ("maximum", JDouble (3 # 1))].

End SchemaParserMeaning.

(** ** grammar_functor.cc: what the structure normalizer keeps *)

Module NormalizerMeaning.
Import GrammarIR.
Import Builder.
Import StructureNormalizer.
Local Open Scope nat_scope.
Local Open Scope list_scope.

(** A sequence of atoms with at least one element. *)
Definition is_filled_atom_sequence (e : GrammarExpr) : bool :=
  match e with
  | kSequence (first :: rest) => forallb is_atom (first :: rest)
  | _ => false
  end.

(** The children of a choices in normal form, none of them an empty
    sequence and at least one child. *)
Definition filled_choices (children : list GrammarExpr) : bool :=
  match children with
  | [] => false
  | kEmptyStr :: rest => forallb is_filled_atom_sequence rest
  | _ => forallb is_filled_atom_sequence children
  end.

(** *** What an expression matches

    The byte strings an expression matches, given what a rule reference,
    a tag dispatch and the other atoms match. *)

Section Meaning.

Variable rule_lang : nat -> list Z -> Prop.
Variable atom_lang : GrammarExpr -> list Z -> Prop.
Variable tag_lang : TagDispatch -> list Z -> Prop.

Fixpoint matches (e : GrammarExpr) (w : list Z) {struct e} : Prop :=
  match e with
  | kEmptyStr => w = []
  | kByteString bytes => w = bytes
  | kRuleRef rule_id => rule_lang rule_id w
  | kSequence elements =>
      (fix all (es : list GrammarExpr) (w : list Z) : Prop :=
         match es with
         | [] => w = []
         | x :: rest => exists u v, w = u ++ v /\ matches x u /\ all rest v
         end) elements w
  | kChoices elements =>
      (fix any (es : list GrammarExpr) : Prop :=
         match es with
         | [] => False
         | x :: rest => matches x w \/ any rest
         end) elements
  | kTagDispatch td => tag_lang td w
  | _ => atom_lang e w
  end.

Fixpoint matches_all (es : list GrammarExpr) (w : list Z) : Prop :=
  match es with
  | [] => w = []
  | x :: rest => exists u v, w = u ++ v /\ matches x u /\ matches_all rest v
  end.

Fixpoint matches_any (es : list GrammarExpr) (w : list Z) : Prop :=
  match es with
  | [] => False
  | x :: rest => matches x w \/ matches_any rest w
  end.

(** A reference to a rule that [b'] has and [b] has not matches what
    the body of the rule matches. *)
Definition interprets (b b' : GrammarBuilder) : Prop :=
  forall k r body,
    List.length (rules b) <= k ->
    nth_error (rules b') k = Some r ->
    body_expr r = Some body ->
    forall w, rule_lang k w <-> matches body w.

End Meaning.

(** One iteration of each loop keeps what the element matches. *)
Definition sequence_step_keeps (VisitTagDispatch : TagDispatch -> TagDispatch)
    (cur_rule_name_ : string) (rule_lang : nat -> list Z -> Prop)
    (atom_lang : GrammarExpr -> list Z -> Prop) (tag_lang : TagDispatch -> list Z -> Prop)
    (e : GrammarExpr) : Prop :=
  forall b ids b',
    in_sequence VisitTagDispatch cur_rule_name_ e b = Some (ids, b') ->
    interprets rule_lang atom_lang tag_lang b b' ->
    forall w, matches_all rule_lang atom_lang tag_lang ids w
              <-> matches rule_lang atom_lang tag_lang e w.

Definition choices_step_keeps (VisitTagDispatch : TagDispatch -> TagDispatch)
    (cur_rule_name_ : string) (rule_lang : nat -> list Z -> Prop)
    (atom_lang : GrammarExpr -> list Z -> Prop) (tag_lang : TagDispatch -> list Z -> Prop)
    (e : GrammarExpr) : Prop :=
  forall b ids found b',
    in_choices VisitTagDispatch cur_rule_name_ e b = Some ((ids, found), b') ->
    interprets rule_lang atom_lang tag_lang b b' ->
    forall w, (matches_any rule_lang atom_lang tag_lang ids w \/ (found = true /\ w = []))
              <-> matches rule_lang atom_lang tag_lang e w.

(** An example: the reference to rule 0 matches "c" and "d". *)
Definition c_or_d (rule_id : nat) (w : list Z) : Prop :=
  rule_id = 0 /\ (w = bytes_of_string "c" \/ w = bytes_of_string "d").

Definition no_atoms (e : GrammarExpr) (w : list Z) : Prop := False.

Definition no_tags (td : TagDispatch) (w : list Z) : Prop := False.

Definition b_then_c_or_d : GrammarExpr :=
  kSequence [AddByteString "b"; kChoices [AddByteString "c"; AddByteString "d"]].

End NormalizerMeaning.

(** ** grammar_functor.cc: what adding a character range leaves alone,
    and the 2-byte block *)

Module FSMBuilderFrame.
Import FSMBuilder.
Local Open Scope Z_scope.
Local Open Scope list_scope.

(** An edge added for a range from [from] to [to]: it leaves [from] or
    a state that was not there, and enters [to] or a state that was
    not there. *)
Definition inside (from to n0 n' : nat) (e : FSMEdge) : Prop :=
  (edge_from e = from \/ (n0 <= edge_from e < n')%nat) /\
  (edge_target e = to \/ (n0 <= edge_target e < n')%nat).

(** [fsm'] is [fsm] with states added, and with edges added after the
    edges of [fsm], all of them inside. *)
Definition grown (from to : nat) (fsm fsm' : FSM) : Prop :=
  (num_states fsm <= num_states fsm')%nat /\
  exists added,
    edges fsm' = edges fsm ++ added /\
    Forall (inside from to (num_states fsm) (num_states fsm')) added.

(** The automaton of a character class as the ranges are added to it:
    [from] and [to] are two of its states, every edge joins two of its
    states, none enters [from] and none leaves [to]. *)
Definition between (from to : nat) (fsm : FSM) : Prop :=
  (from < num_states fsm)%nat /\ (to < num_states fsm)%nat /\ from <> to /\
  Forall (fun e => (edge_from e < num_states fsm)%nat /\
                   (edge_target e < num_states fsm)%nat /\
                   edge_target e <> from /\ edge_from e <> to) (edges fsm).

(** A bound of the 2-byte block: a first byte from C0 to DF and a
    continuation byte. *)
Definition two_byte_bound (x : Z) : Prop :=
  0xC0 <= x / 256 <= 0xDF /\ 0x80 <= x mod 256 <= 0xBF.

(** Two bytes, the second a continuation byte, that lie from [min] to
    [max] when packed. *)
Definition in_two_byte_range (min max : Z) (bytes : list Z) : bool :=
  match bytes with
  | [c1; c2] =>
      (0x80 <=? c2) && (c2 <=? 0xBF) && (min <=? c1 * 256 + c2) && (c1 * 256 + c2 <=? max)
  | _ => false
  end.

(** A bound of one byte, or of the 2-byte block. *)
Definition short_bound (x : Z) : Prop := 0 <= x <= 0x7F \/ two_byte_bound x.

(** One byte up to 7F, or two bytes from C0 on with a continuation
    byte, that lie from [min] to [max] when packed. *)
Definition in_short_range (min max : Z) (bytes : list Z) : bool :=
  match bytes with
  | [c] => (min <=? c) && (c <=? max) && (c <=? 0x7F)
  | [c1; c2] =>
      (0xC0 <=? c1) && (0x80 <=? c2) && (c2 <=? 0xBF) &&
      (min <=? c1 * 256 + c2) && (c1 * 256 + c2 <=? max)
  | _ => false
  end.

(** The 1-byte case of [AddSameLengthCharacterRange], as the blocks
    call it. *)
Definition one_byte (fsm : FSM) (from to : nat) (min max : Z) : FSM :=
  AddEdge fsm from to (uint8 (Z.land min 0xFF)) (uint8 (Z.land max 0xFF)).

(** The letters from A on and the code points up to U+00E0, by their
    packed encodings 41 and C3 A0. *)
Definition A_to_U00E0 : option FSM := AddCharacterRange two_states 0 1 0x41 0xC3A0.

End FSMBuilderFrame.

(** ** compiler.cc: what the token loop keeps *)

Module TokenLoopShape.
Import TokenMask.
Local Open Scope Z_scope.
Local Open Scope list_scope.

(** The parser has read [prev_matched_size] bytes since [p0]. *)
Definition ahead_of {Parser : Type} (PopLastStates : Parser -> Z -> Parser) (p0 : Parser)
    (l : Loop Parser) : Prop :=
  0 <= prev_matched_size l /\
  PopLastStates (parser (matcher l)) (prev_matched_size l) = p0.

(** The intervals follow one another from [lo] on and end by [size]. *)
Fixpoint in_order (lo : Z) (intervals : list (Z * Z)) (size : Z) : Prop :=
  match intervals with
  | [] => lo <= size
  | interval :: rest =>
      lo <= fst interval /\ fst interval <= snd interval /\ in_order (snd interval) rest size
  end.

(** The subtree of a token of an interval ends after the token and
    inside the interval. *)
Definition subtrees_within (subtree_nodes_range : list Z) (intervals : list (Z * Z)) : Prop :=
  forall interval, In interval intervals ->
  forall i, fst interval <= i < snd interval ->
  i < nth (Z.to_nat i) subtree_nodes_range 0 <= snd interval.

(** The three vectors of token indices that make the mask, one after
    the other. *)
Definition classified {Parser : Type} (m : Matcher Parser) : list Z :=
  tmp_accepted_indices_ m ++ tmp_rejected_indices_ m ++ tmp_uncertain_indices_ m.

(** How often [x] is in them. *)
Definition occurrences {Parser : Type} (m : Matcher Parser) (x : Z) : nat :=
  count_occ Z.eq_dec (classified m) x.

(** What an iteration on token [i] adds to the three vectors: the
    indices from [i] to where the iteration leaves [i]. *)
Definition covers {Parser : Type} (subtree_nodes_range : list Z) (l l' : Loop Parser)
    (i i' : Z) : Prop :=
  i <= i' /\ i' < nth (Z.to_nat i) subtree_nodes_range 0 /\
  forall x, occurrences (matcher l') x
            = (occurrences (matcher l) x + count_occ Z.eq_dec (range i (i' + 1)) x)%nat.

(** The five vectors of token indices. *)
Definition index_vectors {Parser : Type} (m : Matcher Parser)
    : list Z * list Z * list Z * list Z * list Z :=
  (tmp_accepted_indices_ m, tmp_rejected_indices_ m, tmp_uncertain_indices_ m,
   tmp_rejected_by_lookahead_indices_ m, tmp_accepted_by_lookahead_indices_ m).

(** A vector of indices from [lo] on and below [hi], each greater than
    the one before. *)
Fixpoint increasing_in (lo hi : Z) (v : list Z) : Prop :=
  match v with
  | [] => lo <= hi
  | x :: rest => lo <= x /\ increasing_in (x + 1) hi rest
  end.

Definition vectors_in {Parser : Type} (hi : Z) (m : Matcher Parser) : Prop :=
  increasing_in 0 hi (tmp_accepted_indices_ m) /\
  increasing_in 0 hi (tmp_rejected_indices_ m) /\
  increasing_in 0 hi (tmp_uncertain_indices_ m) /\
  increasing_in 0 hi (tmp_rejected_by_lookahead_indices_ m) /\
  increasing_in 0 hi (tmp_accepted_by_lookahead_indices_ m).

End TokenLoopShape.

(** ** compiler.cc: GetPossibleTokenIntervals

    [std::lower_bound] is a parameter: given the offset where the search
    starts and the string searched for, it returns an index of
    [sorted_decoded_vocab].  [first_char_mask] is indexed by the byte. *)

Module TokenIntervals.
Import TokenMask.
Import TokenLoopShape.
Local Open Scope Z_scope.
Local Open Scope list_scope.

(** [operator<] of [std::string]: bytes are compared as unsigned. *)
Fixpoint string_ltb (a b : Token) : bool :=
  match a, b with
  | _, [] => false
  | [], _ :: _ => true
  | x :: a', y :: b' =>
      if (nat_of_ascii x <? nat_of_ascii y)%nat then true
      else if (nat_of_ascii y <? nat_of_ascii x)%nat then false
      else string_ltb a' b'
  end.

(** [std::string(1, static_cast<uint8_t>(i))] *)
Definition single (i : Z) : Token := [ascii_of_nat (Z.to_nat i)].

(** The local variables of the loop. *)
Record IntervalState : Type := mkIntervalState {
  possible_token_num : Z;
  matched_size : Z;
  last_interval_end : Z;
  possible_intervals : list (Z * Z)
}.

Section Intervals.

Variable sorted_decoded_vocab : list (Z * Token).
Variable first_char_mask : Z -> bool.
Variable lower_bound : Z -> Token -> Z.

(** One iteration of "for (int32_t i = 0; i < 256; i++)". *)
Definition interval_step (s : IntervalState) (i : Z) : IntervalState :=
  if first_char_mask i then
    if last_interval_end s =? -1 then
      mkIntervalState (possible_token_num s) (matched_size s) i (possible_intervals s)
    else s
  else
    if negb (last_interval_end s =? -1) then
      let interval_left_end := lower_bound (matched_size s) (single (last_interval_end s)) in
      let interval_right_end := lower_bound interval_left_end (single i) in
      mkIntervalState
        (possible_token_num s + (interval_right_end - interval_left_end))
        interval_right_end (-1)
        (possible_intervals s ++ [(interval_left_end, interval_right_end)])
    else s.

(** Returns [possible_token_num] and the intervals pushed. *)
Definition GetPossibleTokenIntervals : Z * list (Z * Z) :=
  let s := fold_left interval_step (range 0 256) (mkIntervalState 0 0 (-1) []) in
  if negb (last_interval_end s =? -1) then
    let interval_left_end := lower_bound (matched_size s) (single (last_interval_end s)) in
    let size := Z.of_nat (List.length sorted_decoded_vocab) in
    (possible_token_num s + (size - interval_left_end),
     possible_intervals s ++ [(interval_left_end, size)])
  else (possible_token_num s, possible_intervals s).

End Intervals.

(** What [std::lower_bound] returns on a vocabulary sorted by
    [string_ltb], searched from [start]: the first index from [start] on
    whose token is not less than [value]. *)
Definition vocab_sorted (vocab : list (Z * Token)) : Prop :=
  forall j k, 0 <= j <= k -> k < Z.of_nat (List.length vocab) ->
  string_ltb (token_at vocab k) (token_at vocab j) = false.

Definition finds_the_bound (vocab : list (Z * Token)) (lower_bound : Z -> Token -> Z)
    : Prop :=
  forall start value,
    0 <= start <= Z.of_nat (List.length vocab) ->
    start <= lower_bound start value <= Z.of_nat (List.length vocab) /\
    (forall j, start <= j < lower_bound start value ->
               string_ltb (token_at vocab j) value = true) /\
    (lower_bound start value < Z.of_nat (List.length vocab) ->
     string_ltb (token_at vocab (lower_bound start value)) value = false).

(** The search from [start] by a scan. *)
Fixpoint scan_from (tokens : list (Z * Token)) (value : Token) (index : Z) : Z :=
  match tokens with
  | [] => index
  | x :: rest => if string_ltb (snd x) value then scan_from rest value (index + 1) else index
  end.

Definition scan_lower_bound (vocab : list (Z * Token)) (start : Z) (value : Token) : Z :=
  scan_from (skipn (Z.to_nat start) vocab) value start.

(** The number of tokens in the intervals. *)
Definition interval_lengths (intervals : list (Z * Z)) : Z :=
  fold_right (fun interval acc => (snd interval - fst interval) + acc) 0 intervals.

(** The intervals pushed so far end at [matched_size], and
    [possible_token_num] is their total length. *)
Definition counted (vocab : list (Z * Token)) (s : IntervalState) : Prop :=
  0 <= matched_size s <= Z.of_nat (List.length vocab) /\
  in_order 0 (possible_intervals s) (matched_size s) /\
  possible_token_num s = interval_lengths (possible_intervals s).

(** Token [j] is in one of the intervals. *)
Definition in_intervals (intervals : list (Z * Z)) (j : Z) : Prop :=
  exists interval, In interval intervals /\ fst interval <= j < snd interval.

(** The token is not empty and the mask has its first byte. *)
Definition first_char_allowed (first_char_mask : Z -> bool) (token : Token) : Prop :=
  exists ch rest, token = ch :: rest /\ first_char_mask (Z.of_nat (nat_of_ascii ch)) = true.

(** The token is empty or starts with a byte below [b]. *)
Definition starts_below (b : Z) (token : Token) : Prop :=
  match token with
  | [] => True
  | ch :: _ => Z.of_nat (nat_of_ascii ch) < b
  end.

(** The state of the loop before the iteration on [i]. *)
Definition interval_invariant (vocab : list (Z * Token)) (first_char_mask : Z -> bool)
    (i : Z) (s : IntervalState) : Prop :=
  let bound := if last_interval_end s =? -1 then i else last_interval_end s in
  (last_interval_end s = -1 \/
   (0 <= last_interval_end s < i /\
    forall b, last_interval_end s <= b < i -> first_char_mask b = true)) /\
  0 <= matched_size s <= Z.of_nat (List.length vocab) /\
  (forall j, 0 <= j < matched_size s -> starts_below bound (token_at vocab j)) /\
  (forall j, 0 <= j < Z.of_nat (List.length vocab) ->
     in_intervals (possible_intervals s) j <->
     (first_char_allowed first_char_mask (token_at vocab j) /\
      starts_below bound (token_at vocab j))).

(** The vocabulary "a", "b", "c" and the mask of the byte "b". *)
Definition a_b_c_vocab : list (Z * Token) :=
  [(0, list_ascii_of_string "a"); (1, list_ascii_of_string "b");
   (2, list_ascii_of_string "c")].

Definition only_b (i : Z) : bool := i =? 98.

End TokenIntervals.

(** ** grammar_functor.cc: AllowEmptyRuleAnalyzerImpl

    The analyzer runs on a normalized grammar: a body is a tag dispatch
    or a choices of sequences, after an empty string or not.  A failed
    check and an expression of another kind where the code reads a
    sequence are [Failed].  The reference graph of [RuleRefGraphFinder]
    and the order in which an [std::unordered_set] is iterated are
    parameters. *)

Module AllowEmptyRuleAnalyzer.
Import GrammarIR.
Import Builder.
Local Open Scope nat_scope.
Local Open Scope list_scope.

Inductive Outcome (A : Type) : Type :=
| Done (result : A)
| Failed
| OutOfFuel.

Arguments Done {A} result.
Arguments Failed {A}.
Arguments OutOfFuel {A}.

Definition is_star (e : GrammarExpr) : bool :=
  match e with kCharacterClassStar _ _ => true | _ => false end.

(** "seq_expr.begin() ... seq_expr.end()" *)
Definition elements_of (seq_expr : GrammarExpr) : option (list GrammarExpr) :=
  match seq_expr with
  | kSequence elements => Some elements
  | kEmptyStr => Some []
  | _ => None
  end.

(** The loop "for (auto seq_id : grammar_expr)" of
    [FindExplicitEmptyRules], with its [break]. *)
Fixpoint some_sequence_of_stars (children : list GrammarExpr) : option bool :=
  match children with
  | [] => Some false
  | seq_expr :: rest =>
      match elements_of seq_expr with
      | None => None
      | Some elements =>
          if forallb is_star elements then Some true else some_sequence_of_stars rest
      end
  end.

(** One iteration of [FindExplicitEmptyRules]: whether rule [i] is
    inserted. *)
Definition explicitly_empty (rule : Rule) : option bool :=
  match body_expr rule with
  | Some (kTagDispatch _) => Some false
  | Some (kChoices (first :: rest)) =>
      match first with
      | kEmptyStr => Some true
      | _ => some_sequence_of_stars (first :: rest)
      end
  | _ => None
  end.

Fixpoint FindExplicitEmptyRules (rules : list Rule) (i : nat) (empty_rule_id_set : list nat)
    : option (list nat) :=
  match rules with
  | [] => Some empty_rule_id_set
  | rule :: rest =>
      match explicitly_empty rule with
      | None => None
      | Some inserted =>
          FindExplicitEmptyRules rest (S i)
            (if inserted then empty_rule_id_set ++ [i] else empty_rule_id_set)
      end
  end.

(** [empty_rule_id_set.count(id)] *)
Definition count (id : nat) (empty_rule_id_set : list nat) : bool :=
  existsb (Nat.eqb id) empty_rule_id_set.

(** The lambda of [SeqExprIsEpsilon]. *)
Definition element_is_epsilon (empty_rule_id_set : list nat) (element_expr : GrammarExpr)
    : bool :=
  match element_expr with
  | kRuleRef rule_id => count rule_id empty_rule_id_set
  | kCharacterClassStar _ _ => true
  | kRepeat rule_id min_count _ => count rule_id empty_rule_id_set || (min_count =? 0)%Z
  | _ => false
  end.

Definition SeqExprIsEpsilon (seq_expr : GrammarExpr) (empty_rule_id_set : list nat)
    : option bool :=
  match seq_expr with
  | kEmptyStr => Some true
  | kSequence elements => Some (forallb (element_is_epsilon empty_rule_id_set) elements)
  | _ => None
  end.

(** "std::any_of(grammar_expr.begin(), grammar_expr.end(), ...)" *)
Fixpoint any_is_epsilon (children : list GrammarExpr) (empty_rule_id_set : list nat)
    : option bool :=
  match children with
  | [] => Some false
  | seq_expr :: rest =>
      match SeqExprIsEpsilon seq_expr empty_rule_id_set with
      | None => None
      | Some true => Some true
      | Some false => any_is_epsilon rest empty_rule_id_set
      end
  end.

Section Worklist.

Variable rules : list Rule.
Variable rule_ref_graph : list (list nat).

(** "for (auto referer_rule_id : rule_ref_graph[rule_id])": the set and
    the queue after the loop. *)
Fixpoint visit_referers (referers : list nat) (empty_rule_id_set queue : list nat)
    : option (list nat * list nat) :=
  match referers with
  | [] => Some (empty_rule_id_set, queue)
  | referer_rule_id :: rest =>
      if count referer_rule_id empty_rule_id_set then
        visit_referers rest empty_rule_id_set queue
      else
        match nth_error rules referer_rule_id with
        | None => None
        | Some rule =>
            match body_expr rule with
            | Some (kChoices children) =>
                match any_is_epsilon children empty_rule_id_set with
                | None => None
                | Some true =>
                    visit_referers rest (empty_rule_id_set ++ [referer_rule_id])
                      (queue ++ [referer_rule_id])
                | Some false => visit_referers rest empty_rule_id_set queue
                end
            | _ => None
            end
        end
  end.

(** "while (!queue.empty())" *)
Fixpoint drain (fuel : nat) (empty_rule_id_set queue : list nat) : Outcome (list nat) :=
  match queue with
  | [] => Done empty_rule_id_set
  | rule_id :: queue' =>
      match fuel with
      | O => OutOfFuel
      | S fuel' =>
          match nth_error rule_ref_graph rule_id with
          | None => Failed
          | Some referers =>
              match visit_referers referers empty_rule_id_set queue' with
              | None => Failed
              | Some (set', queue'') => drain fuel' set' queue''
              end
          end
      end
  end.

(** The order in which the set is iterated to fill the queue. *)
Variable iteration : list nat -> list nat.

Definition FindIndirectEmptyRules (empty_rule_id_set : list nat) : Outcome (list nat) :=
  let queue := iteration empty_rule_id_set in
  drain (List.length queue + List.length rules) empty_rule_id_set queue.

(** [std::sort] of the ids. *)
Fixpoint insert_id (x : nat) (sorted : list nat) : list nat :=
  match sorted with
  | [] => [x]
  | y :: rest => if x <=? y then x :: sorted else y :: insert_id x rest
  end.

Definition sort_ids (ids : list nat) : list nat := fold_right insert_id [] ids.

Definition Apply : Outcome (list nat) :=
  match FindExplicitEmptyRules rules 0 [] with
  | None => Failed
  | Some explicit =>
      match FindIndirectEmptyRules explicit with
      | Done result => Done (sort_ids result)
      | Failed => Failed
      | OutOfFuel => OutOfFuel
      end
  end.

End Worklist.

(** *** Rules that match the empty string *)

Inductive nullable (rules : list Rule) : nat -> Prop :=
| nullable_rule (id : nat) (rule : Rule) (children : list GrammarExpr) (c : GrammarExpr) :
    nth_error rules id = Some rule ->
    body_expr rule = Some (kChoices children) ->
    In c children ->
    nullable_sequence rules c ->
    nullable rules id
with nullable_sequence (rules : list Rule) : GrammarExpr -> Prop :=
| nullable_empty_str : nullable_sequence rules kEmptyStr
| nullable_elements (elements : list GrammarExpr) :
    all_nullable rules elements -> nullable_sequence rules (kSequence elements)
with all_nullable (rules : list Rule) : list GrammarExpr -> Prop :=
| all_nullable_nil : all_nullable rules []
| all_nullable_cons (e : GrammarExpr) (rest : list GrammarExpr) :
    nullable_element rules e -> all_nullable rules rest -> all_nullable rules (e :: rest)
with nullable_element (rules : list Rule) : GrammarExpr -> Prop :=
| nullable_star (negated : bool) (ranges : list (Z * Z)) :
    nullable_element rules (kCharacterClassStar negated ranges)
| nullable_rule_ref (rule_id : nat) :
    nullable rules rule_id -> nullable_element rules (kRuleRef rule_id)
| nullable_repeat_none (rule_id : nat) (max_count : Z) :
    nullable_element rules (kRepeat rule_id 0 max_count)
| nullable_repeat (rule_id : nat) (min_count max_count : Z) :
    nullable rules rule_id -> nullable_element rules (kRepeat rule_id min_count max_count).

(** Why rule [id] is in the set: it is inserted by
    [FindExplicitEmptyRules], or it refers to a rule of the set. *)
Definition reached (rules : list Rule) (rule_ref_graph : list (list nat))
    (empty_rule_id_set : list nat) (id : nat) : Prop :=
  (exists rule, nth_error rules id = Some rule /\ explicitly_empty rule = Some true) \/
  (exists rule_id referers,
     In rule_id empty_rule_id_set /\
     nth_error rule_ref_graph rule_id = Some referers /\
     In id referers).

(** The set and the queue between two passes of the loop. *)
Definition reach_invariant (rules : list Rule) (rule_ref_graph : list (list nat))
    (empty_rule_id_set queue : list nat) : Prop :=
  (forall id, In id empty_rule_id_set -> reached rules rule_ref_graph empty_rule_id_set id) /\
  (forall id, In id queue -> In id empty_rule_id_set).

(** The rules of the grammar that are not in the set. *)
Definition missing (rules : list Rule) (empty_rule_id_set : list nat) : nat :=
  List.length (filter (fun id => negb (count id empty_rule_id_set))
                 (seq 0 (List.length rules))).

(** [a ::= "" | b], [b ::= [a-z]* c], [c ::= "x"], [d ::= c{0,2}], with
    the rules that refer to each rule. *)
Definition sample_rules : list Rule :=
  [ mkRule "a" (Some (kChoices [kEmptyStr; kSequence [kRuleRef 1]])) None false;
    mkRule "b" (Some (kChoices [kSequence [kCharacterClassStar false [(97, 122)%Z];
                                           kRuleRef 0]])) None false;
    mkRule "c" (Some (kChoices [kSequence [AddByteString "x"]])) None false;
    mkRule "d" (Some (kChoices [kSequence [kRepeat 2 0 2]])) None false ].

Definition sample_graph : list (list nat) := [[1]; [0]; [3]; []].

End AllowEmptyRuleAnalyzer.

(** ** grammar_functor.cc: LookaheadAssertionAnalyzerImpl

    The two scans of the rule table, [IsExactLookaheadAssertion] and
    [DetectLookaheadAssertion].  Both read the grammar only.  A failed
    check, a body that is neither a tag dispatch nor a choices, and the
    read of the last element of an empty sequence
    ([sequence_expr.end()[-1]]) are [CheckFails]. *)

Module LookaheadAssertionAnalyzer.
Import GrammarIR.
Import Builder.
Local Open Scope nat_scope.
Local Open Scope list_scope.

(** How an iteration ends: with the next value of the loop variables,
    with the early [return false] ([return -1]), or undefined. *)
Inductive Step (S : Type) : Type :=
| Next (s : S)
| Returns
| CheckFails.

Arguments Next {S} s.
Arguments Returns {S}.
Arguments CheckFails {S}.

Section Loop.

Variables A S : Type.
Variable body : A -> S -> Step S.

Fixpoint each (l : list A) (s : S) : Step S :=
  match l with
  | [] => Next s
  | x :: rest =>
      match body x s with
      | Next s' => each rest s'
      | Returns => Returns
      | CheckFails => CheckFails
      end
  end.

End Loop.

(** "for (int i = 0; i < NumRules(); ++i) { auto rule = GetRule(i); ...": the
    rules with their ids. *)
Definition indexed (rules : list Rule) : list (nat * Rule) :=
  combine (seq 0 (List.length rules)) rules.

(** "type == GrammarExprType::kRuleRef && expr[0] == rule_id" *)
Definition is_ref (rule_id : nat) (e : GrammarExpr) : bool :=
  match e with
  | kRuleRef r => r =? rule_id
  | _ => false
  end.

(** "for (int j = 1; j < grammar_expr.size() - 3; j += 2)
       if (grammar_expr[j] == rule_id)": the rule ids of the pairs. *)
Definition dispatches_to (rule_id : nat) (tag_dispatch : TagDispatch) : bool :=
  existsb (fun pair => snd pair =? rule_id) (tag_rule_pairs tag_dispatch).

(** "sequence_expr.end()[-1]" is a reference to the rule. *)
Definition ends_with (rule_id : nat) (elements : list GrammarExpr) : bool :=
  is_ref rule_id (last elements kEmptyStr).

(** *** IsExactLookaheadAssertion *)

(** "for (int j = 0; j < sequence_expr.size() - 1; ++j)" *)
Fixpoint exact_elements (rule_id : nat) (elements : list GrammarExpr) (found : bool)
    : Step bool :=
  match elements with
  | [] => Next found
  | element_expr :: rest =>
      match rest with
      | [] => Next found
      | _ :: _ =>
          if negb (is_ref rule_id element_expr) then exact_elements rule_id rest found
          else if found then Returns
          else exact_elements rule_id rest true
      end
  end.

(** The body of "for (auto sequence_id : grammar_expr)". *)
Definition exact_sequence (rule_id i : nat) (sequence_expr : GrammarExpr) (found : bool)
    : Step bool :=
  match sequence_expr with
  | kSequence [] => CheckFails
  | kSequence elements =>
      if ends_with rule_id elements && negb (i =? rule_id) then Returns
      else exact_elements rule_id elements found
  | _ => Next found
  end.

(** The body of the loop over the rules. *)
Definition exact_rule (rule_id : nat) (ir : nat * Rule) (found : bool) : Step bool :=
  match body_expr (snd ir) with
  | Some (kTagDispatch tag_dispatch) =>
      if dispatches_to rule_id tag_dispatch then Returns else Next found
  | Some (kChoices children) => each (exact_sequence rule_id (fst ir)) children found
  | _ => CheckFails
  end.

Definition IsExactLookaheadAssertion (rules : list Rule) (rule_id : nat) : option bool :=
  match nth_error rules rule_id with
  | None => None
  | Some rule =>
      match lookahead_assertion rule with
      | None => None
      | Some _ =>
          match each (exact_rule rule_id) (indexed rules) false with
          | Next found => Some found
          | Returns => Some false
          | CheckFails => None
          end
      end
  end.

(** *** DetectLookaheadAssertion

    The loop variables are [found] and [found_sequence]. *)

Definition Found : Type := (bool * list GrammarExpr)%type.

(** "for (int j = 0; j < sequence_expr.size() - 1; ++j)", with
    "for (int k = j + 1; k < sequence_expr.size(); ++k)
       found_sequence.push_back(sequence_expr[k])" *)
Fixpoint detect_elements (rule_id : nat) (elements : list GrammarExpr) (found : bool)
    (found_sequence : list GrammarExpr) : Step Found :=
  match elements with
  | [] => Next (found, found_sequence)
  | element_expr :: rest =>
      match rest with
      | [] => Next (found, found_sequence)
      | _ :: _ =>
          if negb (is_ref rule_id element_expr) then
            detect_elements rule_id rest found found_sequence
          else if found then Returns
          else detect_elements rule_id rest true (found_sequence ++ rest)
      end
  end.

Definition detect_sequence (rule_id i : nat) (sequence_expr : GrammarExpr) (s : Found)
    : Step Found :=
  match sequence_expr with
  | kSequence [] => CheckFails
  | kSequence elements =>
      if ends_with rule_id elements && negb (i =? rule_id) then Returns
      else detect_elements rule_id elements (fst s) (snd s)
  | _ => Next s
  end.

Definition detect_rule (rule_id : nat) (ir : nat * Rule) (s : Found) : Step Found :=
  match body_expr (snd ir) with
  | Some (kTagDispatch tag_dispatch) =>
      if dispatches_to rule_id tag_dispatch then Returns else Next s
  | Some (kChoices children) => each (detect_sequence rule_id (fst ir)) children s
  | _ => CheckFails
  end.

(** The result is the look-ahead sequence handed to [AddSequence], or
    [None] for -1. *)
Definition DetectLookaheadAssertion (rules : list Rule) (rule_id : nat)
    : option (option GrammarExpr) :=
  match each (detect_rule rule_id) (indexed rules) (false, []) with
  | Next (found, found_sequence) =>
      if negb found then Some None else Some (Some (kSequence found_sequence))
  | Returns => Some None
  | CheckFails => None
  end.

(** *** The uses of a rule *)

(** The references to the rule that are not the last element of their
    sequence. *)
Definition uses_in_elements (rule_id : nat) (elements : list GrammarExpr) : nat :=
  List.length (filter (is_ref rule_id) (removelast elements)).

Definition uses_in_sequence (rule_id : nat) (sequence_expr : GrammarExpr) : nat :=
  match sequence_expr with
  | kSequence elements => uses_in_elements rule_id elements
  | _ => 0
  end.

Definition uses_in_rule (rule_id : nat) (rule : Rule) : nat :=
  match body_expr rule with
  | Some (kChoices children) => list_sum (map (uses_in_sequence rule_id) children)
  | _ => 0
  end.

Definition uses (rule_id : nat) (rules : list Rule) : nat :=
  list_sum (map (uses_in_rule rule_id) rules).

(** A choice of rule [i] is a non-empty sequence that does not end with
    a reference to the rule, unless [i] is the rule itself, or it is not
    a sequence. *)
Definition sequence_allows (rule_id i : nat) (sequence_expr : GrammarExpr) : Prop :=
  match sequence_expr with
  | kSequence elements =>
      elements <> [] /\ (i <> rule_id -> ends_with rule_id elements = false)
  | _ => True
  end.

(** The body of rule [i] is a tag dispatch without a pair for the rule,
    or a choices of such sequences. *)
Definition rule_allows (rule_id : nat) (ir : nat * Rule) : Prop :=
  match body_expr (snd ir) with
  | Some (kTagDispatch tag_dispatch) => dispatches_to rule_id tag_dispatch = false
  | Some (kChoices children) => Forall (sequence_allows rule_id (fst ir)) children
  | _ => False
  end.

(** The elements after the first reference to the rule that is not the
    last element. *)
Fixpoint following_elements (rule_id : nat) (elements : list GrammarExpr)
    : list GrammarExpr :=
  match elements with
  | [] => []
  | element_expr :: rest =>
      match rest with
      | [] => []
      | _ :: _ => if is_ref rule_id element_expr then rest else following_elements rule_id rest
      end
  end.

Definition following_sequence (rule_id : nat) (sequence_expr : GrammarExpr)
    : list GrammarExpr :=
  match sequence_expr with
  | kSequence elements => following_elements rule_id elements
  | _ => []
  end.

Definition following_rule (rule_id : nat) (rule : Rule) : list GrammarExpr :=
  match body_expr rule with
  | Some (kChoices children) => List.concat (map (following_sequence rule_id) children)
  | _ => []
  end.

(** [root ::= item "," tail], [item ::= "x"], [tail ::= "y" tail | ""];
    [item] comes with a look-ahead in the second table. *)
Definition list_rules : list Rule :=
  [ mkRule "root" (Some (kChoices [kSequence [kRuleRef 1; AddByteString ","; kRuleRef 2]]))
      None false;
    mkRule "item" (Some (kChoices [kSequence [AddByteString "x"]])) None false;
    mkRule "tail" (Some (kChoices [kSequence [AddByteString "y"; kRuleRef 2]; kEmptyStr]))
      None false ].

Definition list_rules_with_lookahead : list Rule :=
  [ mkRule "root" (Some (kChoices [kSequence [kRuleRef 1; AddByteString ","; kRuleRef 2]]))
      None false;
    mkRule "item" (Some (kChoices [kSequence [AddByteString "x"]]))
      (Some (kSequence [AddByteString ","])) false;
    mkRule "tail" (Some (kChoices [kSequence [AddByteString "y"; kRuleRef 2]; kEmptyStr]))
      None false ].

End LookaheadAssertionAnalyzer.

(** ** compiler.cc: the runs of the look-ahead check

    What [IsTokenPassLookaheadAssertion] looks for, said without its
    loops. *)

Module LookaheadRuns.

Import TokenMask.
Local Open Scope Z_scope.
Local Open Scope list_scope.

Section Runs.

Variable Parser : Type.
Variable Advance : Parser -> ascii -> option Parser.
Variable IsCompleted : Parser -> bool.

(** The run of the look-ahead state on the bytes [tail]: it ends with
    [true] at the first byte after which the parser is completed, and
    with [false] when every byte is read and the parser is completed
    after none of them.  A byte that cannot be read before that ends no
    run. *)
Inductive run_ends : Parser -> Token -> bool -> Prop :=
| run_reads_all (p : Parser) : run_ends p [] false
| run_completes (p p' : Parser) (ch : ascii) (tail : Token) :
    Advance p ch = Some p' -> IsCompleted p' = true -> run_ends p (ch :: tail) true
| run_goes_on (p p' : Parser) (ch : ascii) (tail : Token) (completes : bool) :
    Advance p ch = Some p' -> IsCompleted p' = false -> run_ends p' tail completes ->
    run_ends p (ch :: tail) completes.

(** Position [n] decides the check: the rule can end before byte [n],
    the run on the bytes from [n] on ends, and it is the last such
    position of the stack. *)
Definition decides (p1 : Parser) (token : Token) (can_reach_end_stack : list bool)
    (completes : bool) (n : nat) : Prop :=
  (n < List.length can_reach_end_stack)%nat /\
  nth n can_reach_end_stack false = true /\
  run_ends p1 (skipn n token) completes /\
  forall n', (n < n' < List.length can_reach_end_stack)%nat ->
             nth n' can_reach_end_stack false = true ->
             forall c, ~ run_ends p1 (skipn n' token) c.

(** The look-ahead accepts the token, and is completed or not: [p1] is
    the parser with the look-ahead state pushed. *)
Definition lookahead_accepts (p1 : Parser) (token : Token) (can_reach_end_stack : list bool)
    (completes : bool) : Prop :=
  (IsCompleted p1 = true /\ completes = true) \/
  (IsCompleted p1 = false /\ exists n, decides p1 token can_reach_end_stack completes n).

End Runs.

End LookaheadRuns.

(** ** grammar_functor.cc: the range of a negated character class

    [AddCharacterRange] is a private member of the builder, called once,
    by [BuildNegativeCharacterClass], with [kMin2BytesUnicode] and
    [kMax4BytesUnicode]. *)

Module NegatedClassRange.
Import FSMBuilder.
Local Open Scope Z_scope.
Local Open Scope list_scope.

(** "AddCharacterRange(result_fsm, start_state, end_state,
     kMin2BytesUnicode, kMax4BytesUnicode)" *)
Definition AddMultiByteRange (fsm : FSM) (from to : nat) : option FSM :=
  AddCharacterRange fsm from to kMin2BytesUnicode kMax4BytesUnicode.

(** A continuation byte, 10xxxxxx. *)
Definition continuation (c : Z) : bool := (0x80 <=? c) && (c <=? 0xBF).

(** A first byte of the 2-, 3- or 4-byte class, from C0, E0 or F0 on,
    and one, two or three continuation bytes. *)
Definition multi_byte_form (bytes : list Z) : bool :=
  match bytes with
  | [c1; c2] => (0xC0 <=? c1) && (c1 <=? 0xDF) && continuation c2
  | [c1; c2; c3] => (0xE0 <=? c1) && (c1 <=? 0xEF) && continuation c2 && continuation c3
  | [c1; c2; c3; c4] =>
      (0xF0 <=? c1) && (c1 <=? 0xF7) && continuation c2 && continuation c3 && continuation c4
  | _ => false
  end.

(** The edges that the call adds to an automaton of [n] states. *)
Definition multi_byte_edges (from to n : nat) : list FSMEdge :=
  [ mkFSMEdge from 0xC0 0xDF n;
    mkFSMEdge n 0x80 0xBF to;
    mkFSMEdge from 0xE0 0xEF (n + 1);
    mkFSMEdge (n + 1) 0x80 0xBF (n + 2);
    mkFSMEdge (n + 2) 0x80 0xBF to;
    mkFSMEdge from 0xF0 0xF7 (n + 3);
    mkFSMEdge (n + 3) 0x80 0xBF (n + 4);
    mkFSMEdge (n + 4) 0x80 0xBF (n + 5);
    mkFSMEdge (n + 5) 0x80 0xBF to ].

(** The automaton of "[^...]" before its ASCII edges: a start state 0
    and an end state 1. *)
Definition any_multi_byte : option FSM := AddMultiByteRange two_states 0 1.

End NegatedClassRange.

(** * Theorems *)

(** ** Tag dispatch under the sub-grammar adder *)

(** C4. Evaluated on a tag dispatch that carries the exclude ["<bad>"],
    [SubGrammarAdderImpl::VisitTagDispatch] remaps the rule id and copies
    [stop_eos], [stop_str] and [loop_after_dispatch], but the relocated
    tag dispatch has no excludes left, whereas the dead-code eliminator,
    which rebuilds the same struct, keeps them. *)
Theorem SubGrammarAdder_drops_excluded_str :
  let old := TagDispatchMutators.sample_tag_dispatch in
  let new := TagDispatchMutators.SubGrammarAdder_VisitTagDispatch
               TagDispatchMutators.sample_new_rule_ids_names old in
  tag_rule_pairs new = [("<fn=", 6%nat)] /\
  stop_eos new = stop_eos old /\
  stop_str new = stop_str old /\
  loop_after_dispatch new = loop_after_dispatch old /\
  excluded_str old = ["<bad>"] /\
  excluded_str new = [] /\
  excluded_str (TagDispatchMutators.DeadCodeEliminator_VisitTagDispatch
                  (fun i => i) old) = ["<bad>"].
Proof. cbv. repeat split. Qed.

(** ** Error kinds of the structural-tag entry point *)

Section EntryPointErrors.

Variables (Format Grammar : Type).
Variable picojson_parse : string -> value * string.
Variable ParseFormat : value -> Result Format ISTError.
Variable Analyze : Format -> option ISTError * Format.
Variable Convert : Format -> Result Grammar ISTError.
Variable GrammarNormalizer_Apply : Grammar -> Grammar.

Let run := StructuralTagToGrammar picojson_parse ParseFormat Analyze Convert
             GrammarNormalizer_Apply.

Lemma FromJSON_invalid_json_iff (json : string) :
  (exists msg, FromJSON picojson_parse ParseFormat json = ResultErr (InvalidJSONError msg))
  <-> snd (picojson_parse json) <> "".
Proof.
  unfold FromJSON. destruct (picojson_parse json) as [v err]; simpl.
  destruct (String.eqb_spec err "") as [-> | Hne]; simpl.
  - split.
    + intros [msg H]. destruct (ParseStructuralTag ParseFormat v); discriminate.
    + intros H. now elim H.
  - split; [ now intros _ | intros _; eauto ].
Qed.

(** C10. When the input parses as JSON and its top-level value is not an
    object, [StructuralTagToGrammar] returns the invalid-structural-tag
    error "Structural tag must be an object"; and it returns an
    invalid-JSON error exactly when [picojson::parse] reports an error. *)
Theorem StructuralTagToGrammar_error_kinds (json : string) :
  (snd (picojson_parse json) = "" ->
   is_object (fst (picojson_parse json)) = false ->
   run json = ResultErr (InvalidStructuralTagError "Structural tag must be an object"))
  /\
  ((exists msg, run json = ResultErr (InvalidJSONError msg))
   <-> snd (picojson_parse json) <> "").
Proof.
  split.
  - intros Herr Hobj. unfold run, StructuralTagToGrammar, FromJSON.
    destruct (picojson_parse json) as [v err]; simpl in *. subst err; simpl.
    destruct v; simpl in *; try reflexivity; discriminate.
  - rewrite <- FromJSON_invalid_json_iff.
    unfold run, StructuralTagToGrammar.
    destruct (FromJSON picojson_parse ParseFormat json) as [st | e].
    + split.
      * intros [msg H]. destruct (Analyze st) as [[e|] st'].
        -- discriminate.
        -- destruct (Convert st'); discriminate.
      * intros [msg H]. discriminate.
    + split; intros [msg H]; exists msg; congruence.
Qed.

End EntryPointErrors.

(** The theorem at the inputs ["42"] (valid JSON, a number at top level)
    and ["{"] (not JSON), with stages behind the parser that accept
    everything. *)
Lemma StructuralTagToGrammar_error_kinds_witness :
  let run := StructuralTagToGrammar sample_picojson_parse
               (fun _ : value => @ResultOk unit ISTError tt)
               (fun f => (None, f)) (fun _ => @ResultOk unit ISTError tt) (fun g => g) in
  run "42" = ResultErr (InvalidStructuralTagError "Structural tag must be an object")
  /\ (exists msg, run "{" = ResultErr (InvalidJSONError msg)).
Proof.
  split.
  - apply (proj1 (StructuralTagToGrammar_error_kinds sample_picojson_parse
             (fun _ : value => @ResultOk unit ISTError tt)
             (fun f => (None, f)) (fun _ => @ResultOk unit ISTError tt) (fun g => g) "42"));
      reflexivity.
  - apply (proj2 (StructuralTagToGrammar_error_kinds sample_picojson_parse
             (fun _ : value => @ResultOk unit ISTError tt)
             (fun f => (None, f)) (fun _ => @ResultOk unit ISTError tt) (fun g => g) "{")).
    simpl. discriminate.
Defined.

(** ** Lowering of any_text *)





(** ** The analyzer's rule for sequences *)

Lemma visit_sequence_elements_cons_excl
    (visit : TagExcl.Format -> option ISTError * TagExcl.Format) (u : bool) (i : nat)
    (e e2 : TagExcl.Format) (rest : list TagExcl.Format) :
  TagExcl.visit_sequence_elements visit u i (e :: e2 :: rest) =
  let (err, element') := visit e in
  match err with
  | Some er => (Some er, element' :: e2 :: rest, u)
  | None =>
      if TagExcl.IsUnlimited element' && negb (TagExcl.IsExcluded element') then
        (Some (TagExcl.sequence_error i), element' :: e2 :: rest, u)
      else
        let '(err', rest', u') := TagExcl.visit_sequence_elements visit u (S i) (e2 :: rest) in
        (err', element' :: rest', u')
  end.
Proof. reflexivity. Qed.

Lemma visit_sequence_elements_error_excl
    (visit : TagExcl.Format -> option ISTError * TagExcl.Format) (u : bool)
    (es : list TagExcl.Format) :
  forall i, es <> [] ->
  Forall (fun e => fst (visit e) = None) es ->
  (fst (fst (TagExcl.visit_sequence_elements visit u i es)) <> None
   <-> existsb (unlimited_without_excludes visit) (removelast es) = true).
Proof.
  induction es as [|e rest IH]; intros i Hne Hall; [ congruence | ].
  inversion Hall as [|? ? He Hrest]; subst.
  destruct rest as [|e2 rest].
  - simpl. destruct (visit e) as [err e']; simpl in *. subst err. simpl.
    split; [ congruence | discriminate ].
  - change (removelast (e :: e2 :: rest)) with (e :: removelast (e2 :: rest)).
    cbn [existsb]. unfold unlimited_without_excludes at 1.
    rewrite visit_sequence_elements_cons_excl.
    destruct (visit e) as [err e'] eqn:Hv; simpl in He; subst err. cbn [snd].
    destruct (TagExcl.IsUnlimited e' && negb (TagExcl.IsExcluded e')) eqn:Hu.
    + simpl. split; [ reflexivity | discriminate ].
    + specialize (IH (S i) ltac:(discriminate) Hrest). revert IH.
      destruct (TagExcl.visit_sequence_elements visit u (S i) (e2 :: rest))
        as [[err' rest'] u'].
      cbn [fst]. intros IH; exact IH.
Qed.

Lemma visit_sequence_elements_cons_dedup
    (visit : TagDedup.Format -> option ISTError * TagDedup.Format) (u : bool) (i : nat)
    (e e2 : TagDedup.Format) (rest : list TagDedup.Format) :
  TagDedup.visit_sequence_elements visit u i (e :: e2 :: rest) =
  let (err, element') := visit e in
  match err with
  | Some er => (Some er, element' :: e2 :: rest, u)
  | None =>
      if TagDedup.IsUnlimited element' then
        (Some (TagExcl.sequence_error i), element' :: e2 :: rest, u)
      else
        let '(err', rest', u') := TagDedup.visit_sequence_elements visit u (S i) (e2 :: rest) in
        (err', element' :: rest', u')
  end.
Proof. reflexivity. Qed.

Lemma visit_sequence_elements_error_dedup
    (visit : TagDedup.Format -> option ISTError * TagDedup.Format) (u : bool)
    (es : list TagDedup.Format) :
  forall i, es <> [] ->
  Forall (fun e => fst (visit e) = None) es ->
  (fst (fst (TagDedup.visit_sequence_elements visit u i es)) <> None
   <-> existsb (unlimited visit) (removelast es) = true).
Proof.
  induction es as [|e rest IH]; intros i Hne Hall; [ congruence | ].
  inversion Hall as [|? ? He Hrest]; subst.
  destruct rest as [|e2 rest].
  - simpl. destruct (visit e) as [err e']; simpl in *. subst err. simpl.
    split; [ congruence | discriminate ].
  - change (removelast (e :: e2 :: rest)) with (e :: removelast (e2 :: rest)).
    cbn [existsb]. unfold unlimited at 1.
    rewrite visit_sequence_elements_cons_dedup.
    destruct (visit e) as [err e'] eqn:Hv; simpl in He; subst err. cbn [snd].
    destruct (TagDedup.IsUnlimited e') eqn:Hu.
    + simpl. split; [ reflexivity | discriminate ].
    + specialize (IH (S i) ltac:(discriminate) Hrest). revert IH.
      destruct (TagDedup.visit_sequence_elements visit u (S i) (e2 :: rest))
        as [[err' rest'] u'].
      cbn [fst]. intros IH; exact IH.
Qed.

(** C5, as the code has it.  For a sequence whose elements all pass
    their own analysis: the analyzer of the copy with [IsExcluded] returns
    an error exactly when some element before the last is unlimited and
    carries no excludes (so an unlimited element with excludes is allowed
    anywhere and an unlimited last element is allowed); the analyzer of
    the copy without [IsExcluded] returns an error exactly when some
    element before the last is unlimited, excludes or not. *)
Theorem sequence_unlimited_rule :
  (forall (stack : list TagExcl.Format) (elements : list TagExcl.Format) (u : bool),
     elements <> [] ->
     let visit := TagExcl.Visit (stack ++ [TagExcl.SequenceFormat elements u]) in
     Forall (fun e => fst (visit e) = None) elements ->
     (fst (TagExcl.Visit stack (TagExcl.SequenceFormat elements u)) <> None
      <-> existsb (unlimited_without_excludes visit) (removelast elements) = true))
  /\
  (forall (stack : list TagDedup.Format) (elements : list TagDedup.Format) (u : bool),
     elements <> [] ->
     let visit := TagDedup.Visit (stack ++ [TagDedup.SequenceFormat elements u]) in
     Forall (fun e => fst (visit e) = None) elements ->
     (fst (TagDedup.Visit stack (TagDedup.SequenceFormat elements u)) <> None
      <-> existsb (unlimited visit) (removelast elements) = true)).
Proof.
  split; intros stack elements u Hne visit Hall.
  - rewrite <- (visit_sequence_elements_error_excl visit u 0 Hne Hall).
    cbn [TagExcl.Visit]. fold visit.
    destruct (TagExcl.visit_sequence_elements visit u 0 elements) as [[err es'] u'].
    reflexivity.
  - rewrite <- (visit_sequence_elements_error_dedup visit u 0 Hne Hall).
    cbn [TagDedup.Visit]. fold visit.
    destruct (TagDedup.visit_sequence_elements visit u 0 elements) as [[err es'] u'].
    reflexivity.
Qed.

(** The theorem at [any_text, "a"] for the copy with [IsExcluded] (an
    error, the text has no excludes) and at [any_text{excludes}, "a"]
    for the copy without (an error as well). *)
Lemma sequence_unlimited_rule_witness :
  fst (TagExcl.Visit [] text_then_const) <> None
  /\ fst (TagDedup.Visit [] excluded_text_then_const) <> None.
Proof.
  split.
  - apply (proj1 sequence_unlimited_rule []
             [TagExcl.AnyTextFormat [] []; TagExcl.ConstStringFormat "a"] false).
    + discriminate.
    + repeat constructor.
    + reflexivity.
  - apply (proj2 sequence_unlimited_rule []
             [TagDedup.AnyTextFormat ["</s>"] []; TagDedup.ConstStringFormat "a"] false).
    + discriminate.
    + repeat constructor.
    + reflexivity.
Defined.

(** C5, the claim refuted twice.  The analyzer without [IsExcluded]
    rejects [any_text{excludes: "</s>"}, "a"], whose only non-final
    element is unlimited with excludes; and the analyzer with
    [IsExcluded] rejects ["a", tag("<t>", any_text, end "")], none of
    whose non-final elements is unlimited: the error is the one of the
    tag in last position. *)
Lemma sequence_rule_counterexample :
  (fst (TagDedup.Analyze excluded_text_then_const) = Some (TagExcl.sequence_error 0)
   /\ TagDedup.IsUnlimited (TagDedup.AnyTextFormat ["</s>"] []) = true
   /\ (["</s>"] : list string) <> [])
  /\
  (fst (TagExcl.Analyze const_then_open_tag) = Some TagExcl.tag_error
   /\ TagExcl.IsUnlimited
        (snd (TagExcl.Visit [const_then_open_tag] (TagExcl.ConstStringFormat "a"))) = false).
Proof. repeat split; discriminate. Qed.

(** ** The fingerprint cache of the converter *)

Section FormatInduction.

Import TagDedup.

Variable P : Format -> Prop.
Variable Q : TagFormat -> Prop.
Hypothesis HConst : forall v, P (ConstStringFormat v).
Hypothesis HJSON : forall j, P (JSONSchemaFormat j).
Hypothesis HQwen : forall x, P (QwenXmlParameterFormat x).
Hypothesis HAny : forall ex en, P (AnyTextFormat ex en).
Hypothesis HGrammar : forall g, P (GrammarFormat g).
Hypothesis HRegex : forall pt ex, P (RegexFormat pt ex).
Hypothesis HSeq : forall es u, Forall P es -> P (SequenceFormat es u).
Hypothesis HOr : forall es u, Forall P es -> P (OrFormat es u).
Hypothesis HTag : forall t, Q t -> P (TagFormat_ t).
Hypothesis HTrig : forall tr ts ex a st en, Forall Q ts -> P (TriggeredTagsFormat tr ts ex a st en).
Hypothesis HSep : forall ts sp a st en, Forall Q ts -> P (TagsWithSeparatorFormat ts sp a st en).
Hypothesis HmkTag : forall bg ct en, P ct -> Q (mkTagFormat bg ct en).

Fixpoint Format_nested_ind (f : Format) {struct f} : P f :=
  match f with
  | ConstStringFormat v => HConst v
  | JSONSchemaFormat j => HJSON j
  | QwenXmlParameterFormat x => HQwen x
  | AnyTextFormat ex en => HAny ex en
  | GrammarFormat g => HGrammar g
  | RegexFormat pt ex => HRegex pt ex
  | SequenceFormat es u =>
      HSeq u ((fix go (l : list Format) : Forall P l :=
                 match l with
                 | [] => Forall_nil P
                 | e :: r => Forall_cons e (Format_nested_ind e) (go r)
                 end) es)
  | OrFormat es u =>
      HOr u ((fix go (l : list Format) : Forall P l :=
                match l with
                | [] => Forall_nil P
                | e :: r => Forall_cons e (Format_nested_ind e) (go r)
                end) es)
  | TagFormat_ t => HTag (TagFormat_nested_ind t)
  | TriggeredTagsFormat tr ts ex a st en =>
      HTrig tr ex a st en
        ((fix go (l : list TagFormat) : Forall Q l :=
            match l with
            | [] => Forall_nil Q
            | e :: r => Forall_cons e (TagFormat_nested_ind e) (go r)
            end) ts)
  | TagsWithSeparatorFormat ts sp a st en =>
      HSep sp a st en
        ((fix go (l : list TagFormat) : Forall Q l :=
            match l with
            | [] => Forall_nil Q
            | e :: r => Forall_cons e (TagFormat_nested_ind e) (go r)
            end) ts)
  end
with TagFormat_nested_ind (t : TagFormat) {struct t} : Q t :=
  match t with
  | mkTagFormat bg ct en => HmkTag bg en (Format_nested_ind ct)
  end.

End FormatInduction.

Section FingerprintCache.

Import TagDedup.
Local Open Scope list_scope.

Variable ext : External.

Lemma cache_extends_refl c : cache_extends c c.
Proof. intros fp id H; exact H. Qed.

Lemma cache_extends_trans c1 c2 c3 :
  cache_extends c1 c2 -> cache_extends c2 c3 -> cache_extends c1 c3.
Proof. intros H1 H2 fp id H; auto. Qed.

Lemma find_entry_app fp bucket entry id :
  find_entry fp bucket = Some id -> find_entry fp (bucket ++ [entry]) = Some id.
Proof.
  induction bucket as [|[fp' id'] bucket IH]; simpl; [ discriminate | ].
  destruct (String.eqb fp' fp); auto.
Qed.

Lemma find_entry_app_none fp bucket fp' id' :
  find_entry fp bucket = None ->
  find_entry fp (bucket ++ [(fp', id')]) = if String.eqb fp' fp then Some id' else None.
Proof.
  induction bucket as [|[fp0 id0] bucket IH]; simpl; [ reflexivity | ].
  destruct (String.eqb fp0 fp); [ discriminate | auto ].
Qed.

Lemma find_bucket_push_same hash entry cache :
  find_bucket hash (cache_push hash entry cache) =
  Some (match find_bucket hash cache with
        | Some bucket => bucket ++ [entry]
        | None => [entry]
        end).
Proof.
  induction cache as [|[h bucket] cache IH]; simpl.
  - rewrite Z.eqb_refl. reflexivity.
  - destruct (Z.eqb h hash) eqn:E; simpl; rewrite E; auto.
Qed.

Lemma find_bucket_push_other hash hash' entry cache :
  hash' <> hash ->
  find_bucket hash' (cache_push hash entry cache) = find_bucket hash' cache.
Proof.
  intros Hne. induction cache as [|[h bucket] cache IH]; simpl.
  - destruct (Z.eqb_spec hash hash'); [ congruence | reflexivity ].
  - destruct (Z.eqb h hash) eqn:E; simpl.
    + apply Z.eqb_eq in E. subst h.
      destruct (Z.eqb_spec hash hash'); [ congruence | reflexivity ].
    + destruct (Z.eqb h hash'); auto.
Qed.

Lemma cache_lookup_push_some cache fp' id' fp id :
  cache_lookup cache fp = Some id ->
  cache_lookup (cache_push (FnvaHash fp') (fp', id') cache) fp = Some id.
Proof.
  unfold cache_lookup. intros H.
  destruct (Z.eq_dec (FnvaHash fp) (FnvaHash fp')) as [E | E].
  - rewrite E in *. rewrite find_bucket_push_same.
    destruct (find_bucket (FnvaHash fp') cache); [ | discriminate ].
    now apply find_entry_app.
  - rewrite find_bucket_push_other by exact E. exact H.
Qed.

Lemma cache_lookup_push_none cache fp' id' fp :
  cache_lookup cache fp = None ->
  cache_lookup (cache_push (FnvaHash fp') (fp', id') cache) fp =
  if String.eqb fp' fp then Some id' else None.
Proof.
  unfold cache_lookup. intros H.
  destruct (Z.eq_dec (FnvaHash fp) (FnvaHash fp')) as [E | E].
  - rewrite E in *. rewrite find_bucket_push_same.
    destruct (find_bucket (FnvaHash fp') cache) as [bucket|].
    + now apply find_entry_app_none.
    + simpl. destruct (String.eqb fp' fp); reflexivity.
  - rewrite find_bucket_push_other by exact E. rewrite H.
    destruct (String.eqb_spec fp' fp); [ subst; congruence | reflexivity ].
Qed.


Lemma cache_step_on_builder {R} (f : GrammarBuilder -> R * GrammarBuilder) fps :
  cache_step (on_builder f) fps.
Proof.
  intros c. unfold on_builder. destruct (f (grammar_builder_ c)) as [a b']; simpl.
  split; [ intros fp id H; exact H | auto ].
Qed.

Lemma cache_step_incl {R} (run : Converter -> R * Converter) fps fps' :
  incl fps fps' -> cache_step run fps -> cache_step run fps'.
Proof.
  intros Hincl H c. destruct (H c) as [H1 H2]. split; [ exact H1 | ].
  intros fp Hn Hnot. apply H2; auto.
Qed.

Lemma cache_step_bind {R S} (r1 : Converter -> Result R Halt * Converter)
    (r2 : R -> Converter -> Result S Halt * Converter) fps1 fps2 :
  cache_step r1 fps1 -> (forall x, cache_step (r2 x) fps2) ->
  cache_step (fun c => match r1 c with
                       | (ResultErr e, c') => (ResultErr e, c')
                       | (ResultOk x, c') => r2 x c'
                       end) (fps1 ++ fps2).
Proof.
  intros H1 H2 c. destruct (H1 c) as [E1 N1].
  destruct (r1 c) as [[x | e] c']; simpl in *.
  - destruct (H2 x c') as [E2 N2]. split.
    + eapply cache_extends_trans; eauto.
    + intros fp Hn Hnot. apply N2; [ apply N1; auto | ]; rewrite in_app_iff in Hnot; tauto.
  - split; [ exact E1 | ]. intros fp Hn Hnot. apply N1; auto.
    rewrite in_app_iff in Hnot; tauto.
Qed.

Lemma cache_step_with_fingerprint_cache fingerprint body fps :
  cache_step body fps ->
  cache_step (with_fingerprint_cache fingerprint body) (fingerprint :: fps).
Proof.
  intros H c. unfold with_fingerprint_cache.
  destruct (cache_lookup (fingerprint_cache_ c) fingerprint) as [rule_id|] eqn:Hl.
  - simpl. split; [ apply cache_extends_refl | auto ].
  - destruct (H c) as [E N]. destruct (body c) as [[rule_id | e] c']; simpl in *.
    + split.
      * intros fp id Hfp. simpl. apply cache_lookup_push_some. now apply E.
      * intros fp Hn Hnot. rewrite cache_lookup_push_none by (apply N; tauto).
        destruct (String.eqb_spec fingerprint fp); [ tauto | reflexivity ].
    + split; [ exact E | ]. intros fp Hn Hnot. apply N; tauto.
Qed.

Section Loops.

Variables (Elem Tag : Type).
Variable visit : Elem -> Converter -> Result nat Halt * Converter.
Variable visit_tag : Tag -> Converter -> Result nat Halt * Converter.
Variable tag_begin : Tag -> string.
Variable tag_content : Tag -> Elem.
Variable fps_of : Elem -> list string.
Variable fps_of_tag : Tag -> list string.

Lemma cache_step_sequence_elements es :
  Forall (fun e => cache_step (visit e) (fps_of e)) es ->
  forall ids, cache_step (convert_sequence_elements visit es ids) (flat_map fps_of es).
Proof.
  induction 1 as [|e es He Hes IH]; intros ids.
  - intros c; simpl. split; [ apply cache_extends_refl | auto ].
  - simpl. apply (@cache_step_bind _ _ (visit e)
               (fun x => convert_sequence_elements visit es (ids ++ [kRuleRef x])) _ _);
      auto.
Qed.

Lemma cache_step_or_elements es :
  Forall (fun e => cache_step (visit e) (fps_of e)) es ->
  forall ids, cache_step (convert_or_elements visit es ids) (flat_map fps_of es).
Proof.
  induction 1 as [|e es He Hes IH]; intros ids.
  - intros c; simpl. split; [ apply cache_extends_refl | auto ].
  - simpl. apply (@cache_step_bind _ _ (visit e)
               (fun x => convert_or_elements visit es (ids ++ [kSequence [kRuleRef x]])) _ _);
      auto.
Qed.

Lemma cache_step_separator_tags ts :
  Forall (fun t => cache_step (visit_tag t) (fps_of_tag t)) ts ->
  forall ids, cache_step (convert_separator_tags visit_tag ts ids) (flat_map fps_of_tag ts).
Proof.
  induction 1 as [|t ts Ht Hts IH]; intros ids.
  - intros c; simpl. split; [ apply cache_extends_refl | auto ].
  - simpl. apply (@cache_step_bind _ _ (visit_tag t)
               (fun x => convert_separator_tags visit_tag ts (ids ++ [kSequence [kRuleRef x]])) _ _);
      auto.
Qed.

Lemma cache_step_triggered_tags triggers ts :
  Forall (fun t => cache_step (visit (tag_content t)) (fps_of (tag_content t))) ts ->
  forall it t2t ids,
    cache_step (convert_triggered_tags visit tag_begin tag_content triggers ts it t2t ids)
               (flat_map (fun t => fps_of (tag_content t)) ts).
Proof.
  induction 1 as [|t ts Ht Hts IH]; intros it t2t ids.
  - intros c; simpl. split; [ apply cache_extends_refl | auto ].
  - simpl. destruct (match_trigger triggers 0 (tag_begin t) None) as [[m|]|e].
    + apply (@cache_step_bind _ _ (visit (tag_content t))
               (fun x => convert_triggered_tags visit tag_begin tag_content triggers ts
                          (S it) (push_tag_id t2t m it) (ids ++ [x])) _ _); auto.
    + intros c; simpl. split; [ apply cache_extends_refl | auto ].
    + intros c; simpl. split; [ apply cache_extends_refl | auto ].
Qed.

End Loops.

Lemma Convert_Visit_unfold (format : Format) (c : Converter) :
  Convert_Visit ext format c =
  with_fingerprint_cache (Compute ext format) (VisitSub ext format) c.
Proof. destruct format; reflexivity. Qed.

Lemma Convert_Visit_Tag_unfold (tag : TagFormat) (c : Converter) :
  Convert_Visit_Tag ext tag c =
  with_fingerprint_cache (serialize ext (Fingerprint_Tag ext tag))
    (VisitSub ext (TagFormat_ tag)) c.
Proof. destruct tag; reflexivity. Qed.

Lemma all_fingerprints_cons (format : Format) :
  all_fingerprints ext format = Compute ext format :: nested_fingerprints ext format.
Proof. destruct format; reflexivity. Qed.

Lemma cache_step_Visit_of_VisitSub (format : Format) :
  cache_step (VisitSub ext format) (nested_fingerprints ext format) ->
  cache_step (Convert_Visit ext format) (all_fingerprints ext format).
Proof.
  intros H c. rewrite Convert_Visit_unfold, all_fingerprints_cons.
  exact (@cache_step_with_fingerprint_cache (Compute ext format) _ _ H c).
Qed.

Lemma cache_step_VisitSub_and_Visit (format : Format) :
  cache_step (VisitSub ext format) (nested_fingerprints ext format) /\
  cache_step (Convert_Visit ext format) (all_fingerprints ext format).
Proof.
  pattern format.
  apply Format_nested_ind with
    (Q := fun t =>
       cache_step (VisitSub ext (TagFormat_ t)) (nested_fingerprints ext (TagFormat_ t)) /\
       cache_step (Convert_Visit_Tag ext t) (tag_fingerprints ext t) /\
       cache_step (Convert_Visit ext (tag_content t))
                  (all_fingerprints ext (tag_content t)));
    clear format.
  all: try (intros; split;
            [ apply cache_step_on_builder
            | apply cache_step_Visit_of_VisitSub; apply cache_step_on_builder ]).
  - (* sequence *)
    intros es u Hes.
    assert (Hsub : cache_step (VisitSub ext (SequenceFormat es u))
                              (nested_fingerprints ext (SequenceFormat es u))).
    { unfold VisitSub, nested_fingerprints; simpl.
      rewrite <- (app_nil_r (flat_map _ es)).
      apply (@cache_step_bind _ _ (convert_sequence_elements (Convert_Visit ext) es [])
               (fun ids => on_builder (add_sequence_rule ids)) _ _).
      - apply cache_step_sequence_elements.
        eapply Forall_impl; [ | exact Hes ]. intros e [_ He]; exact He.
      - intros ids. apply cache_step_on_builder. }
    split; [ exact Hsub | now apply cache_step_Visit_of_VisitSub ].
  - (* or *)
    intros es u Hes.
    assert (Hsub : cache_step (VisitSub ext (OrFormat es u))
                              (nested_fingerprints ext (OrFormat es u))).
    { unfold VisitSub, nested_fingerprints; simpl.
      rewrite <- (app_nil_r (flat_map _ es)).
      apply (@cache_step_bind _ _ (convert_or_elements (Convert_Visit ext) es [])
               (fun ids => on_builder (add_or_rule ids)) _ _).
      - apply cache_step_or_elements.
        eapply Forall_impl; [ | exact Hes ]. intros e [_ He]; exact He.
      - intros ids. apply cache_step_on_builder. }
    split; [ exact Hsub | now apply cache_step_Visit_of_VisitSub ].
  - (* tag *)
    intros t (Hsub & _ & _). split; [ exact Hsub | now apply cache_step_Visit_of_VisitSub ].
  - (* triggered tags *)
    intros tr ts ex a st en Hts.
    assert (Hsub : cache_step (VisitSub ext (TriggeredTagsFormat tr ts ex a st en))
                     (nested_fingerprints ext (TriggeredTagsFormat tr ts ex a st en))).
    { assert (Hloop : forall it t2t ids,
                cache_step (convert_triggered_tags (Convert_Visit ext) tag_begin tag_content
                              tr ts it t2t ids)
                           (nested_fingerprints ext (TriggeredTagsFormat tr ts ex a st en))).
      { intros it t2t ids. unfold nested_fingerprints; simpl.
        replace (flat_map _ ts)
          with (flat_map (fun t => all_fingerprints ext (tag_content t)) ts)
          by (apply flat_map_ext; intros [bg ct e0]; reflexivity).
        apply (@cache_step_triggered_tags _ _ _ _ _ (all_fingerprints ext)).
        eapply Forall_impl; [ | exact Hts ]. intros t (_ & _ & Ht); exact Ht. }
      intros c. unfold VisitSub.
      destruct (Hloop 0%nat (map (fun _ : string => @nil nat) tr) (@nil nat) c) as [E N].
      destruct (convert_triggered_tags (Convert_Visit ext) tag_begin tag_content tr ts 0
                  (map (fun _ => []) tr) [] c) as [[[t2t ids] | e] c']; simpl in E, N.
      - destruct (@cache_step_on_builder _
                    (AssembleTriggeredTags ext tr
                       (map (fun t => (tag_begin t, tag_end t)) ts) ex a st en t2t ids)
                    (nested_fingerprints ext (TriggeredTagsFormat tr ts ex a st en)) c')
          as [E2 N2].
        split; [ eapply cache_extends_trans; eauto | intros fp Hn Hnot; apply N2; auto ].
      - split; [ exact E | exact N ]. }
    split; [ exact Hsub | now apply cache_step_Visit_of_VisitSub ].
  - (* tags with separator *)
    intros ts sp a st en Hts.
    assert (Hsub : cache_step (VisitSub ext (TagsWithSeparatorFormat ts sp a st en))
                     (nested_fingerprints ext (TagsWithSeparatorFormat ts sp a st en))).
    { unfold VisitSub, nested_fingerprints; simpl.
      rewrite <- (app_nil_r (flat_map _ ts)).
      apply (@cache_step_bind _ _ (convert_separator_tags (Convert_Visit_Tag ext) ts [])
               (fun ids => on_builder (add_separator_rules ext sp a st en ids)) _ _).
      - apply (@cache_step_separator_tags _ _ (tag_fingerprints ext)).
        eapply Forall_impl; [ | exact Hts ]. intros t (_ & Ht & _); exact Ht.
      - intros ids. apply cache_step_on_builder. }
    split; [ exact Hsub | now apply cache_step_Visit_of_VisitSub ].
  - (* mkTagFormat *)
    intros bg ct en [_ Hct].
    assert (Hsub : cache_step (VisitSub ext (TagFormat_ (mkTagFormat bg ct en)))
                     (nested_fingerprints ext (TagFormat_ (mkTagFormat bg ct en)))).
    { unfold VisitSub, nested_fingerprints; simpl.
      rewrite <- (app_nil_r (all_fingerprints ext ct)).
      apply (@cache_step_bind _ _ (Convert_Visit ext ct)
               (fun id => on_builder (TagExcl.lower_tag bg en id)) _ _).
      - exact Hct.
      - intros id. apply cache_step_on_builder. }
    split; [ exact Hsub | split; [ | exact Hct ] ].
    intros c. rewrite Convert_Visit_Tag_unfold.
    exact (@cache_step_with_fingerprint_cache _ _ _ Hsub c).
Qed.

Lemma visit_all_extends (formats : list Format) :
  forall c, cache_extends c (visit_all ext formats c).
Proof.
  induction formats as [|f formats IH]; intros c; simpl.
  - apply cache_extends_refl.
  - eapply cache_extends_trans; [ | apply IH ].
    apply (proj2 (cache_step_VisitSub_and_Visit f) c).
Qed.


Lemma Convert_Visit_records (f : Format) (c c1 : Converter) (id : nat) :
  ~ In (Compute ext f) (nested_fingerprints ext f) ->
  Convert_Visit ext f c = (ResultOk id, c1) ->
  cache_lookup (fingerprint_cache_ c1) (Compute ext f) = Some id.
Proof.
  intros Hnot. rewrite Convert_Visit_unfold. unfold with_fingerprint_cache.
  destruct (cache_lookup (fingerprint_cache_ c) (Compute ext f)) as [r|] eqn:Hl.
  - intros H; inversion H; subst. exact Hl.
  - destruct (proj1 (cache_step_VisitSub_and_Visit f) c) as [_ N].
    specialize (N _ Hl Hnot).
    destruct (VisitSub ext f c) as [[r | e] c']; simpl in N; intros H; inversion H; subst.
    simpl. rewrite cache_lookup_push_none by exact N.
    now rewrite String.eqb_refl.
Qed.

Lemma Convert_Visit_hit (f : Format) (c : Converter) (id : nat) :
  cache_lookup (fingerprint_cache_ c) (Compute ext f) = Some id ->
  Convert_Visit ext f c = (ResultOk id, c).
Proof.
  intros H. rewrite Convert_Visit_unfold. unfold with_fingerprint_cache.
  now rewrite H.
Qed.

End FingerprintCache.

(** C7, as the code has it.  In the converter with the fingerprint cache,
    once a format has been lowered to rule [id], any format with the same
    fingerprint that is visited later, whatever was lowered in between, is
    answered with [id] from the cache and leaves builder and cache as they
    were; this needs the fingerprint of the first format to differ from
    those of the formats nested in it, as a canonical serialization does.
    The converter of the other copy has no cache: every visit of a
    const_string appends a rule and returns the new id. *)
Theorem fingerprint_memoization :
  (forall (ext : External) (f1 f2 : TagDedup.Format) (c c1 : TagDedup.Converter) (id : nat)
          (between : list TagDedup.Format),
     ~ In (TagDedup.Compute ext f1) (TagDedup.nested_fingerprints ext f1) ->
     TagDedup.Convert_Visit ext f1 c = (ResultOk id, c1) ->
     TagDedup.Compute ext f2 = TagDedup.Compute ext f1 ->
     let c2 := TagDedup.visit_all ext between c1 in
     TagDedup.Convert_Visit ext f2 c2 = (ResultOk id, c2))
  /\
  (forall (ext : External) (value : string) (b : GrammarBuilder),
     exists rule,
       TagExcl.Convert_Visit ext (TagExcl.ConstStringFormat value) b =
       (ResultOk (List.length (rules b)), mkBuilder (rules b ++ [rule])%list)).
Proof.
  split.
  - intros ext f1 f2 c c1 id between Hnot Hvisit Hfp c2.
    apply Convert_Visit_hit. rewrite Hfp.
    apply (@visit_all_extends ext between c1).
    eapply Convert_Visit_records; eauto.
  - intros ext value b. eexists. reflexivity.
Qed.

(** The theorem at the sequence ["a", "b"], lowered, then an any_text,
    then the same sequence again: rule 2 both times. *)
Lemma fingerprint_memoization_witness :
  let c1 := snd (TagDedup.Convert_Visit sample_external sample_sequence
                   TagDedup.empty_converter) in
  let c2 := TagDedup.visit_all sample_external [TagDedup.AnyTextFormat [] []] c1 in
  TagDedup.Convert_Visit sample_external sample_sequence c2 = (ResultOk 2%nat, c2).
Proof.
  intros c1 c2.
  apply (proj1 fingerprint_memoization sample_external sample_sequence sample_sequence
           TagDedup.empty_converter c1 2%nat [TagDedup.AnyTextFormat [] []]).
  - vm_compute. intros [H | [H | []]]; discriminate H.
  - reflexivity.
  - reflexivity.
Defined.

(** C7, the claim refuted: the converter without the cache lowers the
    same const_string twice to the rules 0 and 1. *)
Lemma no_fingerprint_cache_counterexample :
  let f := TagExcl.ConstStringFormat "a" in
  let r1 := TagExcl.Convert_Visit sample_external f empty_builder in
  let r2 := TagExcl.Convert_Visit sample_external f (snd r1) in
  fst r1 = ResultOk 0%nat /\ fst r2 = ResultOk 1%nat /\ fst r1 <> fst r2 /\
  List.length (rules (snd r2)) = 2%nat.
Proof. vm_compute. repeat split. discriminate. Qed.

(** ** The JSON-schema parser: which schemas are reported unsatisfiable *)

Import SchemaParser.






Section ParserFacts.

Variable Compound : Type.
Variable serialize : value -> string.
Variable ParseCompound :
  CompoundKind -> list (string * value) -> string -> SchemaCache Compound
  -> option (Result Compound SchemaError) * SchemaCache Compound.






End ParserFacts.



(** ** The crossing cache: look-up, insertion and eviction *)

Import TokenMask.
Local Open Scope Z_scope.
Local Open Scope list_scope.
Import CrossingCacheAccounting.

Lemma key_eqb_refl (k : CacheKey) : key_eqb k k = true.
Proof. destruct k as [[a b] c]. unfold key_eqb. now rewrite !Z.eqb_refl. Qed.

Lemma key_eqb_eq (a b : CacheKey) : key_eqb a b = true <-> a = b.
Proof.
  destruct a as [[a1 a2] a3], b as [[b1 b2] b3]. unfold key_eqb.
  rewrite !andb_true_iff, !Z.eqb_eq. split.
  - intros [[-> ->] ->]. reflexivity.
  - intros H. injection H as -> -> ->. auto.
Qed.

Lemma cache_lookup_remove_other (k k' : CacheKey) (l : list (CacheKey * AdaptiveTokenMask)) :
  key_eqb k k' = false ->
  cache_lookup k' (cache_remove k l) = cache_lookup k' l.
Proof.
  intros Hne. induction l as [| [x v] l IH]; [reflexivity |].
  cbn [cache_remove cache_lookup].
  destruct (key_eqb x k) eqn:Hxk.
  - apply key_eqb_eq in Hxk. subst x. rewrite Hne. reflexivity.
  - cbn [cache_lookup]. rewrite IH. reflexivity.
Qed.

(** X1: [GetCache] returns what the list holds under the key; it
    changes neither what any key maps to, nor the recorded size, nor the
    number of entries: a hit only moves the entry to the front. *)
Theorem GetCache_only_reorders (m : CrossingCacheManager)
    (fsm_hash fsm_new_node_id tokenizer_hash : Z) (k' : CacheKey) :
  let r := GetCache m fsm_hash fsm_new_node_id tokenizer_hash in
  fst r = cache_lookup (fsm_hash, fsm_new_node_id, tokenizer_hash) (cache_list_ m) /\
  cache_lookup k' (cache_list_ (snd r)) = cache_lookup k' (cache_list_ m) /\
  current_cache_memory_size_ (snd r) = current_cache_memory_size_ m /\
  List.length (cache_list_ (snd r)) = List.length (cache_list_ m).
Proof.
  cbv zeta. unfold GetCache.
  set (k := (fsm_hash, fsm_new_node_id, tokenizer_hash)).
  destruct (cache_lookup k (cache_list_ m)) as [v |] eqn:Hk; cbn [fst snd cache_list_
    current_cache_memory_size_]; repeat split.
  - cbn [cache_lookup]. destruct (key_eqb k k') eqn:Hkk'.
    + apply key_eqb_eq in Hkk'. subst k'. symmetry. exact Hk.
    + apply cache_lookup_remove_other. exact Hkk'.
  - cbn [List.length]. clear -Hk. induction (cache_list_ m) as [| [x w] l IH]; [discriminate |].
    cbn [cache_lookup] in Hk. cbn [cache_remove].
    destruct (key_eqb x k); [reflexivity |]. cbn [List.length]. f_equal. apply IH. exact Hk.
Qed.

Section CrossingCacheFacts.

Variable MemorySize : AdaptiveTokenMask -> Z.
Variable max_cache_memory_size_ : Z.

Local Abbreviation total := (total_size MemorySize).
Local Abbreviation evict' := (evict MemorySize max_cache_memory_size_).
Local Abbreviation AddCache' := (AddCache MemorySize max_cache_memory_size_).

Lemma total_size_app (l1 l2 : list (CacheKey * AdaptiveTokenMask)) :
  total (l1 ++ l2) = total l1 + total l2.
Proof.
  unfold total_size. induction l1 as [| e l1 IH]; cbn [app fold_right]; [lia |].
  rewrite IH. lia.
Qed.

Lemma total_size_rev (l : list (CacheKey * AdaptiveTokenMask)) : total (rev l) = total l.
Proof.
  induction l as [| e l IH]; [reflexivity |].
  cbn [rev]. rewrite total_size_app, IH. unfold total_size. cbn [fold_right]. lia.
Qed.

Lemma rev_skipn_rev (A : Type) (k : nat) (l : list A) :
  rev (skipn k (rev l)) = firstn (List.length l - k) l.
Proof.
  rewrite skipn_rev, rev_involutive. reflexivity.
Qed.

(** Whatever the budget, the loop leaves a front part of the list. *)
Lemma evict_leaves_a_front (r : list (CacheKey * AdaptiveTokenMask)) :
  forall size l' size',
    evict' r size = Some (l', size') -> exists k, l' = rev (skipn k r).
Proof.
  induction r as [| [k v] r IH]; intros size l' size'; cbn [evict].
  - destruct (size >? int64_of_size max_cache_memory_size_); [discriminate |].
    intros [= <- <-]. exists O. reflexivity.
  - destruct (size >? int64_of_size max_cache_memory_size_).
    + intros Hrun. apply IH in Hrun. destruct Hrun as [j ->]. exists (S j). reflexivity.
    + intros [= <- <-]. exists O. reflexivity.
Qed.

(** A budget below 2^63 is compared as it is. *)
Lemma int64_of_size_small (x : Z) : 0 <= x < 2 ^ 63 -> int64_of_size x = x.
Proof.
  intros H. unfold int64_of_size. rewrite Z.mod_small by lia.
  destruct (Z.ltb_spec x (2 ^ 63)); [reflexivity | lia].
Qed.

(** A budget from 2^63 on is compared as a negative number. *)
Lemma int64_of_size_large (x : Z) : 2 ^ 63 <= x < 2 ^ 64 -> int64_of_size x < 0.
Proof.
  intros H. unfold int64_of_size. rewrite Z.mod_small by lia.
  destruct (Z.ltb_spec x (2 ^ 63)); lia.
Qed.

Section WithinInt64.

Hypothesis budget_in_int64 : 0 <= max_cache_memory_size_ < 2 ^ 63.

(** What the eviction loop leaves of a list whose sizes are recorded:
    the list without its first [k] entries, within the budget; the last
    entry stays when it fits the budget by itself. *)
Lemma evict_accounted (r : list (CacheKey * AdaptiveTokenMask)) :
  exists k,
    evict' r (total r) = Some (rev (skipn k r), total (skipn k r)) /\
    total (skipn k r) <= max_cache_memory_size_ /\
    (forall r0 h, r = r0 ++ [h] -> MemorySize (snd h) <= max_cache_memory_size_ ->
                  (k <= List.length r0)%nat).
Proof.
  induction r as [| [x v] r IH]; cbn [evict]; rewrite int64_of_size_small by assumption.
  - exists O. cbn [skipn rev total_size fold_right].
    destruct (Z.gtb_spec 0 max_cache_memory_size_); [lia |].
    split; [reflexivity |]. split; [lia |]. intros r0 h Hr. destruct r0; discriminate.
  - change (total ((x, v) :: r)) with (MemorySize v + total r).
    destruct (Z.gtb_spec (MemorySize v + total r) max_cache_memory_size_) as [Hover | Hfits].
    + replace (MemorySize v + total r - MemorySize v) with (total r) by lia.
      destruct IH as (k & Hrun & Hfit & Hlast). exists (S k). cbn [skipn].
      split; [exact Hrun |]. split; [exact Hfit |].
      intros r0 h Hr Hsmall. destruct r0 as [| y r0].
      * cbn [app] in Hr. injection Hr as <- ->. cbn [total_size fold_right snd] in Hover.
        cbn [snd] in Hsmall. lia.
      * cbn [app] in Hr. injection Hr as <- ->. cbn [List.length].
        apply le_n_S. eapply Hlast; [reflexivity | exact Hsmall].
    + exists O. cbn [skipn]. split; [reflexivity |]. split; [exact Hfits |].
      intros r0 h _ _. lia.
Qed.

(** The steps of [AddCache] on a key that is not cached yet and a mask
    that fits the budget. *)
Lemma AddCache_fresh (m : CrossingCacheManager) (k1 k2 k3 : Z) (mask : AdaptiveTokenMask) :
  current_cache_memory_size_ m = total (cache_list_ m) ->
  cache_lookup (k1, k2, k3) (cache_list_ m) = None ->
  MemorySize mask <= max_cache_memory_size_ ->
  exists j,
    AddCache' m k1 k2 k3 mask
    = Some (mkCrossingCacheManager (firstn (S j) (((k1, k2, k3), mask) :: cache_list_ m))
              (total (firstn (S j) (((k1, k2, k3), mask) :: cache_list_ m)))) /\
    total (firstn (S j) (((k1, k2, k3), mask) :: cache_list_ m)) <= max_cache_memory_size_.
Proof.
  intros Hsize Hmiss Hfits. unfold AddCache. rewrite Hmiss.
  replace (MemorySize mask >? max_cache_memory_size_) with false
    by (symmetry; rewrite Z.gtb_ltb; apply Z.ltb_ge; exact Hfits).
  set (l := ((k1, k2, k3), mask) :: cache_list_ m).
  replace (current_cache_memory_size_ m + MemorySize mask) with (total (rev l))
    by (rewrite total_size_rev; subst l; cbn [total_size fold_right snd];
        unfold total_size in Hsize; lia).
  destruct (evict_accounted (rev l)) as (k & Hrun & Hfit & Hlast).
  rewrite Hrun.
  assert (Hk : (k <= List.length (rev (cache_list_ m)))%nat).
  { apply (Hlast (rev (cache_list_ m)) ((k1, k2, k3), mask)); [reflexivity | exact Hfits]. }
  rewrite length_rev in Hk.
  rewrite <- total_size_rev, rev_skipn_rev in Hfit.
  exists (List.length (cache_list_ m) - k)%nat.
  replace (S (List.length (cache_list_ m) - k)) with (List.length l - k)%nat
    by (subst l; cbn [List.length]; unfold CacheKey in *; lia).
  split; [| exact Hfit].
  rewrite rev_skipn_rev. do 2 f_equal.
  rewrite <- total_size_rev, rev_skipn_rev. reflexivity.
Qed.

(** X2: on a cache whose recorded size is the sum of its entries and
    whose budget is below 2^63, a mask that fits the budget by itself,
    added under a key that is not cached yet, is what [GetCache] returns
    for that key, whatever had to be evicted to make room. *)
Theorem AddCache_then_GetCache (m : CrossingCacheManager) (fsm_hash fsm_new_node_id
    tokenizer_hash : Z) (token_mask : AdaptiveTokenMask) :
  accounted MemorySize m ->
  cache_lookup (fsm_hash, fsm_new_node_id, tokenizer_hash) (cache_list_ m) = None ->
  MemorySize token_mask <= max_cache_memory_size_ ->
  exists m',
    AddCache' m fsm_hash fsm_new_node_id tokenizer_hash token_mask = Some m' /\
    fst (GetCache m' fsm_hash fsm_new_node_id tokenizer_hash) = Some token_mask.
Proof.
  intros [Hsize _] Hmiss Hfits.
  destruct (@AddCache_fresh m _ _ _ _ Hsize Hmiss Hfits) as (j & Hrun & _).
  eexists. split; [exact Hrun |].
  unfold GetCache. cbn [cache_list_ firstn cache_lookup]. rewrite key_eqb_refl. reflexivity.
Qed.

Lemma cache_lookup_none_keys (k : CacheKey) (l : list (CacheKey * AdaptiveTokenMask)) :
  cache_lookup k l = None -> ~ In k (map fst l).
Proof.
  induction l as [| [x w] l IH]; [intros _ [] |]. cbn [cache_lookup map fst].
  destruct (key_eqb x k) eqn:Hx; [discriminate |].
  intros Hl [-> | Hin]; [rewrite key_eqb_refl in Hx; discriminate | exact (IH Hl Hin)].
Qed.

Lemma NoDup_firstn (A : Type) (j : nat) (l : list A) : NoDup l -> NoDup (firstn j l).
Proof.
  intros H. rewrite <- (firstn_skipn j l) in H. apply NoDup_app_remove_r in H. exact H.
Qed.

(** [AddCache] on a cache that is accounted and within its budget. *)
Lemma AddCache_accounted (m : CrossingCacheManager) (k1 k2 k3 : Z) (mask : AdaptiveTokenMask) :
  accounted MemorySize m ->
  current_cache_memory_size_ m <= max_cache_memory_size_ ->
  exists m',
    AddCache' m k1 k2 k3 mask = Some m' /\
    accounted MemorySize m' /\
    current_cache_memory_size_ m' <= max_cache_memory_size_ /\
    (List.length (cache_list_ m') <= S (List.length (cache_list_ m)))%nat.
Proof.
  intros [Hsize Hkeys] Hbudget.
  destruct (cache_lookup (k1, k2, k3) (cache_list_ m)) as [v |] eqn:Hk.
  { exists m. unfold AddCache. rewrite Hk. repeat split; auto. }
  destruct (MemorySize mask >? max_cache_memory_size_) eqn:Hbig.
  { exists m. unfold AddCache. rewrite Hk, Hbig. repeat split; auto. }
  rewrite Z.gtb_ltb in Hbig. apply Z.ltb_ge in Hbig.
  destruct (@AddCache_fresh m _ _ _ _ Hsize Hk Hbig) as (j & Hrun & Hfit).
  eexists. split; [exact Hrun |].
  unfold accounted. cbn [cache_list_ current_cache_memory_size_].
  split; [split |]; [reflexivity | | split].
  - rewrite <- firstn_map. apply NoDup_firstn. cbn [map fst]. constructor; [| exact Hkeys].
    apply cache_lookup_none_keys. exact Hk.
  - exact Hfit.
  - rewrite length_firstn. cbn [List.length]. apply Nat.le_min_r.
Qed.

(** X3: with a budget below 2^63, [AddCache] returns, and it keeps the
    recorded size equal to the sum of the entries, the keys distinct and
    the size within the budget; the cache grows by at most one entry. *)
Theorem AddCache_keeps_the_budget (m : CrossingCacheManager) (fsm_hash fsm_new_node_id
    tokenizer_hash : Z) (token_mask : AdaptiveTokenMask) :
  accounted MemorySize m ->
  current_cache_memory_size_ m <= max_cache_memory_size_ ->
  exists m',
    AddCache' m fsm_hash fsm_new_node_id tokenizer_hash token_mask = Some m' /\
    accounted MemorySize m' /\
    current_cache_memory_size_ m' <= max_cache_memory_size_ /\
    (List.length (cache_list_ m') <= S (List.length (cache_list_ m)))%nat.
Proof.
  apply AddCache_accounted.
Qed.

End WithinInt64.

(** *** A budget that the cast makes negative *)

(** With sizes that are not negative, the loop is then never left
    before the list is empty. *)
Lemma evict_negative_budget (r : list (CacheKey * AdaptiveTokenMask)) :
  int64_of_size max_cache_memory_size_ < 0 ->
  (forall mask, 0 <= MemorySize mask) ->
  forall extra, 0 <= extra -> evict' r (total r + extra) = None.
Proof.
  intros Hneg Hsizes. induction r as [| [x v] r IH]; intros extra Hextra; cbn [evict].
  - cbn [total_size fold_right].
    destruct (Z.gtb_spec (0 + extra) (int64_of_size max_cache_memory_size_)); [reflexivity | lia].
  - assert (Hr : 0 <= total r).
    { clear -Hsizes. induction r as [| e r IH]; cbn [total_size fold_right]; [lia |].
      specialize (Hsizes (snd e)). unfold total_size in IH. lia. }
    change (total ((x, v) :: r)) with (MemorySize v + total r). specialize (Hsizes v) as Hv.
    destruct (Z.gtb_spec (MemorySize v + total r + extra)
                (int64_of_size max_cache_memory_size_)); [| lia].
    replace (MemorySize v + total r + extra - MemorySize v) with (total r + extra) by lia.
    apply IH. exact Hextra.
Qed.

(** X28: with a budget from 2^63 on, which the cast turns into a
    negative number, and sizes that are not negative, [AddCache] of a
    mask that passes the two tests never leaves its eviction loop
    regularly: the loop drops every entry, the added one included, and
    goes on past the empty list. *)
Theorem AddCache_without_a_limit (m : CrossingCacheManager) (fsm_hash fsm_new_node_id
    tokenizer_hash : Z) (token_mask : AdaptiveTokenMask) :
  2 ^ 63 <= max_cache_memory_size_ < 2 ^ 64 ->
  (forall mask, 0 <= MemorySize mask) ->
  accounted MemorySize m ->
  cache_lookup (fsm_hash, fsm_new_node_id, tokenizer_hash) (cache_list_ m) = None ->
  MemorySize token_mask <= max_cache_memory_size_ ->
  AddCache' m fsm_hash fsm_new_node_id tokenizer_hash token_mask = None.
Proof.
  intros Hmax Hsizes [Hsize _] Hmiss Hfits. unfold AddCache. rewrite Hmiss.
  replace (MemorySize token_mask >? max_cache_memory_size_) with false
    by (symmetry; rewrite Z.gtb_ltb; apply Z.ltb_ge; exact Hfits).
  set (l := ((fsm_hash, fsm_new_node_id, tokenizer_hash), token_mask) :: cache_list_ m).
  replace (current_cache_memory_size_ m + MemorySize token_mask) with (total (rev l) + 0)
    by (rewrite total_size_rev; subst l; cbn [total_size fold_right snd];
        unfold total_size in Hsize; lia).
  rewrite evict_negative_budget; [reflexivity | | exact Hsizes | lia].
  apply int64_of_size_large. exact Hmax.
Qed.

End CrossingCacheFacts.

Lemma cache_lookup_firstn (k : CacheKey) (v : AdaptiveTokenMask) (j : nat) :
  forall l, cache_lookup k (firstn j l) = Some v -> cache_lookup k l = Some v.
Proof.
  induction j as [| j IH]; intros l; [discriminate |].
  destruct l as [| [x w] l]; [discriminate |]. cbn [firstn cache_lookup].
  destruct (key_eqb x k); [trivial | apply IH].
Qed.

(** X4: after an [AddCache] that returns, a key is absent, or maps to
    what it mapped to before, or is the added key, absent before, with
    the added mask: no cached mask is ever replaced. *)
Theorem AddCache_only_adds_and_evicts (MemorySize : AdaptiveTokenMask -> Z)
    (max_cache_memory_size_ : Z) (m m' : CrossingCacheManager)
    (fsm_hash fsm_new_node_id tokenizer_hash : Z) (token_mask : AdaptiveTokenMask)
    (k' : CacheKey) :
  AddCache MemorySize max_cache_memory_size_ m fsm_hash fsm_new_node_id tokenizer_hash
    token_mask = Some m' ->
  let before := cache_lookup k' (cache_list_ m) in
  let after := cache_lookup k' (cache_list_ m') in
  after = None \/ after = before \/
  (before = None /\ k' = (fsm_hash, fsm_new_node_id, tokenizer_hash) /\
   after = Some token_mask).
Proof.
  cbv zeta. unfold AddCache.
  destruct (cache_lookup (fsm_hash, fsm_new_node_id, tokenizer_hash) (cache_list_ m))
    as [v0 |] eqn:Hk; [intros [= <-]; right; left; reflexivity |].
  destruct (MemorySize token_mask >? max_cache_memory_size_);
    [intros [= <-]; right; left; reflexivity |].
  remember (((fsm_hash, fsm_new_node_id, tokenizer_hash), token_mask) :: cache_list_ m)
    as l eqn:Hlist.
  destruct (evict MemorySize max_cache_memory_size_ (rev l)
              (current_cache_memory_size_ m + MemorySize token_mask))
    as [[l' size'] |] eqn:Hrun; [| discriminate].
  intros [= <-]. apply evict_leaves_a_front in Hrun. destruct Hrun as [k ->].
  rewrite rev_skipn_rev. cbn [cache_list_].
  match goal with
  | |- ?x = None \/ _ => destruct x as [v |] eqn:Hafter; [| left; reflexivity]
  end.
  right. apply cache_lookup_firstn in Hafter. subst l. cbn [cache_lookup] in Hafter.
  destruct (key_eqb (fsm_hash, fsm_new_node_id, tokenizer_hash) k') eqn:Hkk'.
  - right. apply key_eqb_eq in Hkk'. subst k'. injection Hafter as <-. auto.
  - left. symmetry. exact Hafter.
Qed.

(** X4 at the empty cache with a budget of two masks. *)
Lemma AddCache_only_adds_and_evicts_witness :
  let m' := mkCrossingCacheManager [((7, 0, 5), sample_mask [3])] 1 in
  AddCache (fun _ => 1) 2 empty_manager 7 0 5 (sample_mask [3]) = Some m' /\
  (let before := cache_lookup (7, 0, 5) (cache_list_ empty_manager) in
   let after := cache_lookup (7, 0, 5) (cache_list_ m') in
   after = None \/ after = before \/
   (before = None /\ (7, 0, 5) = (7, 0, 5) /\ after = Some (sample_mask [3]))).
Proof.
  split; [reflexivity |].
  apply (@AddCache_only_adds_and_evicts (fun _ => 1) 2 empty_manager
           (mkCrossingCacheManager [((7, 0, 5), sample_mask [3])] 1) 7 0 5 (sample_mask [3])
           (7, 0, 5)).
  reflexivity.
Defined.

(** X2 at the empty cache with a budget of two masks. *)
Lemma AddCache_then_GetCache_witness :
  exists m',
    AddCache (fun _ => 1) 2 empty_manager 7 0 5 (sample_mask [3]) = Some m' /\
    fst (GetCache m' 7 0 5) = Some (sample_mask [3]).
Proof.
  apply (@AddCache_then_GetCache (fun _ => 1) 2 ltac:(lia) empty_manager 7 0 5
           (sample_mask [3])).
  - split; [reflexivity | constructor].
  - reflexivity.
  - lia.
Defined.

(** X3 at the empty cache with a budget of two masks. *)
Lemma AddCache_keeps_the_budget_witness :
  exists m',
    AddCache (fun _ => 1) 2 empty_manager 7 0 5 (sample_mask [3]) = Some m' /\
    accounted (fun _ => 1) m' /\
    current_cache_memory_size_ m' <= 2 /\
    (List.length (cache_list_ m') <= 1)%nat.
Proof.
  apply (@AddCache_keeps_the_budget (fun _ => 1) 2 ltac:(lia) empty_manager 7 0 5
           (sample_mask [3])).
  - split; [reflexivity | constructor].
  - cbn. lia.
Defined.

(** X28 at the empty cache with the budget [static_cast<std::size_t>(-1)]. *)
Lemma AddCache_without_a_limit_witness :
  AddCache (fun _ => 1) (2 ^ 64 - 1) empty_manager 7 0 5 (sample_mask [3]) = None.
Proof.
  apply (@AddCache_without_a_limit (fun _ => 1) (2 ^ 64 - 1) empty_manager 7 0 5
           (sample_mask [3])).
  - lia.
  - intros mask. lia.
  - split; [reflexivity | constructor].
  - reflexivity.
  - lia.
Defined.

(** ** The token-mask computer: look-ahead classes and root states *)

Import TokenMask.
Local Open Scope Z_scope.

Section TokenMaskFacts.

Variable Parser : Type.
Variable Advance : Parser -> ascii -> option Parser.
Variable IsCompleted : Parser -> bool.
Variable PushStateAndExpand : Parser -> Z -> Parser.
Variable PopLastStates : Parser -> Z -> Parser.
Variable lookahead_assertion_id : Z.
Variable is_exact_lookahead : bool.
Variable sorted_decoded_vocab : list (Z * Token).
Variable subtree_nodes_range : list Z.
Variable possible_intervals : list (Z * Z).
Variable possible_token_num : Z.
Variable speculative_calculation : bool.
Variable speculative_mask : ascii -> bool.
Variable definite_accepted_bitset : option (Z -> bool).
Variable USE_BITSET_THRESHOLD : Z.

Local Abbreviation uncertain_of l := (tmp_uncertain_indices_ (matcher l)).
Local Abbreviation accepted_of l := (tmp_accepted_indices_ (matcher l)).
Local Abbreviation pass := (IsTokenPassLookaheadAssertion Advance IsCompleted PushStateAndExpand
                          PopLastStates lookahead_assertion_id).
Local Abbreviation classify' := (classify Advance IsCompleted PushStateAndExpand PopLastStates
                               lookahead_assertion_id is_exact_lookahead subtree_nodes_range).
Local Abbreviation check_token' :=
  (check_token Advance IsCompleted PushStateAndExpand PopLastStates lookahead_assertion_id
     is_exact_lookahead sorted_decoded_vocab subtree_nodes_range possible_token_num
     speculative_calculation speculative_mask definite_accepted_bitset USE_BITSET_THRESHOLD).
Local Abbreviation token_loop' :=
  (token_loop Advance IsCompleted PushStateAndExpand PopLastStates lookahead_assertion_id
     is_exact_lookahead sorted_decoded_vocab subtree_nodes_range possible_token_num
     speculative_calculation speculative_mask definite_accepted_bitset USE_BITSET_THRESHOLD).
Local Abbreviation interval_loop' :=
  (interval_loop Advance IsCompleted PushStateAndExpand PopLastStates lookahead_assertion_id
     is_exact_lookahead sorted_decoded_vocab subtree_nodes_range possible_token_num
     speculative_calculation speculative_mask definite_accepted_bitset USE_BITSET_THRESHOLD).
Local Abbreviation GetTokenMask' :=
  (GetTokenMaskWithFirstCharacterCheck Advance IsCompleted PushStateAndExpand PopLastStates
     lookahead_assertion_id is_exact_lookahead sorted_decoded_vocab subtree_nodes_range
     possible_intervals possible_token_num speculative_calculation speculative_mask
     definite_accepted_bitset USE_BITSET_THRESHOLD).

Lemma advance_rest_uncertain (rest : Token) :
  forall (j : Z) (l : Loop Parser),
    uncertain_of (snd (advance_rest Advance IsCompleted rest j l)) = uncertain_of l.
Proof.
  induction rest as [| ch rest IH]; intros j l; cbn [advance_rest].
  - reflexivity.
  - destruct (Advance (parser (matcher l)) ch) as [p' |]; [| reflexivity].
    rewrite IH. reflexivity.
Qed.

Lemma match_token_uncertain (token : Token) (l : Loop Parser) :
  uncertain_of (snd (match_token Advance IsCompleted PopLastStates token l)) = uncertain_of l.
Proof.
  unfold match_token, common_prefix_step.
  destruct (prev_token l) as [prev |].
  - destruct (negb (lcp_len token prev >? prev_matched_size l)) eqn:Hacc; cbn [matcher snd].
    + rewrite advance_rest_uncertain. cbn [matcher prev_matched_size].
      destruct (lcp_len token prev >? prev_matched_size l); [reflexivity |].
      destruct (lcp_len token prev <? prev_matched_size l); reflexivity.
    + destruct (lcp_len token prev >? prev_matched_size l); [reflexivity |].
      destruct (lcp_len token prev <? prev_matched_size l); reflexivity.
  - rewrite advance_rest_uncertain. reflexivity.
Qed.

Lemma classify_root_uncertain (i : Z) (token : Token) (accepted : bool) (l : Loop Parser) :
  uncertain_of (fst (classify' true i token accepted l)) = uncertain_of l.
Proof.
  unfold classify. destruct accepted; [reflexivity |].
  destruct (last _ false && (prev_matched_size l >? 0)); [| reflexivity].
  destruct (pass token _ _) as [[la lc] p']. reflexivity.
Qed.

Lemma check_token_root_uncertain (i : Z) (l : Loop Parser) :
  uncertain_of (fst (check_token' true i l)) = uncertain_of l.
Proof.
  unfold check_token.
  destruct (i <? last_rejected_range l).
  - destruct (fill_reject_indices _ _ _); reflexivity.
  - destruct (speculative_accepts _ _ _ _ _); [reflexivity |].
    pose proof (match_token_uncertain
                  (token_at sorted_decoded_vocab i) l) as H.
    destruct (match_token Advance IsCompleted PopLastStates _ l) as [accepted l'].
    rewrite classify_root_uncertain. exact H.
Qed.

Lemma token_loop_root_uncertain (n : nat) (second : Z) :
  forall (i : Z) (l l' : Loop Parser),
    token_loop' true n second i l = Some l' -> uncertain_of l' = uncertain_of l.
Proof.
  induction n as [| n IH]; intros i l l'; cbn [token_loop].
  - destruct (i <? second); [discriminate | congruence].
  - destruct (i <? second); [| congruence].
    pose proof (check_token_root_uncertain i l) as H.
    destruct (check_token' true i l) as [l1 i1]. intros Hloop.
    apply IH in Hloop. cbn [fst] in H. congruence.
Qed.

Lemma interval_loop_root_uncertain (intervals : list (Z * Z)) :
  forall (l l' : Loop Parser),
    interval_loop' true intervals l = Some l' -> uncertain_of l' = uncertain_of l.
Proof.
  induction intervals as [| interval rest IH]; intros l l'; cbn [interval_loop].
  - congruence.
  - destruct (token_loop' true _ _ _ l) as [l1 |] eqn:Hloop; [| discriminate].
    apply token_loop_root_uncertain in Hloop. intros Hrest. apply IH in Hrest.
    rewrite Hrest, <- Hloop.
    destruct rest as [| next rest']; [reflexivity |].
    destruct (fill_reject_indices _ _ _); reflexivity.
Qed.

Lemma GetTokenMask_root_uncertain (m m' : Matcher Parser) (filled : bool) :
  GetTokenMask' true m = Some (filled, m') ->
  tmp_uncertain_indices_ m' = tmp_uncertain_indices_ m.
Proof.
  unfold GetTokenMaskWithFirstCharacterCheck.
  destruct possible_intervals as [| first_interval rest] eqn:Hint; [discriminate |].
  match goal with
  | |- context [interval_loop' true ?ints ?l0] =>
      destruct (interval_loop' true ints l0) as [l |] eqn:Hloop; [| discriminate]
  end.
  apply interval_loop_root_uncertain in Hloop. intros H. injection H as _ <-.
  cbn [matcher] in Hloop.
  match goal with
  | |- tmp_uncertain_indices_ (if ?c then _ else _) = _ => destruct c
  end; cbn [tmp_uncertain_indices_ push_rejected set_parser]; rewrite Hloop;
    match goal with
    | |- tmp_uncertain_indices_ (if ?c then _ else _) = _ => destruct c
    end; reflexivity.
Qed.

Lemma check_token_forward (is_root_rule : bool) (i : Z) (l : Loop Parser) :
  i < subtree_end subtree_nodes_range i ->
  i <= snd (check_token' is_root_rule i l).
Proof.
  intros Hfwd. unfold check_token.
  destruct (i <? last_rejected_range l); [cbn; lia |].
  destruct (speculative_accepts _ _ _ _ _); [cbn; lia |].
  destruct (match_token Advance IsCompleted PopLastStates _ l) as [accepted l'].
  unfold classify. destruct accepted; [cbn; lia |].
  destruct (last _ false && (prev_matched_size l' >? 0)); [| cbn; lia].
  destruct (pass _ _ _) as [[la lc] p'].
  destruct (negb is_root_rule && la); [destruct (lc || negb is_exact_lookahead) |];
    cbn [snd]; lia.
Qed.

Lemma token_loop_total (is_root_rule : bool) (first second : Z) (n : nat) :
  (forall j, first <= j < second -> j < subtree_end subtree_nodes_range j) ->
  forall (i : Z) (l : Loop Parser),
    first <= i -> second - i <= Z.of_nat n ->
    exists l', token_loop' is_root_rule n second i l = Some l'.
Proof.
  intros Hfwd. induction n as [| n IH]; intros i l Hlo Hn; cbn [token_loop].
  - destruct (i <? second) eqn:Hlt; [apply Z.ltb_lt in Hlt; lia | eauto].
  - destruct (i <? second) eqn:Hlt; [| eauto].
    apply Z.ltb_lt in Hlt.
    pose proof (@check_token_forward is_root_rule i l (Hfwd i (conj Hlo Hlt))) as Hstep.
    destruct (check_token' is_root_rule i l) as [l1 i1]. cbn [snd] in Hstep.
    apply IH; lia.
Qed.


Lemma In_range (a b j : Z) : a <= j < b -> In j (range a b).
Proof.
  intros H. unfold range. apply in_map_iff.
  exists (Z.to_nat (j - a)). split; [lia |].
  apply in_seq. lia.
Qed.

Lemma interval_loop_total (is_root_rule : bool) (intervals : list (Z * Z)) :
  subtrees_go_forward subtree_nodes_range intervals = true ->
  forall l : Loop Parser, exists l', interval_loop' is_root_rule intervals l = Some l'.
Proof.
  induction intervals as [| interval rest IH]; intros Hfwd l; cbn [interval_loop].
  - eauto.
  - unfold subtrees_go_forward in Hfwd. cbn [forallb] in Hfwd.
    apply andb_true_iff in Hfwd. destruct Hfwd as [Hhere Hrest].
    destruct (@token_loop_total is_root_rule (fst interval) (snd interval)
                (Z.to_nat (snd interval - fst interval))) with (i := fst interval) (l := l)
      as [l1 Hl1]; [| lia | lia |].
    + intros j Hj. rewrite forallb_forall in Hhere.
      apply Z.ltb_lt. apply Hhere. apply In_range. exact Hj.
    + rewrite Hl1. apply IH. exact Hrest.
Qed.

Lemma GetTokenMask_total (is_root_rule : bool) (m : Matcher Parser) :
  possible_intervals <> [] ->
  subtrees_go_forward subtree_nodes_range possible_intervals = true ->
  exists filled m', GetTokenMask' is_root_rule m = Some (filled, m').
Proof.
  intros Hne Hfwd. unfold GetTokenMaskWithFirstCharacterCheck.
  destruct possible_intervals as [| first_interval rest] eqn:Hint; [congruence |].
  match goal with
  | |- context [interval_loop' is_root_rule ?ints ?l0] =>
      destruct (@interval_loop_total is_root_rule ints Hfwd l0) as [l Hl]
  end.
  rewrite Hl. eauto.
Qed.

Variable IntsetUnion : list Z -> list Z -> list Z.
Variable set_difference : list Z -> list Z -> list Z.
Variable vocab_size : Z.
Variable special_token_ids : list Z.
Variable storage_with_rejected :
  list Z -> list Z -> list Z -> StoreType * list Z * list Z * (Z -> bool).
Variable storage_without_rejected :
  list Z -> list Z -> StoreType * list Z * list Z * (Z -> bool).
Variable MemorySize : AdaptiveTokenMask -> Z.
Variable max_cache_memory_size_ : Z.
Variable GetMaxSize : Z.
Variable per_rule_fsm_hash : option Z.
Variable new_state_id : Z.
Variable HashSequence : Z -> option Z.
Variable HashCombine64Bits : Z -> Z -> bool -> Z.
Variable tokenizer_hash : Z.

Local Abbreviation GetAdaptiveTokenMask' :=
  (GetAdaptiveTokenMask Advance IsCompleted PushStateAndExpand PopLastStates
     lookahead_assertion_id is_exact_lookahead sorted_decoded_vocab subtree_nodes_range
     possible_intervals possible_token_num speculative_calculation speculative_mask
     definite_accepted_bitset USE_BITSET_THRESHOLD IntsetUnion set_difference vocab_size
     special_token_ids storage_with_rejected storage_without_rejected MemorySize
     max_cache_memory_size_ GetMaxSize per_rule_fsm_hash new_state_id HashSequence
     HashCombine64Bits tokenizer_hash).

Lemma constructor_with_rejected_uncertain (accepted rejected uncertain : list Z) :
  uncertain_indices
    (AdaptiveTokenMask_with_rejected storage_with_rejected accepted rejected uncertain)
  = uncertain.
Proof.
  unfold AdaptiveTokenMask_with_rejected.
  destruct (storage_with_rejected accepted rejected uncertain) as [[[st acc] rej] bits].
  reflexivity.
Qed.

Lemma constructor_without_rejected_uncertain (accepted uncertain : list Z) :
  uncertain_indices
    (AdaptiveTokenMask_without_rejected storage_without_rejected accepted uncertain)
  = uncertain.
Proof.
  unfold AdaptiveTokenMask_without_rejected.
  destruct (storage_without_rejected accepted uncertain) as [[[st acc] rej] bits].
  reflexivity.
Qed.

Lemma adapt_storage_uncertain (cache : AdaptiveTokenMask) (m : Matcher Parser) :
  uncertain_indices
    (adapt_storage sorted_decoded_vocab USE_BITSET_THRESHOLD IntsetUnion vocab_size
       special_token_ids cache m)
  = uncertain_indices cache.
Proof.
  unfold adapt_storage.
  destruct (store_type cache);
    repeat match goal with |- context [if ?c then _ else _] => destruct c end;
    reflexivity.
Qed.

(** Storing the computed masks on a cache that is accounted and within
    a budget below 2^63 returns. *)
Lemma store_caches_returns (is_root_rule : bool) (fsm_hash : Z) (lookahead_hash : option Z)
    (return_value basic : AdaptiveTokenMask) (cm : CrossingCacheManager) :
  0 <= max_cache_memory_size_ < 2 ^ 63 ->
  accounted MemorySize cm ->
  current_cache_memory_size_ cm <= max_cache_memory_size_ ->
  exists cm',
    store_caches lookahead_assertion_id is_exact_lookahead MemorySize max_cache_memory_size_
      new_state_id HashCombine64Bits tokenizer_hash is_root_rule fsm_hash lookahead_hash
      return_value basic cm = Some cm'.
Proof.
  intros Hmax Hacc Hbudget. unfold store_caches, add_cache.
  destruct ((lookahead_assertion_id =? -1) && negb is_root_rule).
  - destruct (@AddCache_accounted MemorySize max_cache_memory_size_ Hmax cm fsm_hash
                new_state_id tokenizer_hash return_value Hacc Hbudget) as (cm' & -> & _).
    eauto.
  - destruct (@AddCache_accounted MemorySize max_cache_memory_size_ Hmax cm fsm_hash
                new_state_id tokenizer_hash basic Hacc Hbudget)
      as (cm1 & -> & Hacc1 & Hbudget1 & _).
    destruct lookahead_hash as [lh |]; [| eauto].
    destruct (@AddCache_accounted MemorySize max_cache_memory_size_ Hmax cm1
                (HashCombine64Bits fsm_hash lh is_exact_lookahead) new_state_id
                tokenizer_hash return_value Hacc1 Hbudget1) as (cm' & -> & _).
    eauto.
Qed.

Lemma compute_mask_root (available : bool) (fsm_hash : Z) (lookahead_hash : option Z)
    (m : Matcher Parser) (cm : CrossingCacheManager) :
  possible_intervals <> [] ->
  subtrees_go_forward subtree_nodes_range possible_intervals = true ->
  tmp_uncertain_indices_ m = [] ->
  0 <= max_cache_memory_size_ < 2 ^ 63 ->
  accounted MemorySize cm ->
  current_cache_memory_size_ cm <= max_cache_memory_size_ ->
  exists mask m' cm',
    compute_mask Advance IsCompleted PushStateAndExpand PopLastStates
      lookahead_assertion_id is_exact_lookahead sorted_decoded_vocab subtree_nodes_range
      possible_intervals possible_token_num speculative_calculation speculative_mask
      definite_accepted_bitset USE_BITSET_THRESHOLD IntsetUnion set_difference
      storage_with_rejected storage_without_rejected MemorySize max_cache_memory_size_
      new_state_id HashCombine64Bits tokenizer_hash
      true available fsm_hash lookahead_hash m cm = Some (mask, m', cm') /\
    uncertain_indices mask = [].
Proof.
  intros Hne Hfwd Hempty Hmax Hacc Hbudget. unfold compute_mask.
  destruct (@GetTokenMask_total true m Hne Hfwd) as (filled & m1 & Hrun).
  rewrite Hrun. apply GetTokenMask_root_uncertain in Hrun. rewrite Hempty in Hrun.
  destruct available.
  - match goal with
    | |- context [store_caches _ _ _ _ _ _ _ ?r ?h ?lh ?rv ?bs ?c] =>
        destruct (@store_caches_returns r h lh rv bs c Hmax Hacc Hbudget) as (cm' & ->)
    end.
    do 3 eexists. split; [reflexivity |].
    destruct filled;
      rewrite ?constructor_with_rejected_uncertain, ?constructor_without_rejected_uncertain;
      exact Hrun.
  - do 3 eexists. split; [reflexivity |].
    destruct filled;
      rewrite ?constructor_with_rejected_uncertain, ?constructor_without_rejected_uncertain;
      exact Hrun.
Qed.

(** X29: for a root state whose mask is not found in the crossing cache
    under the key with the look-ahead hash, with a first interval,
    subtrees that end after their root, and a cache that is accounted
    and within a budget below 2^63: [GetAdaptiveTokenMask] returns a
    mask, computed by the token loop or adapted from the entry under the
    key without look-ahead, and its uncertain indices are empty. *)
Theorem root_mask_has_no_uncertain (m : Matcher Parser) (cm : CrossingCacheManager) :
  possible_intervals <> [] ->
  subtrees_go_forward subtree_nodes_range possible_intervals = true ->
  (forall fsm_hash lookahead_hash,
      per_rule_fsm_hash = Some fsm_hash ->
      HashSequence lookahead_assertion_id = Some lookahead_hash ->
      cache_lookup
        (HashCombine64Bits fsm_hash lookahead_hash is_exact_lookahead, new_state_id,
         tokenizer_hash) (cache_list_ cm) = None) ->
  0 <= max_cache_memory_size_ < 2 ^ 63 ->
  accounted MemorySize cm ->
  current_cache_memory_size_ cm <= max_cache_memory_size_ ->
  exists mask m' cm',
    GetAdaptiveTokenMask' true m cm = Some (mask, m', cm') /\
    uncertain_indices mask = [].
Proof.
  intros Hne Hfwd Hmiss Hmax Hacc Hbudget. unfold GetAdaptiveTokenMask.
  destruct (GetMaxSize =? 0).
  { apply compute_mask_root; [exact Hne | exact Hfwd | reflexivity | assumption ..]. }
  destruct per_rule_fsm_hash as [fsm_hash |];
    [| apply compute_mask_root; [exact Hne | exact Hfwd | reflexivity | assumption ..]].
  assert (Hperfect :
      match HashSequence lookahead_assertion_id with
      | Some lh =>
          GetCache cm (HashCombine64Bits fsm_hash lh is_exact_lookahead) new_state_id
            tokenizer_hash
      | None => (None, cm)
      end = (None, cm)).
  { destruct (HashSequence lookahead_assertion_id) as [lh |]; [| reflexivity].
    unfold GetCache. rewrite (Hmiss fsm_hash lh eq_refl eq_refl). reflexivity. }
  rewrite Hperfect. unfold GetCache at 1.
  destruct (cache_lookup (fsm_hash, new_state_id, tokenizer_hash) (cache_list_ cm))
    as [crossing_cache |].
  - unfold AdaptCacheWithLookahead. do 3 eexists. split; [reflexivity |].
    rewrite adapt_storage_uncertain. reflexivity.
  - apply compute_mask_root; [exact Hne | exact Hfwd | reflexivity | assumption ..].
Qed.

End TokenMaskFacts.

(** X29 at the rule "a" with look-ahead "bc" and an empty crossing
    cache. *)
Lemma root_mask_has_no_uncertain_witness :
  exists mask m' cm',
    a_then_bc_mask true empty_manager = Some (mask, m', cm') /\
    uncertain_indices mask = [].
Proof.
  apply root_mask_has_no_uncertain.
  - discriminate.
  - reflexivity.
  - intros fsm_hash lookahead_hash _ _. reflexivity.
  - lia.
  - split; [reflexivity | constructor].
  - cbn. lia.
Defined.

(** C2, the defect.  The rule "a" with the look-ahead "bc", computed for
    a root state on an empty crossing cache, gets a mask without
    uncertain tokens.  Computed first for a non-root state and then for
    a root state on the cache that the first call leaves, it gets the
    mask of the first call with its two uncertain tokens: the second
    call finds it under the key of the FSM hash, the look-ahead hash and
    the exact flag, and returns it before [is_root_rule] is looked at. *)
Theorem root_mask_from_the_crossing_cache :
  (exists mask m cm,
     a_then_bc_mask true empty_manager = Some (mask, m, cm) /\
     uncertain_indices mask = []) /\
  (exists mask0 m0 cm0 mask m cm,
     a_then_bc_mask false empty_manager = Some (mask0, m0, cm0) /\
     a_then_bc_mask true cm0 = Some (mask, m, cm) /\
     uncertain_indices mask = [0; 1]).
Proof.
  split.
  - do 3 eexists. split; [vm_compute; reflexivity | reflexivity].
  - do 6 eexists. split; [vm_compute; reflexivity |]. split; [vm_compute; reflexivity |].
    reflexivity.
Qed.

(** With the exact look-ahead "bc" after the rule "a": the token "ab",
    whose tail the look-ahead reads without completing, is accepted, and
    the token "abc", on which the look-ahead completes, is uncertain. *)
Lemma exact_lookahead_swaps_the_classes :
  (exists m, a_then_bc_check true false = Some (true, m) /\
     tmp_accepted_indices_ m = [0] /\ tmp_uncertain_indices_ m = [1]) /\
  (exists p,
     lookahead_scan literal_Advance literal_IsCompleted
       [list_ascii_of_string "bc"; []; list_ascii_of_string "a"]
       (skipn 1 (list_ascii_of_string "ab")) 1 0 = Stopped 1 p) /\
  (exists p,
     lookahead_scan literal_Advance literal_IsCompleted
       [list_ascii_of_string "bc"; []; list_ascii_of_string "a"]
       (skipn 1 (list_ascii_of_string "abc")) 1 0 = Completed 2 p).
Proof.
  split; [| split]; eexists; vm_compute; repeat split.
Qed.

Local Close Scope Z_scope.

(** ** The structure normalizer: the normal form of its result *)

Import StructureNormalizer.
Local Open Scope nat_scope.
Local Open Scope list_scope.

Section GrammarExprInduction.

Variable P : GrammarExpr -> Prop.
Hypothesis P_byte_string : forall bytes, P (kByteString bytes).
Hypothesis P_character_class : forall negated ranges, P (kCharacterClass negated ranges).
Hypothesis P_character_class_star :
  forall negated ranges, P (kCharacterClassStar negated ranges).
Hypothesis P_empty_str : P kEmptyStr.
Hypothesis P_rule_ref : forall rule_id, P (kRuleRef rule_id).
Hypothesis P_sequence : forall elements, Forall P elements -> P (kSequence elements).
Hypothesis P_choices : forall elements, Forall P elements -> P (kChoices elements).
Hypothesis P_tag_dispatch : forall td, P (kTagDispatch td).
Hypothesis P_repeat : forall rule_id lo hi, P (kRepeat rule_id lo hi).

Fixpoint GrammarExpr_nested_ind (e : GrammarExpr) : P e :=
  match e with
  | kByteString bytes => P_byte_string bytes
  | kCharacterClass negated ranges => P_character_class negated ranges
  | kCharacterClassStar negated ranges => P_character_class_star negated ranges
  | kEmptyStr => P_empty_str
  | kRuleRef rule_id => P_rule_ref rule_id
  | kSequence elements =>
      P_sequence
        ((fix all (l : list GrammarExpr) : Forall P l :=
            match l with
            | [] => Forall_nil P
            | x :: rest => Forall_cons x (GrammarExpr_nested_ind x) (all rest)
            end) elements)
  | kChoices elements =>
      P_choices
        ((fix all (l : list GrammarExpr) : Forall P l :=
            match l with
            | [] => Forall_nil P
            | x :: rest => Forall_cons x (GrammarExpr_nested_ind x) (all rest)
            end) elements)
  | kTagDispatch td => P_tag_dispatch td
  | kRepeat rule_id lo hi => P_repeat rule_id lo hi
  end.

End GrammarExprInduction.

Lemma grows_refl (b : GrammarBuilder) : grows b b.
Proof. exists []. split; [symmetry; apply app_nil_r | reflexivity]. Qed.

Lemma grows_trans (b1 b2 b3 : GrammarBuilder) : grows b1 b2 -> grows b2 b3 -> grows b1 b3.
Proof.
  intros (a1 & E1 & H1) (a2 & E2 & H2). exists (a1 ++ a2). split.
  - rewrite E2, E1. symmetry. apply app_assoc.
  - rewrite forallb_app, H1, H2. reflexivity.
Qed.

Lemma grows_AddRuleWithHint (b : GrammarBuilder) (hint : string) (body : GrammarExpr) :
  normalized_body body = true -> grows b (snd (AddRuleWithHint b hint body)).
Proof.
  intros Hbody. unfold AddRuleWithHint, AddRule. cbn [snd rules].
  eexists. split; [reflexivity |].
  cbn [forallb]. unfold normalized_rule, has_body. cbn [body_expr lookahead_assertion].
  rewrite Hbody. reflexivity.
Qed.

Section NormalizerFacts.

Variable VisitTagDispatch : TagDispatch -> TagDispatch.
Variable cur_rule_name_ : string.

Local Abbreviation in_sequence' := (in_sequence VisitTagDispatch cur_rule_name_).
Local Abbreviation in_choices' := (in_choices VisitTagDispatch cur_rule_name_).
Local Abbreviation sequence_step_ok' := (sequence_step_ok VisitTagDispatch cur_rule_name_).
Local Abbreviation choices_step_ok' := (choices_step_ok VisitTagDispatch cur_rule_name_).
Lemma in_sequence_sequence (elements : list GrammarExpr) (b : GrammarBuilder) :
  in_sequence' (kSequence elements) b
  = visit_each in_sequence' [] (@app GrammarExpr) elements b.
Proof. reflexivity. Qed.

Lemma in_sequence_choices (elements : list GrammarExpr) (b : GrammarBuilder) :
  in_sequence' (kChoices elements) b
  = match VisitChoices_ VisitTagDispatch cur_rule_name_ elements b with
    | None => None
    | Some ([choice_element_expr], b1) =>
        match choice_element_expr with
        | kEmptyStr => Some ([], b1)
        | kSequence choice_elements => Some (choice_elements, b1)
        | _ => None
        end
    | Some (sub_choice_ids, b1) =>
        let (new_choice_rule_id, b2) :=
          AddRuleWithHint b1 cur_rule_name_ (kChoices sub_choice_ids) in
        Some ([kRuleRef new_choice_rule_id], b2)
    end.
Proof. reflexivity. Qed.

Lemma in_choices_sequence (elements : list GrammarExpr) (b : GrammarBuilder) :
  in_choices' (kSequence elements) b
  = match VisitSequence_ VisitTagDispatch cur_rule_name_ elements b with
    | None => None
    | Some ([], b1) => Some (([], true), b1)
    | Some (sub_sequence_ids, b1) => Some (([kSequence sub_sequence_ids], false), b1)
    end.
Proof. reflexivity. Qed.

Lemma in_choices_choices (elements : list GrammarExpr) (b : GrammarBuilder) :
  in_choices' (kChoices elements) b
  = match VisitChoices_ VisitTagDispatch cur_rule_name_ elements b with
    | None => None
    | Some (kEmptyStr :: rest, b1) => Some ((rest, true), b1)
    | Some (sub_choice_ids, b1) => Some ((sub_choice_ids, false), b1)
    end.
Proof. reflexivity. Qed.


Lemma visit_each_sequence_ok (elements : list GrammarExpr) :
  Forall sequence_step_ok' elements ->
  forall b ids b',
    visit_each in_sequence' [] (@app GrammarExpr) elements b = Some (ids, b') ->
    forallb is_atom ids = true /\ grows b b'.
Proof.
  induction 1 as [| e rest He _ IH]; intros b ids b' Hrun; cbn [visit_each] in Hrun.
  - injection Hrun as <- <-. split; [reflexivity | apply grows_refl].
  - destruct (in_sequence' e b) as [[ids1 b1] |] eqn:H1; [| discriminate].
    destruct (visit_each in_sequence' [] (@app GrammarExpr) rest b1) as [[ids2 b2] |] eqn:H2;
      [| discriminate].
    injection Hrun as <- <-.
    destruct (He _ _ _ H1) as [Ha1 Hb1].
    destruct (IH _ _ _ H2) as [Ha2 Hb2].
    split; [rewrite forallb_app, Ha1, Ha2; reflexivity | eapply grows_trans; eauto].
Qed.

Lemma visit_each_choices_ok (elements : list GrammarExpr) :
  Forall choices_step_ok' elements ->
  forall b ids found b',
    visit_each in_choices' ([], false) join_choices elements b = Some ((ids, found), b') ->
    forallb is_atom_sequence ids = true /\ grows b b'.
Proof.
  induction 1 as [| e rest He _ IH]; intros b ids found b' Hrun; cbn [visit_each] in Hrun.
  - injection Hrun as <- <- <-. split; [reflexivity | apply grows_refl].
  - destruct (in_choices' e b) as [[[ids1 f1] b1] |] eqn:H1; [| discriminate].
    destruct (visit_each in_choices' ([], false) join_choices rest b1)
      as [[[ids2 f2] b2] |] eqn:H2; [| discriminate].
    unfold join_choices in Hrun. cbn [fst snd] in Hrun. injection Hrun as <- <- <-.
    destruct (He _ _ _ _ H1) as [Ha1 Hb1].
    destruct (IH _ _ _ _ H2) as [Ha2 Hb2].
    split; [rewrite forallb_app, Ha1, Ha2; reflexivity | eapply grows_trans; eauto].
Qed.

Lemma finish_choices_ok (r : option (ChoiceIds * GrammarBuilder))
    (ids : list GrammarExpr) (b' : GrammarBuilder) :
  finish_choices r = Some (ids, b') ->
  exists ids0 found,
    r = Some ((ids0, found), b') /\
    (forallb is_atom_sequence ids0 = true -> normalized_choices ids = true) /\ ids <> [].
Proof.
  unfold finish_choices.
  destruct r as [[[ids0 found] b0] |]; [| discriminate].
  destruct found.
  - intros H. injection H as <- <-. exists ids0, true.
    repeat split; [intros Hall; exact Hall | discriminate].
  - destruct ids0 as [| c rest]; [discriminate |].
    intros H. injection H as <- <-. exists (c :: rest), false.
    repeat split; [| discriminate].
    cbn [forallb]. intros Hall. apply andb_true_iff in Hall. destruct Hall as [Hc Hrest].
    destruct c; try discriminate. cbn [normalized_choices forallb]. now rewrite Hc, Hrest.
Qed.

Lemma VisitChoices_ok (elements : list GrammarExpr) :
  Forall choices_step_ok' elements ->
  forall b ids b',
    VisitChoices_ VisitTagDispatch cur_rule_name_ elements b = Some (ids, b') ->
    normalized_choices ids = true /\ ids <> [] /\ grows b b'.
Proof.
  intros Hall b ids b' Hrun. unfold VisitChoices_ in Hrun.
  apply finish_choices_ok in Hrun. destruct Hrun as (ids0 & found & Hrun & Hnorm & Hne).
  destruct (@visit_each_choices_ok _ Hall _ _ _ _ Hrun) as [Hids Hgrows].
  repeat split; [apply Hnorm; exact Hids | exact Hne | exact Hgrows].
Qed.

Lemma normalized_choices_tail (c : GrammarExpr) (rest : list GrammarExpr) :
  normalized_choices (c :: rest) = true ->
  (c = kEmptyStr \/ is_atom_sequence c = true) /\ forallb is_atom_sequence rest = true.
Proof.
  destruct c; cbn [normalized_choices forallb]; rewrite ?andb_true_iff;
    try (intros [H1 H2]; split; [right; exact H1 | exact H2]).
  intros H. split; [left; reflexivity | exact H].
Qed.

Lemma grows_tag_dispatch_rule (td : TagDispatch) (b : GrammarBuilder) :
  grows b (snd (tag_dispatch_rule VisitTagDispatch cur_rule_name_ td b)).
Proof. unfold tag_dispatch_rule. apply grows_AddRuleWithHint. reflexivity. Qed.

Lemma steps_ok (e : GrammarExpr) : sequence_step_ok' e /\ choices_step_ok' e.
Proof.
  induction e as [bytes | negated ranges | negated ranges | | rule_id
                  | elements IH | elements IH | td | rule_id lo hi]
    using GrammarExpr_nested_ind;
    try (split;
         [ intros b ids b' H; cbn in H; injection H as <- <-;
           split; [reflexivity | apply grows_refl]
         | intros b ids found b' H; cbn in H; injection H as <- <- <-;
           split; [reflexivity | apply grows_refl] ]).
  - (* kSequence *)
    assert (Hseq : Forall sequence_step_ok' elements).
    { eapply Forall_impl; [| exact IH]. intros a [Ha _]. exact Ha. }
    split.
    + intros b ids b' H. rewrite in_sequence_sequence in H.
      eapply visit_each_sequence_ok; eauto.
    + intros b ids found b' H. rewrite in_choices_sequence in H.
      unfold VisitSequence_ in H.
      destruct (visit_each in_sequence' [] (@app GrammarExpr) elements b)
        as [[sub b1] |] eqn:Hsub; [| discriminate].
      destruct (@visit_each_sequence_ok _ Hseq _ _ _ Hsub) as [Hatoms Hb1].
      destruct sub as [| x sub']; injection H as <- <- <-.
      * split; [reflexivity | exact Hb1].
      * split; [| exact Hb1].
        change (forallb is_atom (x :: sub') && true = true). now rewrite Hatoms.
  - (* kChoices *)
    assert (Hch : Forall choices_step_ok' elements).
    { eapply Forall_impl; [| exact IH]. intros a [_ Ha]. exact Ha. }
    split.
    + intros b ids b' H. rewrite in_sequence_choices in H.
      destruct (VisitChoices_ VisitTagDispatch cur_rule_name_ elements b)
        as [[sub b1] |] eqn:Hsub; [| discriminate].
      destruct (@VisitChoices_ok _ Hch _ _ _ Hsub) as (Hnorm & Hne & Hb1).
      destruct sub as [| c [| c2 rest]]; [congruence | |].
      * destruct (@normalized_choices_tail _ _ Hnorm) as [[-> | Hc] _].
        -- injection H as <- <-. split; [reflexivity | exact Hb1].
        -- destruct c; try discriminate. injection H as <- <-.
           split; [exact Hc | exact Hb1].
      * destruct (AddRuleWithHint b1 cur_rule_name_ (kChoices (c :: c2 :: rest)))
          as [new_id b2] eqn:Hadd.
        injection H as <- <-. split; [reflexivity |].
        apply grows_trans with b1; [exact Hb1 |].
        change b2 with (snd (new_id, b2)). rewrite <- Hadd.
        apply grows_AddRuleWithHint. exact Hnorm.
    + intros b ids found b' H. rewrite in_choices_choices in H.
      destruct (VisitChoices_ VisitTagDispatch cur_rule_name_ elements b)
        as [[sub b1] |] eqn:Hsub; [| discriminate].
      destruct (@VisitChoices_ok _ Hch _ _ _ Hsub) as (Hnorm & Hne & Hb1).
      destruct sub as [| c rest]; [congruence |].
      destruct (@normalized_choices_tail _ _ Hnorm) as [[-> | Hc] Hrest].
      * injection H as <- <- <-. split; [exact Hrest | exact Hb1].
      * destruct c; try discriminate. injection H as <- <- <-.
        split; [| exact Hb1]. cbn [forallb]. now rewrite Hc, Hrest.
  - (* kTagDispatch *)
    split.
    + intros b ids b' H. cbn [in_sequence] in H.
      pose proof (grows_tag_dispatch_rule td b) as Hadd.
      destruct (tag_dispatch_rule VisitTagDispatch cur_rule_name_ td b) as [new_id b1].
      injection H as <- <-. split; [reflexivity | exact Hadd].
    + intros b ids found b' H. cbn [in_choices] in H.
      pose proof (grows_tag_dispatch_rule td b) as Hadd.
      destruct (tag_dispatch_rule VisitTagDispatch cur_rule_name_ td b) as [new_id b1].
      injection H as <- <- <-. split; [reflexivity | exact Hadd].
Qed.

Lemma VisitSequence_normal (elements : list GrammarExpr) (b : GrammarBuilder)
    (ids : list GrammarExpr) (b' : GrammarBuilder) :
  VisitSequence_ VisitTagDispatch cur_rule_name_ elements b = Some (ids, b') ->
  forallb is_atom ids = true /\ grows b b'.
Proof.
  apply visit_each_sequence_ok. apply Forall_forall. intros e _. apply steps_ok.
Qed.

Lemma VisitChoices_normal (elements : list GrammarExpr) (b : GrammarBuilder)
    (ids : list GrammarExpr) (b' : GrammarBuilder) :
  VisitChoices_ VisitTagDispatch cur_rule_name_ elements b = Some (ids, b') ->
  normalized_choices ids = true /\ grows b b'.
Proof.
  intros H. apply VisitChoices_ok in H; [tauto |].
  apply Forall_forall. intros e _. apply steps_ok.
Qed.

Lemma VisitRuleBody_normal (grammar_expr : GrammarExpr) (b : GrammarBuilder)
    (body : GrammarExpr) (b' : GrammarBuilder) :
  VisitRuleBody VisitTagDispatch cur_rule_name_ grammar_expr b = Some (body, b') ->
  normalized_body body = true /\ grows b b'.
Proof.
  destruct grammar_expr; cbn [VisitRuleBody];
    try (intros H; injection H as <- <-; split; [reflexivity | apply grows_refl]).
  - destruct (VisitSequence_ VisitTagDispatch cur_rule_name_ elements b)
      as [[ids b1] |] eqn:Hrun; [| discriminate].
    intros H. injection H as <- <-. apply VisitSequence_normal in Hrun.
    destruct Hrun as [Hatoms Hgrows]. split; [| exact Hgrows].
    change (forallb is_atom ids && true = true). now rewrite Hatoms.
  - destruct (VisitChoices_ VisitTagDispatch cur_rule_name_ elements b)
      as [[ids b1] |] eqn:Hrun; [| discriminate].
    intros H. injection H as <- <-. apply VisitChoices_normal in Hrun. exact Hrun.
Qed.

Lemma VisitLookaheadAssertion_normal (lookahead : option GrammarExpr) (b : GrammarBuilder)
    (new_lookahead : option GrammarExpr) (b' : GrammarBuilder) :
  VisitLookaheadAssertion VisitTagDispatch cur_rule_name_ lookahead b
  = Some (new_lookahead, b') ->
  match new_lookahead with Some e => is_atom_sequence e = true | None => True end /\
  grows b b'.
Proof.
  destruct lookahead as [[] |]; cbn [VisitLookaheadAssertion]; try discriminate;
    try (intros H; injection H as <- <-; split; [reflexivity || exact I | apply grows_refl]).
  destruct (VisitSequence_ VisitTagDispatch cur_rule_name_ elements b)
    as [[ids b1] |] eqn:Hrun; [| discriminate].
  intros H. injection H as <- <-. apply VisitSequence_normal in Hrun. exact Hrun.
Qed.

End NormalizerFacts.

Lemma nth_error_update_nth (A : Type) (g : A -> A) (l : list A) :
  forall i k,
    nth_error (update_nth i g l) k
    = if Nat.eqb k i then option_map g (nth_error l k) else nth_error l k.
Proof.
  induction l as [| x l IH]; intros i k.
  - destruct i, k; cbn; try reflexivity; destruct (Nat.eqb k i); reflexivity.
  - destruct i, k; cbn [update_nth nth_error Nat.eqb option_map]; try reflexivity.
    apply IH.
Qed.

Lemma length_update_nth (A : Type) (g : A -> A) (l : list A) :
  forall i, List.length (update_nth i g l) = List.length l.
Proof.
  induction l as [| x l IH]; intros i; destruct i; cbn [update_nth List.length];
    try reflexivity.
  now rewrite IH.
Qed.

Lemma loop_invariant_grows (n i : nat) (b b' : GrammarBuilder) :
  grows b b' -> loop_invariant n i b -> loop_invariant n i b'.
Proof.
  intros (added & Hrules & Hadded) [Hlen Hinv]. unfold loop_invariant. rewrite Hrules.
  split; [rewrite length_app; lia |].
  intros k r Hk. destruct (Nat.lt_ge_cases k (List.length (rules b))) as [Hlt | Hge].
  - rewrite nth_error_app1 in Hk by exact Hlt. apply Hinv. exact Hk.
  - rewrite nth_error_app2 in Hk by exact Hge. apply nth_error_In in Hk.
    rewrite forallb_forall in Hadded. apply Hadded in Hk.
    apply andb_true_iff in Hk. destruct Hk as [Hnorm Hbody]. split; [exact Hnorm | auto].
Qed.

Lemma loop_invariant_UpdateRuleBody (n i : nat) (b : GrammarBuilder) (body : GrammarExpr) :
  loop_invariant n i b -> normalized_body body = true ->
  loop_invariant n (S i) (UpdateRuleBody b i body).
Proof.
  intros [Hlen Hinv] Hbody. unfold loop_invariant, UpdateRuleBody. cbn [rules].
  rewrite length_update_nth. split; [exact Hlen |].
  intros k r. rewrite nth_error_update_nth.
  destruct (Nat.eqb k i) eqn:Hki.
  - destruct (nth_error (rules b) k) as [r0 |] eqn:Hk; [| discriminate].
    cbn [option_map]. intros H. injection H as <-.
    destruct (Hinv _ _ Hk) as [Hnorm _].
    unfold normalized_rule, has_body in *. cbn [body_expr lookahead_assertion].
    apply andb_true_iff in Hnorm. destruct Hnorm as [_ Hla].
    rewrite Hbody, Hla. split; reflexivity.
  - apply Nat.eqb_neq in Hki. intros Hk. destruct (Hinv _ _ Hk) as [Hnorm Hhas].
    split; [exact Hnorm |]. intros Hrange. apply Hhas. lia.
Qed.

Lemma loop_invariant_UpdateLookaheadAssertion (n i j : nat) (b : GrammarBuilder)
    (lookahead : option GrammarExpr) :
  loop_invariant n j b ->
  match lookahead with Some e => is_atom_sequence e = true | None => True end ->
  loop_invariant n j (UpdateLookaheadAssertion b i lookahead).
Proof.
  intros [Hlen Hinv] Hla. unfold loop_invariant, UpdateLookaheadAssertion. cbn [rules].
  rewrite length_update_nth. split; [exact Hlen |].
  intros k r. rewrite nth_error_update_nth.
  destruct (Nat.eqb k i) eqn:Hki; [| apply Hinv].
  destruct (nth_error (rules b) k) as [r0 |] eqn:Hk; [| discriminate].
  cbn [option_map]. intros H. injection H as <-.
  destruct (Hinv _ _ Hk) as [Hnorm Hhas].
  unfold normalized_rule, has_body in *. cbn [body_expr lookahead_assertion].
  apply andb_true_iff in Hnorm. destruct Hnorm as [Hbody _].
  split; [| exact Hhas]. rewrite Hbody. destruct lookahead; [exact Hla | reflexivity].
Qed.

Lemma normalize_rules_invariant (VisitTagDispatch : TagDispatch -> TagDispatch) (n : nat)
    (base_rules : list Rule) :
  forall (i : nat) (b b' : GrammarBuilder),
    loop_invariant n i b -> i + List.length base_rules = n ->
    normalize_rules VisitTagDispatch base_rules i b = Some b' ->
    loop_invariant n n b'.
Proof.
  induction base_rules as [| rule rest IH]; intros i b b' Hinv Hn; cbn [normalize_rules].
  - intros H. injection H as <-. cbn [List.length] in Hn.
    assert (Hi : i = n) by lia. subst i. exact Hinv.
  - destruct (body_expr rule) as [grammar_expr |]; [| discriminate].
    destruct (VisitRuleBody VisitTagDispatch (name rule) grammar_expr b)
      as [[new_body b1] |] eqn:Hbody; [| discriminate].
    apply VisitRuleBody_normal in Hbody. destruct Hbody as [Hnorm Hg1].
    destruct (VisitLookaheadAssertion VisitTagDispatch (name rule)
                (lookahead_assertion rule) (UpdateRuleBody b1 i new_body))
      as [[new_lookahead b3] |] eqn:Hla; [| discriminate].
    apply VisitLookaheadAssertion_normal in Hla. destruct Hla as [Hseq Hg3].
    apply IH; [| cbn [List.length] in Hn; lia].
    apply loop_invariant_UpdateLookaheadAssertion; [| exact Hseq].
    apply (loop_invariant_grows Hg3).
    apply loop_invariant_UpdateRuleBody; [| exact Hnorm].
    apply (loop_invariant_grows Hg1). exact Hinv.
Qed.

Lemma add_empty_rules_invariant (base_rules : list Rule) :
  loop_invariant (List.length base_rules) 0 (add_empty_rules base_rules).
Proof.
  unfold add_empty_rules.
  assert (H : forall b,
            let b' := fold_left (fun b rule => snd (AddEmptyRule b (name rule)))
                        base_rules b in
            forallb normalized_rule (rules b) = true ->
            List.length (rules b') = List.length (rules b) + List.length base_rules /\
            forallb normalized_rule (rules b') = true).
  { induction base_rules as [| r rest IH]; intros b; cbn [fold_left List.length].
    - intros Hb. split; [lia | exact Hb].
    - intros Hb.
      destruct (IH (snd (AddEmptyRule b (name r)))) as [Hlen Hall].
      + unfold AddEmptyRule, AddRule. cbn [snd rules]. rewrite forallb_app, Hb. reflexivity.
      + split; [| exact Hall]. rewrite Hlen. unfold AddEmptyRule, AddRule. cbn [snd rules].
        rewrite length_app. cbn [List.length]. lia. }
  destruct (H empty_builder eq_refl) as [Hlen Hall]. cbn [empty_builder rules List.length] in Hlen.
  split; [lia |].
  intros k r Hk. split.
  - rewrite forallb_forall in Hall. apply Hall. eapply nth_error_In. exact Hk.
  - intros [Hlt | Hge]; [lia |].
    assert (k < List.length (rules (fold_left
              (fun b rule => snd (AddEmptyRule b (name rule))) base_rules empty_builder))).
    { apply nth_error_Some. congruence. }
    lia.
Qed.

Lemma normalized_choices_children (children : list GrammarExpr) :
  normalized_choices children = true ->
  (forall c, In c children -> c = kEmptyStr \/ is_atom_sequence c = true) /\
  (forall k, nth_error children k = Some kEmptyStr -> k = 0).
Proof.
  destruct children as [| c rest]; intros Hnorm.
  - split; [intros c [] | intros [| k]; discriminate].
  - apply normalized_choices_tail in Hnorm. destruct Hnorm as [Hc Hrest].
    rewrite forallb_forall in Hrest. split.
    + intros x [<- | Hx]; [exact Hc | right; apply Hrest; exact Hx].
    + intros [| k] Hk; [reflexivity |]. cbn [nth_error] in Hk.
      apply nth_error_In in Hk. apply Hrest in Hk. discriminate.
Qed.

(** C8: in the grammar that the structure normalizer returns, every
    rule has a body; the body is a tag dispatch or a choices whose
    children are sequences of atoms or the empty string, the empty
    string only as the first child; and a look-ahead assertion is a
    sequence of atoms. *)
Theorem normalizer_invariant (VisitTagDispatch : TagDispatch -> TagDispatch)
    (SingleElementExprEliminator_Apply : Grammar -> Grammar)
    (grammar normalized : Grammar) (r : Rule) :
  Apply VisitTagDispatch SingleElementExprEliminator_Apply grammar = Some normalized ->
  In r (grammar_rules normalized) ->
  (exists body,
     body_expr r = Some body /\
     (is_tag_dispatch body = true \/
      exists children,
        body = kChoices children /\
        (forall c, In c children -> c = kEmptyStr \/ is_atom_sequence c = true) /\
        (forall k, nth_error children k = Some kEmptyStr -> k = 0))) /\
  (forall lookahead,
     lookahead_assertion r = Some lookahead -> is_atom_sequence lookahead = true).
Proof.
  unfold Apply. intros Hrun Hin.
  set (base := grammar_rules (SingleElementExprEliminator_Apply grammar)) in *.
  destruct (normalize_rules VisitTagDispatch base 0 (add_empty_rules base))
    as [b |] eqn:Hloop; [| discriminate].
  injection Hrun as <-. cbn [Get grammar_rules] in Hin.
  apply normalize_rules_invariant with (n := List.length base) in Hloop;
    [| apply add_empty_rules_invariant | reflexivity].
  destruct Hloop as [Hlen Hinv].
  apply In_nth_error in Hin. destruct Hin as [k Hk].
  destruct (Hinv _ _ Hk) as [Hnorm Hhas].
  assert (Hbody : has_body r = true) by (apply Hhas; lia).
  unfold normalized_rule in Hnorm. unfold has_body in Hbody.
  apply andb_true_iff in Hnorm. destruct Hnorm as [Hnb Hla]. split.
  - destruct (body_expr r) as [body |]; [| discriminate].
    exists body. split; [reflexivity |].
    destruct body; try discriminate; [right | left; reflexivity].
    exists elements. split; [reflexivity |]. apply normalized_choices_children. exact Hnb.
  - intros lookahead Heq. rewrite Heq in Hla. exact Hla.
Qed.

(** The theorem at the root rule of the normalized example grammar. *)
Lemma normalizer_invariant_witness :
  (exists body,
     body_expr sample_normalized_root = Some body /\
     (is_tag_dispatch body = true \/
      exists children,
        body = kChoices children /\
        (forall c, In c children -> c = kEmptyStr \/ is_atom_sequence c = true) /\
        (forall k, nth_error children k = Some kEmptyStr -> k = 0))) /\
  (forall lookahead,
     lookahead_assertion sample_normalized_root = Some lookahead ->
     is_atom_sequence lookahead = true).
Proof.
  apply (@normalizer_invariant (fun td => td) (fun g => g) sample_grammar sample_normalized).
  - reflexivity.
  - vm_compute. left. reflexivity.
Defined.

(** ** The Unicode ranges of the FSM builder *)

Import FSMBuilder.
Local Open Scope Z_scope.

Lemma uint8_shiftr_small (x n : Z) : 0 <= n -> 0 <= x < 2 ^ n -> uint8 (Z.shiftr x n) = 0.
Proof.
  intros Hn Hx. unfold uint8. rewrite Z.shiftr_div_pow2 by exact Hn.
  rewrite Z.div_small by exact Hx. reflexivity.
Qed.

Lemma land_ones_bound (x n : Z) : 0 <= n -> 0 <= Z.land x (Z.ones n) < 2 ^ n.
Proof.
  intros Hn. rewrite Z.land_ones by exact Hn. apply Z.mod_pos_bound. lia.
Qed.

Lemma same_length_S (d : nat) (fsm : FSM) (from to : nat) (min max : Z) :
  same_length (S d) fsm from to min max
  = if uint8 (Z.shiftr max 8) =? 0 then
      AddEdge fsm from to (uint8 (Z.land min 0xFF)) (uint8 (Z.land max 0xFF))
    else if negb (uint8 (Z.shiftr max 24) =? 0) then
      four_bytes (same_length d) fsm from to min max
    else if negb (uint8 (Z.shiftr max 16) =? 0) then
      three_bytes (same_length d) fsm from to min max
    else two_bytes (same_length d) fsm from to min max.
Proof. reflexivity. Qed.

Lemma same_length_depth_1 (d : nat) (fsm : FSM) (from to : nat) (min max : Z) :
  0 <= max < 2 ^ 8 ->
  same_length (S d) fsm from to min max = same_length 1 fsm from to min max.
Proof.
  intros Hmax. rewrite !same_length_S.
  rewrite (@uint8_shiftr_small max 8) by lia. reflexivity.
Qed.

Lemma two_bytes_ext (self1 self2 : FSM -> nat -> nat -> Z -> Z -> FSM) :
  (forall fsm from to min max, 0 <= max < 2 ^ 8 ->
     self1 fsm from to min max = self2 fsm from to min max) ->
  forall fsm from to min max,
    two_bytes self1 fsm from to min max = two_bytes self2 fsm from to min max.
Proof.
  intros Hself fsm from to min max. unfold two_bytes.
  assert (Hmask : forall x, 0 <= Z.land x 0x00FF < 2 ^ 8)
    by (intros x; apply (@land_ones_bound x 8); lia).
  unfold AddState.
  repeat match goal with
         | |- context [if ?c then _ else _] => destruct c; cbv beta iota zeta
         end;
    rewrite ?Hself by (first [apply Hmask | lia]); reflexivity.
Qed.

Lemma three_bytes_ext (self1 self2 : FSM -> nat -> nat -> Z -> Z -> FSM) :
  (forall fsm from to min max, 0 <= max < 2 ^ 16 ->
     self1 fsm from to min max = self2 fsm from to min max) ->
  forall fsm from to min max,
    three_bytes self1 fsm from to min max = three_bytes self2 fsm from to min max.
Proof.
  intros Hself fsm from to min max. unfold three_bytes.
  assert (Hmask : forall x, 0 <= Z.land x 0x00FFFF < 2 ^ 16)
    by (intros x; apply (@land_ones_bound x 16); lia).
  unfold AddState.
  repeat match goal with
         | |- context [if ?c then _ else _] => destruct c; cbv beta iota zeta
         end;
    rewrite ?Hself by (first [apply Hmask | lia]); reflexivity.
Qed.

Lemma four_bytes_ext (self1 self2 : FSM -> nat -> nat -> Z -> Z -> FSM) :
  (forall fsm from to min max, 0 <= max < 2 ^ 24 ->
     self1 fsm from to min max = self2 fsm from to min max) ->
  forall fsm from to min max,
    four_bytes self1 fsm from to min max = four_bytes self2 fsm from to min max.
Proof.
  intros Hself fsm from to min max. unfold four_bytes.
  assert (Hmask : forall x, 0 <= Z.land x 0x00FFFFFF < 2 ^ 24)
    by (intros x; apply (@land_ones_bound x 24); lia).
  unfold AddState.
  repeat match goal with
         | |- context [if ?c then _ else _] => destruct c; cbv beta iota zeta
         end;
    rewrite ?Hself by (first [apply Hmask | lia]); reflexivity.
Qed.

Lemma same_length_depth_2 (d : nat) (fsm : FSM) (from to : nat) (min max : Z) :
  0 <= max < 2 ^ 16 ->
  same_length (S (S d)) fsm from to min max = same_length 2 fsm from to min max.
Proof.
  intros Hmax. rewrite (same_length_S (S d)), (same_length_S 1).
  destruct (uint8 (Z.shiftr max 8) =? 0); [reflexivity |].
  rewrite (@uint8_shiftr_small max 24), (@uint8_shiftr_small max 16) by lia.
  cbn [Z.eqb negb].
  apply two_bytes_ext. intros f a b lo hi Hhi.
  rewrite same_length_depth_1 by exact Hhi. reflexivity.
Qed.

Lemma same_length_depth_3 (d : nat) (fsm : FSM) (from to : nat) (min max : Z) :
  0 <= max < 2 ^ 24 ->
  same_length (S (S (S d))) fsm from to min max = same_length 3 fsm from to min max.
Proof.
  intros Hmax. rewrite (same_length_S (S (S d))), (same_length_S 2).
  destruct (uint8 (Z.shiftr max 8) =? 0); [reflexivity |].
  rewrite (@uint8_shiftr_small max 24) by lia. cbn [Z.eqb negb].
  destruct (negb (uint8 (Z.shiftr max 16) =? 0)).
  - apply three_bytes_ext. intros f a b lo hi Hhi.
    rewrite same_length_depth_2 by exact Hhi. reflexivity.
  - apply two_bytes_ext. intros f a b lo hi Hhi.
    rewrite (@same_length_depth_1 (S d)), (@same_length_depth_1 1) by exact Hhi.
    reflexivity.
Qed.

(** Four levels are enough for 32-bit bounds. *)
Lemma same_length_depth_4 (d : nat) (fsm : FSM) (from to : nat) (min max : Z) :
  0 <= max < 2 ^ 32 ->
  same_length (4 + d) fsm from to min max = AddSameLengthCharacterRange fsm from to min max.
Proof.
  intros Hmax. unfold AddSameLengthCharacterRange.
  change (4 + d)%nat with (S (S (S (S d)))).
  rewrite (same_length_S (S (S (S d)))), (same_length_S 3).
  destruct (uint8 (Z.shiftr max 8) =? 0); [reflexivity |].
  destruct (negb (uint8 (Z.shiftr max 24) =? 0)).
  - apply four_bytes_ext. intros f a b lo hi Hhi.
    rewrite same_length_depth_3 by exact Hhi. reflexivity.
  - destruct (negb (uint8 (Z.shiftr max 16) =? 0)).
    + apply three_bytes_ext. intros f a b lo hi Hhi.
      rewrite (@same_length_depth_2 (S d)), (@same_length_depth_2 1) by exact Hhi.
      reflexivity.
    + apply two_bytes_ext. intros f a b lo hi Hhi.
      rewrite (@same_length_depth_1 (S (S d))), (@same_length_depth_1 2) by exact Hhi.
      reflexivity.
Qed.

(** A slip that the one call of [AddCharacterRange] does not reach: the
    three-byte case of [AddSameLengthCharacterRange] with different first
    bytes, on the range U+1000..U+2420.  Its bounds encode as E1 80 80 and
    E2 90 A0.  Of the code points of the range, the automaton accepts
    the encodings of all but U+2000..U+23FF, the code points under the
    last first byte E2 whose second byte is below that of the upper
    bound; U+2140 is one of them.  The mirror case of the lower bound
    and the same case with two bytes are accepted.  Given the code
    points themselves as bounds, the automaton rejects U+2140 too. *)
Lemma three_byte_range_drops_code_points :
  packed (utf8_encoding 0x1000) = 0xE18080 /\
  packed (utf8_encoding 0x2420) = 0xE290A0 /\
  forallb
    (fun cp =>
       Bool.eqb (accepted_by U1000_to_U2420 (utf8_encoding cp))
         (negb ((0x2000 <=? cp) && (cp <=? 0x23FF))))
    (code_points 0x1000 0x2420) = true /\
  accepted_by U1000_to_U2420 (utf8_encoding 0x2140) = false /\
  accepted_by U1420_to_U2FFF (utf8_encoding 0x1800) = true /\
  accepted_by U0080_to_U00E0 (utf8_encoding 0xC5) = true /\
  accepted_by (AddCharacterRange two_states 0 1 0x1000 0x2420) (utf8_encoding 0x2140) = false.
Proof. vm_compute. repeat split. Qed.

(** ** json_schema_converter.cc: the cache key and the numeric ranges *)

Local Open Scope Q_scope.
Import SchemaParserMeaning.

Import Picojson.
Import Lowering.
Import SchemaParser.
Local Open Scope string_scope.
Local Open Scope list_scope.

(** Induction on a JSON value through its arrays and objects. *)
Fixpoint value_nested_ind (P : value -> Prop)
    (Hnull : P JNull) (Hbool : forall b, P (JBool b)) (Hint : forall z, P (JInt64 z))
    (Hdouble : forall d, P (JDouble d)) (Hstring : forall s, P (JString s))
    (Harray : forall items, Forall P items -> P (JArray items))
    (Hobject : forall members, Forall (fun kv => P (snd kv)) members -> P (JObject members))
    (v : value) {struct v} : P v :=
  match v with
  | JNull => Hnull
  | JBool b => Hbool b
  | JInt64 z => Hint z
  | JDouble d => Hdouble d
  | JString s => Hstring s
  | JArray items =>
      Harray items
        ((fix go (l : list value) : Forall P l :=
            match l with
            | [] => Forall_nil P
            | x :: rest =>
                Forall_cons x
                  (value_nested_ind Hnull Hbool Hint Hdouble Hstring Harray Hobject x)
                  (go rest)
            end) items)
  | JObject members =>
      Hobject members
        ((fix go (l : list (string * value)) : Forall (fun kv => P (snd kv)) l :=
            match l with
            | [] => Forall_nil _
            | x :: rest =>
                @Forall_cons _ (fun kv => P (snd kv)) x rest
                  (value_nested_ind Hnull Hbool Hint Hdouble Hstring Harray Hobject (snd x))
                  (go rest)
            end) members)
  end.

Section CacheKeyFacts.

Variable Compound : Type.
Variable serialize : value -> string.

Local Abbreviation kept :=
  (fun e : string * string => negb (existsb (String.eqb (fst e)) kSkippedKeys)).

(** X5: the cache key of a schema does not change when the members
    named "title", "default", "description", "examples", "deprecated",
    "readOnly", "writeOnly", "$comment" and "$schema" are removed from
    it and from the schemas nested in it. *)
Theorem ComputeCacheKey_ignores_metadata : forall schema,
  ComputeCacheKey serialize (strip_metadata schema) = ComputeCacheKey serialize schema.
Proof.
  induction schema using value_nested_ind; try reflexivity.
  - cbn [strip_metadata ComputeCacheKey]. do 2 f_equal. f_equal.
    induction items as [| x rest IH]; [reflexivity |].
    inversion H as [| ? ? Hx Hrest]; subst. cbn [map]. rewrite Hx, (IH Hrest). reflexivity.
  - cbn [strip_metadata ComputeCacheKey]. do 2 f_equal. do 3 f_equal.
    induction members as [| [k v] rest IH]; [reflexivity |].
    inversion H as [| ? ? Hx Hrest]; subst. cbn [snd] in Hx.
    cbn [filter fst]. destruct (existsb (String.eqb k) kSkippedKeys) eqn:Hk.
    + cbn [negb]. apply IH, Hrest.
    + cbn [negb filter fst]. rewrite Hk. cbn [negb]. rewrite Hx, (IH Hrest). reflexivity.
Qed.

Lemma cache_find_set (key : string) (v : SchemaSpec Compound) (cache : SchemaCache Compound) :
  cache_find key (cache_set key v cache) = Some v.
Proof.
  induction cache as [| [k old] rest IH]; cbn [cache_set cache_find].
  - rewrite String.eqb_refl. reflexivity.
  - destruct (String.eqb k key) eqn:Hk; cbn [cache_find]; rewrite Hk; [reflexivity | exact IH].
Qed.

Lemma cache_find_set_other (key key' : string) (v : SchemaSpec Compound)
    (cache : SchemaCache Compound) :
  key' <> key -> cache_find key' (cache_set key v cache) = cache_find key' cache.
Proof.
  intros Hne. induction cache as [| [k old] rest IH]; cbn [cache_set cache_find].
  - destruct (String.eqb key key') eqn:Hk; [| reflexivity].
    apply String.eqb_eq in Hk. congruence.
  - destruct (String.eqb k key) eqn:Hk; cbn [cache_find].
    + apply String.eqb_eq in Hk. subst k.
      destruct (String.eqb key key') eqn:Hk'; [| reflexivity].
      apply String.eqb_eq in Hk'. congruence.
    + rewrite IH. reflexivity.
Qed.

Variable ParseCompound :
  CompoundKind -> list (string * value) -> string -> SchemaCache Compound
  -> option (Result Compound SchemaError) * SchemaCache Compound.

(** X6: once a schema is parsed, every schema with the same cache key
    is answered from the cache: the spec of the first parse is returned,
    with its rule name hint and whatever the default type, and the
    cache is left as it is. *)
Theorem Parse_twice_returns_the_cached_spec :
  forall schema hint default_type cache made cache' schema' hint' default_type',
  Parse serialize ParseCompound schema hint default_type cache
    = (Some (ResultOk made), cache') ->
  ComputeCacheKey serialize schema' = ComputeCacheKey serialize schema ->
  Parse serialize ParseCompound schema' hint' default_type' cache'
    = (Some (ResultOk made), cache').
Proof.
  intros schema hint default_type cache made cache' schema' hint' default_type' Hfirst Hkey.
  assert (Hfound : cache_find (ComputeCacheKey serialize schema) cache' = Some made).
  { unfold Parse in Hfirst.
    destruct (cache_find (ComputeCacheKey serialize schema) cache) as [cached |] eqn:Hc.
    - inversion Hfirst; subst. exact Hc.
    - destruct schema as [| [|] | | | | |]; try discriminate.
      + inversion Hfirst; subst. apply cache_find_set.
      + destruct (parse_object serialize ParseCompound members hint default_type cache)
          as [[[result | e] |] c1]; try discriminate.
        inversion Hfirst; subst. apply cache_find_set. }
  unfold Parse. rewrite Hkey, Hfound. reflexivity.
Qed.

End CacheKeyFacts.

Lemma Parse_twice_returns_the_cached_spec_witness :
  let first := sample_parse plain_boolean in
  fst first
    = Some (ResultOk (Make BooleanSpec (sample_key plain_boolean) "root")) /\
  Parse sample_serialize sample_compound described_boolean "other" (Some "integer") (snd first)
    = (Some (ResultOk (Make BooleanSpec (sample_key plain_boolean) "root")), snd first).
Proof.
  split; [reflexivity |].
  apply (@Parse_twice_returns_the_cached_spec unit sample_serialize sample_compound
           plain_boolean "root" None [] _ _ described_boolean "other" (Some "integer"));
    reflexivity.
Defined.

(** *** The ranges of [ParseInteger] and [ParseNumber] *)

Lemma read_bound_bound_of {T} (convert : value -> option (Result T SchemaError))
    (key : string) (schema : list (string * value)) :
  readable convert key schema = true ->
  read_bound convert key schema = Some (ResultOk (bound_of convert key schema)).
Proof.
  unfold readable, bound_of.
  destruct (read_bound convert key schema) as [[b | e] |]; try discriminate. reflexivity.
Qed.

Lemma whole_double_in_int64 (val : Q) :
  Qeq_bool val (inject_Z (Qfloor val)) = true ->
  Qle_bool val (inject_Z (2 ^ 63)) = true ->
  Qle_bool (inject_Z (- 2 ^ 63)) val = true ->
  Qeq_bool val (inject_Z (2 ^ 63)) = false ->
  in_int64 (Qfloor val).
Proof.
  intros Hwhole Hle Hge Hne.
  apply Qeq_bool_iff in Hwhole. apply Qle_bool_iff in Hle. apply Qle_bool_iff in Hge.
  rewrite Hwhole in Hle, Hge. rewrite <- Zle_Qle in Hle, Hge.
  assert (Qfloor val <> 2 ^ 63)%Z.
  { intros Heq. rewrite <- Heq in Hne. apply Qeq_bool_iff in Hwhole. congruence. }
  unfold in_int64, kInt64Min, kInt64Max. lia.
Qed.

Lemma integer_bound_in_int64 (key : string) (schema : list (string * value)) (b : Z) :
  integer_bound_given key schema = true ->
  bound_of checkAndConvertIntegerBound key schema = Some b -> in_int64 b.
Proof.
  unfold integer_bound_given, bound_of, readable, read_bound.
  intros Hgiven Hb. apply andb_prop in Hgiven. destruct Hgiven as [_ Hrange].
  destruct (find key schema) as [v |]; [| discriminate].
  destruct v as [| | z | val | | |]; cbn [checkAndConvertIntegerBound] in Hb;
    try discriminate.
  - inversion Hb; subst. apply andb_prop in Hrange. unfold in_int64. lia.
  - destruct (Qeq_bool val (inject_Z (Qfloor val))) eqn:Hwhole; cbn [negb] in Hb;
      [| discriminate].
    destruct (Qeq_bool val (inject_Z (- 2 ^ 63))) eqn:Hmin; [discriminate |].
    destruct (Qeq_bool val (inject_Z (2 ^ 63))) eqn:Hmax; [discriminate |].
    destruct (Qle_bool val (inject_Z (2 ^ 63))) eqn:Hle; cbn [negb] in Hb; [| discriminate].
    destruct (Qle_bool (inject_Z (- 2 ^ 63)) val) eqn:Hge; cbn [negb] in Hb; [| discriminate].
    inversion Hb; subst. apply whole_double_in_int64; assumption.
Qed.

Local Ltac inside_bounds x :=
  solve [exists x; repeat split; try (intros ? [= <-]); try discriminate; lia].

(** X7: when the four bounds of an integer schema are absent or read
    without an error, [ParseInteger] reports an unsatisfiable schema
    exactly when no [int64_t] lies inside them, and returns the bounds
    as they are otherwise. *)
Theorem ParseInteger_decides_the_empty_range (schema : list (string * value)) :
  integer_bounds_given schema = true ->
  ((exists x, integer_admits (integer_bounds schema) x) /\
   ParseInteger schema = Some (ResultOk (integer_bounds schema))) \/
  ((forall x, ~ integer_admits (integer_bounds schema) x) /\
   error_kind (ParseInteger schema) = Some kUnsatisfiableSchema).
Proof.
  unfold integer_bounds_given. intros Hgiven.
  apply andb_prop in Hgiven. destruct Hgiven as [Hgiven G4].
  apply andb_prop in Hgiven. destruct Hgiven as [Hgiven G3].
  apply andb_prop in Hgiven. destruct Hgiven as [G1 G2].
  assert (Hlo := @integer_bound_in_int64 "minimum" schema).
  assert (Hhi := @integer_bound_in_int64 "maximum" schema).
  assert (Hxlo := @integer_bound_in_int64 "exclusiveMinimum" schema).
  assert (Hxhi := @integer_bound_in_int64 "exclusiveMaximum" schema).
  unfold ParseInteger, integer_bounds.
  rewrite !read_bound_bound_of
    by (match goal with H : integer_bound_given ?k _ = true |- readable _ ?k _ = true =>
          unfold integer_bound_given in H; apply andb_prop in H; apply H end).
  destruct (bound_of checkAndConvertIntegerBound "minimum" schema) as [lo |];
  destruct (bound_of checkAndConvertIntegerBound "maximum" schema) as [hi |];
  destruct (bound_of checkAndConvertIntegerBound "exclusiveMinimum" schema) as [xlo |];
  destruct (bound_of checkAndConvertIntegerBound "exclusiveMaximum" schema) as [xhi |];
  repeat match goal with
  | H : forall b, integer_bound_given ?k schema = true -> Some ?z = Some b -> _ |- _ =>
      specialize (H z ltac:(assumption) eq_refl)
  | H : forall b, integer_bound_given ?k schema = true -> None = Some b -> _ |- _ =>
      clear H
  end;
  unfold in_int64, kInt64Min, kInt64Max in *; cbn [value_or];
  repeat match goal with
  | |- context [(?a =? ?b)%Z] => destruct (Z.eqb_spec a b)
  | |- context [(?a >? ?b)%Z] => destruct (Z.gtb_spec a b)
  end;
  unfold integer_admits, in_int64, kInt64Min, kInt64Max; cbn [int_minimum int_maximum
    int_exclusive_minimum int_exclusive_maximum error_kind unsatisfiable error_type];
  first
    [ right; split; [| reflexivity];
      intros x (Hx & H1 & H2 & H3 & H4);
      try specialize (H1 _ eq_refl); try specialize (H2 _ eq_refl);
      try specialize (H3 _ eq_refl); try specialize (H4 _ eq_refl); lia
    | left; split; [| reflexivity];
      first
        [ inside_bounds (Z.max lo (xlo + 1)) | inside_bounds lo | inside_bounds (xlo + 1)%Z
        | inside_bounds (Z.min hi (xhi - 1)) | inside_bounds hi | inside_bounds (xhi - 1)%Z
        | inside_bounds 0%Z ] ].
Qed.

Lemma ParseInteger_decides_the_empty_range_witness :
  integer_bounds_given integer_2_to_9 = true /\
  (((exists x, integer_admits (integer_bounds integer_2_to_9) x) /\
    ParseInteger integer_2_to_9 = Some (ResultOk (integer_bounds integer_2_to_9))) \/
   ((forall x, ~ integer_admits (integer_bounds integer_2_to_9) x) /\
    error_kind (ParseInteger integer_2_to_9) = Some kUnsatisfiableSchema)).
Proof.
  split; [reflexivity |].
  apply (@ParseInteger_decides_the_empty_range integer_2_to_9). reflexivity.
Defined.

Local Ltac between_bounds x :=
  solve [exists x; repeat split; try (intros ? [= <-]); try discriminate; lra].

(** X8: when the four bounds of a number schema are absent or read
    without an error, [ParseNumber] reports an unsatisfiable schema
    exactly when no number lies inside them with the exclusive bounds
    taken as inclusive ones, and returns the bounds as they are
    otherwise. *)
Theorem ParseNumber_decides_the_closed_range (schema : list (string * value)) :
  number_bounds_given schema = true ->
  ((exists x, number_admits_closed (number_bounds schema) x) /\
   ParseNumber schema = Some (ResultOk (number_bounds schema))) \/
  ((forall x, ~ number_admits_closed (number_bounds schema) x) /\
   error_kind (ParseNumber schema) = Some kUnsatisfiableSchema).
Proof.
  unfold number_bounds_given. intros Hgiven.
  apply andb_prop in Hgiven. destruct Hgiven as [Hgiven G4].
  apply andb_prop in Hgiven. destruct Hgiven as [Hgiven G3].
  apply andb_prop in Hgiven. destruct Hgiven as [G1 G2].
  unfold ParseNumber, number_bounds.
  rewrite !read_bound_bound_of by assumption.
  destruct (bound_of getDouble "minimum" schema) as [lo |];
  destruct (bound_of getDouble "maximum" schema) as [hi |];
  destruct (bound_of getDouble "exclusiveMinimum" schema) as [xlo |];
  destruct (bound_of getDouble "exclusiveMaximum" schema) as [xhi |];
  unfold double_max, double_min; cbn [double_ltb];
  repeat match goal with
  | |- context [Qle_bool ?a ?b] =>
      let H := fresh "Hcmp" in
      destruct (Qle_bool a b) eqn:H;
      [apply Qle_bool_iff in H
      | assert (b < a)%Q by (apply Qnot_le_lt; intros Hle; apply Qle_bool_iff in Hle; congruence);
        clear H];
      cbn [negb double_ltb]
  end;
  unfold number_admits_closed; cbn [num_minimum num_maximum num_exclusive_minimum
    num_exclusive_maximum error_kind unsatisfiable error_type];
  first
    [ right; split; [| reflexivity];
      intros x (B1 & B2 & B3 & B4);
      try specialize (B1 _ eq_refl); try specialize (B2 _ eq_refl);
      try specialize (B3 _ eq_refl); try specialize (B4 _ eq_refl); lra
    | left; split; [| reflexivity];
      try (destruct (Qlt_le_dec lo xlo)); try (destruct (Qlt_le_dec hi xhi));
      first
        [ between_bounds lo | between_bounds xlo | between_bounds hi | between_bounds xhi
        | between_bounds 0%Q ] ].
Qed.

Lemma ParseNumber_decides_the_closed_range_witness :
  number_bounds_given number_3_to_3 = true /\
  (((exists x, number_admits_closed (number_bounds number_3_to_3) x) /\
    ParseNumber number_3_to_3 = Some (ResultOk (number_bounds number_3_to_3))) \/
   ((forall x, ~ number_admits_closed (number_bounds number_3_to_3) x) /\
    error_kind (ParseNumber number_3_to_3) = Some kUnsatisfiableSchema)).
Proof.
  split; [reflexivity |].
  apply (@ParseNumber_decides_the_closed_range number_3_to_3). reflexivity.
Defined.

(** ** grammar_functor.cc: what the structure normalizer keeps *)

Local Close Scope Q_scope.
Import NormalizerMeaning.

Import GrammarIR.
Import Builder.
Import StructureNormalizer.
Local Open Scope nat_scope.
Local Open Scope list_scope.

Section NormalizerFixedPoint.

Variable VisitTagDispatch : TagDispatch -> TagDispatch.
Variable cur_rule_name_ : string.

Lemma in_sequence_atom (e : GrammarExpr) (b : GrammarBuilder) :
  is_atom e = true -> in_sequence VisitTagDispatch cur_rule_name_ e b = Some ([e], b).
Proof. destruct e; try discriminate; reflexivity. Qed.

Lemma VisitSequence_atoms (elements : list GrammarExpr) (b : GrammarBuilder) :
  forallb is_atom elements = true ->
  VisitSequence_ VisitTagDispatch cur_rule_name_ elements b = Some (elements, b).
Proof.
  unfold VisitSequence_. induction elements as [| e rest IH]; [reflexivity |].
  cbn [forallb visit_each]. intros H. apply andb_prop in H. destruct H as [He Hrest].
  rewrite (@in_sequence_atom _ _ He), (IH Hrest). reflexivity.
Qed.

Lemma in_choices_filled (e : GrammarExpr) (b : GrammarBuilder) :
  is_filled_atom_sequence e = true ->
  in_choices VisitTagDispatch cur_rule_name_ e b = Some (([e], false), b).
Proof.
  destruct e as [| | | | | elements | | |]; try discriminate.
  destruct elements as [| first rest]; [discriminate |].
  cbn [is_filled_atom_sequence]. intros H.
  rewrite in_choices_sequence, (@VisitSequence_atoms _ _ H). reflexivity.
Qed.

Lemma visit_each_filled (children : list GrammarExpr) (b : GrammarBuilder) :
  forallb is_filled_atom_sequence children = true ->
  visit_each (in_choices VisitTagDispatch cur_rule_name_) ([], false) join_choices children b
  = Some ((children, false), b).
Proof.
  induction children as [| e rest IH]; [reflexivity |].
  cbn [forallb visit_each]. intros H. apply andb_prop in H. destruct H as [He Hrest].
  rewrite (@in_choices_filled _ _ He), (IH Hrest). reflexivity.
Qed.

Lemma visit_each_empty_first (rest : list GrammarExpr) (b : GrammarBuilder) :
  visit_each (in_choices VisitTagDispatch cur_rule_name_) ([], false) join_choices
    (kEmptyStr :: rest) b
  = match visit_each (in_choices VisitTagDispatch cur_rule_name_) ([], false) join_choices
            rest b with
    | None => None
    | Some (ids', b2) => Some (join_choices ([], true) ids', b2)
    end.
Proof. reflexivity. Qed.

(** X9: a body that is already a choices in normal form, with no empty
    sequence among its children, is returned as it is, and no rule is
    added for it; the same holds of a look-ahead assertion that is a
    sequence of atoms. *)
Theorem normal_forms_are_fixed (children atoms : list GrammarExpr) (b : GrammarBuilder) :
  filled_choices children = true ->
  forallb is_atom atoms = true ->
  VisitRuleBody VisitTagDispatch cur_rule_name_ (kChoices children) b
    = Some (kChoices children, b) /\
  VisitLookaheadAssertion VisitTagDispatch cur_rule_name_ (Some (kSequence atoms)) b
    = Some (Some (kSequence atoms), b).
Proof.
  intros Hchildren Hatoms. split.
  - unfold VisitRuleBody, VisitChoices_.
    destruct children as [| first rest]; [discriminate |].
    assert (Hcases : (first = kEmptyStr /\ forallb is_filled_atom_sequence rest = true) \/
                     forallb is_filled_atom_sequence (first :: rest) = true).
    { destruct first; auto. }
    destruct Hcases as [[-> Hrest] | Hall].
    + rewrite visit_each_empty_first, (@visit_each_filled _ _ Hrest). reflexivity.
    + rewrite (@visit_each_filled _ _ Hall). reflexivity.
  - unfold VisitLookaheadAssertion. rewrite (@VisitSequence_atoms _ _ Hatoms). reflexivity.
Qed.

End NormalizerFixedPoint.

Section NormalizerLanguage.

Variable VisitTagDispatch : TagDispatch -> TagDispatch.
Variable cur_rule_name_ : string.
Variable rule_lang : nat -> list Z -> Prop.
Variable atom_lang : GrammarExpr -> list Z -> Prop.
Variable tag_lang : TagDispatch -> list Z -> Prop.
Hypothesis VisitTagDispatch_keeps :
  forall td w, tag_lang (VisitTagDispatch td) w <-> tag_lang td w.

Local Abbreviation in_sequence' := (in_sequence VisitTagDispatch cur_rule_name_).
Local Abbreviation in_choices' := (in_choices VisitTagDispatch cur_rule_name_).
Local Abbreviation matches' := (matches rule_lang atom_lang tag_lang).
Local Abbreviation matches_all' := (matches_all rule_lang atom_lang tag_lang).
Local Abbreviation matches_any' := (matches_any rule_lang atom_lang tag_lang).
Local Abbreviation interprets' := (interprets rule_lang atom_lang tag_lang).

Lemma matches_sequence (elements : list GrammarExpr) (w : list Z) :
  matches' (kSequence elements) w = matches_all' elements w.
Proof. reflexivity. Qed.

Lemma matches_choices (elements : list GrammarExpr) (w : list Z) :
  matches' (kChoices elements) w = matches_any' elements w.
Proof. revert w. induction elements as [| x rest IH]; intros w; [reflexivity |].
  cbn [matches_any]. rewrite <- IH. reflexivity. Qed.

Lemma matches_all_app (l1 l2 : list GrammarExpr) (w : list Z) :
  matches_all' (l1 ++ l2) w <->
  exists u v, w = u ++ v /\ matches_all' l1 u /\ matches_all' l2 v.
Proof.
  revert w. induction l1 as [| x rest IH]; intros w; cbn [app matches_all].
  - split.
    + intros H. exists [], w. auto.
    + intros (u & v & -> & -> & H). exact H.
  - split.
    + intros (u & v & -> & Hx & Hrest). apply IH in Hrest.
      destruct Hrest as (u1 & v1 & -> & H1 & H2).
      exists (u ++ u1), v1. split; [apply app_assoc |]. split; [| exact H2].
      exists u, u1. auto.
    + intros (u & v & -> & (u1 & v1 & -> & Hx & H1) & H2).
      exists u1, (v1 ++ v). split; [symmetry; apply app_assoc |]. split; [exact Hx |].
      apply IH. exists v1, v. auto.
Qed.

Lemma matches_any_app (l1 l2 : list GrammarExpr) (w : list Z) :
  matches_any' (l1 ++ l2) w <-> matches_any' l1 w \/ matches_any' l2 w.
Proof.
  induction l1 as [| x rest IH]; cbn [app matches_any]; [tauto |]. rewrite IH. tauto.
Qed.

Lemma matches_all_single (e : GrammarExpr) (w : list Z) :
  matches_all' [e] w <-> matches' e w.
Proof.
  cbn [matches_all]. split.
  - intros (u & v & -> & H & ->). rewrite app_nil_r. exact H.
  - intros H. exists w, []. rewrite app_nil_r. auto.
Qed.

Lemma grows_length (b b' : GrammarBuilder) :
  grows b b' -> List.length (rules b) <= List.length (rules b').
Proof. intros (added & -> & _). rewrite length_app. lia. Qed.

Lemma grows_nth_error (b b' : GrammarBuilder) (k : nat) (r : Rule) :
  grows b b' -> nth_error (rules b) k = Some r -> nth_error (rules b') k = Some r.
Proof.
  intros (added & -> & _) H. rewrite nth_error_app1; [exact H |].
  apply nth_error_Some. congruence.
Qed.

Lemma interprets_split (b b1 b2 : GrammarBuilder) :
  grows b b1 -> grows b1 b2 -> interprets' b b2 -> interprets' b b1 /\ interprets' b1 b2.
Proof.
  intros H1 H2 Hall. split; intros k r body Hk Hr Hbody.
  - apply (Hall k r body Hk); [eapply grows_nth_error; eauto | exact Hbody].
  - apply (Hall k r body); [apply grows_length in H1; lia | exact Hr | exact Hbody].
Qed.

Lemma in_sequence_grows (e : GrammarExpr) (b : GrammarBuilder) (ids : list GrammarExpr)
    (b' : GrammarBuilder) :
  in_sequence' e b = Some (ids, b') -> grows b b'.
Proof. intros H. apply (proj1 (steps_ok VisitTagDispatch cur_rule_name_ e)) in H. apply H. Qed.

Lemma in_choices_grows (e : GrammarExpr) (b : GrammarBuilder) (ids : list GrammarExpr)
    (found : bool) (b' : GrammarBuilder) :
  in_choices' e b = Some ((ids, found), b') -> grows b b'.
Proof. intros H. apply (proj2 (steps_ok VisitTagDispatch cur_rule_name_ e)) in H. apply H. Qed.

Lemma visit_each_sequence_grows (elements : list GrammarExpr) (b : GrammarBuilder)
    (ids : list GrammarExpr) (b' : GrammarBuilder) :
  visit_each in_sequence' [] (@app GrammarExpr) elements b = Some (ids, b') -> grows b b'.
Proof.
  intros H. eapply visit_each_sequence_ok in H; [apply H |].
  apply Forall_forall. intros e _. apply steps_ok.
Qed.

Lemma visit_each_choices_grows (elements : list GrammarExpr) (b : GrammarBuilder)
    (ids : list GrammarExpr) (found : bool) (b' : GrammarBuilder) :
  visit_each in_choices' ([], false) join_choices elements b = Some ((ids, found), b') ->
  grows b b'.
Proof.
  intros H. eapply visit_each_choices_ok in H; [apply H |].
  apply Forall_forall. intros e _. apply steps_ok.
Qed.

Local Abbreviation sequence_step_keeps :=
  (sequence_step_keeps VisitTagDispatch cur_rule_name_ rule_lang atom_lang tag_lang).
Local Abbreviation choices_step_keeps :=
  (choices_step_keeps VisitTagDispatch cur_rule_name_ rule_lang atom_lang tag_lang).

Lemma visit_each_sequence_keeps (elements : list GrammarExpr) :
  Forall sequence_step_keeps elements ->
  forall b ids b',
    visit_each in_sequence' [] (@app GrammarExpr) elements b = Some (ids, b') ->
    interprets' b b' ->
    forall w, matches_all' ids w <-> matches_all' elements w.
Proof.
  induction 1 as [| e rest He _ IH]; intros b ids b' Hrun Hint w; cbn [visit_each] in Hrun.
  - injection Hrun as <- <-. tauto.
  - destruct (in_sequence' e b) as [[ids1 b1] |] eqn:H1; [| discriminate].
    destruct (visit_each in_sequence' [] (@app GrammarExpr) rest b1) as [[ids2 b2] |] eqn:H2;
      [| discriminate].
    injection Hrun as <- <-.
    destruct (@interprets_split b b1 b2 (in_sequence_grows _ _ H1)
                (visit_each_sequence_grows _ _ H2) Hint) as [Hint1 Hint2].
    rewrite matches_all_app. cbn [matches_all].
    split; intros (u & v & -> & Hu & Hv); exists u, v; (split; [reflexivity |]); split;
      first [apply (He _ _ _ H1 Hint1); assumption | apply (IH _ _ _ H2 Hint2); assumption].
Qed.

Lemma visit_each_choices_keeps (elements : list GrammarExpr) :
  Forall choices_step_keeps elements ->
  forall b ids found b',
    visit_each in_choices' ([], false) join_choices elements b = Some ((ids, found), b') ->
    interprets' b b' ->
    forall w, (matches_any' ids w \/ (found = true /\ w = [])) <-> matches_any' elements w.
Proof.
  induction 1 as [| e rest He _ IH]; intros b ids found b' Hrun Hint w;
    cbn [visit_each] in Hrun.
  - injection Hrun as <- <- <-. cbn [matches_any]. intuition discriminate.
  - destruct (in_choices' e b) as [[[ids1 f1] b1] |] eqn:H1; [| discriminate].
    destruct (visit_each in_choices' ([], false) join_choices rest b1)
      as [[[ids2 f2] b2] |] eqn:H2; [| discriminate].
    unfold join_choices in Hrun. cbn [fst snd] in Hrun. injection Hrun as <- <- <-.
    destruct (@interprets_split b b1 b2 (in_choices_grows _ _ H1)
                (visit_each_choices_grows _ _ H2) Hint) as [Hint1 Hint2].
    rewrite matches_any_app. cbn [matches_any].
    rewrite <- (He _ _ _ _ H1 Hint1 w), <- (IH _ _ _ _ H2 Hint2 w).
    rewrite orb_true_iff. tauto.
Qed.

Lemma new_rule_matches (b b1 b' : GrammarBuilder) (hint : string) (body : GrammarExpr)
    (id : nat) (w : list Z) :
  grows b b1 -> AddRuleWithHint b1 hint body = (id, b') -> interprets' b b' ->
  rule_lang id w <-> matches' body w.
Proof.
  unfold AddRuleWithHint, AddRule. intros Hgrows Hadd Hint. injection Hadd as <- <-.
  apply (Hint (List.length (rules b1)) (mkRule (GetNewRuleName b1 hint) (Some body) None false)).
  - apply grows_length, Hgrows.
  - cbn [rules]. rewrite nth_error_app2 by lia. rewrite Nat.sub_diag. reflexivity.
  - reflexivity.
Qed.

Lemma finish_choices_keeps (ids0 : list GrammarExpr) (found : bool) (b0 : GrammarBuilder)
    (ids : list GrammarExpr) (b' : GrammarBuilder) (w : list Z) :
  finish_choices (Some ((ids0, found), b0)) = Some (ids, b') ->
  b' = b0 /\ (matches_any' ids w <-> (matches_any' ids0 w \/ (found = true /\ w = []))).
Proof.
  unfold finish_choices. destruct found.
  - intros H. injection H as <- <-. split; [reflexivity |]. cbn [matches_any matches].
    intuition.
  - destruct ids0 as [| c rest]; [discriminate |]. intros H. injection H as <- <-.
    split; [reflexivity |]. intuition discriminate.
Qed.

Lemma VisitChoices_keeps (elements : list GrammarExpr) :
  Forall choices_step_keeps elements ->
  forall b ids b',
    VisitChoices_ VisitTagDispatch cur_rule_name_ elements b = Some (ids, b') ->
    interprets' b b' ->
    grows b b' /\ forall w, matches_any' ids w <-> matches_any' elements w.
Proof.
  intros Hall b ids b' Hrun Hint. unfold VisitChoices_ in Hrun.
  destruct (visit_each in_choices' ([], false) join_choices elements b)
    as [[[ids0 found] b0] |] eqn:Hloop; [| discriminate].
  destruct (@finish_choices_keeps _ _ _ _ _ [] Hrun) as [-> _].
  split; [eapply visit_each_choices_grows; eauto |].
  intros w. destruct (@finish_choices_keeps _ _ _ _ _ w Hrun) as [_ ->].
  apply (@visit_each_choices_keeps _ Hall _ _ _ _ Hloop Hint).
Qed.

Lemma steps_keep (e : GrammarExpr) : sequence_step_keeps e /\ choices_step_keeps e.
Proof.
  induction e as [bytes | negated ranges | negated ranges | | rule_id
                  | elements IH | elements IH | td | rule_id lo hi]
    using GrammarExpr_nested_ind;
    try (split;
         [ intros b ids b' Hrun _ w; injection Hrun as <- <-; apply matches_all_single
         | intros b ids found b' Hrun _ w; injection Hrun as <- <- <-;
           cbn [matches_any]; rewrite matches_sequence, matches_all_single;
           intuition discriminate ]).
  - (* kEmptyStr *)
    split.
    + intros b ids b' Hrun _ w. injection Hrun as <- <-. reflexivity.
    + intros b ids found b' Hrun _ w. injection Hrun as <- <- <-.
      cbn [matches_any matches]. intuition.
  - (* kSequence *)
    assert (Hseq : Forall sequence_step_keeps elements).
    { eapply Forall_impl; [| exact IH]. intros a Ha. apply Ha. }
    split.
    + intros b ids b' Hrun Hint w. rewrite in_sequence_sequence in Hrun.
      rewrite matches_sequence. eapply visit_each_sequence_keeps; eauto.
    + intros b ids found b' Hrun Hint w. rewrite in_choices_sequence in Hrun.
      unfold VisitSequence_ in Hrun.
      destruct (visit_each in_sequence' [] (@app GrammarExpr) elements b)
        as [[sub b1] |] eqn:Hloop; [| discriminate].
      rewrite matches_sequence.
      destruct sub as [| first rest]; injection Hrun as <- <- <-.
      * rewrite <- (@visit_each_sequence_keeps _ Hseq _ _ _ Hloop Hint w).
        cbn [matches_any matches_all]. intuition.
      * rewrite <- (@visit_each_sequence_keeps _ Hseq _ _ _ Hloop Hint w).
        cbn [matches_any]. rewrite matches_sequence. intuition discriminate.
  - (* kChoices *)
    assert (Hch : Forall choices_step_keeps elements).
    { eapply Forall_impl; [| exact IH]. intros a Ha. apply Ha. }
    split.
    + intros b ids b' Hrun Hint w. rewrite in_sequence_choices in Hrun.
      rewrite matches_choices.
      destruct (VisitChoices_ VisitTagDispatch cur_rule_name_ elements b)
        as [[sub b1] |] eqn:Hvisit; [| discriminate].
      assert (Hnew : forall id b2,
                AddRuleWithHint b1 cur_rule_name_ (kChoices sub) = (id, b2) ->
                Some ([kRuleRef id], b2) = Some (ids, b') ->
                matches_all' ids w <-> matches_any' elements w).
      { intros id b2 Hadd Hsome. injection Hsome as <- <-.
        assert (Hgrows : grows b b1).
        { eapply VisitChoices_ok in Hvisit; [apply Hvisit |].
          apply Forall_forall. intros a _. apply steps_ok. }
        assert (Hgrows2 : grows b1 b2).
        { pose proof (@grows_AddRuleWithHint b1 cur_rule_name_ (kChoices sub)) as G.
          rewrite Hadd in G. apply G.
          eapply VisitChoices_ok in Hvisit; [apply Hvisit |].
          apply Forall_forall. intros a _. apply steps_ok. }
        destruct (@interprets_split b b1 b2 Hgrows Hgrows2 Hint) as [Hint1 _].
        rewrite matches_all_single. cbn [matches].
        rewrite (@new_rule_matches b b1 b2 _ _ _ w Hgrows Hadd Hint), matches_choices.
        apply (@VisitChoices_keeps _ Hch _ _ _ Hvisit Hint1). }
      destruct sub as [| single [| second more]].
      * destruct (AddRuleWithHint b1 cur_rule_name_ (kChoices [])) as [id b2] eqn:Hadd.
        eapply Hnew; eauto.
      * destruct (@VisitChoices_keeps _ Hch _ _ _ Hvisit) as [_ Hsame].
        { destruct single; try discriminate; injection Hrun as <- <-; exact Hint. }
        rewrite <- Hsame. cbn [matches_any].
        destruct single; try discriminate; injection Hrun as <- <-.
        -- cbn [matches_all matches]. tauto.
        -- rewrite matches_sequence. tauto.
      * destruct (AddRuleWithHint b1 cur_rule_name_ (kChoices (single :: second :: more)))
          as [id b2] eqn:Hadd.
        eapply Hnew; eauto.
    + intros b ids found b' Hrun Hint w. rewrite in_choices_choices in Hrun.
      rewrite matches_choices.
      destruct (VisitChoices_ VisitTagDispatch cur_rule_name_ elements b)
        as [[sub b1] |] eqn:Hvisit; [| discriminate].
      assert (Hb : b1 = b').
      { destruct sub as [| [] ?]; injection Hrun as <- <- <-; reflexivity. }
      subst b1.
      destruct (@VisitChoices_keeps _ Hch _ _ _ Hvisit Hint) as [_ Hsame].
      rewrite <- Hsame.
      destruct sub as [| [] ?]; injection Hrun as <- <-; cbn [matches_any matches];
        intuition discriminate.
  - (* kTagDispatch *)
    split.
    + intros b ids b' Hrun Hint w. cbn [in_sequence] in Hrun. unfold tag_dispatch_rule in Hrun.
      destruct (AddRuleWithHint b cur_rule_name_ (kTagDispatch (VisitTagDispatch td)))
        as [id b1] eqn:Hadd.
      injection Hrun as <- <-. rewrite matches_all_single. cbn [matches].
      rewrite (@new_rule_matches b b b1 _ _ _ w (grows_refl b) Hadd Hint). cbn [matches].
      apply VisitTagDispatch_keeps.
    + intros b ids found b' Hrun Hint w. cbn [in_choices] in Hrun.
      unfold tag_dispatch_rule in Hrun.
      destruct (AddRuleWithHint b cur_rule_name_ (kTagDispatch (VisitTagDispatch td)))
        as [id b1] eqn:Hadd.
      injection Hrun as <- <- <-. cbn [matches_any].
      rewrite matches_sequence, matches_all_single. cbn [matches].
      rewrite (@new_rule_matches b b b1 _ _ _ w (grows_refl b) Hadd Hint). cbn [matches].
      rewrite VisitTagDispatch_keeps. intuition discriminate.
Qed.

(** X10: the body that [VisitRuleBody] returns matches the byte strings
    that the body it was given matches, whenever a reference to a rule
    added on the way matches what the body of that rule matches, and
    the rebuilt tag dispatch what the tag dispatch matches. *)
Theorem VisitRuleBody_keeps_the_language (e e' : GrammarExpr) (b b' : GrammarBuilder) :
  VisitRuleBody VisitTagDispatch cur_rule_name_ e b = Some (e', b') ->
  interprets' b b' ->
  forall w, matches' e' w <-> matches' e w.
Proof.
  intros Hrun Hint w.
  destruct e as [bytes | negated ranges | negated ranges | | rule_id
                 | elements | elements | td | rule_id lo hi];
    cbn [VisitRuleBody] in Hrun;
    try (injection Hrun as <- <-; rewrite matches_choices; cbn [matches_any];
         rewrite matches_sequence, matches_all_single; tauto).
  - injection Hrun as <- <-. cbn [matches]. tauto.
  - destruct (VisitSequence_ VisitTagDispatch cur_rule_name_ elements b)
      as [[ids b1] |] eqn:Hvisit; [| discriminate].
    injection Hrun as <- <-. unfold VisitSequence_ in Hvisit.
    rewrite matches_choices. cbn [matches_any]. rewrite !matches_sequence.
    rewrite <- (@visit_each_sequence_keeps elements
                  (proj2 (Forall_forall _ _) (fun a _ => proj1 (steps_keep a)))
                  _ _ _ Hvisit Hint w).
    tauto.
  - destruct (VisitChoices_ VisitTagDispatch cur_rule_name_ elements b)
      as [[ids b1] |] eqn:Hvisit; [| discriminate].
    injection Hrun as <- <-. rewrite !matches_choices.
    apply (@VisitChoices_keeps elements
             (proj2 (Forall_forall _ _) (fun a _ => proj2 (steps_keep a)))
             _ _ _ Hvisit Hint).
  - injection Hrun as <- <-. cbn [matches]. apply VisitTagDispatch_keeps.
Qed.

(** X11: the look-ahead assertion that [VisitLookaheadAssertion] returns
    matches the byte strings that the assertion it was given matches,
    under the same reading of the added rules. *)
Theorem VisitLookaheadAssertion_keeps_the_language (e e' : GrammarExpr)
    (b b' : GrammarBuilder) :
  VisitLookaheadAssertion VisitTagDispatch cur_rule_name_ (Some e) b = Some (Some e', b') ->
  interprets' b b' ->
  forall w, matches' e' w <-> matches' e w.
Proof.
  intros Hrun Hint w.
  destruct e as [bytes | negated ranges | negated ranges | | rule_id
                 | elements | elements | td | rule_id lo hi];
    cbn [VisitLookaheadAssertion] in Hrun; try discriminate;
    try (injection Hrun as <- <-; rewrite matches_sequence; apply matches_all_single).
  destruct (VisitSequence_ VisitTagDispatch cur_rule_name_ elements b)
    as [[ids b1] |] eqn:Hvisit; [| discriminate].
  injection Hrun as <- <-. unfold VisitSequence_ in Hvisit. rewrite !matches_sequence.
  apply (@visit_each_sequence_keeps elements
           (proj2 (Forall_forall _ _) (fun a _ => proj1 (steps_keep a)))
           _ _ _ Hvisit Hint w).
Qed.

End NormalizerLanguage.

Lemma c_or_d_interprets (b : GrammarBuilder) :
  rules b = [mkRule "root" (Some (kChoices [kSequence [AddByteString "c"];
                                            kSequence [AddByteString "d"]])) None false] ->
  interprets c_or_d no_atoms no_tags empty_builder b.
Proof.
  intros Hb k r body _ Hr Hbody w. rewrite Hb in Hr.
  destruct k as [| k]; [| destruct k; discriminate].
  injection Hr as <-. injection Hbody as <-. unfold c_or_d. cbn.
  split.
  - intros [_ [-> | ->]]; [left | right; left]; eexists _, []; repeat split; reflexivity.
  - intros [(u & v & -> & -> & ->) | [(u & v & -> & -> & ->) | []]]; auto.
Qed.

Lemma VisitRuleBody_keeps_the_language_witness :
  VisitRuleBody (fun td => td) "root" b_then_c_or_d empty_builder
    = Some (kChoices [kSequence [AddByteString "b"; kRuleRef 0]],
            mkBuilder [mkRule "root" (Some (kChoices [kSequence [AddByteString "c"];
                                                      kSequence [AddByteString "d"]]))
                         None false]) /\
  (matches c_or_d no_atoms no_tags (kChoices [kSequence [AddByteString "b"; kRuleRef 0]])
     (bytes_of_string "bd")
   <-> matches c_or_d no_atoms no_tags b_then_c_or_d (bytes_of_string "bd")).
Proof.
  split; [reflexivity |].
  apply (@VisitRuleBody_keeps_the_language (fun td => td) "root" c_or_d no_atoms no_tags
           (fun td w => iff_refl _) b_then_c_or_d _ empty_builder _ eq_refl).
  apply c_or_d_interprets. reflexivity.
Defined.

Lemma VisitLookaheadAssertion_keeps_the_language_witness :
  VisitLookaheadAssertion (fun td => td) "root" (Some (kSequence [b_then_c_or_d]))
    empty_builder
    = Some (Some (kSequence [AddByteString "b"; kRuleRef 0]),
            mkBuilder [mkRule "root" (Some (kChoices [kSequence [AddByteString "c"];
                                                      kSequence [AddByteString "d"]]))
                         None false]) /\
  (matches c_or_d no_atoms no_tags (kSequence [AddByteString "b"; kRuleRef 0])
     (bytes_of_string "bd")
   <-> matches c_or_d no_atoms no_tags (kSequence [b_then_c_or_d]) (bytes_of_string "bd")).
Proof.
  split; [reflexivity |].
  apply (@VisitLookaheadAssertion_keeps_the_language (fun td => td) "root" c_or_d no_atoms
           no_tags (fun td w => iff_refl _) (kSequence [b_then_c_or_d]) _ empty_builder _
           eq_refl).
  apply c_or_d_interprets. reflexivity.
Defined.

Lemma normal_forms_are_fixed_witness :
  VisitRuleBody (fun td => td) "root"
    (kChoices [kEmptyStr; kSequence [AddByteString "b"; kRuleRef 0]]) empty_builder
    = Some (kChoices [kEmptyStr; kSequence [AddByteString "b"; kRuleRef 0]], empty_builder) /\
  VisitLookaheadAssertion (fun td => td) "root" (Some (kSequence [kRuleRef 0])) empty_builder
    = Some (Some (kSequence [kRuleRef 0]), empty_builder).
Proof.
  apply (@normal_forms_are_fixed (fun td => td) "root"
           [kEmptyStr; kSequence [AddByteString "b"; kRuleRef 0]] [kRuleRef 0] empty_builder);
    reflexivity.
Defined.

(** ** grammar_functor.cc: what adding a character range leaves alone *)

Local Close Scope nat_scope.
Import FSMBuilderFrame.

Import FSMBuilder.
Local Open Scope Z_scope.
Local Open Scope list_scope.

Lemma num_states_AddEdge (fsm : FSM) (f t : nat) (lo hi : Z) :
  num_states (AddEdge fsm f t lo hi) = num_states fsm.
Proof. reflexivity. Qed.

Lemma inside_weaken (from to n0 n1 n2 : nat) (e : FSMEdge) :
  (n1 <= n2)%nat -> inside from to n0 n1 e -> inside from to n0 n2 e.
Proof. unfold inside. intros Hn [[? | ?] [? | ?]]; split; auto; right; lia. Qed.

Lemma grown_refl (from to : nat) (fsm : FSM) : grown from to fsm fsm.
Proof.
  split; [lia |]. exists []. split; [symmetry; apply app_nil_r | constructor].
Qed.

Lemma grown_AddState (from to : nat) (fsm0 cur : FSM) :
  grown from to fsm0 cur ->
  grown from to fsm0 (mkFSM (S (num_states cur)) (edges cur)).
Proof.
  intros [Hn (added & Hedges & Hall)]. split; [cbn; lia |].
  exists added. split; [exact Hedges |].
  eapply Forall_impl; [| exact Hall]. intros e. apply inside_weaken. cbn. lia.
Qed.

Lemma grown_AddEdge (from to : nat) (fsm0 cur : FSM) (f t : nat) (lo hi : Z) :
  grown from to fsm0 cur ->
  (f = from \/ (num_states fsm0 <= f < num_states cur)%nat) ->
  (t = to \/ (num_states fsm0 <= t < num_states cur)%nat) ->
  grown from to fsm0 (AddEdge cur f t lo hi).
Proof.
  intros [Hn (added & Hedges & Hall)] Hf Ht. split; [exact Hn |].
  exists (added ++ [mkFSMEdge f lo hi t]). cbn [AddEdge edges num_states].
  split; [rewrite Hedges; symmetry; apply app_assoc |].
  apply Forall_app. split; [exact Hall |].
  constructor; [| constructor]. split; assumption.
Qed.

Lemma grown_trans (from to f : nat) (fsm0 cur cur' : FSM) :
  grown from to fsm0 cur ->
  (f = from \/ (num_states fsm0 <= f < num_states cur)%nat) ->
  grown f to cur cur' ->
  grown from to fsm0 cur'.
Proof.
  intros [Hn (added & Hedges & Hall)] Hf [Hn' (added' & Hedges' & Hall')].
  split; [lia |]. exists (added ++ added').
  split; [rewrite Hedges', Hedges; symmetry; apply app_assoc |].
  apply Forall_app. split.
  - eapply Forall_impl; [| exact Hall]. intros e. apply inside_weaken. exact Hn'.
  - eapply Forall_impl; [| exact Hall']. intros e [[He | He] [Ht | Ht]]; split;
      try (left; exact Ht); try (right; lia); destruct Hf as [-> | Hf];
      try (left; exact He); right; lia.
Qed.

Section Frame.

Variable self : FSM -> nat -> nat -> Z -> Z -> FSM.
Hypothesis self_grown :
  forall fsm from to min max, grown from to fsm (self fsm from to min max).

(** A new state, an edge from [from] to it, and the rest of the range
    from the new state. *)
Lemma grown_branch (from to : nat) (fsm0 cur : FSM) (lo hi a b : Z) :
  grown from to fsm0 cur ->
  grown from to fsm0
    (self (AddEdge (mkFSM (S (num_states cur)) (edges cur)) from (num_states cur) lo hi)
       (num_states cur) to a b).
Proof.
  intros Hcur. pose proof Hcur as [Hn _].
  eapply grown_trans; [| | apply self_grown].
  - apply grown_AddEdge; [apply grown_AddState; exact Hcur | left; reflexivity |].
    right. cbn. lia.
  - right. cbn. lia.
Qed.

(** One statement of a block: the automaton it leaves is named, with
    what is known of it. *)
Ltac frame_step :=
  lazymatch goal with
  | |- grown ?from ?to ?fsm0 _ =>
      match goal with
      | |- context [AddEdge ?cur ?f ?t ?lo ?hi] =>
          is_var cur;
          let G := fresh "G" in
          let N := fresh "N" in
          let E := fresh "E" in
          assert (G : grown from to fsm0 (AddEdge cur f t lo hi))
            by (apply grown_AddEdge;
                [assumption | first [left; reflexivity | right; lia] ..]);
          assert (N : num_states (AddEdge cur f t lo hi) = num_states cur) by reflexivity;
          let next := fresh "cur" in
          remember (AddEdge cur f t lo hi) as next eqn:E; clear E
      | |- context [self ?cur ?f ?t ?a ?b] =>
          is_var cur;
          let G := fresh "G" in
          let N := fresh "N" in
          let E := fresh "E" in
          assert (G : grown from to fsm0 (self cur f t a b))
            by (match goal with
                | Gcur : grown from to fsm0 cur |- _ =>
                    apply (@grown_trans from to f fsm0 cur _ Gcur);
                    [first [left; reflexivity | right; lia] | apply self_grown]
                end);
          assert (N : (num_states cur <= num_states (self cur f t a b))%nat)
            by exact (proj1 (self_grown cur f t a b));
          let next := fresh "cur" in
          remember (self cur f t a b) as next eqn:E; clear E
      | |- context [AddState ?cur] =>
          is_var cur;
          let tmp := fresh "tmp" in
          let cur' := fresh "cur" in
          let E := fresh "E" in
          let G := fresh "G" in
          let N := fresh "N" in
          let F := fresh "F" in
          let E1 := fresh "E" in
          let E2 := fresh "E" in
          destruct (AddState cur) as [tmp cur'] eqn:E;
          unfold AddState in E; injection E as E1 E2; subst tmp cur';
          match goal with
          | Gcur : grown from to fsm0 cur |- _ =>
              pose proof (grown_AddState Gcur) as G;
              pose proof (proj1 Gcur) as F
          end;
          assert (N : num_states (mkFSM (S (num_states cur)) (edges cur))
                      = S (num_states cur)) by reflexivity;
          let next := fresh "cur" in
          remember (mkFSM (S (num_states cur)) (edges cur)) as next eqn:E; clear E
      | |- context [if ?c then _ else _] => destruct c
      end
  end.

Ltac frame_steps :=
  cbv zeta;
  match goal with
  | |- grown ?from ?to ?fsm0 _ => pose proof (grown_refl from to fsm0)
  end;
  repeat first [frame_step | progress cbv beta iota zeta];
  assumption.

Lemma two_bytes_grown (fsm : FSM) (from to : nat) (min max : Z) :
  grown from to fsm (two_bytes self fsm from to min max).
Proof.
  unfold two_bytes. frame_steps.
Qed.

Lemma three_bytes_grown (fsm : FSM) (from to : nat) (min max : Z) :
  grown from to fsm (three_bytes self fsm from to min max).
Proof.
  unfold three_bytes. frame_steps.
Qed.

Lemma four_bytes_grown (fsm : FSM) (from to : nat) (min max : Z) :
  grown from to fsm (four_bytes self fsm from to min max).
Proof.
  unfold four_bytes. frame_steps.
Qed.

End Frame.

Lemma same_length_grown (depth : nat) :
  forall fsm from to min max, grown from to fsm (same_length depth fsm from to min max).
Proof.
  induction depth as [| d IH]; intros fsm from to min max; [apply grown_refl |].
  rewrite same_length_S.
  repeat match goal with
  | |- context [if ?c then _ else _] => destruct c
  end.
  - apply grown_AddEdge; [apply grown_refl | left; reflexivity ..].
  - apply four_bytes_grown, IH.
  - apply three_bytes_grown, IH.
  - apply two_bytes_grown, IH.
Qed.

Lemma clamp_max_bound (max : Z) : clamp_max max <= kMax4BytesUnicode.
Proof.
  unfold clamp_max, kMax4BytesUnicode, kMax3BytesUnicode, kMin4BytesUnicode,
    kMax2BytesUnicode, kMin3BytesUnicode, kMin2BytesUnicode, kMax1ByteUnicode.
  repeat match goal with
  | |- context [?a >? ?b] => destruct (Z.gtb_spec a b)
  | |- context [?a <? ?b] => destruct (Z.ltb_spec a b)
  end; cbn [andb]; lia.
Qed.

Lemma grown_between (from to : nat) (fsm fsm' : FSM) :
  grown from to fsm fsm' -> between from to fsm -> between from to fsm'.
Proof.
  intros [Hn (added & Hedges & Hall)] (Hfrom & Hto & Hne & Hold).
  repeat split; [lia | lia | exact Hne |].
  rewrite Hedges. apply Forall_app. split.
  - eapply Forall_impl; [| exact Hold].
    intros e (H1 & H2 & H3 & H4). repeat split; try assumption; lia.
  - eapply Forall_impl; [| exact Hall].
    intros e [[H1 | H1] [H2 | H2]]; repeat split; lia.
Qed.

Lemma AddCharacterRange_some (fsm : FSM) (from to : nat) (min max : Z) :
  min <= max ->
  exists fsm',
    AddCharacterRange fsm from to min max = Some fsm' /\ grown from to fsm fsm'.
Proof.
  intros Hle. unfold AddCharacterRange, AddSameLengthCharacterRange.
  destruct (Z.leb_spec min max) as [_ | Hlt]; [| lia]. cbn [negb].
  pose proof (clamp_max_bound max) as Hmax.
  repeat match goal with
  | |- context [if ?c then _ else _] =>
      lazymatch c with
      | negb (clamp_max max <=? kMax4BytesUnicode) =>
          destruct (Z.leb_spec (clamp_max max) kMax4BytesUnicode); [cbn [negb] | lia]
      | _ => destruct c
      end
  end;
  eexists; (split; [reflexivity |]);
  repeat first
    [ apply same_length_grown
    | eapply grown_trans; [| left; reflexivity | apply same_length_grown] ].
Qed.

(** X12: for [min <= max] a character range is always added, neither
    check fails; the automaton keeps its states and edges, and every
    edge added leaves [from] or a new state and enters [to] or a new
    state, so that an automaton between [from] and [to] stays one. *)
Theorem AddCharacterRange_only_adds (fsm : FSM) (from to : nat) (min max : Z) :
  min <= max ->
  exists fsm',
    AddCharacterRange fsm from to min max = Some fsm' /\
    grown from to fsm fsm' /\
    (between from to fsm -> between from to fsm').
Proof.
  intros Hle. destruct (@AddCharacterRange_some fsm from to min max Hle) as (fsm' & H1 & H2).
  exists fsm'. split; [exact H1 |]. split; [exact H2 |].
  apply grown_between. exact H2.
Qed.

(** X13: the check of the bounds is the only way to fail. *)
Theorem AddCharacterRange_fails_iff (fsm : FSM) (from to : nat) (min max : Z) :
  AddCharacterRange fsm from to min max = None <-> max < min.
Proof.
  split.
  - intros Hnone. destruct (Z.lt_ge_cases max min) as [Hlt | Hge]; [exact Hlt |].
    destruct (@AddCharacterRange_some fsm from to min max Hge) as (fsm' & H1 & _).
    congruence.
  - intros Hlt. unfold AddCharacterRange.
    destruct (Z.leb_spec min max); [lia | reflexivity].
Qed.

(** *** Reading an automaton that a range was added to *)

Lemma existsb_ext_in {A} (f g : A -> bool) (l : list A) :
  (forall x, In x l -> f x = g x) -> existsb f l = existsb g l.
Proof.
  induction l as [| x rest IH]; intros H; [reflexivity |].
  cbn [existsb]. rewrite (H x (or_introl eq_refl)), IH; [reflexivity |].
  intros y Hy. apply H. right. exact Hy.
Qed.

Lemma existsb_false_in {A} (f : A -> bool) (l : list A) :
  (forall x, In x l -> f x = false) -> existsb f l = false.
Proof.
  induction l as [| x rest IH]; intros H; [reflexivity |].
  cbn [existsb]. rewrite (H x (or_introl eq_refl)), IH; [reflexivity |].
  intros y Hy. apply H. right. exact Hy.
Qed.

Section AddedEdges.

Variables (from to : nat) (fsm fsm' : FSM) (added : list FSMEdge).
Hypothesis Hbetween : between from to fsm.
Hypothesis Hedges : edges fsm' = edges fsm ++ added.
Hypothesis Hinside : Forall (inside from to (num_states fsm) (num_states fsm')) added.

Lemma follows_from (e : FSMEdge) (s : nat) (c : Z) :
  follows e s c = true -> edge_from e = s.
Proof.
  unfold follows. intros H. apply andb_prop in H. destruct H as [H _].
  apply andb_prop in H. destruct H as [H _]. apply Nat.eqb_eq. exact H.
Qed.

Lemma follows_not_from (e : FSMEdge) (s : nat) (c : Z) :
  edge_from e <> s -> follows e s c = false.
Proof.
  intros H. destruct (follows e s c) eqn:E; [| reflexivity].
  apply follows_from in E. contradiction.
Qed.

(** From a state of [fsm] other than [from], only the edges of [fsm]
    are followed. *)
Lemma accepts_old (w : list Z) :
  forall s, (s < num_states fsm)%nat -> s <> from ->
  accepts fsm' to s w = accepts fsm to s w.
Proof.
  destruct Hbetween as (Hfrom & Hto & Hne & Hold).
  rewrite Forall_forall in Hold, Hinside.
  induction w as [| c rest IH]; intros s Hs Hsfrom; [reflexivity |].
  cbn [accepts]. rewrite Hedges, existsb_app.
  rewrite (@existsb_false_in _ _ added), orb_false_r.
  - apply existsb_ext_in. intros e He.
    destruct (follows e s c) eqn:Hf; [| reflexivity]. cbn [andb].
    destruct (Hold e He) as (H1 & H2 & H3 & H4). apply IH; assumption.
  - intros e He. rewrite follows_not_from; [reflexivity |].
    destruct (Hinside e He) as [[H1 | H1] _]; lia.
Qed.

(** From [to] and from the new states, only the added edges are
    followed. *)
Lemma accepts_new (w : list Z) :
  forall s, s = to \/ (num_states fsm <= s)%nat ->
  accepts fsm' to s w = accepts (mkFSM 0 added) to s w.
Proof.
  destruct Hbetween as (Hfrom & Hto & Hne & Hold).
  rewrite Forall_forall in Hold, Hinside.
  induction w as [| c rest IH]; intros s Hs; [reflexivity |].
  cbn [accepts edges]. rewrite Hedges, existsb_app.
  rewrite (@existsb_false_in _ _ (edges fsm)), orb_false_l.
  - apply existsb_ext_in. intros e He.
    destruct (follows e s c) eqn:Hf; [| reflexivity]. cbn [andb].
    apply IH. destruct (Hinside e He) as [_ [H | H]]; [left; exact H | right; lia].
  - intros e He. rewrite follows_not_from; [reflexivity |].
    destruct (Hold e He) as (H1 & H2 & H3 & H4). destruct Hs as [-> | Hs]; [exact H4 | lia].
Qed.

(** What is read from [from] to [to] is what was read before or what
    the added edges read. *)
Lemma accepts_union (w : list Z) :
  accepts fsm' to from w = accepts fsm to from w || accepts (mkFSM 0 added) to from w.
Proof.
  pose proof Hbetween as (Hfrom & Hto & Hne & Hold).
  rewrite Forall_forall in Hold. pose proof Hinside as Hin. rewrite Forall_forall in Hin.
  destruct w as [| c rest]; [cbn [accepts]; symmetry; apply orb_diag |].
  cbn [accepts edges]. rewrite Hedges, existsb_app. f_equal.
  - apply existsb_ext_in. intros e He.
    destruct (follows e from c) eqn:Hf; [| reflexivity]. cbn [andb].
    destruct (Hold e He) as (H1 & H2 & H3 & H4). apply accepts_old; assumption.
  - apply existsb_ext_in. intros e He.
    destruct (follows e from c) eqn:Hf; [| reflexivity]. cbn [andb].
    apply accepts_new. destruct (Hin e He) as [_ [H | H]]; [left; exact H | right; lia].
Qed.

End AddedEdges.

(** *** The ranges of one and two bytes *)

Lemma two_byte_bound_range (x : Z) :
  two_byte_bound x -> 0xC080 <= x <= 0xDFBF.
Proof.
  unfold two_byte_bound. intros H. pose proof (Z.div_mod x 256 ltac:(lia)). lia.
Qed.

Lemma two_byte_bound_bytes (x : Z) :
  two_byte_bound x ->
  uint8 (Z.shiftr x 8) = x / 256 /\ Z.land x 0xFF = x mod 256.
Proof.
  unfold two_byte_bound, uint8. intros H. split.
  - rewrite Z.shiftr_div_pow2 by lia. change (2 ^ 8) with 256.
    apply Z.mod_small. lia.
  - change 0xFF with (Z.ones 8). rewrite Z.land_ones by lia. reflexivity.
Qed.

Ltac decide_comparisons :=
  repeat match goal with
  | |- context [?a >? ?b] => destruct (Z.gtb_spec a b); try lia; cbn [negb andb]
  | |- context [?a <? ?b] => destruct (Z.ltb_spec a b); try lia; cbn [negb andb]
  | |- context [?a <=? ?b] => destruct (Z.leb_spec a b); try lia; cbn [negb andb]
  | |- context [?a >=? ?b] => rewrite (Z.geb_leb a b)
  end.

Lemma clamp_two_bytes (x : Z) :
  0xC080 <= x <= 0xDFBF -> clamp_max x = x /\ clamp_min x = x.
Proof.
  intros H.
  unfold clamp_max, clamp_min, kMax4BytesUnicode, kMax3BytesUnicode,
    kMin4BytesUnicode, kMax2BytesUnicode, kMin3BytesUnicode, kMin2BytesUnicode,
    kMax1ByteUnicode.
  split; decide_comparisons; reflexivity.
Qed.

Ltac unfold_bounds :=
  unfold kMax4BytesUnicode, kMax3BytesUnicode, kMin4BytesUnicode, kMax2BytesUnicode,
    kMin3BytesUnicode, kMin2BytesUnicode, kMax1ByteUnicode in *.

Lemma clamp_one_byte (x : Z) :
  0 <= x <= 0x7F -> clamp_max x = x /\ clamp_min x = x.
Proof.
  intros H. unfold clamp_max, clamp_min. unfold_bounds.
  split; decide_comparisons; reflexivity.
Qed.

Lemma AddSameLength_two_bytes (fsm : FSM) (from to : nat) (min max : Z) :
  two_byte_bound max ->
  AddSameLengthCharacterRange fsm from to min max = two_bytes one_byte fsm from to min max.
Proof.
  intros Hmax. pose proof (two_byte_bound_range Hmax) as Rmax.
  unfold AddSameLengthCharacterRange. rewrite same_length_S.
  destruct (two_byte_bound_bytes Hmax) as [Hb _]. rewrite Hb.
  destruct (Z.eqb_spec (max / 256) 0) as [E | _]; [unfold two_byte_bound in Hmax; lia |].
  rewrite (@uint8_shiftr_small max 24), (@uint8_shiftr_small max 16) by lia.
  cbn [Z.eqb negb].
  apply two_bytes_ext. intros f a b lo hi Hhi.
  rewrite same_length_S, (@uint8_shiftr_small hi 8) by lia. reflexivity.
Qed.

Lemma AddSameLength_one_byte (fsm : FSM) (from to : nat) (min max : Z) :
  0 <= min <= 0x7F -> 0 <= max <= 0x7F ->
  AddSameLengthCharacterRange fsm from to min max = AddEdge fsm from to min max.
Proof.
  intros Hmin Hmax. unfold AddSameLengthCharacterRange.
  rewrite same_length_S, (@uint8_shiftr_small max 8) by lia. cbn [Z.eqb].
  change 0xFF with (Z.ones 8). rewrite !Z.land_ones by lia. unfold uint8.
  change (2 ^ 8) with 256. rewrite !Z.mod_mod by lia.
  rewrite !Z.mod_small by lia. reflexivity.
Qed.

(** The calls that [AddCharacterRange] makes for bounds of one or two
    bytes. *)
Lemma AddCharacterRange_short (fsm : FSM) (from to : nat) (min max : Z) :
  short_bound min -> short_bound max -> min <= max ->
  AddCharacterRange fsm from to min max
  = Some (if max <=? 0x7F then AddEdge fsm from to min max
          else if 0xC080 <=? min then two_bytes one_byte fsm from to min max
          else two_bytes one_byte (AddEdge fsm from to min 0x7F) from to 0xC080 max).
Proof.
  intros Hmin Hmax Hle.
  assert (Cmin : clamp_min min = min).
  { destruct Hmin as [H | H]; [apply clamp_one_byte, H |].
    apply clamp_two_bytes, two_byte_bound_range, H. }
  assert (Cmax : clamp_max max = max).
  { destruct Hmax as [H | H]; [apply clamp_one_byte, H |].
    apply clamp_two_bytes, two_byte_bound_range, H. }
  assert (Rmin : 0 <= min <= 0x7F \/ 0xC080 <= min <= 0xDFBF).
  { destruct Hmin as [H | H]; [left; exact H | right; apply two_byte_bound_range, H]. }
  assert (Rmax : 0 <= max <= 0x7F \/ 0xC080 <= max <= 0xDFBF).
  { destruct Hmax as [H | H]; [left; exact H | right; apply two_byte_bound_range, H]. }
  unfold AddCharacterRange. rewrite Cmin, Cmax. unfold_bounds.
  decide_comparisons; f_equal.
  - apply AddSameLength_one_byte; lia.
  - apply AddSameLength_two_bytes. destruct Hmax as [Hm | Hm]; [lia | exact Hm].
  - rewrite (@AddSameLength_one_byte fsm from to min 127) by lia.
    apply AddSameLength_two_bytes. destruct Hmax as [Hm | Hm]; [lia | exact Hm].
Qed.

Lemma uint8_byte (x : Z) : 0 <= x < 256 -> uint8 x = x.
Proof. intros H. apply Z.mod_small. exact H. Qed.

Lemma land_byte (x : Z) : 0 <= x < 256 -> Z.land x 0xFF = x.
Proof.
  intros H. change 0xFF with (Z.ones 8). rewrite Z.land_ones by lia.
  apply Z.mod_small. exact H.
Qed.

Lemma packed_bytes (b l : Z) :
  0 <= b < 256 -> 0 <= l < 256 ->
  uint8 (Z.shiftr (256 * b + l) 8) = b /\ Z.land (256 * b + l) 0xFF = l.
Proof.
  intros Hb Hl. unfold uint8. rewrite Z.shiftr_div_pow2 by lia. change (2 ^ 8) with 256.
  change 0xFF with (Z.ones 8). rewrite Z.land_ones by lia. change (2 ^ 8) with 256.
  replace (256 * b + l) with (l + b * 256) by lia.
  rewrite Z.div_add, Z.mod_add by lia.
  rewrite (Z.div_small l), (Z.mod_small l) by lia. cbn [Z.add].
  split; [apply Z.mod_small; lia | reflexivity].
Qed.

Lemma two_bytes_exact (fsm : FSM) (from to : nat) (b1 l1 b2 l2 : Z) (bytes : list Z) :
  between from to fsm ->
  0xC0 <= b1 <= 0xDF -> 0x80 <= l1 <= 0xBF -> 0xC0 <= b2 <= 0xDF -> 0x80 <= l2 <= 0xBF ->
  256 * b1 + l1 <= 256 * b2 + l2 ->
  accepts (two_bytes one_byte fsm from to (256 * b1 + l1) (256 * b2 + l2)) to from bytes
  = accepts fsm to from bytes || in_two_byte_range (256 * b1 + l1) (256 * b2 + l2) bytes.
Proof.
  intros Hbetween Hb1 Hl1 Hb2 Hl2 Hle.
  unfold two_bytes, one_byte, AddState.
  destruct (@packed_bytes b1 l1) as [-> ->]; [lia | lia |].
  destruct (@packed_bytes b2 l2) as [-> ->]; [lia | lia |].
  rewrite !land_byte, !uint8_byte by lia.
  pose proof Hbetween as (Hfrom & Hto & Hne & _).
  destruct (Z.eqb_spec b2 b1); [| destruct (Z.eqb_spec l1 128); destruct (Z.eqb_spec l2 191)];
    cbn [negb]; cbv beta iota zeta;
    repeat match goal with
    | |- context [?a >? ?b] => destruct (Z.gtb_spec a b); try lia
    end;
    match goal with
    | |- accepts ?fsm' _ _ _ = _ =>
        erewrite (@accepts_union from to fsm fsm' _ Hbetween)
    end.
  all: cycle 1.
  all: try (cbn [AddEdge edges num_states]; rewrite <- ?app_assoc; cbn [app]; reflexivity).
  all: try (cbn [AddEdge num_states edges]; repeat constructor;
            cbn [edge_from edge_target]; lia).
  all: f_equal.
  all: destruct bytes as [| c1 [| c2 [| c3 rest]]];
    cbn [accepts existsb edges in_two_byte_range]; unfold follows;
    cbn [edge_from edge_min edge_max edge_target];
    repeat match goal with
    | |- context [Nat.eqb ?a ?b] => destruct (Nat.eqb_spec a b); try lia
    end;
    cbn [andb orb]; rewrite ?andb_false_r, ?orb_false_r, ?andb_true_r; cbn [andb orb];
    try reflexivity;
    apply Bool.eq_iff_eq_true;
    rewrite ?orb_true_iff, ?andb_true_iff, ?Z.leb_le; lia.
Qed.

Lemma AddEdge_exact (fsm : FSM) (from to : nat) (lo hi : Z) (bytes : list Z) :
  between from to fsm ->
  accepts (AddEdge fsm from to lo hi) to from bytes
  = accepts fsm to from bytes ||
    match bytes with
    | [c] => (lo <=? c) && (c <=? hi)
    | _ => false
    end.
Proof.
  intros Hbetween. pose proof Hbetween as (Hfrom & Hto & Hne & _).
  erewrite (@accepts_union from to fsm _ _ Hbetween); [| reflexivity |].
  - f_equal. destruct bytes as [| c1 [| c2 rest]];
      cbn [accepts existsb edges]; unfold follows;
      cbn [edge_from edge_min edge_max edge_target];
      repeat match goal with
      | |- context [Nat.eqb ?a ?b] => destruct (Nat.eqb_spec a b); try lia
      end;
      cbn [andb orb]; rewrite ?andb_false_r, ?orb_false_r, ?andb_true_r; reflexivity.
  - repeat constructor.
Qed.

Lemma AddEdge_between (fsm : FSM) (from to : nat) (lo hi : Z) :
  between from to fsm -> between from to (AddEdge fsm from to lo hi).
Proof.
  apply grown_between.
  apply grown_AddEdge; [apply grown_refl | left; reflexivity ..].
Qed.

(** X14: for bounds of one byte or of the 2-byte block, the range that
    is added reads exactly the encodings from [min] to [max]: a byte up
    to 7F, or a first byte from C0 on and a continuation byte; what the
    automaton read from [from] to [to] before, it still reads. *)
Theorem short_ranges_are_exact (fsm : FSM) (from to : nat) (min max : Z) :
  between from to fsm -> short_bound min -> short_bound max -> min <= max ->
  exists fsm',
    AddCharacterRange fsm from to min max = Some fsm' /\
    forall bytes,
      accepts fsm' to from bytes
      = accepts fsm to from bytes || in_short_range min max bytes.
Proof.
  intros Hbetween Hmin Hmax Hle.
  eexists. split; [apply AddCharacterRange_short; assumption |].
  intros bytes.
  assert (Rmin : 0 <= min <= 0x7F \/ 0xC080 <= min <= 0xDFBF).
  { destruct Hmin as [H | H]; [left; exact H | right; apply two_byte_bound_range, H]. }
  destruct (Z.leb_spec max 0x7F) as [Hone | Htwo].
  - (* one byte *)
    rewrite AddEdge_exact by exact Hbetween. f_equal.
    destruct bytes as [| c1 [| c2 [| c3 rest]]]; cbn [in_short_range]; try reflexivity;
      apply Bool.eq_iff_eq_true;
      rewrite ?orb_true_iff, ?andb_true_iff, ?Z.leb_le; lia.
  - assert (Tmax : two_byte_bound max) by (destruct Hmax as [H | H]; [lia | exact H]).
    pose proof Tmax as [Hb2 Hl2].
    assert (Emax : max = 256 * (max / 256) + max mod 256) by (apply Z.div_mod; lia).
    set (b2 := max / 256) in *. set (l2 := max mod 256) in *. clearbody b2 l2. subst max.
    destruct (Z.leb_spec 0xC080 min) as [Hhigh | Hlow].
    + (* two bytes *)
      assert (Tmin : two_byte_bound min) by (destruct Hmin as [H | H]; [lia | exact H]).
      pose proof Tmin as [Hb1 Hl1].
      assert (Emin : min = 256 * (min / 256) + min mod 256) by (apply Z.div_mod; lia).
      set (b1 := min / 256) in *. set (l1 := min mod 256) in *. clearbody b1 l1. subst min.
      rewrite two_bytes_exact by assumption.
      f_equal.
      destruct bytes as [| c1 [| c2 [| c3 rest]]];
        cbn [in_short_range in_two_byte_range]; try reflexivity;
        apply Bool.eq_iff_eq_true;
        rewrite ?orb_true_iff, ?andb_true_iff, ?Z.leb_le; lia.
    + (* one byte, then two bytes *)
      rewrite (@two_bytes_exact (AddEdge fsm from to min 127) from to 0xC0 0x80);
        [| apply AddEdge_between; exact Hbetween | lia .. ].
      rewrite AddEdge_exact by exact Hbetween.
      rewrite <- orb_assoc. f_equal.
      destruct bytes as [| c1 [| c2 [| c3 rest]]];
        cbn [in_short_range in_two_byte_range]; try reflexivity;
        apply Bool.eq_iff_eq_true;
        rewrite ?orb_true_iff, ?andb_true_iff, ?Z.leb_le; lia.
Qed.

Lemma two_states_between : between 0 1 two_states.
Proof. repeat split; [cbn; lia | cbn; lia | discriminate | constructor]. Qed.

Lemma AddCharacterRange_only_adds_witness :
  exists fsm',
    A_to_U00E0 = Some fsm' /\
    grown 0 1 two_states fsm' /\
    (between 0 1 two_states -> between 0 1 fsm').
Proof.
  apply (@AddCharacterRange_only_adds two_states 0 1 0x41 0xC3A0). lia.
Defined.

Lemma short_ranges_are_exact_witness :
  exists fsm',
    A_to_U00E0 = Some fsm' /\
    forall bytes,
      accepts fsm' 1 0 bytes
      = accepts two_states 1 0 bytes || in_short_range 0x41 0xC3A0 bytes.
Proof.
  apply (@short_ranges_are_exact two_states 0 1 0x41 0xC3A0).
  - exact two_states_between.
  - left. lia.
  - right. split; split; apply Z.leb_le; reflexivity.
  - lia.
Defined.

Import NegatedClassRange.

(** *** The one range that is added: the negated character class *)

Lemma AddMultiByteRange_edges (fsm : FSM) (from to : nat) :
  AddMultiByteRange fsm from to
  = Some (mkFSM (6 + num_states fsm)
            (edges fsm ++ multi_byte_edges from to (num_states fsm))).
Proof.
  assert (H : AddMultiByteRange fsm from to
              = Some (mkFSM (6 + num_states fsm)
                        (((((((((edges fsm
                          ++ [mkFSMEdge from 0xC0 0xDF (num_states fsm)])
                          ++ [mkFSMEdge (num_states fsm) 0x80 0xBF to])
                          ++ [mkFSMEdge from 0xE0 0xEF (1 + num_states fsm)])
                          ++ [mkFSMEdge (1 + num_states fsm) 0x80 0xBF (2 + num_states fsm)])
                          ++ [mkFSMEdge (2 + num_states fsm) 0x80 0xBF to])
                          ++ [mkFSMEdge from 0xF0 0xF7 (3 + num_states fsm)])
                          ++ [mkFSMEdge (3 + num_states fsm) 0x80 0xBF (4 + num_states fsm)])
                          ++ [mkFSMEdge (4 + num_states fsm) 0x80 0xBF (5 + num_states fsm)])
                          ++ [mkFSMEdge (5 + num_states fsm) 0x80 0xBF to]))).
  { vm_compute. reflexivity. }
  rewrite H. unfold multi_byte_edges. rewrite <- !app_assoc. cbn [app].
  rewrite !(Nat.add_comm (num_states fsm)). reflexivity.
Qed.

Section MultiByteLanguage.

Variables (from to n : nat).
Hypothesis Hfrom : (from < n)%nat.
Hypothesis Hto : (to < n)%nat.
Hypothesis Hne : from <> to.

Local Abbreviation reads s w := (accepts (mkFSM 0 (multi_byte_edges from to n)) to s w).

Ltac decide_states :=
  cbn [accepts existsb edges multi_byte_edges]; unfold follows;
  cbn [edge_from edge_min edge_max edge_target];
  repeat match goal with
  | |- context [Nat.eqb ?a ?b] => destruct (Nat.eqb_spec a b); try lia
  end;
  cbn [andb orb]; rewrite ?andb_false_r, ?orb_false_r, ?andb_true_r; cbn [andb orb].

Lemma reads_end (w : list Z) : reads to w = match w with [] => true | _ => false end.
Proof.
  destruct w as [| c w]; [cbn [accepts]; apply Nat.eqb_refl |]. decide_states.
Qed.

(** From a state whose one edge enters [to]. *)
Lemma reads_last (s : nat) (w : list Z) :
  s = n \/ s = (n + 2)%nat \/ s = (n + 5)%nat ->
  reads s w = match w with [c] => continuation c | _ => false end.
Proof.
  intros Hs. destruct w as [| c w].
  - cbn [accepts]. destruct (Nat.eqb_spec s to); [lia | reflexivity].
  - cbn [accepts existsb edges multi_byte_edges]. rewrite !reads_end.
    unfold follows, continuation; cbn [edge_from edge_min edge_max edge_target].
    destruct Hs as [-> | [-> | ->]];
      repeat match goal with
      | |- context [Nat.eqb ?a ?b] => destruct (Nat.eqb_spec a b); try lia
      end;
      cbn [andb orb]; rewrite ?andb_false_r, ?orb_false_r, ?andb_true_r; cbn [andb orb];
      destruct w; rewrite ?andb_false_r, ?andb_true_r; try reflexivity.
Qed.

(** From a state with two bytes to go. *)
Lemma reads_two (s : nat) (w : list Z) :
  s = (n + 1)%nat \/ s = (n + 4)%nat ->
  reads s w = match w with [c; c'] => continuation c && continuation c' | _ => false end.
Proof.
  intros Hs. destruct w as [| c w].
  - cbn [accepts]. destruct (Nat.eqb_spec s to); [lia | reflexivity].
  - cbn [accepts existsb edges multi_byte_edges].
    rewrite !reads_end, !(@reads_last n), !(@reads_last (n + 2)), !(@reads_last (n + 5))
      by auto.
    unfold follows; cbn [edge_from edge_min edge_max edge_target]. fold (continuation c).
    destruct Hs as [-> | ->];
      repeat match goal with
      | |- context [Nat.eqb ?a ?b] => destruct (Nat.eqb_spec a b); try lia
      end;
      cbn [andb orb]; rewrite ?andb_false_r, ?orb_false_r, ?andb_true_r; cbn [andb orb];
      destruct w as [| c' [| c'' w]];
      rewrite ?andb_false_r, ?andb_true_r; try reflexivity.
Qed.

(** From the state with three bytes to go. *)
Lemma reads_three (w : list Z) :
  reads (n + 3)%nat w
  = match w with
    | [c; c'; c''] => continuation c && continuation c' && continuation c''
    | _ => false
    end.
Proof.
  destruct w as [| c w].
  - cbn [accepts]. destruct (Nat.eqb_spec (n + 3) to); [lia | reflexivity].
  - cbn [accepts existsb edges multi_byte_edges].
    rewrite !reads_end, !(@reads_last n), !(@reads_last (n + 2)), !(@reads_last (n + 5)),
      !(@reads_two (n + 1)), !(@reads_two (n + 4)) by auto.
    unfold follows; cbn [edge_from edge_min edge_max edge_target]. fold (continuation c).
    repeat match goal with
    | |- context [Nat.eqb ?a ?b] => destruct (Nat.eqb_spec a b); try lia
    end;
      cbn [andb orb]; rewrite ?andb_false_r, ?orb_false_r, ?andb_true_r; cbn [andb orb];
      destruct w as [| c' [| c'' [| c''' w]]];
      rewrite ?andb_false_r, ?andb_true_r, ?andb_assoc; try reflexivity.
Qed.

Lemma reads_multi_byte_form (w : list Z) : reads from w = multi_byte_form w.
Proof.
  destruct w as [| c w].
  - cbn [accepts multi_byte_form]. destruct (Nat.eqb_spec from to); [lia | reflexivity].
  - cbn [accepts existsb edges multi_byte_edges].
    rewrite !reads_end, !(@reads_last n), !(@reads_last (n + 2)), !(@reads_last (n + 5)),
      !(@reads_two (n + 1)), !(@reads_two (n + 4)), !reads_three by auto.
    unfold follows; cbn [edge_from edge_min edge_max edge_target].
    repeat match goal with
    | |- context [Nat.eqb ?a ?b] => destruct (Nat.eqb_spec a b); try lia
    end;
      cbn [andb orb]; rewrite ?andb_false_r, ?orb_false_r, ?andb_true_r; cbn [andb orb];
      destruct w as [| c' [| c'' [| c''' [| c'''' w]]]]; cbn [multi_byte_form];
      rewrite ?andb_false_r, ?orb_false_r, ?andb_true_r, ?andb_assoc; try reflexivity.
Qed.

End MultiByteLanguage.

Lemma multi_byte_edges_inside (from to n : nat) :
  Forall (inside from to n (6 + n)) (multi_byte_edges from to n).
Proof.
  unfold multi_byte_edges, inside.
  repeat (apply Forall_cons;
          [cbn [edge_from edge_target];
           split; (first [left; reflexivity | right; lia]) |]).
  apply Forall_nil.
Qed.

(** Every code point from U+0080 on is encoded in that form. *)
Lemma utf8_encoding_multi_byte_form (cp : Z) :
  0x80 <= cp <= 0x10FFFF -> multi_byte_form (utf8_encoding cp) = true.
Proof.
  intros H. unfold utf8_encoding.
  pose proof (Z.mod_pos_bound cp 64 ltac:(lia)) as M1.
  pose proof (Z.mod_pos_bound (cp / 64) 64 ltac:(lia)) as M2.
  pose proof (Z.mod_pos_bound (cp / 4096) 64 ltac:(lia)) as M3.
  assert (Q1 : 0 <= cp / 64) by (apply Z.div_pos; lia).
  assert (Q2 : 0 <= cp / 4096) by (apply Z.div_pos; lia).
  assert (Q3 : 0 <= cp / 262144 < 5)
    by (split; [apply Z.div_pos; lia | apply Z.div_lt_upper_bound; lia]).
  destruct (Z.ltb_spec cp 0x80); [lia |].
  destruct (Z.ltb_spec cp 0x800) as [Hlt | _].
  - assert (cp / 64 < 32) by (apply Z.div_lt_upper_bound; lia).
    cbn [multi_byte_form]; unfold continuation;
      repeat (apply andb_true_intro; split); apply Z.leb_le; lia.
  - destruct (Z.ltb_spec cp 0x10000) as [Hlt | _].
    + assert (cp / 4096 < 16) by (apply Z.div_lt_upper_bound; lia).
      cbn [multi_byte_form]; unfold continuation;
        repeat (apply andb_true_intro; split); apply Z.leb_le; lia.
    + cbn [multi_byte_form]; unfold continuation;
        repeat (apply andb_true_intro; split); apply Z.leb_le; lia.
Qed.

(** C3, as the code has it.  The bounds of [AddCharacterRange] are
    packed UTF-8 bytes, and its one call passes [kMin2BytesUnicode] and
    [kMax4BytesUnicode].  The call succeeds and adds six states and nine
    edges, which lead from [from] to [to] over a first byte from C0 to
    DF and a continuation byte, or from E0 to EF and two, or from F0 to
    F7 and three.  In an automaton where [from] and [to] are distinct
    states, no edge enters [from] and none leaves [to], what is read from
    [from] to [to] afterwards is what was read before and these byte
    sequences.  The encoding of every code point from U+0080 to U+10FFFF
    is one of them. *)
Theorem negated_class_range (fsm : FSM) (from to : nat) :
  exists fsm',
    AddCharacterRange fsm from to kMin2BytesUnicode kMax4BytesUnicode = Some fsm' /\
    num_states fsm' = (6 + num_states fsm)%nat /\
    edges fsm' = edges fsm ++ multi_byte_edges from to (num_states fsm) /\
    (between from to fsm ->
     forall bytes,
       accepts fsm' to from bytes = accepts fsm to from bytes || multi_byte_form bytes) /\
    (forall cp, 0x80 <= cp <= 0x10FFFF -> multi_byte_form (utf8_encoding cp) = true).
Proof.
  eexists. split; [apply AddMultiByteRange_edges |].
  split; [reflexivity |]. split; [reflexivity |]. split.
  - intros Hbetween bytes. pose proof Hbetween as (Hfrom & Hto & Hne & _).
    erewrite (@accepts_union from to fsm _ _ Hbetween);
      [| reflexivity | apply multi_byte_edges_inside].
    rewrite reads_multi_byte_form by assumption. reflexivity.
  - apply utf8_encoding_multi_byte_form.
Qed.

(** C3, the claim refuted at the call that the code makes: the automaton
    reads C0 80, an over-long form, and F7 BF BF BF, beyond U+10FFFF;
    neither is the encoding of a code point. *)
Lemma multi_byte_range_reads_invalid_forms :
  accepted_by any_multi_byte [0xC0; 0x80] = true /\
  accepted_by any_multi_byte [0xF7; 0xBF; 0xBF; 0xBF] = true /\
  (forall cp, utf8_encoding cp <> [0xC0; 0x80]) /\
  (forall cp, cp <= 0x10FFFF -> utf8_encoding cp <> [0xF7; 0xBF; 0xBF; 0xBF]).
Proof.
  split; [vm_compute; reflexivity |]. split; [vm_compute; reflexivity |]. split.
  - intros cp. unfold utf8_encoding.
    destruct (Z.ltb_spec cp 0x80); [discriminate |].
    destruct (Z.ltb_spec cp 0x800); [| destruct (Z.ltb_spec cp 0x10000); discriminate].
    intros E. apply (f_equal (fun l => hd 0 l)) in E. cbn [hd] in E.
    assert (2 <= cp / 64) by (apply Z.div_le_lower_bound; lia). lia.
  - intros cp Hcp. unfold utf8_encoding.
    destruct (Z.ltb_spec cp 0x80); [discriminate |].
    destruct (Z.ltb_spec cp 0x800); [discriminate |].
    destruct (Z.ltb_spec cp 0x10000); [discriminate |].
    intros E. apply (f_equal (fun l => hd 0 l)) in E. cbn [hd] in E.
    assert (cp / 262144 < 5) by (apply Z.div_lt_upper_bound; lia). lia.
Qed.

(** ** compiler.cc: what the token loop keeps *)

Local Open Scope Z_scope.
Import TokenLoopShape.

Import TokenMask.
Local Open Scope Z_scope.
Local Open Scope list_scope.

Import LookaheadRuns.

Section ParserIsRestored.

Variable Parser : Type.
Variable Advance : Parser -> ascii -> option Parser.
Variable IsCompleted : Parser -> bool.
Variable PushStateAndExpand : Parser -> Z -> Parser.
Variable PopLastStates : Parser -> Z -> Parser.
Variable lookahead_assertion_id : Z.
Variable is_exact_lookahead : bool.
Variable sorted_decoded_vocab : list (Z * Token).
Variable subtree_nodes_range : list Z.
Variable possible_intervals : list (Z * Z).
Variable possible_token_num : Z.
Variable speculative_calculation : bool.
Variable speculative_mask : ascii -> bool.
Variable definite_accepted_bitset : option (Z -> bool).
Variable USE_BITSET_THRESHOLD : Z.

(** The state sets of the parser are a stack: a byte that is read and
    the look-ahead state push one set, [PopLastStates] pops. *)
Hypothesis pop_none : forall p, PopLastStates p 0 = p.
Hypothesis pop_pop :
  forall p a b, 0 <= a -> 0 <= b ->
  PopLastStates (PopLastStates p a) b = PopLastStates p (a + b).
Hypothesis pop_advance : forall p ch p', Advance p ch = Some p' -> PopLastStates p' 1 = p.
Hypothesis pop_push : forall p id, PopLastStates (PushStateAndExpand p id) 1 = p.

Local Abbreviation pass := (IsTokenPassLookaheadAssertion Advance IsCompleted PushStateAndExpand
                          PopLastStates lookahead_assertion_id).
Local Abbreviation classify' := (classify Advance IsCompleted PushStateAndExpand PopLastStates
                               lookahead_assertion_id is_exact_lookahead subtree_nodes_range).
Local Abbreviation check_token' :=
  (check_token Advance IsCompleted PushStateAndExpand PopLastStates lookahead_assertion_id
     is_exact_lookahead sorted_decoded_vocab subtree_nodes_range possible_token_num
     speculative_calculation speculative_mask definite_accepted_bitset USE_BITSET_THRESHOLD).
Local Abbreviation token_loop' :=
  (token_loop Advance IsCompleted PushStateAndExpand PopLastStates lookahead_assertion_id
     is_exact_lookahead sorted_decoded_vocab subtree_nodes_range possible_token_num
     speculative_calculation speculative_mask definite_accepted_bitset USE_BITSET_THRESHOLD).
Local Abbreviation interval_loop' :=
  (interval_loop Advance IsCompleted PushStateAndExpand PopLastStates lookahead_assertion_id
     is_exact_lookahead sorted_decoded_vocab subtree_nodes_range possible_token_num
     speculative_calculation speculative_mask definite_accepted_bitset USE_BITSET_THRESHOLD).
Local Abbreviation GetTokenMask' :=
  (GetTokenMaskWithFirstCharacterCheck Advance IsCompleted PushStateAndExpand PopLastStates
     lookahead_assertion_id is_exact_lookahead sorted_decoded_vocab subtree_nodes_range
     possible_intervals possible_token_num speculative_calculation speculative_mask
     definite_accepted_bitset USE_BITSET_THRESHOLD).

(** The inner loop has pushed one set per byte it has read. *)
Lemma lookahead_scan_pops (tail : Token) :
  forall (p : Parser) (pos : Z),
    match lookahead_scan Advance IsCompleted p tail pos (pos - 1) with
    | Completed pos' p' => pos <= pos' /\ PopLastStates p' (pos' - pos + 1) = p
    | Stopped last_accept_pos p' =>
        pos - 1 <= last_accept_pos /\ PopLastStates p' (last_accept_pos - pos + 1) = p
    end.
Proof.
  induction tail as [| ch tail IH]; intros p pos; cbn [lookahead_scan].
  - split; [lia |]. replace (pos - 1 - pos + 1) with 0 by lia. apply pop_none.
  - destruct (Advance p ch) as [p1 |] eqn:Hadv.
    + destruct (IsCompleted p1).
      * split; [lia |]. replace (pos - pos + 1) with 1 by lia. eapply pop_advance; eauto.
      * specialize (IH p1 (pos + 1)). replace (pos + 1 - 1) with pos in IH by lia.
        destruct (lookahead_scan Advance IsCompleted p1 tail (pos + 1) pos)
          as [pos' p' | last p']; destruct IH as [Hle Hpop]; (split; [lia |]).
        -- replace (pos' - pos + 1) with ((pos' - (pos + 1) + 1) + 1) by lia.
           rewrite <- pop_pop by lia. rewrite Hpop. eapply pop_advance; eauto.
        -- replace (last - pos + 1) with ((last - (pos + 1) + 1) + 1) by lia.
           rewrite <- pop_pop by lia. rewrite Hpop. eapply pop_advance; eauto.
    + split; [lia |]. replace (pos - 1 - pos + 1) with 0 by lia. apply pop_none.
Qed.

Lemma lookahead_positions_pops (token : Token) (can_reach_end_stack : list bool)
    (p : Parser) (n : nat) :
  forall p1, PopLastStates p1 1 = p ->
  snd (lookahead_positions Advance IsCompleted PopLastStates token can_reach_end_stack n p1)
  = p.
Proof.
  induction n as [| n IH]; intros p1 Hp1; cbn [lookahead_positions].
  - exact Hp1.
  - destruct (negb (nth n can_reach_end_stack false)); [apply IH; exact Hp1 |].
    pose proof (lookahead_scan_pops (skipn n token) p1 (Z.of_nat n)) as Hscan.
    destruct (lookahead_scan Advance IsCompleted p1 (skipn n token) (Z.of_nat n)
                (Z.of_nat n - 1)) as [pos p' | last p']; destruct Hscan as [Hle Hpop].
    + cbn [snd]. replace (pos - Z.of_nat n + 2) with ((pos - Z.of_nat n + 1) + 1) by lia.
      rewrite <- pop_pop by lia. rewrite Hpop. exact Hp1.
    + destruct (last =? Z.of_nat (List.length token) - 1).
      * cbn [snd]. replace (last - Z.of_nat n + 2) with ((last - Z.of_nat n + 1) + 1) by lia.
        rewrite <- pop_pop by lia. rewrite Hpop. exact Hp1.
      * apply IH. rewrite Hpop. exact Hp1.
Qed.

Lemma pass_pops (token : Token) (can_reach_end_stack : list bool) (p : Parser) :
  snd (pass token can_reach_end_stack p) = p.
Proof.
  unfold IsTokenPassLookaheadAssertion.
  destruct (lookahead_assertion_id =? -1); [reflexivity |].
  destruct (IsCompleted (PushStateAndExpand p lookahead_assertion_id)).
  - cbn [snd]. apply pop_push.
  - apply lookahead_positions_pops. apply pop_push.
Qed.

(** X15: whatever the outcome of the look-ahead check, the parser is
    left in the state the check found it in: the sets pushed for the
    look-ahead state and for the bytes read are all popped. *)
Theorem IsTokenPassLookaheadAssertion_restores_the_parser (token : Token)
    (can_reach_end_stack : list bool) (p : Parser) :
  snd (pass token can_reach_end_stack p) = p.
Proof. apply pass_pops. Qed.

(** *** What the look-ahead check returns *)

Local Abbreviation run_ends := (run_ends Advance IsCompleted).
Local Abbreviation decides := (decides Advance IsCompleted).
Local Abbreviation lookahead_accepts := (lookahead_accepts Advance IsCompleted).

Lemma run_ends_once (p : Parser) (tail : Token) (c : bool) :
  run_ends p tail c -> forall c', run_ends p tail c' -> c' = c.
Proof.
  induction 1 as [p | p p' ch tail Hadv Hdone | p p' ch tail c Hadv Hopen Hrun IH];
    intros c' Hrun'; inversion Hrun'; subst; try reflexivity; try congruence.
  apply IH. congruence.
Qed.

(** The inner loop finds the end of the run: it returns at the byte
    that completes the parser, stops after the last byte when no byte
    does, and stops before it when a byte cannot be read. *)
Lemma lookahead_scan_run (tail : Token) :
  forall (p : Parser) (pos : Z),
    match lookahead_scan Advance IsCompleted p tail pos (pos - 1) with
    | Completed _ _ => run_ends p tail true
    | Stopped last_accept_pos _ =>
        (last_accept_pos = pos + Z.of_nat (List.length tail) - 1 /\ run_ends p tail false) \/
        (last_accept_pos < pos + Z.of_nat (List.length tail) - 1 /\
         forall c, ~ run_ends p tail c)
    end.
Proof.
  induction tail as [| ch tail IH]; intros p pos; cbn [lookahead_scan].
  - left. split; [cbn; lia | constructor].
  - destruct (Advance p ch) as [p1 |] eqn:Hadv.
    + destruct (IsCompleted p1) eqn:Hdone.
      * eapply run_completes; eassumption.
      * specialize (IH p1 (pos + 1)). replace (pos + 1 - 1) with pos in IH by lia.
        destruct (lookahead_scan Advance IsCompleted p1 tail (pos + 1) pos)
          as [pos' p' | last p'].
        -- eapply run_goes_on; eassumption.
        -- destruct IH as [[Hlast Hrun] | [Hlast Hnone]].
           ++ left. split; [cbn [List.length]; lia |]. eapply run_goes_on; eassumption.
           ++ right. split; [cbn [List.length]; lia |].
              intros c Hrun. inversion Hrun; subst; try congruence.
              apply (Hnone c). congruence.
    + right. split; [cbn [List.length]; lia |].
      intros c Hrun. inversion Hrun; congruence.
Qed.

Section Positions.

Variable token : Token.
Variable can_reach_end_stack : list bool.
Variable p1 : Parser.

Hypothesis stack_within_token :
  (List.length can_reach_end_stack <= S (List.length token))%nat.

Local Abbreviation positions :=
  (lookahead_positions Advance IsCompleted PopLastStates token can_reach_end_stack).

(** The outer loop, from position [m] down, with every end position
    from [m] on given up. *)
Lemma lookahead_positions_decide (m : nat) :
  (m <= List.length can_reach_end_stack)%nat ->
  (forall n', (m <= n' < List.length can_reach_end_stack)%nat ->
              nth n' can_reach_end_stack false = true ->
              forall c, ~ run_ends p1 (skipn n' token) c) ->
  forall completes,
    fst (positions m p1) = (true, completes) <->
    exists n, (n < m)%nat /\ decides p1 token can_reach_end_stack completes n.
Proof.
  induction m as [| m IH]; intros Hm Habove completes; cbn [lookahead_positions].
  - cbn [fst]. split; [discriminate | intros (n & Hn & _); lia].
  - assert (Hgoes_on :
      (forall c, ~ run_ends p1 (skipn m token) c) \/
      nth m can_reach_end_stack false = false ->
      (fst (positions m p1) = (true, completes) <->
       exists n, (n < S m)%nat /\ decides p1 token can_reach_end_stack completes n)).
    { intros Hnone. rewrite IH; [| lia |].
      - split; intros (n & Hn & Hdec); exists n; (split; [| exact Hdec]); [lia |].
        destruct (Nat.eq_dec n m) as [-> | Hne]; [| lia].
        destruct Hdec as (_ & Hflag & Hrun & _).
        destruct Hnone as [Hnone | Hnone]; [destruct (Hnone _ Hrun) | congruence].
      - intros n' Hn' Hflag. destruct (Nat.eq_dec n' m) as [-> | Hne].
        + destruct Hnone as [Hnone | Hnone]; [exact Hnone | congruence].
        + apply Habove; [lia | exact Hflag]. }
    assert (Hhere : forall c,
      nth m can_reach_end_stack false = true ->
      run_ends p1 (skipn m token) c ->
      ((true, c) = (true, completes) <->
       exists n, (n < S m)%nat /\ decides p1 token can_reach_end_stack completes n)).
    { intros c Hflag Hrun. split.
      - intros [= <-]. exists m. split; [lia |].
        split; [lia |]. split; [exact Hflag |]. split; [exact Hrun |].
        intros n' Hn'. apply Habove. lia.
      - intros (n & Hn & Hlt & Hflag' & Hrun' & Hlast).
        destruct (Nat.eq_dec n m) as [-> | Hne].
        + rewrite (run_ends_once Hrun Hrun'). reflexivity.
        + destruct (@Hlast m ltac:(lia) Hflag c Hrun). }
    destruct (nth m can_reach_end_stack false) eqn:Hflag; cbn [negb].
    + pose proof (lookahead_scan_run (skipn m token) p1 (Z.of_nat m)) as Hrun.
      pose proof (lookahead_scan_pops (skipn m token) p1 (Z.of_nat m)) as Hpops.
      assert (Hlen : Z.of_nat m + Z.of_nat (List.length (skipn m token))
                     = Z.of_nat (List.length token)).
      { rewrite length_skipn. lia. }
      destruct (lookahead_scan Advance IsCompleted p1 (skipn m token) (Z.of_nat m)
                  (Z.of_nat m - 1)) as [pos p' | last p'].
      * cbn [fst]. apply Hhere; [reflexivity | exact Hrun].
      * destruct (Z.eqb_spec last (Z.of_nat (List.length token) - 1)) as [Hend | Hgives_up].
        -- cbn [fst]. apply Hhere; [reflexivity |].
           destruct Hrun as [[_ Hrun] | [Hlast _]]; [exact Hrun | lia].
        -- destruct Hpops as [_ ->]. apply Hgoes_on. left.
           destruct Hrun as [[Hlast _] | [_ Hnone]]; [lia | exact Hnone].
    + apply Hgoes_on. right. reflexivity.
Qed.

End Positions.

(** The answer of the check, for a rule with a look-ahead. *)
Lemma pass_accepts (token : Token) (can_reach_end_stack : list bool) (p : Parser)
    (completes : bool) :
  lookahead_assertion_id <> -1 ->
  (List.length can_reach_end_stack <= S (List.length token))%nat ->
  fst (pass token can_reach_end_stack p) = (true, completes) <->
  lookahead_accepts (PushStateAndExpand p lookahead_assertion_id) token can_reach_end_stack
    completes.
Proof.
  intros Hid Hlen. unfold IsTokenPassLookaheadAssertion, LookaheadRuns.lookahead_accepts.
  destruct (Z.eqb_spec lookahead_assertion_id (-1)) as [E | _]; [contradiction |].
  destruct (IsCompleted (PushStateAndExpand p lookahead_assertion_id)) eqn:Hdone.
  - cbn [fst]. split.
    + intros [= <-]. left. split; reflexivity.
    + intros [[_ ->] | [Hopen _]]; [reflexivity | discriminate].
  - rewrite (@lookahead_positions_decide token can_reach_end_stack
               (PushStateAndExpand p lookahead_assertion_id) Hlen
               (List.length can_reach_end_stack) (Nat.le_refl _)); [| intros n' Hn'; lia].
    split.
    + intros (n & _ & Hdec). right. split; [reflexivity |]. exists n. exact Hdec.
    + intros [[Hclosed _] | [_ (n & Hdec)]]; [discriminate |].
      exists n. split; [apply Hdec | exact Hdec].
Qed.

(** C1, as the code has it.  For a non-root state of a rule with a
    look-ahead and a token that the parser rejected after a byte at which
    the rule could end, when the stack of end flags is no longer than the
    token by more than its first entry: the check returns (accepted,
    completed) exactly when the look-ahead is completed at once, or the
    last end position whose run ends has a run that completes, or that
    reads the tail of the token to its last byte without completing; and
    then the token is pushed to the uncertain indices when the
    look-ahead completed or is not exact, and to the accepted indices and
    the indices accepted by look-ahead when it did not complete and is
    exact.  Nothing is rejected, and the loop goes on with the next
    token. *)
Theorem lookahead_classification (i : Z) (token : Token) (l : Loop Parser)
    (completes : bool) :
  lookahead_assertion_id <> -1 ->
  last (tmp_can_reach_end_prefix_or_stack_ (matcher l)) false = true ->
  prev_matched_size l > 0 ->
  (List.length (tmp_can_reach_end_stack_ (matcher l)) <= S (List.length token))%nat ->
  let p1 := PushStateAndExpand (parser (matcher l)) lookahead_assertion_id in
  let stack := tmp_can_reach_end_stack_ (matcher l) in
  (fst (pass token stack (parser (matcher l))) = (true, completes) <->
   lookahead_accepts p1 token stack completes) /\
  (lookahead_accepts p1 token stack completes ->
   let m := matcher l in
   let m' := matcher (fst (classify' false i token false l)) in
   snd (classify' false i token false l) = i /\
   tmp_rejected_indices_ m' = tmp_rejected_indices_ m /\
   tmp_rejected_by_lookahead_indices_ m' = tmp_rejected_by_lookahead_indices_ m /\
   if completes || negb is_exact_lookahead then
     tmp_uncertain_indices_ m' = tmp_uncertain_indices_ m ++ [i] /\
     tmp_accepted_indices_ m' = tmp_accepted_indices_ m /\
     tmp_accepted_by_lookahead_indices_ m' = tmp_accepted_by_lookahead_indices_ m
   else
     tmp_accepted_indices_ m' = tmp_accepted_indices_ m ++ [i] /\
     tmp_accepted_by_lookahead_indices_ m' = tmp_accepted_by_lookahead_indices_ m ++ [i] /\
     tmp_uncertain_indices_ m' = tmp_uncertain_indices_ m).
Proof.
  intros Hid Hreach Hmatched Hlen. cbv zeta.
  pose proof (@pass_accepts token (tmp_can_reach_end_stack_ (matcher l)) (parser (matcher l))
                completes Hid Hlen) as Hpass.
  split; [exact Hpass |]. intros Haccepts. apply Hpass in Haccepts.
  unfold classify. rewrite Hreach.
  replace (prev_matched_size l >? 0) with true by (symmetry; apply Z.gtb_lt; lia).
  cbn [andb negb].
  destruct (pass token (tmp_can_reach_end_stack_ (matcher l)) (parser (matcher l)))
    as [[la lc] p'].
  cbn [fst] in Haccepts. injection Haccepts as -> ->. cbn [negb andb].
  destruct (completes || negb is_exact_lookahead); cbn; repeat split; reflexivity.
Qed.

(** *** The parser during the token loop *)

Local Abbreviation ahead_of := (ahead_of PopLastStates).

Lemma lcp_len_nonneg (token prev : Token) : 0 <= lcp_len token prev.
Proof.
  revert prev. induction token as [| a token IH]; intros [| b prev]; cbn [lcp_len]; try lia.
  destruct (Ascii.eqb a b); [specialize (IH prev) |]; lia.
Qed.

Lemma common_prefix_step_ahead (p0 : Parser) (token : Token) (l : Loop Parser) :
  ahead_of p0 l -> ahead_of p0 (snd (common_prefix_step PopLastStates token l)).
Proof.
  intros [Hsize Hpop]. unfold common_prefix_step.
  destruct (prev_token l) as [prev |]; [| split; assumption].
  pose proof (lcp_len_nonneg token prev) as Hlcp.
  cbn [snd]. unfold ahead_of. cbn [prev_matched_size matcher].
  destruct (Z.gtb_spec (lcp_len token prev) (prev_matched_size l)).
  - rewrite Z.min_l by lia. split; assumption.
  - destruct (Z.ltb_spec (lcp_len token prev) (prev_matched_size l)).
    + rewrite Z.min_r by lia. split; [lia |].
      unfold rollback. cbn [parser]. rewrite pop_pop by lia.
      replace (prev_matched_size l - lcp_len token prev + lcp_len token prev)
        with (prev_matched_size l) by lia.
      exact Hpop.
    + rewrite Z.min_l by lia. split; assumption.
Qed.

Lemma advance_rest_ahead (p0 : Parser) (rest : Token) :
  forall (j : Z) (l : Loop Parser),
    prev_matched_size l = j -> ahead_of p0 l ->
    ahead_of p0 (snd (advance_rest Advance IsCompleted rest j l)).
Proof.
  induction rest as [| ch rest IH]; intros j l Hj Hl; cbn [advance_rest]; [exact Hl |].
  destruct (Advance (parser (matcher l)) ch) as [p' |] eqn:Hadv; [| exact Hl].
  apply IH; [reflexivity |].
  destruct Hl as [Hsize Hpop]. unfold ahead_of. cbn [prev_matched_size matcher].
  unfold push_reach. cbn [parser]. split; [lia |].
  replace (j + 1) with (1 + j) by lia. rewrite <- pop_pop by lia.
  rewrite (pop_advance Hadv). rewrite <- Hj. exact Hpop.
Qed.

Lemma match_token_ahead (p0 : Parser) (token : Token) (l : Loop Parser) :
  ahead_of p0 l ->
  ahead_of p0 (snd (match_token Advance IsCompleted PopLastStates token l)).
Proof.
  intros Hl. unfold match_token.
  pose proof (common_prefix_step_ahead token Hl) as Hstep.
  destruct (common_prefix_step PopLastStates token l) as [accepted l1]. cbn [snd] in Hstep.
  destruct accepted.
  - apply advance_rest_ahead; [reflexivity | exact Hstep].
  - exact Hstep.
Qed.

Lemma classify_ahead (p0 : Parser) (is_root_rule : bool) (i : Z) (token : Token)
    (accepted : bool) (l : Loop Parser) :
  ahead_of p0 l -> ahead_of p0 (fst (classify' is_root_rule i token accepted l)).
Proof.
  intros Hl. unfold classify.
  destruct accepted; [exact Hl |].
  destruct (last (tmp_can_reach_end_prefix_or_stack_ (matcher l)) false
            && (prev_matched_size l >? 0)); [| exact Hl].
  pose proof (pass_pops token (tmp_can_reach_end_stack_ (matcher l)) (parser (matcher l)))
    as Hpass.
  destruct (pass token (tmp_can_reach_end_stack_ (matcher l)) (parser (matcher l)))
    as [[lookahead_accepted lookahead_completed] p'].
  cbn [snd] in Hpass. subst p'.
  destruct (negb is_root_rule && lookahead_accepted);
    [destruct (lookahead_completed || negb is_exact_lookahead) |]; exact Hl.
Qed.

Lemma check_token_ahead (p0 : Parser) (is_root_rule : bool) (i : Z) (l : Loop Parser) :
  ahead_of p0 l -> ahead_of p0 (fst (check_token' is_root_rule i l)).
Proof.
  intros Hl. unfold check_token.
  destruct (i <? last_rejected_range l).
  - cbn [fst]. destruct (fill_reject_indices _ _ _); exact Hl.
  - destruct (speculative_accepts _ _ _ _ _); [exact Hl |].
    pose proof (match_token_ahead (token_at sorted_decoded_vocab i) Hl) as Hstep.
    destruct (match_token Advance IsCompleted PopLastStates (token_at sorted_decoded_vocab i) l)
      as [accepted l1].
    apply classify_ahead. exact Hstep.
Qed.

Lemma token_loop_ahead (p0 : Parser) (is_root_rule : bool) (second : Z) (n : nat) :
  forall (i : Z) (l l' : Loop Parser),
    ahead_of p0 l -> token_loop' is_root_rule n second i l = Some l' -> ahead_of p0 l'.
Proof.
  induction n as [| n IH]; intros i l l' Hl Hrun; cbn [token_loop] in Hrun.
  - destruct (i <? second); [discriminate | congruence].
  - destruct (i <? second); [| congruence].
    pose proof (@check_token_ahead p0 is_root_rule i l Hl) as Hstep.
    destruct (check_token' is_root_rule i l) as [l1 i1]. eapply IH; eauto.
Qed.

Lemma interval_loop_ahead (p0 : Parser) (is_root_rule : bool) (intervals : list (Z * Z)) :
  forall l l' : Loop Parser,
    ahead_of p0 l -> interval_loop' is_root_rule intervals l = Some l' -> ahead_of p0 l'.
Proof.
  induction intervals as [| interval rest IH]; intros l l' Hl Hrun; cbn [interval_loop] in Hrun.
  - congruence.
  - destruct (token_loop' is_root_rule (Z.to_nat (snd interval - fst interval))
                (snd interval) (fst interval) l) as [l1 |] eqn:Hloop; [| discriminate].
    apply token_loop_ahead with (p0 := p0) in Hloop; [| exact Hl].
    eapply IH; [| exact Hrun].
    destruct rest as [| next_interval rest']; [exact Hloop |].
    destruct (fill_reject_indices _ _ _); exact Hloop.
Qed.

(** X16: when the token loop is over, the parser is back in the state
    it was given: the bytes it has read for the last token are popped,
    and the look-ahead checks have left nothing behind. *)
Theorem GetTokenMask_restores_the_parser (is_root_rule : bool) (m m' : Matcher Parser)
    (rejected_filled : bool) :
  GetTokenMask' is_root_rule m = Some (rejected_filled, m') -> parser m' = parser m.
Proof.
  unfold GetTokenMaskWithFirstCharacterCheck.
  destruct possible_intervals as [| first_interval rest] eqn:Hintervals; [discriminate |].
  rewrite <- Hintervals.
  match goal with
  | |- context [interval_loop' is_root_rule possible_intervals ?l0] =>
      destruct (interval_loop' is_root_rule possible_intervals l0) as [l |] eqn:Hloop;
      [| discriminate];
      apply interval_loop_ahead with (p0 := parser m) in Hloop
  end.
  - intros Hrun. injection Hrun as _ <-. destruct Hloop as [_ Hpop].
    destruct (negb (snd (last possible_intervals first_interval)
                    =? Z.of_nat (List.length sorted_decoded_vocab))
              && fill_reject_indices _ _ _); exact Hpop.
  - split; [cbn; lia |]. cbn [prev_matched_size matcher].
    rewrite pop_none.
    destruct (negb (fst first_interval =? 0) && fill_reject_indices _ _ _); reflexivity.
Qed.

End ParserIsRestored.

(** *** Every token is classified once *)

Lemma range_nil (a b : Z) : b <= a -> range a b = [].
Proof. intros H. unfold range. replace (Z.to_nat (b - a)) with O by lia. reflexivity. Qed.

Lemma map_seq_from (len : nat) :
  forall (a : Z) (s : nat),
    map (fun k => a + Z.of_nat k) (seq s len)
    = map (fun k => a + Z.of_nat s + Z.of_nat k) (seq 0 len).
Proof.
  induction len as [| len IH]; intros a s; [reflexivity |].
  cbn [seq map]. f_equal; [lia |].
  rewrite (IH a (S s)), (IH (a + Z.of_nat s) 1%nat).
  apply map_ext. intros k. lia.
Qed.

Lemma range_split (a b c : Z) : a <= b <= c -> range a c = range a b ++ range b c.
Proof.
  intros H. unfold range.
  replace (Z.to_nat (c - a)) with (Z.to_nat (b - a) + Z.to_nat (c - b))%nat by lia.
  rewrite seq_app, map_app. f_equal.
  rewrite map_seq_from. apply map_ext. intros k. lia.
Qed.

Lemma range_single (i : Z) : range i (i + 1) = [i].
Proof.
  unfold range. replace (Z.to_nat (i + 1 - i)) with 1%nat by lia.
  cbn [seq map]. f_equal. lia.
Qed.

Section TokenLoopCovers.

Variable Parser : Type.
Variable Advance : Parser -> ascii -> option Parser.
Variable IsCompleted : Parser -> bool.
Variable PushStateAndExpand : Parser -> Z -> Parser.
Variable PopLastStates : Parser -> Z -> Parser.
Variable lookahead_assertion_id : Z.
Variable is_exact_lookahead : bool.
Variable sorted_decoded_vocab : list (Z * Token).
Variable subtree_nodes_range : list Z.
Variable possible_intervals : list (Z * Z).
Variable possible_token_num : Z.
Variable speculative_calculation : bool.
Variable speculative_mask : ascii -> bool.
Variable definite_accepted_bitset : option (Z -> bool).
Variable USE_BITSET_THRESHOLD : Z.

Hypothesis rejected_are_filled :
  fill_reject_indices sorted_decoded_vocab possible_token_num USE_BITSET_THRESHOLD = true.

Local Abbreviation pass := (IsTokenPassLookaheadAssertion Advance IsCompleted PushStateAndExpand
                          PopLastStates lookahead_assertion_id).
Local Abbreviation classify' := (classify Advance IsCompleted PushStateAndExpand PopLastStates
                               lookahead_assertion_id is_exact_lookahead subtree_nodes_range).
Local Abbreviation check_token' :=
  (check_token Advance IsCompleted PushStateAndExpand PopLastStates lookahead_assertion_id
     is_exact_lookahead sorted_decoded_vocab subtree_nodes_range possible_token_num
     speculative_calculation speculative_mask definite_accepted_bitset USE_BITSET_THRESHOLD).
Local Abbreviation token_loop' :=
  (token_loop Advance IsCompleted PushStateAndExpand PopLastStates lookahead_assertion_id
     is_exact_lookahead sorted_decoded_vocab subtree_nodes_range possible_token_num
     speculative_calculation speculative_mask definite_accepted_bitset USE_BITSET_THRESHOLD).
Local Abbreviation interval_loop' :=
  (interval_loop Advance IsCompleted PushStateAndExpand PopLastStates lookahead_assertion_id
     is_exact_lookahead sorted_decoded_vocab subtree_nodes_range possible_token_num
     speculative_calculation speculative_mask definite_accepted_bitset USE_BITSET_THRESHOLD).
Local Abbreviation GetTokenMask' :=
  (GetTokenMaskWithFirstCharacterCheck Advance IsCompleted PushStateAndExpand PopLastStates
     lookahead_assertion_id is_exact_lookahead sorted_decoded_vocab subtree_nodes_range
     possible_intervals possible_token_num speculative_calculation speculative_mask
     definite_accepted_bitset USE_BITSET_THRESHOLD).
Local Abbreviation subtree_end' := (subtree_end subtree_nodes_range).
Local Abbreviation count' := (count_occ Z.eq_dec).

Lemma occurrences_unfold (m : Matcher Parser) (x : Z) :
  occurrences m x
  = (count' (tmp_accepted_indices_ m) x + count' (tmp_rejected_indices_ m) x
     + count' (tmp_uncertain_indices_ m) x)%nat.
Proof. unfold occurrences, classified. rewrite !count_occ_app. lia. Qed.

Lemma occurrences_push_rejected (js : list Z) (m : Matcher Parser) (x : Z) :
  occurrences (push_rejected js m) x = (occurrences m x + count' js x)%nat.
Proof.
  rewrite !occurrences_unfold. unfold push_rejected.
  cbn [tmp_accepted_indices_ tmp_rejected_indices_ tmp_uncertain_indices_].
  rewrite count_occ_app. lia.
Qed.

Lemma occurrences_set_parser (p : Parser) (m : Matcher Parser) (x : Z) :
  occurrences (set_parser p m) x = occurrences m x.
Proof. reflexivity. Qed.

Lemma advance_rest_classified (rest : Token) :
  forall (j : Z) (l : Loop Parser),
    classified (matcher (snd (advance_rest Advance IsCompleted rest j l)))
    = classified (matcher l).
Proof.
  induction rest as [| ch rest IH]; intros j l; cbn [advance_rest]; [reflexivity |].
  destruct (Advance (parser (matcher l)) ch) as [p' |]; [| reflexivity].
  rewrite IH. reflexivity.
Qed.

Lemma match_token_classified (token : Token) (l : Loop Parser) :
  classified (matcher (snd (match_token Advance IsCompleted PopLastStates token l)))
  = classified (matcher l).
Proof.
  unfold match_token, common_prefix_step.
  destruct (prev_token l) as [prev |].
  - destruct (negb (lcp_len token prev >? prev_matched_size l)); cbn [matcher snd];
      rewrite ?advance_rest_classified; cbn [matcher];
      destruct (lcp_len token prev >? prev_matched_size l); try reflexivity;
      destruct (lcp_len token prev <? prev_matched_size l); reflexivity.
  - rewrite advance_rest_classified. reflexivity.
Qed.

Local Abbreviation covers := (covers subtree_nodes_range).

Ltac count_pushed :=
  let y := fresh "y" in
  intros y; rewrite !occurrences_unfold;
  unfold on_matcher, push_accepted, push_rejected, push_uncertain,
    push_rejected_by_lookahead, push_accepted_by_lookahead, set_parser;
  cbn [matcher tmp_accepted_indices_ tmp_rejected_indices_ tmp_uncertain_indices_];
  rewrite ?count_occ_app; lia.

Lemma classify_covers (is_root_rule : bool) (i : Z) (token : Token) (accepted : bool)
    (l : Loop Parser) :
  i < subtree_end' i ->
  covers l (fst (classify' is_root_rule i token accepted l)) i
    (snd (classify' is_root_rule i token accepted l)).
Proof.
  intros Hfwd. unfold classify, TokenLoopShape.covers. fold (subtree_end' i).
  destruct accepted.
  { cbn [fst snd]. rewrite range_single. repeat split; try lia. count_pushed. }
  destruct (last (tmp_can_reach_end_prefix_or_stack_ (matcher l)) false
            && (prev_matched_size l >? 0)).
  - destruct (pass token (tmp_can_reach_end_stack_ (matcher l)) (parser (matcher l)))
      as [[lookahead_accepted lookahead_completed] p'].
    destruct (negb is_root_rule && lookahead_accepted);
      [destruct (lookahead_completed || negb is_exact_lookahead) |];
      cbn [fst snd]; rewrite ?range_single;
      replace (subtree_end' i - 1 + 1) with (subtree_end' i) by lia;
      (repeat split; try lia); count_pushed.
  - cbn [fst snd]. rewrite range_single. repeat split; try lia. count_pushed.
Qed.

Lemma check_token_covers (is_root_rule : bool) (i : Z) (l : Loop Parser) :
  i < subtree_end' i ->
  covers l (fst (check_token' is_root_rule i l)) i (snd (check_token' is_root_rule i l)).
Proof.
  intros Hfwd. unfold check_token. rewrite rejected_are_filled.
  destruct (i <? last_rejected_range l).
  { unfold TokenLoopShape.covers. fold (subtree_end' i). cbn [fst snd]. rewrite range_single. repeat split; try lia. count_pushed. }
  destruct (speculative_accepts _ _ _ _ _).
  { unfold TokenLoopShape.covers. fold (subtree_end' i). cbn [fst snd]. rewrite range_single. repeat split; try lia. count_pushed. }
  pose proof (match_token_classified (token_at sorted_decoded_vocab i) l) as Hsame.
  destruct (match_token Advance IsCompleted PopLastStates (token_at sorted_decoded_vocab i) l)
    as [accepted l1]. cbn [snd] in Hsame.
  destruct (@classify_covers is_root_rule i (token_at sorted_decoded_vocab i) accepted l1 Hfwd)
    as (H1 & H2 & H3).
  repeat split; try assumption.
  intros x. rewrite H3. unfold occurrences. rewrite Hsame. reflexivity.
Qed.

Lemma token_loop_covers (is_root_rule : bool) (first second : Z) (n : nat) :
  (forall j, first <= j < second -> j < subtree_end' j <= second) ->
  forall (i : Z) (l l' : Loop Parser),
    first <= i <= second ->
    token_loop' is_root_rule n second i l = Some l' ->
    forall x, occurrences (matcher l') x
              = (occurrences (matcher l) x + count' (range i second) x)%nat.
Proof.
  intros Hwithin. induction n as [| n IH]; intros i l l' Hi Hrun x; cbn [token_loop] in Hrun.
  - destruct (Z.ltb_spec i second); [discriminate |].
    injection Hrun as <-. rewrite range_nil by lia. cbn. lia.
  - destruct (Z.ltb_spec i second) as [Hlt | Hge].
    + destruct (Hwithin i ltac:(lia)) as [Hfwd Hend].
      destruct (@check_token_covers is_root_rule i l Hfwd) as (H1 & H2 & H3).
      destruct (check_token' is_root_rule i l) as [l1 i1]. cbn [fst snd] in *.
      unfold subtree_end in Hend.
      rewrite (IH (i1 + 1) l1 l' ltac:(lia) Hrun x), H3.
      rewrite (@range_split i (i1 + 1) second) by lia. rewrite count_occ_app. lia.
    + injection Hrun as <-. rewrite range_nil by lia. cbn. lia.
Qed.

Lemma in_order_last (intervals : list (Z * Z)) :
  forall (lo size : Z) (d : Z * Z),
    in_order lo intervals size -> intervals <> [] ->
    lo <= fst (hd d intervals) <= snd (last intervals d) /\ snd (last intervals d) <= size.
Proof.
  induction intervals as [| interval rest IH]; intros lo size d Horder Hne; [congruence |].
  destruct Horder as (H1 & H2 & H3).
  destruct rest as [| next rest'].
  - cbn in *. lia.
  - specialize (IH (snd interval) size d H3 ltac:(discriminate)).
    cbn [hd] in *. change (last (interval :: next :: rest') d) with (last (next :: rest') d).
    lia.
Qed.

Lemma interval_loop_covers (is_root_rule : bool) (size : Z) (intervals : list (Z * Z)) :
  forall (lo : Z) (l l' : Loop Parser) (d : Z * Z),
    in_order lo intervals size -> subtrees_within subtree_nodes_range intervals ->
    intervals <> [] ->
    interval_loop' is_root_rule intervals l = Some l' ->
    forall x, occurrences (matcher l') x
              = (occurrences (matcher l) x
                 + count' (range (fst (hd d intervals)) (snd (last intervals d))) x)%nat.
Proof.
  induction intervals as [| interval rest IH]; intros lo l l' d Horder Hwithin Hne Hrun x;
    [congruence |].
  cbn [interval_loop] in Hrun.
  destruct (token_loop' is_root_rule (Z.to_nat (snd interval - fst interval))
              (snd interval) (fst interval) l) as [l1 |] eqn:Hloop; [| discriminate].
  destruct Horder as (H1 & H2 & H3).
  pose proof (@token_loop_covers is_root_rule (fst interval) (snd interval) _
                (Hwithin interval (or_introl eq_refl)) (fst interval) l l1 ltac:(lia) Hloop x)
    as Hhere.
  destruct rest as [| next rest'].
  - cbn [interval_loop] in Hrun. injection Hrun as <-. cbn [hd last]. exact Hhere.
  - rewrite rejected_are_filled in Hrun.
    assert (Hrest : subtrees_within subtree_nodes_range (next :: rest')).
    { intros iv Hiv. apply Hwithin. right. exact Hiv. }
    rewrite (IH (snd interval) _ l' d H3 Hrest ltac:(discriminate) Hrun x).
    destruct (@in_order_last (next :: rest') (snd interval) size d H3 ltac:(discriminate))
      as [Hlast _].
    cbn [hd] in *. change (last (interval :: next :: rest') d) with (last (next :: rest') d).
    rewrite (@range_split (fst interval) (snd interval) (snd (last (next :: rest') d)))
      by lia.
    rewrite (@range_split (snd interval) (fst next) (snd (last (next :: rest') d))) by lia.
    rewrite !count_occ_app.
    assert (Hgap : forall y,
              occurrences (matcher (on_matcher
                (push_rejected (range (snd interval) (fst next))) l1)) y
              = (occurrences (matcher l1) y
                 + count' (range (snd interval) (fst next)) y)%nat)
      by count_pushed.
    rewrite (Hgap x), Hhere. lia.
Qed.

(** X17: when the rejected indices are filled, the token loop puts
    every token of the vocabulary in exactly one of the accepted, the
    rejected and the uncertain indices, provided the intervals follow
    one another and the subtree of a token ends inside its interval. *)
Theorem every_token_is_classified_once (is_root_rule : bool) (m m' : Matcher Parser)
    (rejected_filled : bool) :
  in_order 0 possible_intervals (Z.of_nat (List.length sorted_decoded_vocab)) ->
  subtrees_within subtree_nodes_range possible_intervals ->
  classified m = [] ->
  GetTokenMask' is_root_rule m = Some (rejected_filled, m') ->
  Permutation (classified m') (range 0 (Z.of_nat (List.length sorted_decoded_vocab))).
Proof.
  intros Horder Hwithin Hempty Hrun.
  apply (Permutation_count_occ Z.eq_dec). intros x.
  unfold GetTokenMaskWithFirstCharacterCheck in Hrun.
  destruct possible_intervals as [| first_interval rest] eqn:Hintervals; [discriminate |].
  rewrite <- Hintervals in *. rewrite rejected_are_filled, !andb_true_r in Hrun.
  match type of Hrun with
  | context [interval_loop' is_root_rule possible_intervals ?l0] =>
      destruct (interval_loop' is_root_rule possible_intervals l0) as [l |] eqn:Hloop;
      [| discriminate];
      pose proof (@interval_loop_covers is_root_rule _ possible_intervals 0 l0 l first_interval
                    Horder Hwithin ltac:(rewrite Hintervals; discriminate) Hloop x) as Hcount
  end.
  destruct (@in_order_last possible_intervals 0 _ first_interval Horder
              ltac:(rewrite Hintervals; discriminate)) as [Hlast Hsize].
  assert (Hhd : hd first_interval possible_intervals = first_interval)
    by (rewrite Hintervals; reflexivity).
  rewrite Hhd in *.
  set (size := Z.of_nat (List.length sorted_decoded_vocab)) in *.
  set (back := last possible_intervals first_interval) in *.
  assert (Hnone : occurrences m x = O) by (unfold occurrences; rewrite Hempty; reflexivity).
  assert (Hstart : occurrences (matcher l) x = count' (range 0 (snd back)) x).
  { rewrite Hcount. cbn [matcher].
    rewrite (@range_split 0 (fst first_interval) (snd back)) by lia. rewrite count_occ_app.
    destruct (negb (fst first_interval =? 0)) eqn:Hzero.
    - rewrite occurrences_push_rejected, Hnone. lia.
    - apply negb_false_iff, Z.eqb_eq in Hzero. rewrite Hzero, (@range_nil 0 0), Hnone by lia.
      reflexivity. }
  injection Hrun as _ <-.
  change (count' (classified ?a) x) with (occurrences a x).
  rewrite (@range_split 0 (snd back) size) by lia. rewrite count_occ_app.
  destruct (negb (snd back =? size)) eqn:Hend.
  - rewrite occurrences_push_rejected, occurrences_set_parser, Hstart. reflexivity.
  - apply negb_false_iff, Z.eqb_eq in Hend.
    rewrite occurrences_set_parser, Hstart, Hend, (@range_nil size size) by lia.
    cbn. lia.
Qed.

End TokenLoopCovers.

(** *** The index vectors are sorted *)

Lemma increasing_in_bounds (v : list Z) :
  forall lo hi, increasing_in lo hi v -> lo <= hi.
Proof.
  induction v as [| x rest IH]; intros lo hi H; cbn [increasing_in] in H; [exact H |].
  destruct H as [Hx Hrest]. apply IH in Hrest. lia.
Qed.

Lemma increasing_in_app (v w : list Z) :
  forall lo mid hi,
    increasing_in lo mid v -> increasing_in mid hi w -> increasing_in lo hi (v ++ w).
Proof.
  induction v as [| x rest IH]; intros lo mid hi Hv Hw; cbn [app increasing_in] in *.
  - clear - Hv Hw. destruct w as [| y w']; cbn [increasing_in] in *; [lia |].
    destruct Hw as [Hy Hw]. split; [lia | exact Hw].
  - destruct Hv as [Hx Hrest]. split; [exact Hx |]. eapply IH; eauto.
Qed.

Lemma increasing_in_range (a b : Z) : a <= b -> increasing_in a b (range a b).
Proof.
  intros H. unfold range.
  remember (Z.to_nat (b - a)) as n eqn:Hn.
  assert (Hb : b = a + Z.of_nat n) by lia. clear Hn H. subst b.
  revert a. induction n as [| n IH]; intros a; [cbn; lia |].
  cbn [seq map increasing_in]. split; [lia |].
  rewrite map_seq_from.
  replace (a + Z.of_nat (S n)) with ((a + 1) + Z.of_nat n) by lia.
  replace (a + Z.of_nat 0 + 1) with (a + 1) by lia.
  specialize (IH (a + 1)).
  erewrite map_ext; [exact IH |]. intros k. cbn. lia.
Qed.

Lemma increasing_in_keep (v : list Z) (i j : Z) :
  increasing_in 0 i v -> i <= j -> increasing_in 0 j v.
Proof.
  intros Hv Hij. rewrite <- (app_nil_r v). apply increasing_in_app with (mid := i); assumption.
Qed.

Lemma increasing_in_push (v : list Z) (i a b j : Z) :
  increasing_in 0 i v -> i <= a -> a <= b -> b <= j ->
  increasing_in 0 j (v ++ range a b).
Proof.
  intros Hv Hia Hab Hbj. apply increasing_in_app with (mid := a).
  - apply increasing_in_keep with (i := i); assumption.
  - rewrite <- (app_nil_r (range a b)). apply increasing_in_app with (mid := b);
      [apply increasing_in_range; exact Hab | exact Hbj].
Qed.

Lemma increasing_in_push1 (v : list Z) (i j : Z) :
  increasing_in 0 i v -> i < j -> increasing_in 0 j (v ++ [i]).
Proof.
  intros Hv Hij. rewrite <- range_single. apply increasing_in_push with (i := i); try lia.
  exact Hv.
Qed.

Section TokenLoopSorts.

Variable Parser : Type.
Variable Advance : Parser -> ascii -> option Parser.
Variable IsCompleted : Parser -> bool.
Variable PushStateAndExpand : Parser -> Z -> Parser.
Variable PopLastStates : Parser -> Z -> Parser.
Variable lookahead_assertion_id : Z.
Variable is_exact_lookahead : bool.
Variable sorted_decoded_vocab : list (Z * Token).
Variable subtree_nodes_range : list Z.
Variable possible_intervals : list (Z * Z).
Variable possible_token_num : Z.
Variable speculative_calculation : bool.
Variable speculative_mask : ascii -> bool.
Variable definite_accepted_bitset : option (Z -> bool).
Variable USE_BITSET_THRESHOLD : Z.

Local Abbreviation pass := (IsTokenPassLookaheadAssertion Advance IsCompleted PushStateAndExpand
                          PopLastStates lookahead_assertion_id).
Local Abbreviation classify' := (classify Advance IsCompleted PushStateAndExpand PopLastStates
                               lookahead_assertion_id is_exact_lookahead subtree_nodes_range).
Local Abbreviation check_token' :=
  (check_token Advance IsCompleted PushStateAndExpand PopLastStates lookahead_assertion_id
     is_exact_lookahead sorted_decoded_vocab subtree_nodes_range possible_token_num
     speculative_calculation speculative_mask definite_accepted_bitset USE_BITSET_THRESHOLD).
Local Abbreviation token_loop' :=
  (token_loop Advance IsCompleted PushStateAndExpand PopLastStates lookahead_assertion_id
     is_exact_lookahead sorted_decoded_vocab subtree_nodes_range possible_token_num
     speculative_calculation speculative_mask definite_accepted_bitset USE_BITSET_THRESHOLD).
Local Abbreviation interval_loop' :=
  (interval_loop Advance IsCompleted PushStateAndExpand PopLastStates lookahead_assertion_id
     is_exact_lookahead sorted_decoded_vocab subtree_nodes_range possible_token_num
     speculative_calculation speculative_mask definite_accepted_bitset USE_BITSET_THRESHOLD).
Local Abbreviation GetTokenMask' :=
  (GetTokenMaskWithFirstCharacterCheck Advance IsCompleted PushStateAndExpand PopLastStates
     lookahead_assertion_id is_exact_lookahead sorted_decoded_vocab subtree_nodes_range
     possible_intervals possible_token_num speculative_calculation speculative_mask
     definite_accepted_bitset USE_BITSET_THRESHOLD).
Local Abbreviation subtree_end' := (subtree_end subtree_nodes_range).

Lemma advance_rest_vectors (rest : Token) :
  forall (j : Z) (l : Loop Parser),
    index_vectors (matcher (snd (advance_rest Advance IsCompleted rest j l)))
    = index_vectors (matcher l).
Proof.
  induction rest as [| ch rest IH]; intros j l; cbn [advance_rest]; [reflexivity |].
  destruct (Advance (parser (matcher l)) ch) as [p' |]; [| reflexivity].
  rewrite IH. reflexivity.
Qed.

Lemma match_token_vectors (token : Token) (l : Loop Parser) :
  index_vectors (matcher (snd (match_token Advance IsCompleted PopLastStates token l)))
  = index_vectors (matcher l).
Proof.
  unfold match_token, common_prefix_step.
  destruct (prev_token l) as [prev |].
  - destruct (negb (lcp_len token prev >? prev_matched_size l)); cbn [matcher snd];
      rewrite ?advance_rest_vectors; cbn [matcher];
      destruct (lcp_len token prev >? prev_matched_size l); try reflexivity;
      destruct (lcp_len token prev <? prev_matched_size l); reflexivity.
  - rewrite advance_rest_vectors. reflexivity.
Qed.

Lemma vectors_in_same (hi : Z) (m m' : Matcher Parser) :
  index_vectors m' = index_vectors m -> vectors_in hi m -> vectors_in hi m'.
Proof.
  unfold index_vectors, vectors_in. intros H. injection H as -> -> -> -> ->. trivial.
Qed.

Lemma vectors_in_keep (i j : Z) (m : Matcher Parser) :
  vectors_in i m -> i <= j -> vectors_in j m.
Proof.
  intros (H1 & H2 & H3 & H4 & H5) Hij.
  repeat split; eapply increasing_in_keep; eauto.
Qed.

Ltac sort_pushed :=
  unfold vectors_in, on_matcher, push_accepted, push_rejected, push_uncertain,
    push_rejected_by_lookahead, push_accepted_by_lookahead, set_parser;
  cbn [matcher tmp_accepted_indices_ tmp_rejected_indices_ tmp_uncertain_indices_
       tmp_rejected_by_lookahead_indices_ tmp_accepted_by_lookahead_indices_];
  repeat split;
  first
    [ eapply increasing_in_push1; [eassumption | lia]
    | eapply increasing_in_push; [eassumption | lia ..]
    | eapply increasing_in_keep; [eassumption | lia] ].

Lemma classify_sorts (is_root_rule : bool) (i : Z) (token : Token) (accepted : bool)
    (l : Loop Parser) :
  i < subtree_end' i -> vectors_in i (matcher l) ->
  i <= snd (classify' is_root_rule i token accepted l) < subtree_end' i /\
  vectors_in (snd (classify' is_root_rule i token accepted l) + 1)
    (matcher (fst (classify' is_root_rule i token accepted l))).
Proof.
  intros Hfwd (H1 & H2 & H3 & H4 & H5). unfold classify.
  destruct accepted; [cbn [fst snd]; split; [lia | sort_pushed] |].
  destruct (last (tmp_can_reach_end_prefix_or_stack_ (matcher l)) false
            && (prev_matched_size l >? 0)).
  - destruct (pass token (tmp_can_reach_end_stack_ (matcher l)) (parser (matcher l)))
      as [[lookahead_accepted lookahead_completed] p'].
    destruct (negb is_root_rule && lookahead_accepted);
      [destruct (lookahead_completed || negb is_exact_lookahead) |];
      cbn [fst snd]; (split; [lia | sort_pushed]).
  - cbn [fst snd]. split; [lia | sort_pushed].
Qed.

Lemma check_token_sorts (is_root_rule : bool) (i : Z) (l : Loop Parser) :
  i < subtree_end' i -> vectors_in i (matcher l) ->
  i <= snd (check_token' is_root_rule i l) < subtree_end' i /\
  vectors_in (snd (check_token' is_root_rule i l) + 1)
    (matcher (fst (check_token' is_root_rule i l))).
Proof.
  intros Hfwd Hl. unfold check_token.
  destruct (i <? last_rejected_range l).
  { destruct Hl as (H1 & H2 & H3 & H4 & H5).
    destruct (fill_reject_indices _ _ _); cbn [fst snd]; (split; [lia | sort_pushed]). }
  destruct (speculative_accepts _ _ _ _ _).
  { destruct Hl as (H1 & H2 & H3 & H4 & H5). cbn [fst snd]. split; [lia | sort_pushed]. }
  pose proof (match_token_vectors (token_at sorted_decoded_vocab i) l) as Hsame.
  destruct (match_token Advance IsCompleted PopLastStates (token_at sorted_decoded_vocab i) l)
    as [accepted l1]. cbn [snd] in Hsame.
  apply classify_sorts; [exact Hfwd |]. eapply vectors_in_same; eauto.
Qed.

Lemma token_loop_sorts (is_root_rule : bool) (first second : Z) (n : nat) :
  (forall j, first <= j < second -> j < subtree_end' j <= second) ->
  forall (i : Z) (l l' : Loop Parser),
    first <= i <= second -> vectors_in i (matcher l) ->
    token_loop' is_root_rule n second i l = Some l' ->
    vectors_in second (matcher l').
Proof.
  intros Hwithin. induction n as [| n IH]; intros i l l' Hi Hl Hrun; cbn [token_loop] in Hrun.
  - destruct (Z.ltb_spec i second); [discriminate |].
    injection Hrun as <-. eapply vectors_in_keep; eauto. lia.
  - destruct (Z.ltb_spec i second) as [Hlt | Hge].
    + destruct (Hwithin i ltac:(lia)) as [Hfwd Hend].
      destruct (@check_token_sorts is_root_rule i l Hfwd Hl) as (H1 & H2).
      destruct (check_token' is_root_rule i l) as [l1 i1]. cbn [fst snd] in *.
      apply (IH (i1 + 1) l1 l'); [lia | exact H2 | exact Hrun].
    + injection Hrun as <-. eapply vectors_in_keep; eauto. lia.
Qed.

Lemma interval_loop_sorts (is_root_rule : bool) (size : Z) (intervals : list (Z * Z)) :
  forall (lo : Z) (l l' : Loop Parser) (d : Z * Z),
    in_order lo intervals size -> subtrees_within subtree_nodes_range intervals ->
    intervals <> [] -> vectors_in (fst (hd d intervals)) (matcher l) ->
    interval_loop' is_root_rule intervals l = Some l' ->
    vectors_in (snd (last intervals d)) (matcher l').
Proof.
  induction intervals as [| interval rest IH]; intros lo l l' d Horder Hwithin Hne Hl Hrun;
    [congruence |].
  cbn [interval_loop] in Hrun.
  destruct (token_loop' is_root_rule (Z.to_nat (snd interval - fst interval))
              (snd interval) (fst interval) l) as [l1 |] eqn:Hloop; [| discriminate].
  destruct Horder as (H1 & H2 & H3). cbn [hd] in Hl.
  pose proof (@token_loop_sorts is_root_rule (fst interval) (snd interval) _
                (Hwithin interval (or_introl eq_refl)) (fst interval) l l1 ltac:(lia) Hl Hloop)
    as Hhere.
  destruct rest as [| next rest'].
  - cbn [interval_loop] in Hrun. injection Hrun as <-. exact Hhere.
  - assert (Hrest : subtrees_within subtree_nodes_range (next :: rest')).
    { intros iv Hiv. apply Hwithin. right. exact Hiv. }
    change (last (interval :: next :: rest') d) with (last (next :: rest') d).
    eapply (IH (snd interval) _ l' d H3 Hrest ltac:(discriminate)); [| exact Hrun].
    cbn [hd]. destruct H3 as (G1 & G2 & G3).
    destruct Hhere as (V1 & V2 & V3 & V4 & V5).
    destruct (fill_reject_indices _ _ _); sort_pushed.
Qed.

(** X18: the five vectors of token indices that the token loop fills
    are sorted, each index greater than the one before and below the
    size of the vocabulary: what [IntsetUnion] and [std::set_difference]
    are then given is sorted. *)
Theorem index_vectors_are_sorted (is_root_rule : bool) (m m' : Matcher Parser)
    (rejected_filled : bool) :
  in_order 0 possible_intervals (Z.of_nat (List.length sorted_decoded_vocab)) ->
  subtrees_within subtree_nodes_range possible_intervals ->
  index_vectors m = ([], [], [], [], []) ->
  GetTokenMask' is_root_rule m = Some (rejected_filled, m') ->
  vectors_in (Z.of_nat (List.length sorted_decoded_vocab)) m'.
Proof.
  intros Horder Hwithin Hempty Hrun.
  unfold GetTokenMaskWithFirstCharacterCheck in Hrun.
  destruct possible_intervals as [| first_interval rest] eqn:Hintervals; [discriminate |].
  rewrite <- Hintervals in *.
  destruct (@in_order_last possible_intervals 0 _ first_interval Horder
              ltac:(rewrite Hintervals; discriminate)) as [Hlast Hsize].
  assert (Hhd : hd first_interval possible_intervals = first_interval)
    by (rewrite Hintervals; reflexivity).
  rewrite Hhd in Hlast.
  assert (Hm : vectors_in 0 m).
  { unfold index_vectors in Hempty. injection Hempty as E1 E2 E3 E4 E5.
    unfold vectors_in. rewrite E1, E2, E3, E4, E5. cbn. lia. }
  match type of Hrun with
  | context [interval_loop' is_root_rule possible_intervals ?l0] =>
      destruct (interval_loop' is_root_rule possible_intervals l0) as [l |] eqn:Hloop;
      [| discriminate];
      apply (@interval_loop_sorts is_root_rule _ possible_intervals 0 l0 l first_interval
               Horder Hwithin ltac:(rewrite Hintervals; discriminate)) in Hloop
  end.
  - injection Hrun as _ <-. destruct Hloop as (V1 & V2 & V3 & V4 & V5).
    destruct (negb (snd (last possible_intervals first_interval)
                    =? Z.of_nat (List.length sorted_decoded_vocab))
              && fill_reject_indices _ _ _); sort_pushed.
  - rewrite Hhd. cbn [matcher]. destruct Hm as (V1 & V2 & V3 & V4 & V5).
    destruct (negb (fst first_interval =? 0) && fill_reject_indices _ _ _); sort_pushed.
Qed.

End TokenLoopSorts.

(** *** The parser of the examples is a stack *)

Lemma literal_pop_pop (p : LiteralParser) (a b : Z) :
  0 <= a -> 0 <= b ->
  literal_PopLastStates (literal_PopLastStates p a) b = literal_PopLastStates p (a + b).
Proof.
  intros Ha Hb. unfold literal_PopLastStates. rewrite skipn_skipn.
  f_equal. lia.
Qed.

Lemma literal_pop_advance (p : LiteralParser) (ch : ascii) (p' : LiteralParser) :
  literal_Advance p ch = Some p' -> literal_PopLastStates p' 1 = p.
Proof.
  unfold literal_Advance. destruct p as [| [| c rest] p0]; try discriminate.
  destruct (Ascii.eqb ch c); [| discriminate]. intros H. injection H as <-. reflexivity.
Qed.

(** The look-ahead "bc" after the rule "a" has read the first byte of
    the token "ab": the run from position 1 reads "b" and the token ends. *)
Lemma bc_reads_the_tail_of_ab :
  lookahead_accepts literal_Advance literal_IsCompleted
    [list_ascii_of_string "bc"; []; list_ascii_of_string "a"]
    (list_ascii_of_string "ab") [false; true] false.
Proof.
  right. split; [reflexivity |]. exists 1%nat.
  split; [cbn; lia |]. split; [reflexivity |]. split.
  - eapply run_goes_on; [reflexivity | reflexivity | constructor].
  - intros n' Hn'. cbn in Hn'. lia.
Qed.

(** C1 at the token "ab" after the rule "a" has matched its first byte,
    with the exact look-ahead "bc". *)
Lemma lookahead_classification_witness :
  let l := sample_after_a in
  let stack := tmp_can_reach_end_stack_ (matcher l) in
  let pass :=
    IsTokenPassLookaheadAssertion literal_Advance literal_IsCompleted
      (literal_PushStateAndExpand (list_ascii_of_string "bc")) literal_PopLastStates 1 in
  let classified :=
    classify literal_Advance literal_IsCompleted
      (literal_PushStateAndExpand (list_ascii_of_string "bc")) literal_PopLastStates
      1 true ab_abc_ranges false 0 (list_ascii_of_string "ab") false l in
  fst (pass (list_ascii_of_string "ab") stack (parser (matcher l))) = (true, false) /\
  snd classified = 0 /\
  tmp_accepted_indices_ (matcher (fst classified)) = [0] /\
  tmp_accepted_by_lookahead_indices_ (matcher (fst classified)) = [0] /\
  tmp_uncertain_indices_ (matcher (fst classified)) = [].
Proof.
  cbv zeta.
  destruct (@lookahead_classification LiteralParser literal_Advance literal_IsCompleted
              (literal_PushStateAndExpand (list_ascii_of_string "bc"))
              literal_PopLastStates 1 true ab_abc_ranges (fun p => eq_refl) literal_pop_pop
              literal_pop_advance 0 (list_ascii_of_string "ab") sample_after_a false
              ltac:(discriminate) eq_refl eq_refl ltac:(cbn; lia))
    as [Hpass Hclass].
  split; [apply Hpass; exact bc_reads_the_tail_of_ab |].
  destruct (Hclass bc_reads_the_tail_of_ab) as (Hi & _ & _ & Hacc & Hby & Hunc).
  split; [exact Hi |]. split; [exact Hacc |]. split; [exact Hby | exact Hunc].
Defined.

Lemma a_then_bc_subtrees : subtrees_within ab_abc_ranges [(0, 2)].
Proof.
  intros interval [<- | []] i Hi. cbn [fst snd] in Hi.
  assert (Hcases : i = 0 \/ i = 1) by lia.
  destruct Hcases as [-> | ->]; vm_compute; (split; [reflexivity | discriminate]).
Qed.

Lemma IsTokenPassLookaheadAssertion_restores_the_parser_witness :
  snd (IsTokenPassLookaheadAssertion literal_Advance literal_IsCompleted
         (literal_PushStateAndExpand (list_ascii_of_string "bc")) literal_PopLastStates 1
         (list_ascii_of_string "ab") [false; true] [[]; list_ascii_of_string "a"])
  = [[]; list_ascii_of_string "a"].
Proof.
  apply (@IsTokenPassLookaheadAssertion_restores_the_parser LiteralParser literal_Advance
           literal_IsCompleted (literal_PushStateAndExpand (list_ascii_of_string "bc"))
           literal_PopLastStates 1 (fun p => eq_refl) literal_pop_pop literal_pop_advance
           (fun p id => eq_refl)).
Defined.

Lemma GetTokenMask_restores_the_parser_witness :
  exists m',
    a_then_bc_check false false = Some (true, m') /\
    parser m' = [list_ascii_of_string "a"].
Proof.
  eexists. split; [reflexivity |].
  eapply (@GetTokenMask_restores_the_parser LiteralParser literal_Advance
            literal_IsCompleted (literal_PushStateAndExpand (list_ascii_of_string "bc"))
            literal_PopLastStates 1 false ab_abc_vocab ab_abc_ranges [(0, 2)] 2 false
            (fun _ => false) None 256 (fun p => eq_refl) literal_pop_pop literal_pop_advance
            (fun p id => eq_refl) false
            (mkMatcher [list_ascii_of_string "a"] [] [] [] [] [] [false] [false])).
  reflexivity.
Defined.

Lemma every_token_is_classified_once_witness :
  exists m',
    a_then_bc_check false false = Some (true, m') /\
    Permutation (classified m') (range 0 2).
Proof.
  eexists. split; [reflexivity |].
  eapply (@every_token_is_classified_once LiteralParser literal_Advance
            literal_IsCompleted (literal_PushStateAndExpand (list_ascii_of_string "bc"))
            literal_PopLastStates 1 false ab_abc_vocab ab_abc_ranges [(0, 2)] 2 false
            (fun _ => false) None 256 eq_refl false
            (mkMatcher [list_ascii_of_string "a"] [] [] [] [] [] [false] [false])).
  - cbn. lia.
  - exact a_then_bc_subtrees.
  - reflexivity.
  - reflexivity.
Defined.

Lemma index_vectors_are_sorted_witness :
  exists m',
    a_then_bc_check true false = Some (true, m') /\ vectors_in 2 m'.
Proof.
  eexists. split; [reflexivity |].
  eapply (@index_vectors_are_sorted LiteralParser literal_Advance
            literal_IsCompleted (literal_PushStateAndExpand (list_ascii_of_string "bc"))
            literal_PopLastStates 1 true ab_abc_vocab ab_abc_ranges [(0, 2)] 2 false
            (fun _ => false) None 256 false
            (mkMatcher [list_ascii_of_string "a"] [] [] [] [] [] [false] [false])).
  - cbn. lia.
  - exact a_then_bc_subtrees.
  - reflexivity.
  - reflexivity.
Defined.

(** ** compiler.cc: the intervals of the first-character check *)

Local Open Scope Z_scope.
Import TokenIntervals.

Import TokenLoopShape.
Import TokenMask.
Local Open Scope Z_scope.
Local Open Scope list_scope.

Section IntervalsInOrder.

Variable sorted_decoded_vocab : list (Z * Token).
Variable first_char_mask : Z -> bool.
Variable lower_bound : Z -> Token -> Z.

Local Abbreviation size := (Z.of_nat (List.length sorted_decoded_vocab)).
Local Abbreviation step := (interval_step first_char_mask lower_bound).

(** [std::lower_bound] returns an iterator of the range it is given. *)
Hypothesis lower_bound_in_range :
  forall start value, 0 <= start <= size -> start <= lower_bound start value <= size.

Lemma in_order_snoc (intervals : list (Z * Z)) :
  forall lo m l r,
    in_order lo intervals m -> m <= l -> l <= r ->
    in_order lo (intervals ++ [(l, r)]) r.
Proof.
  induction intervals as [| interval rest IH]; intros lo m l r Horder Hl Hr;
    cbn [app in_order fst snd] in *.
  - repeat split; lia.
  - destruct Horder as (H1 & H2 & H3). repeat split; try assumption. eapply IH; eauto.
Qed.

Lemma in_order_weaken (intervals : list (Z * Z)) :
  forall lo m m', in_order lo intervals m -> m <= m' -> in_order lo intervals m'.
Proof.
  induction intervals as [| interval rest IH]; intros lo m m' Horder Hm;
    cbn [in_order] in *; [lia |].
  destruct Horder as (H1 & H2 & H3). repeat split; try assumption. eapply IH; eauto.
Qed.

Lemma interval_lengths_snoc (intervals : list (Z * Z)) (l r : Z) :
  interval_lengths (intervals ++ [(l, r)]) = interval_lengths intervals + (r - l).
Proof.
  induction intervals as [| interval rest IH]; cbn [app interval_lengths fold_right fst snd].
  - lia.
  - fold (interval_lengths (rest ++ [(l, r)])). fold (interval_lengths rest). lia.
Qed.

Local Abbreviation counted := (counted sorted_decoded_vocab).

Lemma interval_step_counted (s : IntervalState) (i : Z) :
  counted s -> counted (step s i).
Proof.
  intros (Hm & Horder & Hnum). unfold interval_step.
  destruct (first_char_mask i).
  - destruct (last_interval_end s =? -1); repeat split; assumption || apply Hm.
  - destruct (negb (last_interval_end s =? -1)); [| repeat split; assumption || apply Hm].
    pose proof (lower_bound_in_range (single (last_interval_end s)) Hm) as Hleft.
    pose proof (lower_bound_in_range (single i)
                  (conj (Z.le_trans _ _ _ (proj1 Hm) (proj1 Hleft)) (proj2 Hleft))) as Hright.
    unfold TokenIntervals.counted. cbn [matched_size possible_intervals possible_token_num].
    repeat split; try lia.
    + eapply in_order_snoc; eauto; lia.
    + rewrite interval_lengths_snoc. lia.
Qed.

Lemma fold_counted (indices : list Z) :
  forall s, counted s -> counted (fold_left step indices s).
Proof.
  induction indices as [| i rest IH]; intros s Hs; cbn [fold_left]; [exact Hs |].
  apply IH, interval_step_counted, Hs.
Qed.

Lemma in_order_lengths (intervals : list (Z * Z)) :
  forall lo m, in_order lo intervals m -> 0 <= interval_lengths intervals <= m - lo.
Proof.
  induction intervals as [| interval rest IH]; intros lo m Horder;
    cbn [in_order interval_lengths fold_right] in *; [lia |].
  destruct Horder as (H1 & H2 & H3). apply IH in H3.
  fold (interval_lengths rest). lia.
Qed.

(** X19: the intervals that [GetPossibleTokenIntervals] pushes follow
    one another inside the vocabulary, and the number it returns is the
    number of tokens in them, at most the size of the vocabulary. *)
Theorem GetPossibleTokenIntervals_in_order :
  let result := GetPossibleTokenIntervals sorted_decoded_vocab first_char_mask lower_bound in
  in_order 0 (snd result) size /\
  fst result = interval_lengths (snd result) /\
  0 <= fst result <= size.
Proof.
  unfold GetPossibleTokenIntervals.
  assert (Hinit : counted (mkIntervalState 0 0 (-1) [])).
  { repeat split; cbn; lia. }
  pose proof (fold_counted (range 0 256) Hinit) as (Hm & Horder & Hnum).
  set (s := fold_left step (range 0 256) (mkIntervalState 0 0 (-1) [])) in *.
  assert (Hgoal : forall num intervals,
            in_order 0 intervals size -> num = interval_lengths intervals ->
            in_order 0 intervals size /\ num = interval_lengths intervals /\
            0 <= num <= size).
  { intros num intervals H1 H2. repeat split; try assumption;
      apply in_order_lengths in H1; lia. }
  destruct (negb (last_interval_end s =? -1)); cbn [fst snd]; apply Hgoal.
  - pose proof (lower_bound_in_range (single (last_interval_end s)) Hm) as Hleft.
    eapply in_order_snoc; eauto; lia.
  - rewrite interval_lengths_snoc. lia.
  - eapply in_order_weaken; eauto. lia.
  - exact Hnum.
Qed.

End IntervalsInOrder.

(** *** The intervals hold the tokens whose first byte is allowed *)

Lemma string_ltb_single (b : Z) (token : Token) :
  0 <= b < 256 -> (string_ltb token (single b) = true <-> starts_below b token).
Proof.
  intros Hb. unfold single, starts_below.
  destruct token as [| ch rest]; cbn [string_ltb]; [tauto |].
  rewrite nat_ascii_embedding by lia.
  destruct (Nat.ltb_spec (nat_of_ascii ch) (Z.to_nat b)); [split; [lia | reflexivity] |].
  destruct (Nat.ltb_spec (Z.to_nat b) (nat_of_ascii ch)).
  - split; [discriminate | lia].
  - destruct rest; cbn [string_ltb]; (split; [discriminate | lia]).
Qed.

Lemma starts_below_le (b b' : Z) (token : Token) :
  b <= b' -> starts_below b token -> starts_below b' token.
Proof. destruct token; cbn [starts_below]; [trivial | lia]. Qed.

Lemma starts_below_not_less (b : Z) (x y : Token) :
  string_ltb y x = false -> starts_below b y -> starts_below b x.
Proof.
  destruct x as [| d x'], y as [| c y']; cbn [string_ltb starts_below]; try trivial;
    try discriminate.
  destruct (Nat.ltb_spec (nat_of_ascii c) (nat_of_ascii d)); [discriminate |]. lia.
Qed.

Lemma starts_below_256 (token : Token) : starts_below 256 token.
Proof.
  destruct token as [| ch rest]; cbn [starts_below]; [trivial |].
  pose proof (nat_ascii_bounded ch). lia.
Qed.

Lemma range_cons (a b : Z) : a < b -> range a b = a :: range (a + 1) b.
Proof.
  intros H. rewrite (@range_split a (a + 1) b) by lia. rewrite range_single. reflexivity.
Qed.

Lemma in_intervals_snoc (intervals : list (Z * Z)) (l r j : Z) :
  in_intervals (intervals ++ [(l, r)]) j <-> in_intervals intervals j \/ l <= j < r.
Proof.
  unfold in_intervals. split.
  - intros (interval & Hin & Hj). apply in_app_or in Hin. destruct Hin as [Hin | [<- | []]].
    + left. exists interval. auto.
    + right. exact Hj.
  - intros [(interval & Hin & Hj) | Hj].
    + exists interval. split; [apply in_or_app; left; exact Hin | exact Hj].
    + exists (l, r). split; [apply in_or_app; right; left; reflexivity | exact Hj].
Qed.

Section IntervalsAreExact.

Variable sorted_decoded_vocab : list (Z * Token).
Variable first_char_mask : Z -> bool.
Variable lower_bound : Z -> Token -> Z.

Local Abbreviation size := (Z.of_nat (List.length sorted_decoded_vocab)).
Local Abbreviation step := (interval_step first_char_mask lower_bound).
Local Abbreviation tok := (token_at sorted_decoded_vocab).
Local Abbreviation invariant := (interval_invariant sorted_decoded_vocab first_char_mask).

Hypothesis vocab_is_sorted : vocab_sorted sorted_decoded_vocab.
Hypothesis lower_bound_finds : finds_the_bound sorted_decoded_vocab lower_bound.

Lemma sorted_starts_below (b j k : Z) :
  0 <= j <= k -> k < size -> starts_below b (tok k) -> starts_below b (tok j).
Proof.
  intros Hjk Hk. apply starts_below_not_less. apply vocab_is_sorted; assumption.
Qed.

(** The tokens from a lower bound of [single a] on do not start below
    [a]; the tokens before it do. *)
Lemma from_the_bound (start a j : Z) :
  0 <= start <= size -> 0 <= a < 256 ->
  lower_bound start (single a) <= j < size -> ~ starts_below a (tok j).
Proof.
  intros Hstart Ha Hj Hbelow.
  destruct (lower_bound_finds (single a) Hstart) as (Hrange & _ & Hat).
  specialize (Hat ltac:(lia)).
  apply (@sorted_starts_below a (lower_bound start (single a)) j) in Hbelow; [| lia | lia].
  apply string_ltb_single in Hbelow; [congruence | exact Ha].
Qed.

Lemma before_the_bound (start a j : Z) :
  0 <= start <= size -> 0 <= a < 256 ->
  start <= j < lower_bound start (single a) -> starts_below a (tok j).
Proof.
  intros Hstart Ha Hj.
  destruct (lower_bound_finds (single a) Hstart) as (_ & Hbefore & _).
  apply string_ltb_single; [exact Ha |]. apply Hbefore. exact Hj.
Qed.

Lemma allowed_byte (j : Z) :
  first_char_allowed first_char_mask (tok j) ->
  exists ch rest, tok j = ch :: rest /\
                  first_char_mask (Z.of_nat (nat_of_ascii ch)) = true /\
                  0 <= Z.of_nat (nat_of_ascii ch) < 256.
Proof.
  intros (ch & rest & Htok & Hmask). exists ch, rest.
  pose proof (nat_ascii_bounded ch). repeat split; try assumption; lia.
Qed.

Lemma interval_step_invariant (s : IntervalState) (i : Z) :
  0 <= i < 256 -> invariant i s -> invariant (i + 1) (step s i).
Proof.
  intros Hi Hinv. unfold interval_invariant in Hinv. cbv zeta in Hinv.
  destruct Hinv as (Hrun & Hm & Hbelow & Hexact).
  unfold interval_step, interval_invariant. cbv zeta.
  destruct (first_char_mask i) eqn:Hmask.
  - destruct (Z.eqb_spec (last_interval_end s) (-1)) as [Hlast | Hlast].
    + (* a run starts at [i] *)
      cbn [last_interval_end matched_size possible_intervals].
      destruct (Z.eqb_spec i (-1)); [lia |].
      split; [| split; [exact Hm | split; [exact Hbelow | exact Hexact]]].
      right. split; [lia |]. intros b Hb. replace b with i by lia. exact Hmask.
    + (* the run goes on *)
      destruct (Z.eqb_spec (last_interval_end s) (-1)); [contradiction |].
      destruct Hrun as [Hrun | [Hrange Hall]]; [contradiction |].
      split; [| split; [exact Hm | split; [exact Hbelow | exact Hexact]]].
      right. split; [lia |]. intros b Hb.
      destruct (Z.eq_dec b i) as [-> | Hne]; [exact Hmask | apply Hall; lia].
  - destruct (Z.eqb_spec (last_interval_end s) (-1)) as [Hlast | Hlast]; cbn [negb].
    + (* no run *)
      destruct (Z.eqb_spec (last_interval_end s) (-1)); [| contradiction].
      split; [left; exact Hlast |]. split; [exact Hm |]. split.
      * intros j Hj. apply starts_below_le with (b := i); [lia | apply Hbelow; exact Hj].
      * intros j Hj. rewrite (Hexact j Hj). split.
        -- intros [Hallowed Hhere]. split; [exact Hallowed |].
           apply starts_below_le with (b := i); [lia | exact Hhere].
        -- intros [Hallowed Hnext]. split; [exact Hallowed |].
           destruct (@allowed_byte j Hallowed) as (ch & rest & Htok & Hch & Hbyte).
           rewrite Htok in *. cbn [starts_below] in *.
           assert (Z.of_nat (nat_of_ascii ch) <> i) by congruence. lia.
    + (* the run ends before [i] *)
      destruct Hrun as [Hrun | [Hrange Hall]]; [contradiction |].
      set (a := last_interval_end s) in *.
      set (left := lower_bound (matched_size s) (single a)).
      set (right := lower_bound left (single i)).
      destruct (lower_bound_finds (single a) Hm) as (Hleft & _ & _). fold left in Hleft.
      assert (Hleft' : 0 <= left <= size) by lia.
      destruct (lower_bound_finds (single i) Hleft') as (Hright & _ & _).
      fold right in Hright.
      cbn [last_interval_end matched_size possible_intervals Z.eqb Pos.eqb].
      assert (Hto_right : forall j, 0 <= j < right -> starts_below (i + 1) (tok j)).
      { intros j Hj.
        destruct (Z.lt_ge_cases j (matched_size s)) as [H1 | H1].
        - apply starts_below_le with (b := a); [lia | apply Hbelow; lia].
        - destruct (Z.lt_ge_cases j left) as [H2 | H2].
          + apply starts_below_le with (b := a); [lia |].
            apply (@before_the_bound (matched_size s) a j); [exact Hm | lia | ].
            fold left. lia.
          + apply starts_below_le with (b := i); [lia |].
            apply (@before_the_bound left i j); [exact Hleft' | lia |]. fold right. lia. }
      split; [left; reflexivity |]. split; [lia |]. split; [exact Hto_right |].
      intros j Hj. rewrite in_intervals_snoc. split.
      * intros [Hold | Hnew].
        -- apply Hexact in Hold; [| assumption]. destruct Hold as [Hallowed Hhere].
           split; [exact Hallowed |].
           apply starts_below_le with (b := a); [lia | exact Hhere].
        -- assert (Hnot : ~ starts_below a (tok j)).
           { apply (@from_the_bound (matched_size s) a j); [exact Hm | lia |].
             fold left. lia. }
           pose proof (Hto_right j ltac:(lia)) as Hnext.
           split; [| exact Hnext].
           pose proof (@before_the_bound left i j Hleft' ltac:(lia)) as Hbefore.
           fold right in Hbefore. specialize (Hbefore ltac:(lia)).
           destruct (tok j) as [| ch rest] eqn:Htok; cbn [starts_below] in *; [tauto |].
           exists ch, rest. split; [reflexivity |]. apply Hall. lia.
      * intros [Hallowed Hnext].
        destruct (@allowed_byte j Hallowed) as (ch & rest & Htok & Hch & Hbyte).
        assert (Hlt : Z.of_nat (nat_of_ascii ch) < i).
        { rewrite Htok in Hnext. cbn [starts_below] in Hnext.
          assert (Z.of_nat (nat_of_ascii ch) <> i) by congruence. lia. }
        destruct (Z.lt_ge_cases (Z.of_nat (nat_of_ascii ch)) a) as [Hlow | Hhigh].
        -- left. apply Hexact; [assumption |]. split; [exact Hallowed |].
           rewrite Htok. cbn [starts_below]. exact Hlow.
        -- right. split.
           ++ destruct (Z.lt_ge_cases j left) as [Hbefore | Hafter]; [| lia].
              exfalso.
              assert (Hbelow_a : starts_below a (tok j)).
              { destruct (Z.lt_ge_cases j (matched_size s)) as [H1 | H1].
                - apply Hbelow. lia.
                - apply (@before_the_bound (matched_size s) a j); [exact Hm | lia |].
                  fold left. lia. }
              rewrite Htok in Hbelow_a. cbn [starts_below] in Hbelow_a. lia.
           ++ destruct (Z.lt_ge_cases j right) as [Hbefore | Hafter]; [exact Hbefore |].
              exfalso.
              apply (@from_the_bound left i j Hleft' ltac:(lia)); [fold right; lia |].
              rewrite Htok. cbn [starts_below]. exact Hlt.
Qed.

Lemma fold_invariant (n : nat) :
  forall (i : Z) (s : IntervalState),
    0 <= i -> i + Z.of_nat n <= 256 -> invariant i s ->
    invariant (i + Z.of_nat n) (fold_left step (range i (i + Z.of_nat n)) s).
Proof.
  induction n as [| n IH]; intros i s Hi Hn Hinv.
  - replace (i + Z.of_nat 0) with i by lia. rewrite range_nil by lia. exact Hinv.
  - rewrite range_cons by lia. cbn [fold_left].
    replace (i + Z.of_nat (S n)) with ((i + 1) + Z.of_nat n) by lia.
    apply IH; [lia | lia |]. apply interval_step_invariant; [lia | exact Hinv].
Qed.

(** X20: on a vocabulary sorted by its strings, the intervals hold
    exactly the tokens that are not empty and whose first byte is in the
    mask. *)
Theorem GetPossibleTokenIntervals_first_bytes (j : Z) :
  0 <= j < size ->
  in_intervals
    (snd (GetPossibleTokenIntervals sorted_decoded_vocab first_char_mask lower_bound)) j
  <-> first_char_allowed first_char_mask (tok j).
Proof.
  intros Hj. unfold GetPossibleTokenIntervals.
  assert (Hinit : invariant 0 (mkIntervalState 0 0 (-1) [])).
  { unfold interval_invariant. cbn. split; [left; reflexivity |]. split; [lia |].
    split; [intros k Hk; lia |].
    intros k Hk. split.
    - intros (interval & [] & _).
    - intros [Hallowed Hbelow]. destruct (@allowed_byte k Hallowed) as (ch & rest & Htok & _ & Hb).
      rewrite Htok in Hbelow. cbn [starts_below] in Hbelow. lia. }
  pose proof (@fold_invariant 256 0 _ ltac:(lia) ltac:(lia) Hinit) as Hinv.
  change (0 + Z.of_nat 256) with 256 in Hinv.
  set (s := fold_left step (range 0 256) (mkIntervalState 0 0 (-1) [])) in *.
  unfold interval_invariant in Hinv. cbv zeta in Hinv.
  destruct Hinv as (Hrun & Hm & Hbelow & Hexact).
  destruct (Z.eqb_spec (last_interval_end s) (-1)) as [Hlast | Hlast]; cbn [negb snd].
  - rewrite (Hexact j Hj). split; [intros [H _]; exact H |].
    intros H. split; [exact H | apply starts_below_256].
  - destruct Hrun as [Hrun | [Hrange Hall]]; [contradiction |].
    set (a := last_interval_end s) in *.
    set (left := lower_bound (matched_size s) (single a)).
    destruct (lower_bound_finds (single a) Hm) as (Hleft & _ & _). fold left in Hleft.
    rewrite in_intervals_snoc, (Hexact j Hj). split.
    + intros [[Hallowed _] | Hnew]; [exact Hallowed |].
      assert (Hnot : ~ starts_below a (tok j)).
      { apply (@from_the_bound (matched_size s) a j); [exact Hm | lia |]. fold left. lia. }
      destruct (tok j) as [| ch rest] eqn:Htok; cbn [starts_below] in *; [tauto |].
      exists ch, rest. split; [reflexivity |]. apply Hall.
      pose proof (nat_ascii_bounded ch). lia.
    + intros Hallowed.
      destruct (@allowed_byte j Hallowed) as (ch & rest & Htok & Hch & Hbyte).
      destruct (Z.lt_ge_cases (Z.of_nat (nat_of_ascii ch)) a) as [Hlow | Hhigh].
      * left. split; [exact Hallowed |]. rewrite Htok. cbn [starts_below]. exact Hlow.
      * right. split; [| lia].
        destruct (Z.lt_ge_cases j left) as [Hbefore | Hafter]; [| lia].
        exfalso.
        assert (Hbelow_a : starts_below a (tok j)).
        { destruct (Z.lt_ge_cases j (matched_size s)) as [H1 | H1].
          - apply Hbelow. lia.
          - apply (@before_the_bound (matched_size s) a j); [exact Hm | lia |].
            fold left. lia. }
        rewrite Htok in Hbelow_a. cbn [starts_below] in Hbelow_a. lia.
Qed.

End IntervalsAreExact.

(** *** The scan is a lower bound *)

Lemma scan_from_spec (tokens : list (Z * Token)) (value : Token) :
  forall index,
    index <= scan_from tokens value index <= index + Z.of_nat (List.length tokens) /\
    (forall k, (k < Z.to_nat (scan_from tokens value index - index))%nat ->
               string_ltb (snd (nth k tokens (0, []))) value = true) /\
    (scan_from tokens value index < index + Z.of_nat (List.length tokens) ->
     string_ltb (snd (nth (Z.to_nat (scan_from tokens value index - index)) tokens (0, [])))
       value = false).
Proof.
  induction tokens as [| x rest IH]; intros index; cbn [scan_from List.length].
  - split; [lia |]. split; [intros k Hk; lia | intros Hlt; lia].
  - destruct (string_ltb (snd x) value) eqn:Hx.
    + destruct (IH (index + 1)) as (H1 & H2 & H3).
      split; [lia |]. split.
      * intros k Hk. destruct k as [| k]; [exact Hx |]. cbn [nth]. apply H2. lia.
      * intros Hlt.
        replace (Z.to_nat (scan_from rest value (index + 1) - index))
          with (S (Z.to_nat (scan_from rest value (index + 1) - (index + 1)))) by lia.
        cbn [nth]. apply H3. lia.
    + split; [lia |]. split; [intros k Hk; lia |].
      intros _. replace (index - index) with 0 by lia. exact Hx.
Qed.

Lemma scan_finds_the_bound (vocab : list (Z * Token)) :
  finds_the_bound vocab (scan_lower_bound vocab).
Proof.
  intros start value Hstart. unfold scan_lower_bound.
  destruct (scan_from_spec (skipn (Z.to_nat start) vocab) value start) as (H1 & H2 & H3).
  rewrite length_skipn in H1, H3.
  split; [lia |]. split.
  - intros j Hj. unfold token_at.
    specialize (H2 (Z.to_nat (j - start)) ltac:(lia)).
    rewrite nth_skipn in H2. replace (Z.to_nat start + Z.to_nat (j - start))%nat
      with (Z.to_nat j) in H2 by lia. exact H2.
  - intros Hlt. unfold token_at. specialize (H3 ltac:(lia)).
    rewrite nth_skipn in H3.
    match type of H3 with
    | context [nth ?n vocab _] =>
        replace n with (Z.to_nat (scan_from (skipn (Z.to_nat start) vocab) value start))
          in H3 by lia
    end.
    exact H3.
Qed.

Lemma a_b_c_sorted : vocab_sorted a_b_c_vocab.
Proof.
  intros j k Hjk Hk. cbn in Hk.
  assert (Hj : j = 0 \/ j = 1 \/ j = 2) by lia.
  assert (Hk' : k = 0 \/ k = 1 \/ k = 2) by lia.
  destruct Hj as [-> | [-> | ->]], Hk' as [-> | [-> | ->]]; try lia; reflexivity.
Qed.

Lemma GetPossibleTokenIntervals_first_bytes_witness :
  in_intervals
    (snd (GetPossibleTokenIntervals a_b_c_vocab only_b (scan_lower_bound a_b_c_vocab))) 1
  <-> first_char_allowed only_b (token_at a_b_c_vocab 1).
Proof.
  apply (@GetPossibleTokenIntervals_first_bytes a_b_c_vocab only_b
           (scan_lower_bound a_b_c_vocab) a_b_c_sorted (scan_finds_the_bound a_b_c_vocab) 1).
  cbn. lia.
Defined.

Lemma GetPossibleTokenIntervals_in_order_witness :
  let result := GetPossibleTokenIntervals a_b_c_vocab only_b (scan_lower_bound a_b_c_vocab) in
  in_order 0 (snd result) 3 /\
  fst result = interval_lengths (snd result) /\
  0 <= fst result <= 3.
Proof.
  apply (@GetPossibleTokenIntervals_in_order a_b_c_vocab only_b
           (scan_lower_bound a_b_c_vocab)).
  intros start value Hstart. apply scan_finds_the_bound. exact Hstart.
Defined.

(** ** grammar_functor.cc: the rules that the empty-rule analyzer returns *)

Local Close Scope Z_scope.
Import AllowEmptyRuleAnalyzer.

Import GrammarIR.
Import Builder.
Local Open Scope nat_scope.
Local Open Scope list_scope.

Section AnalyzerFacts.

Variable rules : list Rule.

Local Abbreviation sound set := (forall id, In id set -> nullable rules id).

Lemma count_In (id : nat) (set : list nat) : count id set = true <-> In id set.
Proof.
  unfold count. rewrite existsb_exists. split.
  - intros (x & Hin & Heq). apply Nat.eqb_eq in Heq. subst x. exact Hin.
  - intros Hin. exists id. split; [exact Hin | apply Nat.eqb_refl].
Qed.

Lemma stars_all_nullable (elements : list GrammarExpr) :
  forallb is_star elements = true -> all_nullable rules elements.
Proof.
  induction elements as [| e rest IH]; cbn [forallb]; intros H; [constructor |].
  apply andb_prop in H. destruct H as [He Hrest].
  constructor; [| apply IH; exact Hrest].
  destruct e; try discriminate. constructor.
Qed.

Lemma some_sequence_of_stars_sound (children : list GrammarExpr) :
  some_sequence_of_stars children = Some true ->
  exists c, In c children /\ nullable_sequence rules c.
Proof.
  induction children as [| c rest IH]; cbn [some_sequence_of_stars]; [discriminate |].
  destruct (elements_of c) as [elements |] eqn:Hc; [| discriminate].
  destruct (forallb is_star elements) eqn:Hstars.
  - intros _. exists c. split; [left; reflexivity |].
    destruct c; try discriminate; injection Hc as <-.
    + constructor.
    + constructor. apply stars_all_nullable. exact Hstars.
  - intros H. destruct (IH H) as (c' & Hin & Hnull). exists c'. split; [right |]; assumption.
Qed.

Lemma explicitly_empty_sound (id : nat) (rule : Rule) :
  nth_error rules id = Some rule -> explicitly_empty rule = Some true -> nullable rules id.
Proof.
  intros Hrule. unfold explicitly_empty.
  destruct (body_expr rule) as [[| | | | | | children | |] |] eqn:Hbody; try discriminate.
  destruct children as [| first rest]; [discriminate |].
  intros H.
  assert (Hfound : exists c, In c (first :: rest) /\ nullable_sequence rules c).
  { destruct first; apply some_sequence_of_stars_sound; exact H. }
  destruct Hfound as (c & Hin & Hnull).
  eapply nullable_rule; eauto.
Qed.

Lemma FindExplicitEmptyRules_sound (rest : list Rule) :
  forall (done : list Rule) (set set' : list nat),
    rules = done ++ rest ->
    FindExplicitEmptyRules rest (List.length done) set = Some set' ->
    sound set -> sound set'.
Proof.
  induction rest as [| rule rest IH]; intros done set set' Hrules Hrun Hset;
    cbn [FindExplicitEmptyRules] in Hrun.
  - injection Hrun as <-. exact Hset.
  - destruct (explicitly_empty rule) as [inserted |] eqn:Hrule; [| discriminate].
    assert (Hnth : nth_error rules (List.length done) = Some rule).
    { rewrite Hrules, nth_error_app2 by lia. rewrite Nat.sub_diag. reflexivity. }
    replace (S (List.length done)) with (List.length (done ++ [rule])) in Hrun
      by (rewrite length_app; cbn [List.length]; lia).
    refine (IH (done ++ [rule]) _ set' _ Hrun _).
    + rewrite Hrules, <- app_assoc. reflexivity.
    + destruct inserted; [| exact Hset].
      intros id Hin. apply in_app_or in Hin. destruct Hin as [Hin | [<- | []]].
      * apply Hset, Hin.
      * eapply explicitly_empty_sound; eauto.
Qed.

Lemma element_is_epsilon_sound (set : list nat) (e : GrammarExpr) :
  sound set -> element_is_epsilon set e = true -> nullable_element rules e.
Proof.
  intros Hset. destruct e; cbn [element_is_epsilon]; try discriminate.
  - intros _. constructor.
  - intros H. constructor. apply Hset, count_In, H.
  - intros H. apply orb_prop in H. destruct H as [H | H].
    + apply nullable_repeat. apply Hset, count_In, H.
    + apply Z.eqb_eq in H. subst. apply nullable_repeat_none.
Qed.

Lemma SeqExprIsEpsilon_sound (set : list nat) (c : GrammarExpr) :
  sound set -> SeqExprIsEpsilon c set = Some true -> nullable_sequence rules c.
Proof.
  intros Hset. destruct c; cbn [SeqExprIsEpsilon]; try discriminate.
  - intros _. constructor.
  - intros H. injection H as H. constructor.
    induction elements as [| e rest IH]; [constructor |].
    cbn [forallb] in H. apply andb_prop in H. destruct H as [He Hrest].
    constructor; [eapply element_is_epsilon_sound; eauto | apply IH; exact Hrest].
Qed.

Lemma any_is_epsilon_sound (set : list nat) (children : list GrammarExpr) :
  sound set -> any_is_epsilon children set = Some true ->
  exists c, In c children /\ nullable_sequence rules c.
Proof.
  intros Hset. induction children as [| c rest IH]; cbn [any_is_epsilon]; [discriminate |].
  destruct (SeqExprIsEpsilon c set) as [[|] |] eqn:Hc; [| | discriminate].
  - intros _. exists c. split; [left; reflexivity |]. eapply SeqExprIsEpsilon_sound; eauto.
  - intros H. destruct (IH H) as (c' & Hin & Hnull). exists c'. split; [right |]; assumption.
Qed.

Lemma visit_referers_sound (referers : list nat) :
  forall set queue set' queue',
    visit_referers rules referers set queue = Some (set', queue') ->
    sound set -> sound set'.
Proof.
  induction referers as [| r rest IH]; intros set queue set' queue' Hrun Hset;
    cbn [visit_referers] in Hrun.
  - injection Hrun as <- _. exact Hset.
  - destruct (count r set); [eapply IH; eauto |].
    destruct (nth_error rules r) as [rule |] eqn:Hrule; [| discriminate].
    destruct (body_expr rule) as [[| | | | | | children | |] |] eqn:Hbody; try discriminate.
    destruct (any_is_epsilon children set) as [[|] |] eqn:Hany; [| | discriminate].
    + eapply IH; [exact Hrun |].
      intros id Hin. apply in_app_or in Hin. destruct Hin as [Hin | [<- | []]].
      * apply Hset, Hin.
      * destruct (@any_is_epsilon_sound set children Hset Hany) as (c & Hc & Hnull).
        eapply nullable_rule; eauto.
    + eapply IH; eauto.
Qed.

Variable rule_ref_graph : list (list nat).

Lemma drain_sound (fuel : nat) :
  forall set queue result,
    drain rules rule_ref_graph fuel set queue = Done result -> sound set -> sound result.
Proof.
  induction fuel as [| fuel IH]; intros set queue result Hrun Hset;
    destruct queue as [| r queue']; cbn [drain] in Hrun; try discriminate;
    try (injection Hrun as <-; exact Hset).
  destruct (nth_error rule_ref_graph r) as [referers |]; [| discriminate].
  destruct (visit_referers rules referers set queue') as [[set' queue''] |] eqn:Hvisit;
    [| discriminate].
  eapply IH; [exact Hrun |]. eapply visit_referers_sound; eauto.
Qed.

Lemma In_insert_id (x y : nat) (sorted : list nat) :
  In y (insert_id x sorted) <-> y = x \/ In y sorted.
Proof.
  induction sorted as [| z rest IH]; cbn [insert_id In]; [intuition |].
  destruct (x <=? z); cbn [In]; [intuition |]. rewrite IH. intuition.
Qed.

Lemma In_sort_ids (y : nat) (ids : list nat) : In y (sort_ids ids) <-> In y ids.
Proof.
  induction ids as [| x rest IH]; cbn [sort_ids fold_right In]; [tauto |].
  fold (sort_ids rest). rewrite In_insert_id, IH. intuition.
Qed.

Variable iteration : list nat -> list nat.

Lemma Apply_sound (result : list nat) (id : nat) :
  Apply rules rule_ref_graph iteration = Done result ->
  In id result -> nullable rules id.
Proof.
  unfold Apply, FindIndirectEmptyRules.
  destruct (FindExplicitEmptyRules rules 0 []) as [explicit |] eqn:Hexplicit; [| discriminate].
  match goal with
  | |- context [drain rules rule_ref_graph ?fuel explicit ?queue] =>
      destruct (drain rules rule_ref_graph fuel explicit queue) as [set | |] eqn:Hdrain;
      try discriminate
  end.
  intros Hrun Hin. injection Hrun as <-. apply (proj1 (In_sort_ids _ _)) in Hin.
  assert (Hexplicit_sound : forall x, In x explicit -> nullable rules x).
  { apply (@FindExplicitEmptyRules_sound rules [] [] explicit eq_refl Hexplicit).
    intros x []. }
  apply (@drain_sound _ _ _ _ Hdrain Hexplicit_sound id Hin).
Qed.

(** X21: every rule that the analyzer returns matches the empty
    string: one of its choices is the empty string, or a sequence of
    character class stars, of repetitions from zero on and of
    references to and repetitions of rules that match it. *)
Theorem AllowEmptyRuleAnalyzer_is_sound (result : list nat) (id : nat) :
  Apply rules rule_ref_graph iteration = Done result ->
  In id result -> nullable rules id.
Proof. apply Apply_sound. Qed.

End AnalyzerFacts.

(** *** The loop ends *)

Lemma filter_one_less {A} (f g : A -> bool) (r : A) (l : list A) :
  NoDup l -> In r l -> f r = true -> g r = false ->
  (forall x, x <> r -> g x = f x) ->
  List.length (filter f l) = S (List.length (filter g l)).
Proof.
  intros Hnodup Hin Hf Hg Hsame.
  induction l as [| x rest IH]; [contradiction |].
  inversion Hnodup as [| ? ? Hx Hrest]; subst.
  destruct Hin as [-> | Hin].
  - cbn [filter]. rewrite Hf, Hg. cbn [List.length]. f_equal.
    f_equal. apply filter_ext_in. intros y Hy. symmetry. apply Hsame.
    intros ->. contradiction.
  - cbn [filter]. rewrite (Hsame x) by (intros ->; contradiction).
    destruct (f x); cbn [List.length]; rewrite (IH Hrest Hin); reflexivity.
Qed.

Lemma count_app (id r : nat) (set : list nat) :
  count id (set ++ [r]) = count id set || Nat.eqb id r.
Proof. unfold count. rewrite existsb_app. cbn [existsb]. rewrite orb_false_r. reflexivity. Qed.

Lemma missing_insert (rules : list Rule) (set : list nat) (r : nat) :
  r < List.length rules -> count r set = false ->
  missing rules set = S (missing rules (set ++ [r])).
Proof.
  intros Hr Hcount. unfold missing.
  apply filter_one_less with (r := r).
  - apply seq_NoDup.
  - apply in_seq. lia.
  - rewrite Hcount. reflexivity.
  - rewrite count_app, Nat.eqb_refl, orb_true_r. reflexivity.
  - intros x Hx. rewrite count_app.
    destruct (Nat.eqb_spec x r); [contradiction |]. rewrite orb_false_r. reflexivity.
Qed.

Lemma missing_bound (rules : list Rule) (set : list nat) :
  missing rules set <= List.length rules.
Proof.
  unfold missing. etransitivity; [apply filter_length_le |]. rewrite length_seq. lia.
Qed.

Section AnalyzerEnds.

Variable rules : list Rule.
Variable rule_ref_graph : list (list nat).
Variable iteration : list nat -> list nat.

Lemma visit_referers_measure (referers : list nat) :
  forall set queue set' queue',
    visit_referers rules referers set queue = Some (set', queue') ->
    List.length queue' + missing rules set' = List.length queue + missing rules set.
Proof.
  induction referers as [| r rest IH]; intros set queue set' queue' Hrun;
    cbn [visit_referers] in Hrun.
  - injection Hrun as <- <-. reflexivity.
  - destruct (count r set) eqn:Hcount; [apply IH; exact Hrun |].
    destruct (nth_error rules r) as [rule |] eqn:Hrule; [| discriminate].
    destruct (body_expr rule) as [[| | | | | | children | |] |]; try discriminate.
    destruct (any_is_epsilon children set) as [[|] |]; [| | discriminate].
    + rewrite (IH _ _ _ _ Hrun), length_app. cbn [List.length].
      assert (Hr : r < List.length rules) by (apply nth_error_Some; congruence).
      rewrite (@missing_insert rules set r Hr Hcount). lia.
    + apply IH. exact Hrun.
Qed.

Lemma drain_ends (fuel : nat) :
  forall set queue,
    List.length queue + missing rules set <= fuel ->
    drain rules rule_ref_graph fuel set queue <> OutOfFuel.
Proof.
  induction fuel as [| fuel IH]; intros set queue Hfuel;
    destruct queue as [| r queue']; cbn [drain]; try discriminate.
  - cbn [List.length] in Hfuel. lia.
  - destruct (nth_error rule_ref_graph r) as [referers |]; [| discriminate].
    destruct (visit_referers rules referers set queue') as [[set' queue''] |] eqn:Hvisit;
      [| discriminate].
    apply IH. apply visit_referers_measure in Hvisit. cbn [List.length] in Hfuel. lia.
Qed.

(** X22: the queue of the analyzer is emptied: every pass takes one
    rule from the queue and a rule enters the queue only when it enters
    the set, so that as many passes as the queue is long at first, and
    one more for every rule, are enough. *)
Theorem AllowEmptyRuleAnalyzer_ends :
  Apply rules rule_ref_graph iteration <> OutOfFuel.
Proof.
  unfold Apply, FindIndirectEmptyRules.
  destruct (FindExplicitEmptyRules rules 0 []) as [explicit |]; [| discriminate].
  pose proof (@drain_ends (List.length (iteration explicit) + List.length rules) explicit
                (iteration explicit)) as Hends.
  destruct (drain rules rule_ref_graph
              (List.length (iteration explicit) + List.length rules) explicit
              (iteration explicit)); try discriminate.
  exfalso. apply Hends; [| reflexivity].
  pose proof (missing_bound rules explicit). lia.
Qed.

End AnalyzerEnds.

(** *** What the analyzer looks at *)

Section AnalyzerReach.

Variable rules : list Rule.
Variable rule_ref_graph : list (list nat).
Variable iteration : list nat -> list nat.
Hypothesis iteration_of_the_set : forall set id, In id (iteration set) -> In id set.

Local Abbreviation reached' := (reached rules rule_ref_graph).

Lemma reached_more (set set' : list nat) (id : nat) :
  (forall x, In x set -> In x set') -> reached' set id -> reached' set' id.
Proof.
  intros Hsub [Hexplicit | (r & referers & Hr & Hgraph & Hid)]; [left; exact Hexplicit |].
  right. exists r, referers. auto.
Qed.

Lemma FindExplicitEmptyRules_reached (rest : list Rule) :
  forall (done : list Rule) (set set' : list nat),
    rules = done ++ rest ->
    FindExplicitEmptyRules rest (List.length done) set = Some set' ->
    (forall id, In id set -> reached' [] id) ->
    forall id, In id set' -> reached' [] id.
Proof.
  induction rest as [| rule rest IH]; intros done set set' Hrules Hrun Hset;
    cbn [FindExplicitEmptyRules] in Hrun.
  - injection Hrun as <-. exact Hset.
  - destruct (explicitly_empty rule) as [inserted |] eqn:Hrule; [| discriminate].
    assert (Hnth : nth_error rules (List.length done) = Some rule).
    { rewrite Hrules, nth_error_app2 by lia. rewrite Nat.sub_diag. reflexivity. }
    replace (S (List.length done)) with (List.length (done ++ [rule])) in Hrun
      by (rewrite length_app; cbn [List.length]; lia).
    refine (IH (done ++ [rule]) _ set' _ Hrun _).
    + rewrite Hrules, <- app_assoc. reflexivity.
    + destruct inserted; [| exact Hset].
      intros id Hin. apply in_app_or in Hin. destruct Hin as [Hin | [<- | []]].
      * apply Hset, Hin.
      * left. exists rule. auto.
Qed.

Local Abbreviation reach_invariant := (reach_invariant rules rule_ref_graph).

Lemma visit_referers_reached (r : nat) (all_referers : list nat) (referers : list nat) :
  nth_error rule_ref_graph r = Some all_referers ->
  (forall x, In x referers -> In x all_referers) ->
  forall set queue set' queue',
    visit_referers rules referers set queue = Some (set', queue') ->
    In r set -> reach_invariant set queue -> reach_invariant set' queue'.
Proof.
  intros Hgraph. induction referers as [| x rest IH];
    intros Hsub set queue set' queue' Hrun Hr Hinv; cbn [visit_referers] in Hrun.
  - injection Hrun as <- <-. exact Hinv.
  - assert (Hrest : forall y, In y rest -> In y all_referers)
      by (intros y Hy; apply Hsub; right; exact Hy).
    destruct (count x set); [eapply IH; eauto |].
    destruct (nth_error rules x) as [rule |]; [| discriminate].
    destruct (body_expr rule) as [[| | | | | | children | |] |]; try discriminate.
    destruct (any_is_epsilon children set) as [[|] |]; [| | discriminate].
    + eapply IH; [exact Hrest | exact Hrun | apply in_or_app; left; exact Hr |].
      destruct Hinv as [Hset Hqueue]. split.
      * intros id Hin. apply in_app_or in Hin. destruct Hin as [Hin | [<- | []]].
        -- apply reached_more with (set := set); [| apply Hset, Hin].
           intros y Hy. apply in_or_app. left. exact Hy.
        -- right. exists r, all_referers. split; [apply in_or_app; left; exact Hr |].
           split; [exact Hgraph | apply Hsub; left; reflexivity].
      * intros id Hin. apply in_or_app. apply in_app_or in Hin.
        destruct Hin as [Hin | Hin]; [left; apply Hqueue, Hin | right; exact Hin].
    + eapply IH; eauto.
Qed.

Lemma drain_reached (fuel : nat) :
  forall set queue result,
    drain rules rule_ref_graph fuel set queue = Done result ->
    reach_invariant set queue ->
    forall id, In id result -> reached' result id.
Proof.
  induction fuel as [| fuel IH]; intros set queue result Hrun Hinv;
    destruct queue as [| r queue']; cbn [drain] in Hrun; try discriminate;
    try (injection Hrun as <-; exact (proj1 Hinv)).
  destruct (nth_error rule_ref_graph r) as [referers |] eqn:Hgraph; [| discriminate].
  destruct (visit_referers rules referers set queue') as [[set' queue''] |] eqn:Hvisit;
    [| discriminate].
  eapply IH; [exact Hrun |].
  eapply visit_referers_reached; [exact Hgraph | intros x Hx; exact Hx | exact Hvisit | |].
  - apply (proj2 Hinv). left. reflexivity.
  - destruct Hinv as [Hset Hqueue]. split; [exact Hset |].
    intros id Hin. apply Hqueue. right. exact Hin.
Qed.

Lemma Apply_reached (result : list nat) (id : nat) :
  Apply rules rule_ref_graph iteration = Done result ->
  In id result -> reached' result id.
Proof.
  unfold Apply, FindIndirectEmptyRules.
  destruct (FindExplicitEmptyRules rules 0 []) as [explicit |] eqn:Hexplicit; [| discriminate].
  match goal with
  | |- context [drain rules rule_ref_graph ?fuel explicit ?queue] =>
      destruct (drain rules rule_ref_graph fuel explicit queue) as [set | |] eqn:Hdrain;
      try discriminate
  end.
  intros Hrun Hin. injection Hrun as <-. apply (proj1 (In_sort_ids _ _)) in Hin.
  apply reached_more with (set := set); [intros x Hx; apply In_sort_ids; exact Hx |].
  apply (@drain_reached _ _ _ _ Hdrain); [| exact Hin].
  split.
  - intros x Hx. apply reached_more with (set := []); [intros y [] |].
    apply (@FindExplicitEmptyRules_reached rules [] [] explicit eq_refl Hexplicit);
      [intros y [] | exact Hx].
  - apply iteration_of_the_set.
Qed.

(** X23: a rule is returned only if [FindExplicitEmptyRules] inserts
    it or the reference graph lists it as a referer of a rule that is
    returned: the bodies of the other rules are not looked at. *)
Theorem AllowEmptyRuleAnalyzer_reach (result : list nat) (id : nat) :
  Apply rules rule_ref_graph iteration = Done result ->
  In id result -> reached' result id.
Proof. apply Apply_reached. Qed.

(** X24: a rule that [FindExplicitEmptyRules] does not insert and that
    refers, by the reference graph, to no rule that matches the empty
    string is not returned, whatever its body. *)
Theorem AllowEmptyRuleAnalyzer_misses (result : list nat) (id : nat) :
  Apply rules rule_ref_graph iteration = Done result ->
  (forall rule, nth_error rules id = Some rule -> explicitly_empty rule <> Some true) ->
  (forall rule_id referers,
     nth_error rule_ref_graph rule_id = Some referers -> In id referers ->
     ~ nullable rules rule_id) ->
  ~ In id result.
Proof.
  intros Hrun Hexplicit Hrefers Hin.
  destruct (@Apply_reached result id Hrun Hin) as [(rule & Hrule & Hempty) | (r & referers & Hr & Hg & Hid)].
  - exact (Hexplicit rule Hrule Hempty).
  - apply (Hrefers r referers Hg Hid). exact (@Apply_sound rules rule_ref_graph iteration result r Hrun Hr).
Qed.

End AnalyzerReach.

Lemma AllowEmptyRuleAnalyzer_is_sound_witness :
  Apply sample_rules sample_graph (fun set => set) = Done [0; 1] /\
  nullable sample_rules 1.
Proof.
  split; [reflexivity |].
  apply (@AllowEmptyRuleAnalyzer_is_sound sample_rules sample_graph (fun set => set) [0; 1] 1);
    [reflexivity | right; left; reflexivity].
Defined.

Lemma AllowEmptyRuleAnalyzer_reach_witness :
  Apply sample_rules sample_graph (fun set => set) = Done [0; 1] /\
  reached sample_rules sample_graph [0; 1] 1.
Proof.
  split; [reflexivity |].
  apply (@AllowEmptyRuleAnalyzer_reach sample_rules sample_graph (fun set => set)
           (fun set id H => H) [0; 1] 1);
    [reflexivity | right; left; reflexivity].
Defined.

Lemma sample_c_is_not_empty : ~ nullable sample_rules 2.
Proof.
  intros H. inversion H as [id rule children c Hrule Hbody Hin Hseq]; subst.
  cbn in Hrule. injection Hrule as <-. cbn in Hbody. injection Hbody as <-.
  destruct Hin as [<- | []].
  inversion Hseq as [| elements Hall]; subst.
  inversion Hall as [| e rest He Hrest]; subst.
  inversion He.
Qed.

Lemma AllowEmptyRuleAnalyzer_misses_witness :
  nullable sample_rules 3 /\
  Apply sample_rules sample_graph (fun set => set) = Done [0; 1] /\
  ~ In 3 [0; 1].
Proof.
  split.
  - eapply nullable_rule; [reflexivity | reflexivity | left; reflexivity |].
    constructor. constructor; [apply nullable_repeat_none | constructor].
  - split; [reflexivity |].
    apply (@AllowEmptyRuleAnalyzer_misses sample_rules sample_graph (fun set => set)
             (fun set id H => H) [0; 1] 3); [reflexivity | |].
    + intros rule Hrule. injection Hrule as <-. discriminate.
    + intros r referers Hgraph Hin.
      destruct r as [| [| [| [| r]]]]; cbn in Hgraph; try discriminate;
        try (destruct r; discriminate);
        injection Hgraph as <-; cbn in Hin; try tauto; try lia.
      destruct Hin as [_ | []]. exact sample_c_is_not_empty.
Defined.

(** ** The scans of the look-ahead analyzer *)

Import LookaheadAssertionAnalyzer.
Import GrammarIR.
Import Builder.
Local Open Scope nat_scope.
Local Open Scope list_scope.

Section LookaheadScans.

Variable rule_id : nat.

(** *** The loop over a list, from the effect of one iteration *)

Lemma found_after_le (found : bool) (a b : nat) :
  Nat.b2n found + a <= 1 ->
  (Nat.b2n (found || (0 <? a)) + b <= 1 <-> Nat.b2n found + (a + b) <= 1).
Proof.
  destruct found, a as [| [| a]]; cbn; intros; lia.
Qed.

Lemma found_after_or (found : bool) (a b : nat) :
  (found || (0 <? a)) || (0 <? b) = found || (0 <? a + b).
Proof.
  destruct found, a, b; reflexivity.
Qed.

Section EachSpec.

Variable A : Type.
Variable body : A -> Found -> Step Found.
Variable ok : A -> Prop.
Variable u : A -> nat.
Variable t : A -> list GrammarExpr.

Hypothesis body_spec : forall x found seq r,
  body x (found, seq) = Next r <->
  ok x /\ Nat.b2n found + u x <= 1 /\ r = (found || (0 <? u x), seq ++ t x).

Lemma each_spec (l : list A) :
  forall found seq r,
    each body l (found, seq) = Next r <->
    Forall ok l /\ Nat.b2n found + list_sum (map u l) <= 1 /\
    r = (found || (0 <? list_sum (map u l)), seq ++ List.concat (map t l)).
Proof.
  induction l as [| x rest IH]; intros found seq r.
  - cbn. rewrite orb_false_r, app_nil_r. split.
    + intros [= <-]. split; [constructor |]. split; [destruct found; cbn; lia | reflexivity].
    + intros (_ & _ & ->). reflexivity.
  - change (list_sum (map u (x :: rest))) with (u x + list_sum (map u rest)).
    change (List.concat (map t (x :: rest))) with (t x ++ List.concat (map t rest)).
    cbn [each].
    destruct (body x (found, seq)) as [[f1 s1] | |] eqn:E.
    + apply body_spec in E. destruct E as (Hok & Hle & E). injection E as -> ->.
      rewrite IH, (@found_after_le found (u x) _ Hle), found_after_or, app_assoc. split.
      * intros (Hall & Hle' & ->). split; [constructor; assumption |].
        split; [assumption | reflexivity].
      * intros (Hall & Hle' & ->). inversion Hall as [| ? ? Hx Hrest]; subst.
        split; [assumption |]. split; [assumption | reflexivity].
    + split; [discriminate |]. intros (Hall & Hle & _).
      inversion Hall as [| ? ? Hx Hrest]; subst.
      assert (Hnext : body x (found, seq) = Next (found || (0 <? u x), seq ++ t x)).
      { apply body_spec. split; [assumption |]. split; [lia | reflexivity]. }
      congruence.
    + split; [discriminate |]. intros (Hall & Hle & _).
      inversion Hall as [| ? ? Hx Hrest]; subst.
      assert (Hnext : body x (found, seq) = Next (found || (0 <? u x), seq ++ t x)).
      { apply body_spec. split; [assumption |]. split; [lia | reflexivity]. }
      congruence.
Qed.

(** With one use in all, one item holds it, and what follows it is all
    that is pushed. *)
Hypothesis nothing_follows : forall x, u x = 0 -> t x = [].

Lemma no_use_nothing_follows (l : list A) :
  list_sum (map u l) = 0 -> List.concat (map t l) = [].
Proof.
  induction l as [| x rest IH]; [reflexivity |].
  change (list_sum (map u (x :: rest))) with (u x + list_sum (map u rest)).
  change (List.concat (map t (x :: rest))) with (t x ++ List.concat (map t rest)).
  intros Hsum. rewrite nothing_follows by lia. rewrite IH by lia. reflexivity.
Qed.

Lemma one_use_in_one (l : list A) :
  list_sum (map u l) = 1 ->
  exists x, In x l /\ u x = 1 /\ List.concat (map t l) = t x.
Proof.
  induction l as [| x rest IH]; [discriminate |].
  change (list_sum (map u (x :: rest))) with (u x + list_sum (map u rest)).
  change (List.concat (map t (x :: rest))) with (t x ++ List.concat (map t rest)).
  intros Hsum. destruct (u x) as [| n] eqn:Hu.
  - destruct (IH Hsum) as (y & Hin & Hy & Ht). exists y.
    split; [right; assumption |]. split; [assumption |].
    rewrite nothing_follows by assumption. exact Ht.
  - exists x. split; [left; reflexivity |]. split; [lia |].
    rewrite no_use_nothing_follows by lia. apply app_nil_r.
Qed.

End EachSpec.

(** *** The elements of a sequence *)

Lemma uses_in_elements_cons (e e' : GrammarExpr) (rest : list GrammarExpr) :
  uses_in_elements rule_id (e :: e' :: rest) =
  Nat.b2n (is_ref rule_id e) + uses_in_elements rule_id (e' :: rest).
Proof.
  unfold uses_in_elements.
  change (removelast (e :: e' :: rest)) with (e :: removelast (e' :: rest)).
  cbn [filter]. destruct (is_ref rule_id e); reflexivity.
Qed.

Lemma detect_elements_cons (e e' : GrammarExpr) (rest : list GrammarExpr) (found : bool)
    (seq : list GrammarExpr) :
  detect_elements rule_id (e :: e' :: rest) found seq =
  if negb (is_ref rule_id e) then detect_elements rule_id (e' :: rest) found seq
  else if found then Returns
  else detect_elements rule_id (e' :: rest) true (seq ++ e' :: rest).
Proof.
  reflexivity.
Qed.

Lemma exact_elements_cons (e e' : GrammarExpr) (rest : list GrammarExpr) (found : bool) :
  exact_elements rule_id (e :: e' :: rest) found =
  if negb (is_ref rule_id e) then exact_elements rule_id (e' :: rest) found
  else if found then Returns
  else exact_elements rule_id (e' :: rest) true.
Proof.
  reflexivity.
Qed.

Lemma following_elements_cons (e e' : GrammarExpr) (rest : list GrammarExpr) :
  following_elements rule_id (e :: e' :: rest) =
  if is_ref rule_id e then e' :: rest else following_elements rule_id (e' :: rest).
Proof.
  reflexivity.
Qed.

Lemma no_use_no_following (elements : list GrammarExpr) :
  uses_in_elements rule_id elements = 0 -> following_elements rule_id elements = [].
Proof.
  induction elements as [| e rest IH]; [reflexivity |].
  destruct rest as [| e' rest]; [reflexivity |].
  rewrite uses_in_elements_cons, following_elements_cons.
  destruct (is_ref rule_id e); cbn [Nat.b2n]; [discriminate |]. exact IH.
Qed.

Lemma detect_elements_spec (elements : list GrammarExpr) :
  forall found seq r,
    detect_elements rule_id elements found seq = Next r <->
    Nat.b2n found + uses_in_elements rule_id elements <= 1 /\
    r = (found || (0 <? uses_in_elements rule_id elements),
         seq ++ following_elements rule_id elements).
Proof.
  induction elements as [| e rest IH]; intros found seq r.
  - cbn. rewrite orb_false_r, app_nil_r. split.
    + intros [= <-]. split; [destruct found; cbn; lia | reflexivity].
    + intros (_ & ->). reflexivity.
  - destruct rest as [| e' rest].
    + cbn. rewrite orb_false_r, app_nil_r. split.
      * intros [= <-]. split; [destruct found; cbn; lia | reflexivity].
      * intros (_ & ->). reflexivity.
    + rewrite uses_in_elements_cons, detect_elements_cons, following_elements_cons.
      destruct (is_ref rule_id e); cbn [negb Nat.b2n].
      * destruct found.
        -- split; [discriminate |]. cbn. lia.
        -- rewrite IH. cbn [Nat.b2n orb]. split.
           ++ intros (Hle & ->). split; [lia |].
              rewrite no_use_no_following by lia. rewrite app_nil_r. reflexivity.
           ++ intros (Hle & ->). split; [lia |].
              rewrite no_use_no_following by lia. rewrite app_nil_r. reflexivity.
      * rewrite IH. cbn [plus]. reflexivity.
Qed.

(** *** A choice of rule [i] *)

Lemma detect_sequence_spec (i : nat) (c : GrammarExpr) :
  forall found seq r,
    detect_sequence rule_id i c (found, seq) = Next r <->
    sequence_allows rule_id i c /\ Nat.b2n found + uses_in_sequence rule_id c <= 1 /\
    r = (found || (0 <? uses_in_sequence rule_id c), seq ++ following_sequence rule_id c).
Proof.
  intros found seq r.
  assert (Hother : (detect_sequence rule_id i c (found, seq) = Next (found, seq) /\
                    sequence_allows rule_id i c /\ uses_in_sequence rule_id c = 0 /\
                    following_sequence rule_id c = []) \/
                   exists elements, c = kSequence elements).
  { destruct c; try (left; repeat split; reflexivity). right. eexists. reflexivity. }
  destruct Hother as [(Hrun & Hallows & Huses & Hfollows) | (elements & ->)].
  - rewrite Hrun, Huses, Hfollows, orb_false_r, app_nil_r. split.
    + intros [= <-]. split; [assumption |]. split; [destruct found; cbn; lia | reflexivity].
    + intros (_ & _ & ->). reflexivity.
  - cbn [sequence_allows uses_in_sequence following_sequence].
    destruct elements as [| e rest].
    + cbn. split; [discriminate |]. intros ((Hne & _) & _). congruence.
    + cbn [detect_sequence fst snd].
      destruct (ends_with rule_id (e :: rest)) eqn:Hends; cbn [andb].
      * destruct (Nat.eqb_spec i rule_id) as [-> | Hne]; cbn [negb].
        -- rewrite detect_elements_spec. split.
           ++ intros (Hle & ->). split; [| split; [assumption | reflexivity]].
              split; [discriminate | congruence].
           ++ intros (_ & Hle & ->). split; [assumption | reflexivity].
        -- split; [discriminate |]. intros ((_ & Hlast) & _).
           specialize (Hlast Hne). congruence.
      * rewrite detect_elements_spec. split.
        -- intros (Hle & ->). split; [| split; [assumption | reflexivity]].
           split; [discriminate | reflexivity].
        -- intros (_ & Hle & ->). split; [assumption | reflexivity].
Qed.

Lemma no_use_no_following_sequence (c : GrammarExpr) :
  uses_in_sequence rule_id c = 0 -> following_sequence rule_id c = [].
Proof.
  destruct c; try reflexivity. cbn. apply no_use_no_following.
Qed.

(** *** A rule *)

Lemma detect_rule_spec (ir : nat * Rule) :
  forall found seq r,
    detect_rule rule_id ir (found, seq) = Next r <->
    rule_allows rule_id ir /\ Nat.b2n found + uses_in_rule rule_id (snd ir) <= 1 /\
    r = (found || (0 <? uses_in_rule rule_id (snd ir)),
         seq ++ following_rule rule_id (snd ir)).
Proof.
  intros found seq r. unfold detect_rule, rule_allows, uses_in_rule, following_rule.
  destruct (body_expr (snd ir)) as [body |].
  - destruct body;
      try (split; [discriminate | intros (Hfalse & _); destruct Hfalse]).
    + apply each_spec. intros x f s r'. apply detect_sequence_spec.
    + rewrite orb_false_r, app_nil_r.
      destruct (dispatches_to rule_id tag_dispatch).
      * split; [discriminate | intros (Hfalse & _); discriminate].
      * split.
        -- intros [= <-]. split; [reflexivity |].
           split; [destruct found; cbn; lia | reflexivity].
        -- intros (_ & _ & ->). reflexivity.
  - split; [discriminate | intros (Hfalse & _); destruct Hfalse].
Qed.

Lemma no_use_no_following_rule (rule : Rule) :
  uses_in_rule rule_id rule = 0 -> following_rule rule_id rule = [].
Proof.
  unfold uses_in_rule, following_rule.
  destruct (body_expr rule) as [body |]; [| reflexivity].
  destruct body; try reflexivity.
  apply no_use_nothing_follows. apply no_use_no_following_sequence.
Qed.

(** *** The rule table *)

Lemma map_snd_indexed_from (rules : list Rule) :
  forall i, map snd (combine (seq i (List.length rules)) rules) = rules.
Proof.
  induction rules as [| rule rest IH]; intros i; cbn; [reflexivity |].
  rewrite IH. reflexivity.
Qed.

Lemma uses_indexed (rules : list Rule) :
  list_sum (map (fun ir => uses_in_rule rule_id (snd ir)) (indexed rules)) =
  uses rule_id rules.
Proof.
  unfold uses, indexed.
  rewrite <- (map_snd_indexed_from rules 0) at 3. rewrite map_map. reflexivity.
Qed.

Lemma In_indexed_from (rules : list Rule) :
  forall i k rule,
    In (k, rule) (combine (seq i (List.length rules)) rules) ->
    i <= k /\ nth_error rules (k - i) = Some rule.
Proof.
  induction rules as [| r rest IH]; intros i k rule Hin; cbn in Hin; [destruct Hin |].
  destruct Hin as [[= <- <-] | Hin].
  - split; [lia |]. rewrite Nat.sub_diag. reflexivity.
  - apply IH in Hin. destruct Hin as (Hle & Hnth). split; [lia |].
    replace (k - i) with (S (k - S i)) by lia. exact Hnth.
Qed.

Lemma In_indexed (rules : list Rule) (k : nat) (rule : Rule) :
  In (k, rule) (indexed rules) -> nth_error rules k = Some rule.
Proof.
  intros Hin. apply In_indexed_from in Hin. destruct Hin as (_ & Hnth).
  rewrite Nat.sub_0_r in Hnth. exact Hnth.
Qed.

Lemma detect_rules_spec (rules : list Rule) (r : Found) :
  each (detect_rule rule_id) (indexed rules) (false, []) = Next r <->
  Forall (rule_allows rule_id) (indexed rules) /\ uses rule_id rules <= 1 /\
  r = (0 <? uses rule_id rules,
       List.concat (map (fun ir => following_rule rule_id (snd ir)) (indexed rules))).
Proof.
  rewrite (@each_spec _ (detect_rule rule_id) (rule_allows rule_id)
             (fun ir => uses_in_rule rule_id (snd ir))
             (fun ir => following_rule rule_id (snd ir)) detect_rule_spec).
  rewrite uses_indexed. cbn [Nat.b2n plus orb app]. reflexivity.
Qed.

(** [DetectLookaheadAssertion] in one equation for its successful runs. *)
Lemma Detect_finds (rules : list Rule) (la : GrammarExpr) :
  DetectLookaheadAssertion rules rule_id = Some (Some la) <->
  Forall (rule_allows rule_id) (indexed rules) /\ uses rule_id rules = 1 /\
  la = kSequence (List.concat (map (fun ir => following_rule rule_id (snd ir)) (indexed rules))).
Proof.
  unfold DetectLookaheadAssertion.
  destruct (each (detect_rule rule_id) (indexed rules) (false, [])) as [[found seq] | |] eqn:E.
  - apply detect_rules_spec in E. destruct E as (Hall & Hle & E). injection E as -> ->.
    destruct (uses rule_id rules) as [| [| n]] eqn:Huses; cbn [Nat.ltb Nat.leb negb].
    + split; [discriminate | intros (_ & Hone & _); discriminate].
    + split.
      * intros [= <-]. split; [assumption |]. split; reflexivity.
      * intros (_ & _ & ->). reflexivity.
    + lia.
  - split; [discriminate |]. intros (Hall & Hone & _).
    assert (Hnext : exists r, each (detect_rule rule_id) (indexed rules) (false, []) = Next r).
    { eexists. apply detect_rules_spec. split; [eassumption |]. split; [lia | reflexivity]. }
    destruct Hnext as (r & Hnext). congruence.
  - split; [discriminate |]. intros (Hall & Hone & _).
    assert (Hnext : exists r, each (detect_rule rule_id) (indexed rules) (false, []) = Next r).
    { eexists. apply detect_rules_spec. split; [eassumption |]. split; [lia | reflexivity]. }
    destruct Hnext as (r & Hnext). congruence.
Qed.

(** *** Where the one use is *)

Lemma one_use_in_elements (elements : list GrammarExpr) :
  uses_in_elements rule_id elements = 1 ->
  exists before,
    elements = before ++ kRuleRef rule_id :: following_elements rule_id elements /\
    following_elements rule_id elements <> [].
Proof.
  induction elements as [| e rest IH]; [discriminate |].
  destruct rest as [| e' rest]; [discriminate |].
  rewrite uses_in_elements_cons, following_elements_cons.
  destruct (is_ref rule_id e) eqn:Href; cbn [Nat.b2n plus]; intros Hone.
  - exists []. split; [| discriminate].
    destruct e; try discriminate. cbn in Href. apply Nat.eqb_eq in Href. subst.
    reflexivity.
  - destruct (IH Hone) as (before & Heq & Hne). exists (e :: before).
    split; [| assumption]. cbn [app]. f_equal. exact Heq.
Qed.

Lemma one_use_in_rule (rule : Rule) :
  uses_in_rule rule_id rule = 1 ->
  exists children before,
    body_expr rule = Some (kChoices children) /\
    In (kSequence (before ++ kRuleRef rule_id :: following_rule rule_id rule)) children /\
    following_rule rule_id rule <> [].
Proof.
  unfold uses_in_rule, following_rule.
  destruct (body_expr rule) as [body |]; [| discriminate].
  destruct body; try discriminate. intros Hone.
  destruct (@one_use_in_one _ (uses_in_sequence rule_id) (following_sequence rule_id)
              no_use_no_following_sequence elements Hone) as (c & Hin & Hc & ->).
  destruct c; try discriminate. cbn [uses_in_sequence following_sequence] in *.
  destruct (one_use_in_elements _ Hc) as (before & Heq & Hne).
  exists elements, before. split; [reflexivity |]. split; [| assumption].
  rewrite <- Heq. exact Hin.
Qed.

Lemma one_use_in_rules (rules : list Rule) :
  uses rule_id rules = 1 ->
  exists i rule children before following,
    nth_error rules i = Some rule /\
    body_expr rule = Some (kChoices children) /\
    In (kSequence (before ++ kRuleRef rule_id :: following)) children /\
    following <> [] /\
    List.concat (map (fun ir => following_rule rule_id (snd ir)) (indexed rules)) = following.
Proof.
  intros Hone. rewrite <- uses_indexed in Hone.
  destruct (@one_use_in_one _ (fun ir => uses_in_rule rule_id (snd ir))
              (fun ir => following_rule rule_id (snd ir))
              (fun ir => no_use_no_following_rule (snd ir)) (indexed rules) Hone)
    as ([i rule] & Hin & Hrule & Hfollows).
  cbn [snd] in *. apply In_indexed in Hin.
  destruct (one_use_in_rule _ Hrule) as (children & before & Hbody & Hseq & Hne).
  exists i, rule, children, before, (following_rule rule_id rule).
  repeat (split; [assumption |]). exact Hfollows.
Qed.

(** *** The scan of [IsExactLookaheadAssertion] is the same scan *)

Definition found_of (s : Step Found) : Step bool :=
  match s with
  | Next r => Next (fst r)
  | Returns => Returns
  | CheckFails => CheckFails
  end.

Lemma exact_elements_found (elements : list GrammarExpr) :
  forall found seq,
    exact_elements rule_id elements found =
    found_of (detect_elements rule_id elements found seq).
Proof.
  induction elements as [| e rest IH]; intros found seq; [reflexivity |].
  destruct rest as [| e' rest]; [reflexivity |].
  rewrite exact_elements_cons, detect_elements_cons.
  destruct (negb (is_ref rule_id e)); [apply IH |].
  destruct found; [reflexivity | apply IH].
Qed.

Lemma exact_sequence_found (i : nat) (c : GrammarExpr) (s : Found) :
  exact_sequence rule_id i c (fst s) = found_of (detect_sequence rule_id i c s).
Proof.
  destruct c; try reflexivity.
  destruct elements as [| e rest]; [reflexivity |].
  cbn [exact_sequence detect_sequence].
  destruct (ends_with rule_id (e :: rest) && negb (i =? rule_id)); [reflexivity |].
  apply exact_elements_found.
Qed.

Lemma each_found (A : Type) (exact : A -> bool -> Step bool)
    (detect : A -> Found -> Step Found)
    (Hbody : forall x s, exact x (fst s) = found_of (detect x s)) (l : list A) :
  forall s, each exact l (fst s) = found_of (each detect l s).
Proof.
  induction l as [| x rest IH]; intros s; [reflexivity |].
  cbn [each]. rewrite Hbody.
  destruct (detect x s) as [s' | |]; cbn [found_of]; [apply IH | reflexivity | reflexivity].
Qed.

Lemma exact_rule_found (ir : nat * Rule) (s : Found) :
  exact_rule rule_id ir (fst s) = found_of (detect_rule rule_id ir s).
Proof.
  unfold exact_rule, detect_rule.
  destruct (body_expr (snd ir)) as [body |]; [| reflexivity].
  destruct body; try reflexivity.
  - apply each_found. intros x s'. apply exact_sequence_found.
  - destruct (dispatches_to rule_id tag_dispatch); reflexivity.
Qed.

Lemma IsExact_true (rules : list Rule) :
  IsExactLookaheadAssertion rules rule_id = Some true <->
  (exists rule la, nth_error rules rule_id = Some rule /\
                   lookahead_assertion rule = Some la) /\
  Forall (rule_allows rule_id) (indexed rules) /\ uses rule_id rules = 1.
Proof.
  unfold IsExactLookaheadAssertion.
  change false with (fst (false, @nil GrammarExpr)).
  rewrite (@each_found _ (exact_rule rule_id) (detect_rule rule_id) exact_rule_found).
  destruct (nth_error rules rule_id) as [rule |];
    [| split; [discriminate | intros ((? & ? & [=] & _) & _)]].
  destruct (lookahead_assertion rule) as [la |] eqn:Hla;
    [| split; [discriminate | intros ((? & ? & [= <-] & Hsome) & _); congruence]].
  destruct (each (detect_rule rule_id) (indexed rules) (false, [])) as [[found seq] | |] eqn:E;
    cbn [found_of fst].
  - apply detect_rules_spec in E. destruct E as (Hall & Hle & E). injection E as -> ->.
    destruct (uses rule_id rules) as [| [| n]] eqn:Huses; cbn [Nat.ltb Nat.leb].
    + split; [discriminate | intros (_ & _ & [=])].
    + split; [| reflexivity]. intros _.
      split; [exists rule, la; split; [reflexivity | assumption] |].
      split; [assumption | reflexivity].
    + lia.
  - split; [discriminate |]. intros (_ & Hall & Hone).
    assert (Hnext : exists r, each (detect_rule rule_id) (indexed rules) (false, []) = Next r).
    { eexists. apply detect_rules_spec. split; [eassumption |]. split; [lia | reflexivity]. }
    destruct Hnext as (r & Hnext). congruence.
  - split; [discriminate |]. intros (_ & Hall & Hone).
    assert (Hnext : exists r, each (detect_rule rule_id) (indexed rules) (false, []) = Next r).
    { eexists. apply detect_rules_spec. split; [eassumption |]. split; [lia | reflexivity]. }
    destruct Hnext as (r & Hnext). congruence.
Qed.

End LookaheadScans.

(** X25: [DetectLookaheadAssertion] returns a look-ahead for a rule
    exactly when every body of the table is a tag dispatch without a pair
    for the rule or a choices whose sequences are non-empty and, in the
    other rules, do not end with a reference to the rule, and the rule is
    referred to exactly once before the last element of a sequence. *)
Theorem DetectLookaheadAssertion_finds_iff (rules : list Rule) (rule_id : nat) :
  (exists la, DetectLookaheadAssertion rules rule_id = Some (Some la)) <->
  Forall (rule_allows rule_id) (indexed rules) /\ uses rule_id rules = 1.
Proof.
  split.
  - intros (la & Hrun). apply Detect_finds in Hrun.
    destruct Hrun as (Hall & Hone & _). split; assumption.
  - intros (Hall & Hone). eexists. apply Detect_finds.
    split; [eassumption |]. split; [assumption | reflexivity].
Qed.

(** X26: the look-ahead that [DetectLookaheadAssertion] returns is the
    sequence of the elements that follow a reference to the rule in a
    choice of some rule; it is not empty. *)
Theorem DetectLookaheadAssertion_returns_what_follows (rules : list Rule) (rule_id : nat)
    (la : GrammarExpr) :
  DetectLookaheadAssertion rules rule_id = Some (Some la) ->
  exists i rule children before following,
    nth_error rules i = Some rule /\
    body_expr rule = Some (kChoices children) /\
    In (kSequence (before ++ kRuleRef rule_id :: following)) children /\
    following <> [] /\
    la = kSequence following.
Proof.
  intros Hrun. apply Detect_finds in Hrun. destruct Hrun as (_ & Hone & ->).
  destruct (@one_use_in_rules rule_id rules Hone)
    as (i & rule & children & before & following & Hnth & Hbody & Hin & Hne & Heq).
  exists i, rule, children, before, following. rewrite Heq.
  repeat (split; [assumption |]). reflexivity.
Qed.

Lemma DetectLookaheadAssertion_returns_what_follows_witness :
  exists i rule children before following,
    nth_error list_rules i = Some rule /\
    body_expr rule = Some (kChoices children) /\
    In (kSequence (before ++ kRuleRef 1 :: following)) children /\
    following <> [] /\
    kSequence [AddByteString ","; kRuleRef 2] = kSequence following.
Proof.
  apply (@DetectLookaheadAssertion_returns_what_follows list_rules 1
           (kSequence [AddByteString ","; kRuleRef 2])).
  reflexivity.
Defined.

(** X27: [IsExactLookaheadAssertion] answers true for a rule with a
    look-ahead exactly under the condition under which
    [DetectLookaheadAssertion] returns one: the bodies are as the scan
    expects, no tag dispatch has a pair for the rule, no sequence of
    another rule ends with a reference to it, and it is referred to
    exactly once before the last element of a sequence.  What the given
    look-ahead is plays no part. *)
Theorem IsExactLookaheadAssertion_true_iff (rules : list Rule) (rule_id : nat) :
  IsExactLookaheadAssertion rules rule_id = Some true <->
  (exists rule la, nth_error rules rule_id = Some rule /\
                   lookahead_assertion rule = Some la) /\
  Forall (rule_allows rule_id) (indexed rules) /\ uses rule_id rules = 1.
Proof.
  apply IsExact_true.
Qed.
